(** * Slimline Tactical: grid, combat and turn rules

    A shallow embedding of the tactical core of the game (shared/utils.js,
    game/grid.js, game/combat.js, game/units.js, game/turns.js) together
    with the properties stated about it.

    Conventions of the embedding.
    - Grid coordinates, hit points, action points and path costs are JS
      numbers that only ever hold integers; they are modelled in [Z].
    - Accuracies, bonuses, penalties, hit chances, rolls and scores are
      JS numbers that hold fractions; they are IEEE 754 binary64 values,
      modelled by the primitive type [float] with its operations: [0.7]
      is the double nearest to 7/10, and [0.7 + -0.25] is
      [0.44999999999999996].
    - A JS object reference to a unit is a [UnitRef]; the session maps
      each reference to the object behind it, and a mutation of a unit is
      an update of that map at the reference, so that every holder of
      the reference sees it.  [UnitManager.units] is the list of
      references in creation order.
    - [tiles[col][row]] is populated by the constructor for every in
      bounds coordinate and only read after the bounds check of
      [getTile]; it is modelled as a total function guarded by that check.
    - [while] loops run on fuel and return [None] when it runs out;
      each is proved to end within the fuel it is given: the traced line
      in [dx + dy] passes, the two breadth-first searches and the path
      reconstruction within one pass per tile of the grid.
    - Rendering, animation, camera, VFX, UI and event emission do not
      feed back into the rules and are left out. *)

From Stdlib Require Import Floats.
From Stdlib Require Uint63.
From Stdlib Require Import String ZArith List Sorted Permutation Bool Lia Arith.
Import ListNotations.
Local Open Scope Z_scope.
Set Warnings "-inexact-float".

Set Implicit Arguments.

(* ================================================================== *)
(** * shared/constants.js *)
(* ================================================================== *)

Module CONSTANTS.

Definition TILE_SIZE : float := 2.0%float.

(* UNIT_STATS *)
Definition hp : Z := 10.
Definition ap : Z := 2.
Definition movement : Z := 4.
Definition rangedDamage : Z := 4.
Definition meleeDamage : Z := 5.
Definition rangedAccuracy : float := 0.70%float.
Definition meleeAccuracy : float := 0.85%float.
Definition rangedRange : Z := 8.
Definition meleeRange : Z := 1.

(* COVER_BONUS *)
Definition COVER_BONUS_half : float := (-0.25)%float.
Definition COVER_BONUS_full : float := (-0.50)%float.

Definition FLANKING_BONUS : float := 0.15%float.
Definition MIN_HIT_CHANCE : float := 0.05%float.
Definition MAX_HIT_CHANCE : float := 0.95%float.

(* OVERWATCH *)
Definition OVERWATCH_range : Z := 8.

End CONSTANTS.

(** UNIT_STATUS *)
Inductive UnitStatus := READY | ACTIVATED | OVERWATCH | HUNKERED | DEAD.

(** GAME_PHASES *)
Inductive GamePhase :=
| LOADING | PLAYER_SELECT_UNIT | PLAYER_MOVEMENT | PLAYER_ACTION
| PLAYER_TARGET_SELECT | COMBAT_ANIMATION | AI_THINKING | AI_ACTING
| TURN_TRANSITION | GAME_OVER.

(** FACTIONS: the two faction ids. *)
Inductive Faction := orderOfTheAbyss | germani.

Definition status_eqb (a b : UnitStatus) : bool :=
  match a, b with
  | READY, READY | ACTIVATED, ACTIVATED | OVERWATCH, OVERWATCH
  | HUNKERED, HUNKERED | DEAD, DEAD => true
  | _, _ => false
  end.

Definition faction_eqb (a b : Faction) : bool :=
  match a, b with
  | orderOfTheAbyss, orderOfTheAbyss | germani, germani => true
  | _, _ => false
  end.

Definition phase_eqb (a b : GamePhase) : bool :=
  match a, b with
  | LOADING, LOADING | PLAYER_SELECT_UNIT, PLAYER_SELECT_UNIT
  | PLAYER_MOVEMENT, PLAYER_MOVEMENT | PLAYER_ACTION, PLAYER_ACTION
  | PLAYER_TARGET_SELECT, PLAYER_TARGET_SELECT
  | COMBAT_ANIMATION, COMBAT_ANIMATION | AI_THINKING, AI_THINKING
  | AI_ACTING, AI_ACTING | TURN_TRANSITION, TURN_TRANSITION
  | GAME_OVER, GAME_OVER => true
  | _, _ => false
  end.

(* ================================================================== *)
(** * shared/utils.js: grid math *)
(* ================================================================== *)

(** A [{col, row}] object. *)
Record Pos := mkPos { col : Z; row : Z }.

Definition pos_eqb (a b : Pos) : bool :=
  (col a =? col b) && (row a =? row b).

(** [tileDistance]: Chebyshev distance. *)
Definition tileDistance (a b : Pos) : Z :=
  Z.max (Z.abs (col a - col b)) (Z.abs (row a - row b)).

(** One pass through the body of the [while (true)] of [bresenhamLine],
    taken when the current point is not the end point: the new point and
    error term. *)
Definition bresenham_step (dx dy sx sy : Z) (x0 y0 err : Z) : Z * Z * Z :=
  let e2 := 2 * err in
  let '(err1, x0') := if e2 >? - dy then (err - dy, x0 + sx) else (err, x0) in
  let '(err2, y0') := if e2 <? dx then (err1 + dx, y0 + sy) else (err1, y0) in
  (x0', y0', err2).

Fixpoint bresenham_loop (fuel : nat) (x1 y1 dx dy sx sy : Z)
         (x0 y0 err : Z) (tiles : list Pos) : option (list Pos) :=
  if (x0 =? x1) && (y0 =? y1) then Some tiles
  else
    match fuel with
    | O => None
    | S fuel' =>
        let '(x0', y0', err') := bresenham_step dx dy sx sy x0 y0 err in
        bresenham_loop fuel' x1 y1 dx dy sx sy x0' y0' err'
                       (tiles ++ [mkPos x0' y0'])
    end.

(** [bresenhamLine] with an explicit iteration budget. *)
Definition bresenhamLine_fuel (fuel : nat) (start end_ : Pos) : option (list Pos) :=
  let x0 := col start in
  let y0 := row start in
  let x1 := col end_ in
  let y1 := row end_ in
  let dx := Z.abs (x1 - x0) in
  let dy := Z.abs (y1 - y0) in
  let sx := if x0 <? x1 then 1 else -1 in
  let sy := if y0 <? y1 then 1 else -1 in
  bresenham_loop fuel x1 y1 dx dy sx sy x0 y0 (dx - dy) [].

(** The loop makes at most [dx + dy] passes ([bresenhamLine_total]). *)
Definition bresenham_budget (start end_ : Pos) : nat :=
  Z.to_nat (Z.abs (col end_ - col start) + Z.abs (row end_ - row start)).

(** [bresenhamLine]: the tiles the line passes through, excluding start. *)
Definition bresenhamLine (start end_ : Pos) : list Pos :=
  match bresenhamLine_fuel (bresenham_budget start end_) start end_ with
  | Some tiles => tiles
  | None => []
  end.

(** The [(dc, dr)] pairs in the order the two nested loops of
    [getNeighbors] visit them, [(0, 0)] skipped. *)
Definition neighborOffsets : list (Z * Z) :=
  [(-1, -1); (-1, 0); (-1, 1); (0, -1); (0, 1); (1, -1); (1, 0); (1, 1)].

Definition inBounds (gridWidth gridHeight : Z) (c r : Z) : bool :=
  (c >=? 0) && (c <? gridWidth) && (r >=? 0) && (r <? gridHeight).

(** [getNeighbors]: the up to 8 in-bounds neighbours. *)
Definition getNeighbors (c r gridWidth gridHeight : Z) : list Pos :=
  filter (fun n => inBounds gridWidth gridHeight (col n) (row n))
         (map (fun d => mkPos (c + fst d) (r + snd d)) neighborOffsets).

Definition sign (d : Z) : Z :=
  if d =? 0 then 0 else if d >? 0 then 1 else -1.

(** [getTileDirection]: direction normalised to -1, 0, 1 per component. *)
Definition getTileDirection (from to : Pos) : Pos :=
  mkPos (sign (col to - col from)) (sign (row to - row from)).

(** ** JS numbers *)

(** The double of an integer-valued number held in [Z] (exact below
    2^53, which every count, coordinate and point total of a session
    is). *)
Definition Number (z : Z) : float :=
  match z with
  | Z0 => 0%float
  | Zpos _ => PrimFloat.of_uint63 (Uint63.of_Z z)
  | Zneg q => (- PrimFloat.of_uint63 (Uint63.of_Z (Zpos q)))%float
  end.

(** [a > b] on numbers. *)
Definition gtb (a b : float) : bool := (b <? a)%float.

(** [Math.max] and [Math.min] of two numbers: [NaN] if either is, and
    [+0] above [-0]. *)
Definition Math_max (a b : float) : float :=
  if PrimFloat.is_nan a || PrimFloat.is_nan b then PrimFloat.nan
  else if (a <? b)%float then b
  else if (b <? a)%float then a
  else if PrimFloat.get_sign a then b else a.

Definition Math_min (a b : float) : float :=
  if PrimFloat.is_nan a || PrimFloat.is_nan b then PrimFloat.nan
  else if (a <? b)%float then a
  else if (b <? a)%float then b
  else if PrimFloat.get_sign a then a else b.

(** [Math.floor] of a finite number, as an integer ([0] stands for the
    [NaN] and infinities no coordinate of a session is). *)
Definition Math_floor (x : float) : Z :=
  match Prim2SF x with
  | S754_finite s m e =>
      let v := if s then Zneg m else Zpos m in
      if 0 <=? e then v * 2 ^ e else v / 2 ^ (- e)
  | _ => 0
  end.

(** [clamp(value, min, max) = Math.max(min, Math.min(max, value))]. *)
Definition clamp (value min max : float) : float :=
  Math_max min (Math_min max value).

(* ================================================================== *)
(** * game/grid.js: GridManager *)
(* ================================================================== *)

Inductive CoverType := CoverNone | CoverHalf | CoverFull.

(** The [coverType] field of a [checkLOS] result: a cover tier, or the
    ['blocked'] marker. *)
Inductive LosCover := LosCoverOf (c : CoverType) | LosBlocked.

(** A reference to a unit object. *)
Definition UnitRef := nat.

(** The simulation fields of a tile ([objectMesh] is presentation). *)
Record Tile := mkTile {
  walkable : bool;
  tileCover : CoverType;
  coverDirection : option Pos;
  objectType : option string;
  occupant : option UnitRef;
  spawnZone : option Faction
}.

Record GridManager := mkGrid {
  gridWidth : Z;
  gridHeight : Z;
  tiles : Z -> Z -> Tile
}.

(** JS truthiness of [tile.objectType]: [null] and the empty string are
    falsy. *)
Definition hasObject (t : Tile) : bool :=
  match objectType t with
  | None => false
  | Some EmptyString => false
  | Some _ => true
  end.

Definition isFull (c : CoverType) : bool :=
  match c with CoverFull => true | _ => false end.
Definition isHalf (c : CoverType) : bool :=
  match c with CoverHalf => true | _ => false end.

Definition getTile (g : GridManager) (c r : Z) : option Tile :=
  if (c <? 0) || (c >=? gridWidth g) || (r <? 0) || (r >=? gridHeight g)
  then None
  else Some (tiles g c r).

Definition updTile (g : GridManager) (c r : Z) (f : Tile -> Tile) : GridManager :=
  mkGrid (gridWidth g) (gridHeight g)
         (fun c' r' => if (c' =? c) && (r' =? r) then f (tiles g c' r')
                       else tiles g c' r').

Definition withOccupant (o : option UnitRef) (t : Tile) : Tile :=
  mkTile (walkable t) (tileCover t) (coverDirection t) (objectType t) o
         (spawnZone t).

Definition setOccupant (g : GridManager) (c r : Z) (u : UnitRef) : GridManager :=
  match getTile g c r with
  | Some _ => updTile g c r (withOccupant (Some u))
  | None => g
  end.

Definition clearOccupant (g : GridManager) (c r : Z) : GridManager :=
  match getTile g c r with
  | Some _ => updTile g c r (withOccupant None)
  | None => g
  end.

(** [setObject]: placing an object sets the cover tier and, for a tier
    other than none, makes the tile non-walkable. *)
Definition setObject (g : GridManager) (c r : Z) (objectType_ : string)
           (coverType_ : CoverType) : GridManager :=
  match getTile g c r with
  | Some _ =>
      updTile g c r
              (fun t => mkTile (match coverType_ with
                                | CoverNone => walkable t
                                | _ => false
                                end)
                               coverType_ (coverDirection t) (Some objectType_)
                               (occupant t) (spawnZone t))
  | None => g
  end.

Definition isSome {A} (o : option A) : bool :=
  match o with Some _ => true | None => false end.

Definition isWalkable (g : GridManager) (c r : Z) : bool :=
  match getTile g c r with
  | None => false
  | Some tile => walkable tile && negb (isSome (occupant tile))
  end.

Definition isWalkableIgnoreOccupant (g : GridManager) (c r : Z) : bool :=
  match getTile g c r with
  | None => false
  | Some tile => walkable tile
  end.

(** ** Movement range (BFS flood fill) *)

(** An entry [{col, row, cost}] of the movement queue and result. *)
Record RangeNode := mkNode { ntile : Pos; cost : Z }.

(** The [visited] set holds the keys [`${col},${row}`]; the key of a tile
    with integer coordinates determines the tile, so the set is modelled
    as the tiles added, newest first. *)
Definition visitedHas (visited : list Pos) (p : Pos) : bool :=
  existsb (pos_eqb p) visited.

(** The tests a not yet visited [neighbor] of [current] passes in
    [getMovementRange] before it is enqueued: it is walkable and, for a
    diagonal step, both cardinal neighbours are walkable ignoring
    occupants. *)
Definition rangeAdmits (g : GridManager) (current neighbor : Pos) : bool :=
  if negb (isWalkable g (col neighbor) (row neighbor)) then false
  else
    let dc := col neighbor - col current in
    let dr := row neighbor - row current in
    if negb (dc =? 0) && negb (dr =? 0) then
      if negb (isWalkableIgnoreOccupant g (col current + dc) (row current))
         || negb (isWalkableIgnoreOccupant g (col current) (row current + dr))
      then false
      else true
    else true.

(** The body of [for (const neighbor of neighbors)] in [getMovementRange],
    on the pair (visited, queue). *)
Definition rangeVisit (g : GridManager) (current : RangeNode)
           (st : list Pos * list RangeNode) (neighbor : Pos)
  : list Pos * list RangeNode :=
  let '(visited, queue) := st in
  if visitedHas visited neighbor then st
  else if rangeAdmits g (ntile current) neighbor then
    (neighbor :: visited, queue ++ [mkNode neighbor (cost current + 1)])
  else st.

Fixpoint range_loop (fuel : nat) (g : GridManager) (moveRange : Z)
         (queue : list RangeNode) (visited : list Pos)
         (reachable : list RangeNode) {struct fuel} : option (list RangeNode) :=
  match queue with
  | [] => Some reachable
  | current :: rest =>
      match fuel with
      | O => None
      | S fuel' =>
          let reachable' :=
            if cost current >? 0 then reachable ++ [current] else reachable in
          if cost current >=? moveRange then
            range_loop fuel' g moveRange rest visited reachable'
          else
            let neighbors :=
              getNeighbors (col (ntile current)) (row (ntile current))
                           (gridWidth g) (gridHeight g) in
            let '(visited', queue') :=
              fold_left (rangeVisit g current) neighbors (visited, rest) in
            range_loop fuel' g moveRange queue' visited' reachable'
      end
  end.

Definition getMovementRange_fuel (fuel : nat) (g : GridManager)
           (startCol startRow moveRange : Z) : option (list RangeNode) :=
  let start := mkPos startCol startRow in
  range_loop fuel g moveRange [mkNode start 0] [start] [].

(** Every tile is dequeued at most once: the start tile and each in
    bounds tile ([getMovementRange_total]). *)
Definition gridBudget (g : GridManager) : nat :=
  S (Z.to_nat (gridWidth g) * Z.to_nat (gridHeight g)).

Definition getMovementRange (g : GridManager) (startCol startRow moveRange : Z)
  : list RangeNode :=
  match getMovementRange_fuel (gridBudget g) g startCol startRow moveRange with
  | Some reachable => reachable
  | None => []
  end.

(** ** Path search (BFS) *)

(** [cameFrom] is a [Map] from key to key: an association list, newest
    binding first, read at the first match. *)
Fixpoint cameFromGet (cameFrom : list (Pos * Pos)) (k : Pos) : option Pos :=
  match cameFrom with
  | [] => None
  | (k', v) :: rest => if pos_eqb k k' then Some v else cameFromGet rest k
  end.

(** The tests a not yet visited [neighbor] of [current] passes in
    [_findPathBFS] before it is recorded. *)
Definition pathAdmits (g : GridManager) (end_ : Pos)
           (allowDestinationOccupied : bool) (current neighbor : Pos) : bool :=
  let isDestination := (col neighbor =? col end_) && (row neighbor =? row end_) in
  let walkable_ :=
    if isDestination && allowDestinationOccupied
    then isWalkableIgnoreOccupant g (col neighbor) (row neighbor)
    else isWalkable g (col neighbor) (row neighbor) in
  if negb walkable_ then false
  else
    let dc := col neighbor - col current in
    let dr := row neighbor - row current in
    if negb (dc =? 0) && negb (dr =? 0) then
      if negb (isWalkableIgnoreOccupant g (col current + dc) (row current))
         || negb (isWalkableIgnoreOccupant g (col current) (row current + dr))
      then false
      else true
    else true.

Record PathState := mkPathState {
  pqueue : list Pos;
  pvisited : list Pos;
  cameFrom : list (Pos * Pos);
  found : bool
}.

(** The [for (const neighbor of neighbors)] of [_findPathBFS]; it stops
    at the [break] taken once the destination is recorded. *)
Fixpoint pathScan (g : GridManager) (end_ : Pos) (allow : bool) (current : Pos)
         (neighbors : list Pos) (st : PathState) : PathState :=
  match neighbors with
  | [] => st
  | neighbor :: more =>
      if visitedHas (pvisited st) neighbor then pathScan g end_ allow current more st
      else if negb (pathAdmits g end_ allow current neighbor)
      then pathScan g end_ allow current more st
      else
        let visited' := neighbor :: pvisited st in
        let cameFrom' := (neighbor, current) :: cameFrom st in
        if (col neighbor =? col end_) && (row neighbor =? row end_) then
          mkPathState (pqueue st) visited' cameFrom' true
        else
          pathScan g end_ allow current more
                   (mkPathState (pqueue st ++ [neighbor]) visited' cameFrom' false)
  end.

(** The [while (queue.length > 0 && !found)] of [_findPathBFS]. *)
Fixpoint path_loop (fuel : nat) (g : GridManager) (end_ : Pos) (allow : bool)
         (st : PathState) {struct fuel} : option PathState :=
  if found st then Some st
  else
    match pqueue st with
    | [] => Some st
    | current :: rest =>
        match fuel with
        | O => None
        | S fuel' =>
            if (col current =? col end_) && (row current =? row end_) then
              Some (mkPathState rest (pvisited st) (cameFrom st) true)
            else
              let neighbors :=
                getNeighbors (col current) (row current)
                             (gridWidth g) (gridHeight g) in
              path_loop fuel' g end_ allow
                        (pathScan g end_ allow current neighbors
                                  (mkPathState rest (pvisited st) (cameFrom st)
                                               false))
        end
    end.

(** The [while (currentKey !== startKey)] that rebuilds the path; the
    inner [option] is the function's own [null]. *)
Fixpoint rebuild_loop (fuel : nat) (cameFrom : list (Pos * Pos)) (start : Pos)
         (currentKey : Pos) (path : list Pos) : option (option (list Pos)) :=
  if pos_eqb currentKey start then Some (Some path)
  else
    match fuel with
    | O => None
    | S fuel' =>
        let path' := currentKey :: path in
        match cameFromGet cameFrom currentKey with
        | None => Some None
        | Some prev => rebuild_loop fuel' cameFrom start prev path'
        end
    end.

(** [_findPathBFS].  The coordinates are integers, so the [Number] and
    [Number.isFinite] guards pass.  The outer [option] is [None] when the
    fuel runs out; the inner one is the function's result, [None] for
    [null]. *)
Definition _findPathBFS (fuel : nat) (g : GridManager) (start end_ : Pos)
           (allowDestinationOccupied : bool) : option (option (list Pos)) :=
  let startCol := col start in
  let startRow := row start in
  let endCol := col end_ in
  let endRow := row end_ in
  if (startCol =? endCol) && (startRow =? endRow) then Some (Some [])
  else
    let destinationWalkable :=
      if allowDestinationOccupied
      then isWalkableIgnoreOccupant g endCol endRow
      else isWalkable g endCol endRow in
    if negb destinationWalkable then Some None
    else
      match path_loop fuel g end_ allowDestinationOccupied
                      (mkPathState [start] [start] [] false) with
      | None => None
      | Some st =>
          if negb (found st) then Some None
          else rebuild_loop fuel (cameFrom st) start end_ []
      end.

Definition findPath (fuel : nat) (g : GridManager) (start end_ : Pos) :=
  _findPathBFS fuel g start end_ false.

Definition findPathAllowDestination (fuel : nat) (g : GridManager)
           (start end_ : Pos) :=
  _findPathBFS fuel g start end_ true.

(** ** Line of sight and cover *)

Record CoverResult := mkCoverResult {
  coverResultType : CoverType;
  penalty : float
}.

Record LosResult := mkLosResult {
  clear : bool;
  coverPenalty : float;
  coverType : LosCover
}.

(** The tiles [getCoverBetween] inspects, in the order it pushes them. *)
Definition coverCheckPositions (attackerTile targetTile : Pos) : list Pos :=
  let dir := getTileDirection attackerTile targetTile in
  (if negb (col dir =? 0)
   then [mkPos (col targetTile - col dir) (row targetTile)] else [])
  ++ (if negb (row dir =? 0)
      then [mkPos (col targetTile) (row targetTile - row dir)] else [])
  ++ (if negb (col dir =? 0) && negb (row dir =? 0)
      then [mkPos (col targetTile - col dir) (row targetTile - row dir)] else []).

(** One pass of [for (const pos of checkPositions)] on
    (bestCover, bestPenalty). *)
Definition coverStep (g : GridManager) (best : CoverResult) (pos : Pos)
  : CoverResult :=
  match getTile g (col pos) (row pos) with
  | None => best
  | Some tile =>
      if isFull (tileCover tile) && hasObject tile then
        if gtb (PrimFloat.abs CONSTANTS.COVER_BONUS_full)
               (PrimFloat.abs (penalty best))
        then mkCoverResult CoverFull CONSTANTS.COVER_BONUS_full
        else best
      else if isHalf (tileCover tile) && hasObject tile then
        if gtb (PrimFloat.abs CONSTANTS.COVER_BONUS_half)
               (PrimFloat.abs (penalty best))
        then mkCoverResult CoverHalf CONSTANTS.COVER_BONUS_half
        else best
      else best
  end.

Definition getCoverBetween (g : GridManager) (attackerTile targetTile : Pos)
  : CoverResult :=
  fold_left (coverStep g) (coverCheckPositions attackerTile targetTile)
            (mkCoverResult CoverNone 0%float).

(** The test [checkLOS] makes on a traced tile: not the target tile, in
    bounds, full cover and an object placed. *)
Definition losBlockedAt (g : GridManager) (toCol toRow : Z) (lt : Pos) : bool :=
  if (col lt =? toCol) && (row lt =? toRow) then false
  else
    match getTile g (col lt) (row lt) with
    | None => false
    | Some tile => isFull (tileCover tile) && hasObject tile
    end.

Definition checkLOS (g : GridManager) (fromCol fromRow toCol toRow : Z)
  : LosResult :=
  let start := mkPos fromCol fromRow in
  let end_ := mkPos toCol toRow in
  let lineTiles := bresenhamLine start end_ in
  if existsb (losBlockedAt g toCol toRow) lineTiles then
    mkLosResult false 0%float LosBlocked
  else
    let coverResult := getCoverBetween g start end_ in
    mkLosResult true (penalty coverResult)
                (LosCoverOf (coverResultType coverResult)).

(** [checkFlanking]; [targetFacing] may be [null]. *)
Definition checkFlanking (attackerTile targetTile : Pos)
           (targetFacing : option Pos) : bool :=
  match targetFacing with
  | None => false
  | Some f =>
      let toAttacker := getTileDirection targetTile attackerTile in
      let dot := col f * col toAttacker + row f * row toAttacker in
      dot <=? 0
  end.

(* ================================================================== *)
(** * game/units.js: UnitManager *)
(* ================================================================== *)

(** The simulation fields of a unit object (model, mixer, animation and
    movement-interpolation fields are presentation). *)
Record Unit := mkUnit {
  faction : Faction;
  tile : Pos;
  hp : Z;
  maxHp : Z;
  ap : Z;
  maxAp : Z;
  activated : bool;
  alive : bool;
  status : UnitStatus;
  facing : Pos;
  overwatchCone : option Pos
}.

Definition withTile (v : Pos) (u : Unit) : Unit :=
  mkUnit (faction u) v (hp u) (maxHp u) (ap u) (maxAp u) (activated u)
         (alive u) (status u) (facing u) (overwatchCone u).
Definition withHp (v : Z) (u : Unit) : Unit :=
  mkUnit (faction u) (tile u) v (maxHp u) (ap u) (maxAp u) (activated u)
         (alive u) (status u) (facing u) (overwatchCone u).
Definition withAp (v : Z) (u : Unit) : Unit :=
  mkUnit (faction u) (tile u) (hp u) (maxHp u) v (maxAp u) (activated u)
         (alive u) (status u) (facing u) (overwatchCone u).
Definition withActivated (v : bool) (u : Unit) : Unit :=
  mkUnit (faction u) (tile u) (hp u) (maxHp u) (ap u) (maxAp u) v
         (alive u) (status u) (facing u) (overwatchCone u).
Definition withAlive (v : bool) (u : Unit) : Unit :=
  mkUnit (faction u) (tile u) (hp u) (maxHp u) (ap u) (maxAp u) (activated u)
         v (status u) (facing u) (overwatchCone u).
Definition withStatus (v : UnitStatus) (u : Unit) : Unit :=
  mkUnit (faction u) (tile u) (hp u) (maxHp u) (ap u) (maxAp u) (activated u)
         (alive u) v (facing u) (overwatchCone u).
Definition withFacing (v : Pos) (u : Unit) : Unit :=
  mkUnit (faction u) (tile u) (hp u) (maxHp u) (ap u) (maxAp u) (activated u)
         (alive u) (status u) v (overwatchCone u).
Definition withOverwatchCone (v : option Pos) (u : Unit) : Unit :=
  mkUnit (faction u) (tile u) (hp u) (maxHp u) (ap u) (maxAp u) (activated u)
         (alive u) (status u) (facing u) v.

(** The session: the grid, the unit objects, and the fields of
    [gameState] and [TurnManager] the rules read and write.  [units] is
    the array [UnitManager.units] of references in creation order and
    [unit] gives the object behind a reference. *)
Record Game := mkGame {
  grid : GridManager;
  units : list UnitRef;
  unit : UnitRef -> Unit;
  playerFaction : Faction;
  aiFaction : Faction;
  phase : GamePhase;
  activeUnit : option UnitRef;
  activationQueue : list UnitRef;
  currentActivationIndex : nat;
  _selectedMoveTiles : list RangeNode
}.

Definition withGrid (v : GridManager) (st : Game) : Game :=
  mkGame v (units st) (unit st) (playerFaction st) (aiFaction st) (phase st)
         (activeUnit st) (activationQueue st) (currentActivationIndex st)
         (_selectedMoveTiles st).
Definition withUnit (v : UnitRef -> Unit) (st : Game) : Game :=
  mkGame (grid st) (units st) v (playerFaction st) (aiFaction st) (phase st)
         (activeUnit st) (activationQueue st) (currentActivationIndex st)
         (_selectedMoveTiles st).
Definition withPhase (v : GamePhase) (st : Game) : Game :=
  mkGame (grid st) (units st) (unit st) (playerFaction st) (aiFaction st) v
         (activeUnit st) (activationQueue st) (currentActivationIndex st)
         (_selectedMoveTiles st).
Definition withActiveUnit (v : option UnitRef) (st : Game) : Game :=
  mkGame (grid st) (units st) (unit st) (playerFaction st) (aiFaction st)
         (phase st) v (activationQueue st) (currentActivationIndex st)
         (_selectedMoveTiles st).
Definition withActivationQueue (v : list UnitRef) (st : Game) : Game :=
  mkGame (grid st) (units st) (unit st) (playerFaction st) (aiFaction st)
         (phase st) (activeUnit st) v (currentActivationIndex st)
         (_selectedMoveTiles st).
Definition withCurrentActivationIndex (v : nat) (st : Game) : Game :=
  mkGame (grid st) (units st) (unit st) (playerFaction st) (aiFaction st)
         (phase st) (activeUnit st) (activationQueue st) v
         (_selectedMoveTiles st).
Definition withSelectedMoveTiles (v : list RangeNode) (st : Game) : Game :=
  mkGame (grid st) (units st) (unit st) (playerFaction st) (aiFaction st)
         (phase st) (activeUnit st) (activationQueue st)
         (currentActivationIndex st) v.

(** A write through the reference [r]: the object behind [r] becomes
    [f] of itself, every other object is untouched. *)
Definition modify (r : UnitRef) (f : Unit -> Unit) (st : Game) : Game :=
  withUnit (fun r' => if Nat.eqb r' r then f (unit st r') else unit st r') st.

(** [faceTarget]: the model stands on its tile when an attack starts, so
    the signs of the world-space offsets [dx], [dz] are those of the
    column and row offsets. *)
Definition faceTarget (st : Game) (u : UnitRef) (targetTile : Pos) : Game :=
  let dx := col targetTile - col (tile (unit st u)) in
  let dz := row targetTile - row (tile (unit st u)) in
  modify u (withFacing (mkPos (sign dx) (sign dz))) st.

(** [setUnitDead]. *)
Definition setUnitDead (st : Game) (u : UnitRef) : Game :=
  let st := modify u (withAlive false) st in
  let st := modify u (withStatus DEAD) st in
  let st := modify u (withHp 0) st in
  withGrid (clearOccupant (grid st) (col (tile (unit st u)))
                          (row (tile (unit st u)))) st.

(** [applyDamage]: the new state and [killed]. *)
Definition applyDamage (st : Game) (u : UnitRef) (damage : Z) : Game * bool :=
  let st := modify u (withHp (Z.max 0 (hp (unit st u) - damage))) st in
  if hp (unit st u) <=? 0 then (st, true) else (st, false).

(** [setUnitStatus]. *)
Definition setUnitStatus (st : Game) (u : UnitRef) (s : UnitStatus) : Game :=
  modify u (withStatus s) st.

(** The body of the loop of [resetActivations] for one unit. *)
Definition resetActivation (st : Game) (u : UnitRef) : Game :=
  if negb (alive (unit st u)) then st
  else
    let st := modify u (withActivated false) st in
    let st := modify u (withAp (maxAp (unit st u))) st in
    if status_eqb (status (unit st u)) OVERWATCH
       || status_eqb (status (unit st u)) HUNKERED
    then
      let st := modify u (withStatus READY) st in
      modify u (withOverwatchCone None) st
    else st.

(** [resetActivations]. *)
Definition resetActivations (st : Game) : Game :=
  fold_left resetActivation (units st) st.

(** [markActivated]. *)
Definition markActivated (st : Game) (u : UnitRef) : Game :=
  let st := modify u (withActivated true) st in
  if status_eqb (status (unit st u)) READY
  then modify u (withStatus ACTIVATED) st
  else st.

(** [getAliveUnits]. *)
Definition getAliveUnits (st : Game) (factionId : Faction) : list UnitRef :=
  filter (fun u => faction_eqb (faction (unit st u)) factionId
                   && alive (unit st u)) (units st).

(** [getUnactivatedUnits]. *)
Definition getUnactivatedUnits (st : Game) (factionId : Faction) : list UnitRef :=
  filter (fun u => faction_eqb (faction (unit st u)) factionId
                   && alive (unit st u) && negb (activated (unit st u)))
         (units st).

(** The last two entries of a path, [path.slice(-2)], when it has two. *)
Fixpoint lastTwo (path : list Pos) : option (Pos * Pos) :=
  match path with
  | [] => None
  | [_] => None
  | [a; b] => Some (a, b)
  | _ :: rest => lastTwo rest
  end.

(** [moveUnit], [_updateMovement] and [_finishMovement]: the state once
    the movement promise has resolved.  The occupant of the old tile is
    cleared, the unit's tile steps through the path, the final tile gets
    the unit as occupant and, for a path of two or more tiles, the
    facing becomes the last segment. *)
Definition moveUnit (st : Game) (u : UnitRef) (path : list Pos) : Game :=
  match path with
  | [] => st
  | _ :: _ =>
      let st := withGrid (clearOccupant (grid st) (col (tile (unit st u)))
                                        (row (tile (unit st u)))) st in
      let st := fold_left (fun st arrivedTile => modify u (withTile arrivedTile) st)
                          path st in
      let st := withGrid (setOccupant (grid st) (col (tile (unit st u)))
                                      (row (tile (unit st u))) u) st in
      match lastTwo path with
      | Some (a, b) =>
          modify u (withFacing (mkPos (col b - col a) (row b - row a))) st
      | None => st
      end
  end.

(* ================================================================== *)
(** * game/combat.js: CombatSystem *)
(* ================================================================== *)

Inductive AttackType := Ranged | Melee | OtherAttack.

(** The [breakdown] object: a field is [None] while it is not set. *)
Record Breakdown := mkBreakdown {
  base : option float;
  breakdownCoverPenalty : option float;
  breakdownCoverType : option LosCover;
  hunkeredPenalty : option float;
  flankingBonus : option float;
  rangePenalty : option float;
  damage : option Z;
  final : option float
}.

Definition emptyBreakdown : Breakdown :=
  mkBreakdown None None None None None None None None.

(** [calculateHitChance]: [(chance, breakdown)]. *)
Definition calculateHitChance (st : Game) (attacker target : UnitRef)
           (attackType : AttackType) : float * Breakdown :=
  let a := unit st attacker in
  let t := unit st target in
  match attackType with
  | Ranged =>
      let chance := CONSTANTS.rangedAccuracy in
      let los := checkLOS (grid st) (col (tile a)) (row (tile a))
                          (col (tile t)) (row (tile t)) in
      let hasCover := negb (coverPenalty los =? 0)%float in
      let chance := if hasCover then (chance + coverPenalty los)%float else chance in
      let hunkered := status_eqb (status t) HUNKERED && hasCover in
      let chance := if hunkered then (chance + coverPenalty los)%float else chance in
      let flanked := checkFlanking (tile a) (tile t) (Some (facing t)) in
      let chance := if flanked then (chance + CONSTANTS.FLANKING_BONUS)%float
                    else chance in
      let dist := tileDistance (tile a) (tile t) in
      let atRange := dist >=? CONSTANTS.rangedRange - 1 in
      let rangePenalty_ := (-0.05)%float in
      let chance := if atRange then (chance + rangePenalty_)%float else chance in
      let chance := clamp chance CONSTANTS.MIN_HIT_CHANCE
                          CONSTANTS.MAX_HIT_CHANCE in
      (chance,
       mkBreakdown (Some CONSTANTS.rangedAccuracy)
                   (if hasCover then Some (coverPenalty los) else None)
                   (if hasCover then Some (coverType los) else None)
                   (if hunkered then Some (coverPenalty los) else None)
                   (if flanked then Some CONSTANTS.FLANKING_BONUS else None)
                   (if atRange then Some rangePenalty_ else None)
                   (Some CONSTANTS.rangedDamage)
                   (Some chance))
  | Melee =>
      let chance := CONSTANTS.meleeAccuracy in
      let flanked := checkFlanking (tile a) (tile t) (Some (facing t)) in
      let chance := if flanked then (chance + CONSTANTS.FLANKING_BONUS)%float
                    else chance in
      let chance := clamp chance CONSTANTS.MIN_HIT_CHANCE
                          CONSTANTS.MAX_HIT_CHANCE in
      (chance,
       mkBreakdown (Some CONSTANTS.meleeAccuracy) None None None
                   (if flanked then Some CONSTANTS.FLANKING_BONUS else None)
                   None (Some CONSTANTS.meleeDamage) (Some chance))
  | OtherAttack => (0%float, emptyBreakdown)
  end.

Record AttackResult := mkAttackResult {
  hit : bool;
  resultDamage : Z;
  killed : bool
}.

(** [executeAttack]; [roll] is the value drawn from [Math.random()].
    Camera, animation, VFX, UI and event emission are presentation. *)
Definition executeAttack (st : Game) (attacker target : UnitRef)
           (attackType : AttackType) (roll : float) : Game * AttackResult :=
  let '(chance, _) := calculateHitChance st attacker target attackType in
  let st := withPhase COMBAT_ANIMATION st in
  let st := faceTarget st attacker (tile (unit st target)) in
  let hit_ := (roll <=? chance)%float in
  let '(st, damage_, killed_) :=
    if hit_ then
      let damage_ := match attackType with
                     | Ranged => CONSTANTS.rangedDamage
                     | _ => CONSTANTS.meleeDamage
                     end in
      let '(st, killed_) := applyDamage st target damage_ in
      let st := if killed_ then setUnitDead st target else st in
      (st, damage_, killed_)
    else (st, 0, false) in
  let st := modify attacker
                   (withAp (Z.max 0 (ap (unit st attacker) - 1))) st in
  (st, mkAttackResult hit_ damage_ killed_).

(** The tests of the loop body of [checkOverwatch] on one living enemy. *)
Definition overwatchTriggers (st : Game) (toTile : Pos) (enemy : UnitRef) : bool :=
  let e := unit st enemy in
  if negb (status_eqb (status e) OVERWATCH) then false
  else
    let dist := tileDistance (tile e) toTile in
    if dist >? CONSTANTS.OVERWATCH_range then false
    else
      let los := checkLOS (grid st) (col (tile e)) (row (tile e))
                          (col toTile) (row toTile) in
      if negb (clear los) then false
      else
        match overwatchCone e with
        | Some cone =>
            let dx := col toTile - col (tile e) in
            let dz := row toTile - row (tile e) in
            let facingDot := dx * col cone + dz * row cone in
            if facingDot <? 0 then false else true
        | None => true
        end.

(** [checkOverwatch]: the references pushed as [{ overwatchUnit }]. *)
Definition checkOverwatch (st : Game) (movingUnit : UnitRef)
           (fromTile toTile : Pos) : list UnitRef :=
  let enemyFaction :=
    if faction_eqb (faction (unit st movingUnit)) (playerFaction st)
    then aiFaction st else playerFaction st in
  let enemies := getAliveUnits st enemyFaction in
  filter (overwatchTriggers st toTile) enemies.

(** [executeOverwatchShot]. *)
Definition executeOverwatchShot (st : Game) (overwatchUnit triggerUnit : UnitRef)
           (roll : float) : Game * AttackResult :=
  let '(st, result) := executeAttack st overwatchUnit triggerUnit Ranged roll in
  let st := modify overwatchUnit (withStatus ACTIVATED) st in
  let st := modify overwatchUnit (withOverwatchCone None) st in
  (st, result).

(** [setOverwatch]. *)
Definition setOverwatch (st : Game) (u : UnitRef) : Game :=
  let st := modify u (withStatus OVERWATCH) st in
  let st := modify u (withOverwatchCone (Some (facing (unit st u)))) st in
  let st := modify u (withAp (Z.max 0 (ap (unit st u) - 1))) st in
  setUnitStatus st u OVERWATCH.

(** [setHunker]. *)
Definition setHunker (st : Game) (u : UnitRef) : Game :=
  let st := modify u (withStatus HUNKERED) st in
  let st := modify u (withAp (Z.max 0 (ap (unit st u) - 1))) st in
  setUnitStatus st u HUNKERED.

(* ================================================================== *)
(** * game/turns.js: TurnManager *)
(* ================================================================== *)

(** [if (i < list.length) queue.push(list[i])]. *)
Definition pushAt (queue : list UnitRef) (l : list UnitRef) (i : nat)
  : list UnitRef :=
  if Nat.ltb i (length l) then
    match nth_error l i with
    | Some u => queue ++ [u]
    | None => queue
    end
  else queue.

(** [buildActivationQueue]. *)
Definition buildActivationQueue (st : Game) : Game :=
  let playerUnits := getUnactivatedUnits st (playerFaction st) in
  let aiUnits := getUnactivatedUnits st (aiFaction st) in
  let maxLen := Nat.max (length playerUnits) (length aiUnits) in
  withActivationQueue
    (fold_left (fun queue i => pushAt (pushAt queue playerUnits i) aiUnits i)
               (seq 0 maxLen) [])
    st.

(** [_showMovementRange]. *)
Definition _showMovementRange (st : Game) (u : UnitRef) : Game :=
  withSelectedMoveTiles
    (getMovementRange (grid st) (col (tile (unit st u))) (row (tile (unit st u)))
                      CONSTANTS.movement)
    st.

(** [_enterActionPhase]. *)
Definition _enterActionPhase (st : Game) (u : UnitRef) : Game :=
  withPhase PLAYER_ACTION st.

(** [endActivation], up to its final call [this.nextActivation()], which
    hands control to the scheduler for the following unit. *)
Definition endActivation (st : Game) (u : UnitRef) : Game :=
  let st := markActivated st u in
  let st := withActiveUnit None st in
  withCurrentActivationIndex (S (currentActivationIndex st)) st.

(** The inner [for (const trigger of triggers)] of
    [_checkOverwatchAlongPath]; the [n]-th attack of the call draws
    [rng n].  The flag tells that the mover died, which ends both loops. *)
Fixpoint overwatchShots (rng : nat -> float) (n : nat) (st : Game) (u : UnitRef)
         (triggers : list UnitRef) : Game * nat * bool :=
  match triggers with
  | [] => (st, n, false)
  | overwatchUnit :: more =>
      let '(st, _) := executeOverwatchShot st overwatchUnit u (rng n) in
      if negb (alive (unit st u)) then (st, S n, true)
      else overwatchShots rng (S n) st u more
  end.

(** The outer loop of [_checkOverwatchAlongPath] from index [i] on;
    [fromTile] is [unit.tile] at index 0 and [path[i - 1]] after. *)
Fixpoint overwatchAlongPath (rng : nat -> float) (n : nat) (st : Game) (u : UnitRef)
         (fromTile : Pos) (path : list Pos) (triggered : bool)
  : Game * nat * bool :=
  match path with
  | [] => (st, n, triggered)
  | toTile :: more =>
      let triggers := checkOverwatch st u fromTile toTile in
      let '(st, n, died) := overwatchShots rng n st u triggers in
      if died then (st, n, true)
      else
        overwatchAlongPath rng n st u toTile more
                           (triggered || negb (Nat.eqb (length triggers) 0))
  end.

(** [_checkOverwatchAlongPath]. *)
Definition _checkOverwatchAlongPath (rng : nat -> float) (st : Game) (u : UnitRef)
           (path : list Pos) : Game * bool :=
  let '(st, _, triggered) :=
    overwatchAlongPath rng 0 st u (tile (unit st u)) path false in
  (st, triggered).

(** How [onPlayerMoveClick] ends. *)
Inductive MoveOutcome :=
| MoveIgnored          (* no active unit, wrong phase, or tile out of range *)
| MoveNoPath           (* no path: the movement range is shown again *)
| MoveToAction         (* [_enterActionPhase] *)
| MoveEndsActivation.  (* [endActivation] *)

(** [onPlayerMoveClick].  [fuel] bounds the loops of [findPath] (the
    outer [None] is fuel running out) and [rng] supplies the rolls of the
    overwatch shots. *)
Definition onPlayerMoveClick (fuel : nat) (rng : nat -> float) (st : Game)
           (c r : Z) : option (Game * MoveOutcome) :=
  match activeUnit st with
  | None => Some (st, MoveIgnored)
  | Some u =>
      if negb (phase_eqb (phase st) PLAYER_MOVEMENT) then Some (st, MoveIgnored)
      else
        let isValidMove :=
          existsb (fun t => (col (ntile t) =? c) && (row (ntile t) =? r))
                  (_selectedMoveTiles st) in
        if negb isValidMove then Some (st, MoveIgnored)
        else
          match findPath fuel (grid st) (tile (unit st u)) (mkPos c r) with
          | None => None
          | Some None => Some (_showMovementRange st u, MoveNoPath)
          | Some (Some []) => Some (_showMovementRange st u, MoveNoPath)
          | Some (Some path) =>
              let st := modify u (withAp (Z.max 0 (ap (unit st u) - 1))) st in
              let st := withPhase COMBAT_ANIMATION st in
              let st := moveUnit st u path in
              let '(st, _) := _checkOverwatchAlongPath rng st u path in
              if negb (alive (unit st u)) then
                Some (endActivation st u, MoveEndsActivation)
              else if ap (unit st u) >? 0 then
                Some (_enterActionPhase st u, MoveToAction)
              else Some (endActivation st u, MoveEndsActivation)
          end
  end.

(* ================================================================== *)
(** * The rest of the rules: world coordinates, targets, actions, turns *)
(* ================================================================== *)

(** A world position [{x, y, z}]; the grid lies on the XZ plane. *)
Record WorldPos := mkWorldPos { wx : float; wy : float; wz : float }.

(** [tileToWorld]: the centre of a tile. *)
Definition tileToWorld (c r : Z) (tileSize : float) : WorldPos :=
  mkWorldPos (Number c * tileSize + tileSize * 0.5)%float 0%float
             (Number r * tileSize + tileSize * 0.5)%float.

(** [worldToTile]: [Math.floor] of each coordinate over the tile size. *)
Definition worldToTile (x z tileSize : float) : Pos :=
  mkPos (Math_floor (x / tileSize)%float) (Math_floor (z / tileSize)%float).

(** [tilesInRange]: the two nested loops over the square around the
    origin, column by column. *)
Definition tilesInRange (origin : Pos) (range gridWidth_ gridHeight_ : Z)
  : list Pos :=
  let span := map (fun i => Z.of_nat i - range)
                  (seq 0 (Z.to_nat (2 * range + 1))) in
  flat_map
    (fun dc =>
       flat_map
         (fun dr =>
            let c := col origin + dc in
            let r := row origin + dr in
            if (c <? 0) || (c >=? gridWidth_) || (r <? 0) || (r >=? gridHeight_)
            then []
            else if (c =? col origin) && (r =? row origin) then []
            else if tileDistance origin (mkPos c r) <=? range
                 then [mkPos c r] else [])
         span)
    span.

(** [getValidRangedTargets]. *)
Definition getValidRangedTargets (st : Game) (u : UnitRef) : list UnitRef :=
  let enemyFaction :=
    if faction_eqb (faction (unit st u)) (playerFaction st)
    then aiFaction st else playerFaction st in
  let enemies := getAliveUnits st enemyFaction in
  filter
    (fun enemy =>
       let dist := tileDistance (tile (unit st u)) (tile (unit st enemy)) in
       if dist >? CONSTANTS.rangedRange then false
       else
         clear (checkLOS (grid st)
                         (col (tile (unit st u))) (row (tile (unit st u)))
                         (col (tile (unit st enemy))) (row (tile (unit st enemy)))))
    enemies.

(** [getValidMeleeTargets]. *)
Definition getValidMeleeTargets (st : Game) (u : UnitRef) : list UnitRef :=
  let enemyFaction :=
    if faction_eqb (faction (unit st u)) (playerFaction st)
    then aiFaction st else playerFaction st in
  let enemies := getAliveUnits st enemyFaction in
  filter
    (fun enemy =>
       tileDistance (tile (unit st u)) (tile (unit st enemy))
       <=? CONSTANTS.meleeRange)
    enemies.

(** [getValidTargets]. *)
Definition getValidTargets (st : Game) (u : UnitRef) (attackType : AttackType)
  : list UnitRef :=
  match attackType with
  | Ranged => getValidRangedTargets st u
  | Melee => getValidMeleeTargets st u
  | OtherAttack => []
  end.

Record AvailableActions := mkActions {
  canShoot : bool;
  canMelee : bool;
  canOverwatch : bool;
  canHunker : bool
}.

(** [getAvailableActions]; the unit argument may be [null]. *)
Definition getAvailableActions (st : Game) (u : option UnitRef)
  : AvailableActions :=
  match u with
  | None => mkActions false false false false
  | Some u =>
      if negb (alive (unit st u)) || (ap (unit st u) <=? 0)
      then mkActions false false false false
      else
        let rangedTargets := getValidRangedTargets st u in
        let meleeTargets := getValidMeleeTargets st u in
        mkActions (Nat.ltb 0 (length rangedTargets))
                  (Nat.ltb 0 (length meleeTargets))
                  (negb (status_eqb (status (unit st u)) OVERWATCH))
                  (negb (status_eqb (status (unit st u)) HUNKERED))
  end.

(** [checkWinCondition]: the winning faction id, or [null]. *)
Definition checkWinCondition (st : Game) : option Faction :=
  let playerAlive := getAliveUnits st (playerFaction st) in
  let aiAlive := getAliveUnits st (aiFaction st) in
  if Nat.eqb (length aiAlive) 0 then Some (playerFaction st)
  else if Nat.eqb (length playerAlive) 0 then Some (aiFaction st)
  else None.

(** [handleGameOver]. *)
Definition handleGameOver (st : Game) (winner : Faction) : Game :=
  withPhase GAME_OVER st.

(** [beginPlayerActivation]. *)
Definition beginPlayerActivation (st : Game) (u : UnitRef) : Game :=
  let st := withActiveUnit (Some u) st in
  let st := withPhase PLAYER_MOVEMENT st in
  _showMovementRange st u.

(** Where [nextActivation] hands control. *)
Inductive Scheduled :=
| GameOver (winner : Faction)      (* [handleGameOver(winner)] has run *)
| PlayerActivation (u : UnitRef)   (* [beginPlayerActivation(u)] has run *)
| AIActivation (u : UnitRef)       (* [beginAIActivation(u)] is to run *)
| TurnEnds.                        (* [endTurn()] is to run *)

(** The [while (currentActivationIndex < activationQueue.length)] of
    [nextActivation]: [rest] holds the entries of the queue from index
    [i] on; the result is the index the loop stops at and the unit found
    there, if any. *)
Fixpoint nextActivation_scan (st : Game) (rest : list UnitRef) (i : nat)
  : nat * option UnitRef :=
  match rest with
  | [] => (i, None)
  | u :: more =>
      if alive (unit st u) && negb (activated (unit st u)) then (i, Some u)
      else nextActivation_scan st more (S i)
  end.

(** [nextActivation], up to the asynchronous [beginAIActivation] and to
    [endTurn], which are left to the caller. *)
Definition nextActivation (st : Game) : Game * Scheduled :=
  match checkWinCondition st with
  | Some winner => (handleGameOver st winner, GameOver winner)
  | None =>
      let '(i, next) :=
        nextActivation_scan st
          (skipn (currentActivationIndex st) (activationQueue st))
          (currentActivationIndex st) in
      let st := withCurrentActivationIndex i st in
      match next with
      | Some u =>
          if faction_eqb (faction (unit st u)) (playerFaction st)
          then (beginPlayerActivation st u, PlayerActivation u)
          else (st, AIActivation u)
      | None => (st, TurnEnds)
      end
  end.

(** [startTurn]: the units are reset, the queue is rebuilt and the first
    activation is looked for (the turn counter and the transition
    screen are presentation). *)
Definition startTurn (st : Game) : Game * Scheduled :=
  let st := resetActivations st in
  let st := buildActivationQueue st in
  let st := withCurrentActivationIndex 0 st in
  nextActivation st.

(** [getCoverAdjacentTiles]: the inner loop over the neighbours of one
    tile, which stops at the first tile with full cover. *)
Fixpoint bestAdjacentCover (g : GridManager) (neighbors : list Pos)
         (best : CoverType) : CoverType :=
  match neighbors with
  | [] => best
  | n :: more =>
      match getTile g (col n) (row n) with
      | None => bestAdjacentCover g more best
      | Some nTile =>
          if isFull (tileCover nTile) then CoverFull
          else if isHalf (tileCover nTile) && negb (isFull best)
               then bestAdjacentCover g more CoverHalf
               else bestAdjacentCover g more best
      end
  end.

(** [getCoverAdjacentTiles]: [{col, row, coverType}] for each search
    tile next to cover. *)
Definition getCoverAdjacentTiles (g : GridManager) (searchTiles : list Pos)
  : list (Pos * CoverType) :=
  flat_map
    (fun t =>
       let neighbors := getNeighbors (col t) (row t) (gridWidth g) (gridHeight g) in
       match bestAdjacentCover g neighbors CoverNone with
       | CoverNone => []
       | best => [(t, best)]
       end)
    searchTiles.

(* ================================================================== *)
(** * game/ai.js: AIController *)
(* ================================================================== *)

(** CONSTANTS.AI: the weights the decisions read. *)
Module AI_CFG.
Definition lowHp : float := 40%float.
Definition close : float := 30%float.
Definition noCover : float := 30%float.
Definition preferredMin : Z := 4.
Definition preferredMax : Z := 6.
Definition coverPreferenceWeight : float := 50%float.
End AI_CFG.

(** The score [pickBestTarget] gives one target. *)
Definition targetScore (st : Game) (u target : UnitRef) : float :=
  let score := 0%float in
  let hpRatio :=
    (1 - Number (hp (unit st target)) / Number (maxHp (unit st target)))%float in
  let score := (score + hpRatio * AI_CFG.lowHp)%float in
  let dist := tileDistance (tile (unit st u)) (tile (unit st target)) in
  let distRatio := (1 - Number dist / Number CONSTANTS.rangedRange)%float in
  let score := (score + distRatio * AI_CFG.close)%float in
  let coverResult :=
    getCoverBetween (grid st) (tile (unit st u)) (tile (unit st target)) in
  match coverResultType coverResult with
  | CoverNone => (score + AI_CFG.noCover)%float
  | CoverHalf => (score + AI_CFG.noCover * 0.3)%float
  | CoverFull => score
  end.

(** [score > bestScore]. *)
Definition beats (score bestScore : float) : bool := gtb score bestScore.

(** The [for (const target of targets)] of [pickBestTarget]. *)
Fixpoint pickBestTarget_loop (st : Game) (u : UnitRef) (targets : list UnitRef)
         (bestTarget : option UnitRef) (bestScore : float) : option UnitRef :=
  match targets with
  | [] => bestTarget
  | target :: more =>
      let score := targetScore st u target in
      if beats score bestScore
      then pickBestTarget_loop st u more (Some target) score
      else pickBestTarget_loop st u more bestTarget bestScore
  end.

(** [pickBestTarget]; [None] is [undefined], the value of [targets[0]]
    for an empty list. *)
Definition pickBestTarget (st : Game) (u : UnitRef) (targets : list UnitRef)
  : option UnitRef :=
  match targets with
  | [t] => Some t
  | _ => pickBestTarget_loop st u targets (hd_error targets)
                             PrimFloat.neg_infinity
  end.

(** The score [findBestMoveTile] gives one reachable tile. *)
Definition moveTileScore (st : Game) (u primaryTarget : UnitRef)
           (allEnemies : list UnitRef) (t : RangeNode) : float :=
  let score := 0%float in
  let distToTarget := tileDistance (ntile t) (tile (unit st primaryTarget)) in
  let score :=
    if (distToTarget >=? AI_CFG.preferredMin)
       && (distToTarget <=? AI_CFG.preferredMax)
    then (score + 40)%float
    else if distToTarget <? AI_CFG.preferredMin
    then (score + Number (20 - (AI_CFG.preferredMin - distToTarget) * 5))%float
    else if distToTarget <=? CONSTANTS.rangedRange
    then (score + Number (30 - (distToTarget - AI_CFG.preferredMax) * 3))%float
    else (score + Number (10 - distToTarget))%float in
  let los := checkLOS (grid st) (col (ntile t)) (row (ntile t))
                      (col (tile (unit st primaryTarget)))
                      (row (tile (unit st primaryTarget))) in
  let score :=
    if clear los && (distToTarget <=? CONSTANTS.rangedRange)
    then (score + 25)%float else score in
  let score :=
    match getCoverAdjacentTiles (grid st) [ntile t] with
    | [] => score
    | coverTile :: _ =>
        match snd coverTile with
        | CoverFull => (score + AI_CFG.coverPreferenceWeight)%float
        | CoverHalf => (score + AI_CFG.coverPreferenceWeight * 0.6)%float
        | CoverNone => score
        end
    end in
  let adjacentEnemyCount :=
    Z.of_nat
      (length (filter (fun enemy =>
                         tileDistance (ntile t) (tile (unit st enemy)) <=? 1)
                      allEnemies)) in
  let score :=
    if adjacentEnemyCount >? 1
    then (score - Number (adjacentEnemyCount * 15))%float else score in
  if negb (col (ntile t) =? col (tile (unit st u)))
     || negb (row (ntile t) =? row (tile (unit st u)))
  then (score + 1)%float else score.

(** The loop of [findBestMoveTile]. *)
Fixpoint findBestMoveTile_loop (st : Game) (u primaryTarget : UnitRef)
         (allEnemies : list UnitRef) (reachableTiles : list RangeNode)
         (bestTile : option RangeNode) (bestScore : float)
  : option RangeNode :=
  match reachableTiles with
  | [] => bestTile
  | t :: more =>
      let score := moveTileScore st u primaryTarget allEnemies t in
      if beats score bestScore
      then findBestMoveTile_loop st u primaryTarget allEnemies more
                                 (Some t) score
      else findBestMoveTile_loop st u primaryTarget allEnemies more
                                 bestTile bestScore
  end.

(** [findBestMoveTile]; [None] is [null]. *)
Definition findBestMoveTile (st : Game) (u primaryTarget : UnitRef)
           (reachableTiles : list RangeNode) (allEnemies : list UnitRef)
  : option RangeNode :=
  findBestMoveTile_loop st u primaryTarget allEnemies reachableTiles None
                        PrimFloat.neg_infinity.

(** [executeAIMove]; the outer [None] is the path search out of fuel. *)
Definition executeAIMove (fuel : nat) (st : Game) (u : UnitRef)
           (targetTile : Pos) : option Game :=
  match findPath fuel (grid st) (tile (unit st u)) targetTile with
  | None => None
  | Some None => Some st
  | Some (Some []) => Some st
  | Some (Some path) =>
      let st := modify u (withAp (Z.max 0 (ap (unit st u) - 1))) st in
      Some (moveUnit st u path)
  end.

(** [executeAIAttack]. *)
Definition executeAIAttack (st : Game) (u target : UnitRef)
           (attackType : AttackType) (roll : float) : Game :=
  fst (executeAttack st u target attackType roll).

(** The search for the nearest enemy in [_moveTowardEnemy];
    [nearestDist = None] is [Infinity]. *)
Fixpoint nearestEnemy_loop (st : Game) (u : UnitRef) (enemies : list UnitRef)
         (nearestEnemy : option UnitRef) (nearestDist : option Z)
  : option UnitRef :=
  match enemies with
  | [] => nearestEnemy
  | enemy :: more =>
      let dist := tileDistance (tile (unit st u)) (tile (unit st enemy)) in
      if match nearestDist with None => true | Some d => dist <? d end
      then nearestEnemy_loop st u more (Some enemy) (Some dist)
      else nearestEnemy_loop st u more nearestEnemy nearestDist
  end.

(** [_moveTowardEnemy]: the new state and the value returned. *)
Definition _moveTowardEnemy (fuel : nat) (st : Game) (u : UnitRef)
  : option (Game * bool) :=
  let enemies := getAliveUnits st (playerFaction st) in
  if Nat.eqb (length enemies) 0 then Some (st, false)
  else
    match nearestEnemy_loop st u enemies None None with
    | None => Some (st, false)
    | Some nearestEnemy =>
        let reachableTiles :=
          getMovementRange (grid st) (col (tile (unit st u)))
                           (row (tile (unit st u))) CONSTANTS.movement in
        if Nat.eqb (length reachableTiles) 0 then Some (st, false)
        else
          match findBestMoveTile st u nearestEnemy reachableTiles enemies with
          | None => Some (st, false)
          | Some bestTile =>
              if (col (ntile bestTile) =? col (tile (unit st u)))
                 && (row (ntile bestTile) =? row (tile (unit st u)))
              then Some (st, false)
              else
                match executeAIMove fuel st u (ntile bestTile) with
                | None => None
                | Some st' => Some (st', true)
                end
          end
    end.

(** What an AI activation does, in order. *)
Inductive AIAction :=
| AIAttack (target : UnitRef) (attackType : AttackType)
| AIMove
| AIOverwatch.

(** An attack on the target [pickBestTarget] chooses among [targets];
    [None] when it chooses none, [executeAttack] then failing on
    [undefined]. *)
Definition attackBest (st : Game) (u : UnitRef) (targets : list UnitRef)
           (attackType : AttackType) (roll : float)
  : option (Game * list AIAction) :=
  match pickBestTarget st u targets with
  | None => None
  | Some target =>
      Some (executeAIAttack st u target attackType roll,
            [AIAttack target attackType])
  end.

(** [_continueActivation]; [roll] is drawn by the attack it may make. *)
Definition _continueActivation (st : Game) (u : UnitRef) (roll : float)
  : option (Game * list AIAction) :=
  if negb (alive (unit st u)) || (ap (unit st u) <=? 0) then Some (st, [])
  else
    let meleeTargets := getValidMeleeTargets st u in
    if Nat.ltb 0 (length meleeTargets) then attackBest st u meleeTargets Melee roll
    else
      let rangedTargets := getValidRangedTargets st u in
      if Nat.ltb 0 (length rangedTargets)
      then attackBest st u rangedTargets Ranged roll
      else if ap (unit st u) >? 0 then Some (setOverwatch st u, [AIOverwatch])
      else Some (st, []).

(** The first attack of [activateUnit] and what follows it. *)
Definition attackThenContinue (st : Game) (u : UnitRef) (targets : list UnitRef)
           (attackType : AttackType) (rng : nat -> float)
  : option (Game * list AIAction) :=
  match attackBest st u targets attackType (rng 0%nat) with
  | None => None
  | Some (st, log) =>
      if (ap (unit st u) >? 0) && alive (unit st u) then
        match _continueActivation st u (rng 1%nat) with
        | None => None
        | Some (st, log') => Some (st, log ++ log')
        end
      else Some (st, log)
  end.

(** [activateUnit]: the state it leaves and the actions it took.  [rng]
    supplies the rolls of its attacks, [fuel] bounds the path search;
    [None] is an activation that does not run to its end. *)
Definition activateUnit (fuel : nat) (rng : nat -> float) (st : Game) (u : UnitRef)
  : option (Game * list AIAction) :=
  let meleeTargets := getValidMeleeTargets st u in
  if Nat.ltb 0 (length meleeTargets) && (ap (unit st u) >? 0)
  then attackThenContinue st u meleeTargets Melee rng
  else
    let rangedTargets := getValidRangedTargets st u in
    if Nat.ltb 0 (length rangedTargets) && (ap (unit st u) >? 0)
    then attackThenContinue st u rangedTargets Ranged rng
    else if ap (unit st u) >? 0 then
      match _moveTowardEnemy fuel st u with
      | None => None
      | Some (st, moved) =>
          let log := if moved then [AIMove] else [] in
          if negb (alive (unit st u)) then Some (st, log)
          else if ap (unit st u) >? 0 then
            let newRangedTargets := getValidRangedTargets st u in
            if Nat.ltb 0 (length newRangedTargets) then
              match attackBest st u newRangedTargets Ranged (rng 0%nat) with
              | None => None
              | Some (st, log') => Some (st, log ++ log')
              end
            else
              let newMeleeTargets := getValidMeleeTargets st u in
              if Nat.ltb 0 (length newMeleeTargets) then
                match attackBest st u newMeleeTargets Melee (rng 0%nat) with
                | None => None
                | Some (st, log') => Some (st, log ++ log')
                end
              else if ap (unit st u) >? 0
              then Some (setOverwatch st u, log ++ [AIOverwatch])
              else Some (st, log)
          else Some (st, log)
      end
    else Some (st, []).

(** [beginAIActivation] with the controller set: the activation, then
    the win check, then [endActivation] up to the scheduler's call. *)
Definition beginAIActivation (fuel : nat) (rng : nat -> float) (st : Game)
           (u : UnitRef) : option (Game * option Faction) :=
  let st := withActiveUnit (Some u) st in
  let st := withPhase AI_THINKING st in
  let st := withPhase AI_ACTING st in
  match activateUnit fuel rng st u with
  | None => None
  | Some (st, _) =>
      match checkWinCondition st with
      | Some winner => Some (handleGameOver st winner, Some winner)
      | None => Some (endActivation st u, None)
      end
  end.

(* ================================================================== *)
(** * game/turns.js: the player's action commands *)
(* ================================================================== *)

(** The two [gameState] fields the target selection keeps between the
    choice of an attack and the click on a target. *)
Record Selection := mkSelection {
  _pendingAttackType : option AttackType;
  _validTargets : option (list UnitRef)
}.

(** The action types [onPlayerAction] knows; any other string falls
    through the [switch]. *)
Inductive ActionType :=
| ActShoot | ActMelee | ActOverwatch | ActHunker | ActEndTurn | ActUnknown.

(** [_enterTargetSelectPhase]. *)
Definition _enterTargetSelectPhase (st : Game) (sel : Selection) (u : UnitRef)
           (attackType : AttackType) : Game * Selection :=
  let st := withPhase PLAYER_TARGET_SELECT st in
  let sel := mkSelection (Some attackType) (_validTargets sel) in
  let targets := getValidTargets st u attackType in
  if Nat.eqb (length targets) 0 then (_enterActionPhase st u, sel)
  else (st, mkSelection (_pendingAttackType sel) (Some targets)).

(** [onPlayerAction], up to the scheduler's call at the end of
    [endActivation]. *)
Definition onPlayerAction (st : Game) (sel : Selection) (actionType : ActionType)
  : Game * Selection :=
  match activeUnit st with
  | None => (st, sel)
  | Some u =>
      if negb (alive (unit st u)) then (st, sel)
      else
        match actionType with
        | ActShoot => _enterTargetSelectPhase st sel u Ranged
        | ActMelee => _enterTargetSelectPhase st sel u Melee
        | ActOverwatch => (endActivation (setOverwatch st u) u, sel)
        | ActHunker => (endActivation (setHunker st u) u, sel)
        | ActEndTurn => (endActivation st u, sel)
        | ActUnknown => (st, sel)
        end
  end.

(** [onTargetClick]; [roll] is drawn by the attack.  An attack type
    that is not set reaches [executeAttack] as [null], which it treats
    as any type other than ['ranged']. *)
Definition onTargetClick (st : Game) (sel : Selection) (c r : Z) (roll : float)
  : Game * Selection :=
  match activeUnit st with
  | None => (st, sel)
  | Some u =>
      if negb (phase_eqb (phase st) PLAYER_TARGET_SELECT) then (st, sel)
      else
        let targets := match _validTargets sel with
                       | Some l => l
                       | None => []
                       end in
        match find (fun t => (col (tile (unit st t)) =? c)
                             && (row (tile (unit st t)) =? r)) targets with
        | None => (st, sel)
        | Some target =>
            let attackType := match _pendingAttackType sel with
                              | Some ty => ty
                              | None => OtherAttack
                              end in
            let st := fst (executeAttack st u target attackType roll) in
            let sel := mkSelection None None in
            match checkWinCondition st with
            | Some winner => (handleGameOver st winner, sel)
            | None =>
                if (ap (unit st u) >? 0) && alive (unit st u)
                then (_enterActionPhase st u, sel)
                else (endActivation st u, sel)
            end
        end
  end.

(* ================================================================== *)
(** * Notions used to state the properties *)
(* ================================================================== *)

(** Round-robin zip of two lists: the i-th of the first, then the i-th
    of the second, a side being skipped once it is exhausted. *)
Fixpoint interleave (A : Type) (xs ys : list A) : list A :=
  match xs, ys with
  | [], _ => ys
  | _, [] => xs
  | x :: xs', y :: ys' => x :: y :: interleave xs' ys'
  end.

(** A legal movement step from [a] to [b]: [b] is one of the 8
    neighbours of [a] inside the grid, [b] is walkable (no occupant),
    and a diagonal step has both cardinal tiles next to [a] in the
    direction of [b] walkable ignoring occupants. *)
Definition legalStep (g : GridManager) (a b : Pos) : Prop :=
  inBounds (gridWidth g) (gridHeight g) (col b) (row b) = true
  /\ tileDistance a b = 1
  /\ isWalkable g (col b) (row b) = true
  /\ (col b <> col a -> row b <> row a ->
      isWalkableIgnoreOccupant g (col b) (row a) = true
      /\ isWalkableIgnoreOccupant g (col a) (row b) = true).

(** [walk g origin n t]: some path of [n] legal steps leads from
    [origin] to [t]. *)
Inductive walk (g : GridManager) (origin : Pos) : nat -> Pos -> Prop :=
| walk_here : walk g origin 0 origin
| walk_step : forall n a b,
    walk g origin n a -> legalStep g a b -> walk g origin (S n) b.

(** [trueCost g origin t c]: [c] is the length of a shortest path of
    legal steps from [origin] to [t]. *)
Definition trueCost (g : GridManager) (origin t : Pos) (c : Z) : Prop :=
  exists n, c = Z.of_nat n /\ walk g origin n t
            /\ forall m, walk g origin m t -> (n <= m)%nat.

(** A tile strictly between attacker and target on the traced line that
    carries full cover and a placed object. *)
Definition blockedBetween (g : GridManager) (from to : Pos) : Prop :=
  exists lt tile_,
    In lt (bresenhamLine from to) /\ lt <> to
    /\ getTile g (col lt) (row lt) = Some tile_
    /\ tileCover tile_ = CoverFull /\ hasObject tile_ = true.

(** The invariant on a unit: its overwatch cone is set exactly while its
    status is Overwatch. *)
Definition coneIffOverwatch (u : Unit) : Prop :=
  overwatchCone u <> None <-> status u = OVERWATCH.

(** No unit has negative action points. *)
Definition apNonneg (st : Game) : Prop := forall r, 0 <= ap (unit st r).

(** The damage [executeAttack] applies on a hit. *)
Definition attackDamage (attackType : AttackType) : Z :=
  match attackType with
  | Ranged => CONSTANTS.rangedDamage
  | _ => CONSTANTS.meleeDamage
  end.

(** The state [executeAttack] reaches before it deducts the attacker's
    action point, as a function of whether the roll hits. *)
Definition afterRoll (st : Game) (attacker target : UnitRef)
           (attackType : AttackType) (hit_ : bool) : Game :=
  let st1 := faceTarget (withPhase COMBAT_ANIMATION st) attacker
                        (tile (unit st target)) in
  if hit_ then
    let st2 := fst (applyDamage st1 target (attackDamage attackType)) in
    if snd (applyDamage st1 target (attackDamage attackType))
    then setUnitDead st2 target else st2
  else st1.

(** The three results [getCoverBetween] can give. *)
Definition coverTier (cr : CoverResult) : Prop :=
  cr = mkCoverResult CoverNone 0%float
  \/ cr = mkCoverResult CoverHalf CONSTANTS.COVER_BONUS_half
  \/ cr = mkCoverResult CoverFull CONSTANTS.COVER_BONUS_full.

(** The hit chance of a ranged attack as the rules state it, before
    clamping: base accuracy, plus the cover penalty [cp], plus [cp] again
    for a hunkered target in cover, plus the flanking bonus, plus the
    penalty near maximum range. *)
Definition rangedRawChance (cp : float) (hunkered flanked nearMaxRange : bool)
  : float :=
  (CONSTANTS.rangedAccuracy + cp
   + (if hunkered && negb (cp =? 0) then cp else 0)
   + (if flanked then CONSTANTS.FLANKING_BONUS else 0)
   + (if nearMaxRange then -0.05 else 0))%float.

(** The enemy faction of a unit, as [checkOverwatch] and the target
    enumeration compute it. *)
Definition enemyFactionOf (st : Game) (u : UnitRef) : Faction :=
  if faction_eqb (faction (unit st u)) (playerFaction st)
  then aiFaction st else playerFaction st.

(** The trigger condition worded with the movement direction: the
    watcher is within overwatch range of [toTile], sees it, and its
    cone, if any, has a non-negative dot product with the direction of
    the step [toTile - fromTile] normalised per component. *)
Definition triggersByMovementDirection (st : Game) (fromTile toTile : Pos)
           (watcher : UnitRef) : Prop :=
  let w := unit st watcher in
  tileDistance (tile w) toTile <= CONSTANTS.OVERWATCH_range
  /\ clear (checkLOS (grid st) (col (tile w)) (row (tile w))
                     (col toTile) (row toTile)) = true
  /\ (forall cone, overwatchCone w = Some cone ->
        let dir := getTileDirection fromTile toTile in
        0 <= col dir * col cone + row dir * row cone).

(** The trigger condition the code applies: the same, with the offset
    from the watcher's tile to [toTile] in place of the movement
    direction. *)
Definition triggersByWatcherOffset (st : Game) (toTile : Pos)
           (watcher : UnitRef) : Prop :=
  let w := unit st watcher in
  tileDistance (tile w) toTile <= CONSTANTS.OVERWATCH_range
  /\ clear (checkLOS (grid st) (col (tile w)) (row (tile w))
                     (col toTile) (row toTile)) = true
  /\ (forall cone, overwatchCone w = Some cone ->
        0 <= (col toTile - col (tile w)) * col cone
             + (row toTile - row (tile w)) * row cone).

(* ================================================================== *)
(** * Loop invariants and measures *)
(* ================================================================== *)

(** Steps still to take on one axis of the traced line: [s] is the step
    sign, [target] the end coordinate and [cur] the current one. *)
Definition stepsLeft (s target cur : Z) : Z := s * (target - cur).

(** The loop invariant of [bresenhamLine]: the point stays between start
    and end on each axis, and the error term is
    [dx - dy + rx * dy - ry * dx] for [rx], [ry] the steps left. *)
Definition bresenham_inv (x1 y1 dx dy sx sy : Z) (x0 y0 err : Z) : Prop :=
  0 <= stepsLeft sx x1 x0 <= dx /\ 0 <= stepsLeft sy y1 y0 <= dy
  /\ err = dx - dy + stepsLeft sx x1 x0 * dy - stepsLeft sy y1 y0 * dx.

(** Every tile of the grid, column by column. *)
Definition allTiles (g : GridManager) : list Pos :=
  map (fun cr => mkPos (fst cr) (snd cr))
      (list_prod (map Z.of_nat (seq 0 (Z.to_nat (gridWidth g))))
                 (map Z.of_nat (seq 0 (Z.to_nat (gridHeight g))))).

(** The number of tiles of the grid not yet in [visited]. *)
Definition unvisitedCount (g : GridManager) (visited : list Pos) : nat :=
  length (filter (fun p => negb (visitedHas visited p)) (allTiles g)).

(** The invariant of the [while] loop of [getMovementRange], on the
    ghost list [processed] of the nodes dequeued so far, the queue and
    the visited set. *)
Record range_inv (g : GridManager) (origin : Pos) (moveRange : Z)
       (processed queue : list RangeNode) (visited : list Pos) : Prop := {
  (* the visited tiles are those of the nodes created so far *)
  inv_visited : forall p, In p visited <-> In p (map ntile (processed ++ queue));
  (* a tile gets one node *)
  inv_nodup : NoDup (map ntile (processed ++ queue));
  inv_origin : In (mkNode origin 0) (processed ++ queue);
  (* a node's cost is the length of some path to its tile *)
  inv_walk : forall n, In n (processed ++ queue) ->
               0 <= cost n /\ walk g origin (Z.to_nat (cost n)) (ntile n);
  inv_bound : forall n, In n (processed ++ queue) ->
                cost n = 0 \/ cost n <= moveRange;
  (* the queue is ordered by cost, spans two costs at most, and follows
     what was dequeued *)
  inv_low : forall n h, In n processed -> In h queue -> cost n <= cost h;
  inv_sorted : StronglySorted (fun a b => cost a <= cost b) queue;
  inv_width : forall a b, In a queue -> In b queue -> cost b <= cost a + 1;
  (* the neighbours of an expanded node all have a node, one step on at
     most *)
  inv_closed : forall n b, In n processed -> cost n < moveRange ->
                 legalStep g (ntile n) b ->
                 exists c, In (mkNode b c) (processed ++ queue)
                           /\ c <= cost n + 1
}.

(** [cameFrom] read from its oldest binding: each key is new when it is
    bound, and is bound to a tile recorded before it (or to the start). *)
Fixpoint cameFromChain (start : Pos) (cameFrom : list (Pos * Pos)) : Prop :=
  match cameFrom with
  | [] => True
  | (n, p) :: older =>
      cameFromChain start older
      /\ In p (map fst older ++ [start])
      /\ ~ In n (map fst older ++ [start])
  end.

(** The invariant of the [while] loop of [_findPathBFS]. *)
Record path_inv (g : GridManager) (start end_ : Pos) (st : PathState) : Prop := {
  pinv_chain : cameFromChain start (cameFrom st);
  (* the visited tiles are the start and the keys of [cameFrom] *)
  pinv_visited : pvisited st = map fst (cameFrom st) ++ [start];
  pinv_tiles : forall k, In k (map fst (cameFrom st)) -> In k (allTiles g);
  pinv_queue : forall q, In q (pqueue st) -> In q (pvisited st);
  pinv_found : found st = true -> In end_ (pvisited st)
}.

(* ================================================================== *)
(** * Sample maps and units *)
(* ================================================================== *)

(** The tile the [GridManager] constructor creates. *)
Definition freshTile : Tile := mkTile true CoverNone None None None None.

(** The grid the constructor creates. *)
Definition newGrid (w h : Z) : GridManager := mkGrid w h (fun _ _ => freshTile).

(** The unit [createUnit] builds (the facing of the first faction). *)
Definition newUnit (f : Faction) (c r : Z) : Unit :=
  mkUnit f (mkPos c r) CONSTANTS.hp CONSTANTS.hp CONSTANTS.ap CONSTANTS.ap
         false true READY
         (match f with orderOfTheAbyss => mkPos 1 0 | germani => mkPos (-1) 0 end)
         None.

(** A 10 by 3 map with one unit of each side on row 0: unit 0 at column
    0 and unit 1 at column 5. *)
Definition duelUnits (r : UnitRef) : Unit :=
  match r with
  | O => newUnit orderOfTheAbyss 0 0
  | _ => newUnit germani 5 0
  end.

Definition duel : Game :=
  mkGame (setOccupant (setOccupant (newGrid 10 3) 0 0 0%nat) 5 0 1%nat)
         [0%nat; 1%nat] duelUnits orderOfTheAbyss germani PLAYER_MOVEMENT
         None [] 0 [].

(** The duel after unit 1 went on overwatch and unit 0 then hit it
    three times (every roll 0 hits). *)
Definition duelOverwatchKilled : Game :=
  let st := setOverwatch duel 1%nat in
  let st := fst (executeAttack st 0%nat 1%nat Ranged 0%float) in
  let st := fst (executeAttack st 0%nat 1%nat Ranged 0%float) in
  fst (executeAttack st 0%nat 1%nat Ranged 0%float).

(** Two squads of five: units 0, 2, 4, 6, 8 on the player's side and
    1, 3, 5, 7, 9 on the AI's, all alive and not yet activated. *)
Definition twoSquads : Game :=
  mkGame (newGrid 10 10) (seq 0 10)
         (fun r => newUnit (if Nat.even r then orderOfTheAbyss else germani)
                           (Z.of_nat r) (if Nat.even r then 0 else 9))
         orderOfTheAbyss germani PLAYER_SELECT_UNIT None [] 0 [].

(** The duel with a boulder (half cover) on (4,0), next to unit 1 on the
    side of unit 0. *)
Definition duelHalfCover : Game :=
  withGrid (setObject (grid duel) 4 0 "boulder" CoverHalf) duel.

(** The duel with a wall (full cover) on (4,0), on the line between
    the two units. *)
Definition duelWall : Game :=
  withGrid (setObject (grid duel) 4 0 "wall" CoverFull) duel.

(** The duel with a wall on (3,1), unit 1 on overwatch and unit 0
    activated by the player. *)
Definition duelAmbush : Game :=
  beginPlayerActivation
    (setOverwatch (withGrid (setObject (grid duel) 3 1 "wall" CoverFull) duel) 1%nat)
    0%nat.

(** A 3 by 3 map with a column on (1,0). *)
Definition cornerMap : GridManager :=
  setObject (newGrid 3 3) 1 0 "column" CoverFull.

(** [stepChain prev l]: each tile of [l] is at Chebyshev distance 1 from
    the one before it, the first from [prev]. *)
Fixpoint stepChain (prev : Pos) (l : list Pos) : Prop :=
  match l with
  | [] => True
  | p :: rest => tileDistance prev p = 1 /\ stepChain p rest
  end.

(** The second half of the loop invariant of [bresenhamLine]: the error
    term stays in the band that makes the longer axis step on every
    pass. *)
Definition bresenham_band (dx dy err : Z) : Prop :=
  (dy <= dx -> - dy < 2 * err < 3 * dx - 2 * dy)
  /\ (dx < dy -> 2 * dx - 3 * dy < 2 * err < dx).

(** Steps left on the longer axis. *)
Definition longSteps (x1 y1 dx dy sx sy : Z) (p : Pos) : Z :=
  if dy <=? dx then stepsLeft sx x1 (col p) else stepsLeft sy y1 (row p).

(** What the body of the loop of [resetActivations] leaves of one unit
    object. *)
Definition resetUnit (x : Unit) : Unit :=
  if negb (alive x) then x
  else
    let x := withAp (maxAp x) (withActivated false x) in
    if status_eqb (status x) OVERWATCH || status_eqb (status x) HUNKERED
    then withOverwatchCone None (withStatus READY x)
    else x.

(** A unit the scheduler may activate. *)
Definition eligible (st : Game) (u : UnitRef) : bool :=
  alive (unit st u) && negb (activated (unit st u)).

(** [scheduledUnit st st' u]: the scheduler, started in [st] with no
    winner, stopped in [st'] on the queue entry [u]: a living, not yet
    activated unit, every entry it passed over being dead or already
    activated. *)
Definition scheduledUnit (st st' : Game) (u : UnitRef) : Prop :=
  checkWinCondition st = None
  /\ (currentActivationIndex st <= currentActivationIndex st')%nat
  /\ nth_error (activationQueue st) (currentActivationIndex st') = Some u
  /\ alive (unit st u) = true /\ activated (unit st u) = false
  /\ (forall k v, (currentActivationIndex st <= k < currentActivationIndex st')%nat ->
        nth_error (activationQueue st) k = Some v -> eligible st v = false)
  /\ unit st' = unit st /\ grid st' = grid st
  /\ activationQueue st' = activationQueue st.

(** What a hit for [d] points leaves of the target object: [applyDamage]
    followed, when it reports a kill, by [setUnitDead]. *)
Definition struck (d : Z) (x : Unit) : Unit :=
  if hp x - d <=? 0
  then withHp 0 (withStatus DEAD (withAlive false x))
  else withHp (hp x - d) x.

(** The bookkeeping every unit object is expected to satisfy: hit points
    between 0 and the maximum, a living unit has hit points left and is
    not marked Dead, a dead one has none and is marked Dead. *)
Definition healthy (x : Unit) : Prop :=
  0 <= hp x <= maxHp x
  /\ (alive x = true -> 0 < hp x /\ status x <> DEAD)
  /\ (alive x = false -> hp x = 0 /\ status x = DEAD).

Definition allHealthy (st : Game) : Prop := forall r, healthy (unit st r).

(** [legalPath g prev path]: each tile of [path] is one legal step from
    the one before it, the first from [prev]. *)
Fixpoint legalPath (g : GridManager) (prev : Pos) (path : list Pos) : Prop :=
  match path with
  | [] => True
  | p :: rest => legalStep g prev p /\ legalPath g p rest
  end.

(** A visited tile is either still waiting in the queue or all the tiles
    one legal step away from it are visited. *)
Definition pathClosed (g : GridManager) (st : PathState) : Prop :=
  forall a, In a (pvisited st) ->
    In a (pqueue st) \/ forall b, legalStep g a b -> In b (pvisited st).

(** The same in the middle of the scan of the neighbours of [current],
    [todo] being the neighbours still to look at. *)
Definition pathScanning (g : GridManager) (st : PathState) (current : Pos)
           (todo : list Pos) : Prop :=
  forall a, In a (pvisited st) ->
    In a (pqueue st)
    \/ forall b, legalStep g a b ->
         In b (pvisited st) \/ (a = current /\ In b todo).

(** Every binding of [cameFrom] records a legal step from the value to
    the key. *)
Definition pathLinks (g : GridManager) (st : PathState) : Prop :=
  forall n p, In (n, p) (cameFrom st) -> legalStep g p n.

(** The number of roster units on overwatch. *)
Definition overwatchCount (st : Game) : nat :=
  length (filter (fun x => status_eqb (status (unit st x)) OVERWATCH) (units st)).

(** The grid and the units agree on who stands where: a living roster
    unit is the occupant of its tile, and the occupant of a tile is a
    living roster unit standing on it. *)
Definition occupancy (st : Game) : Prop :=
  (forall u, In u (units st) -> alive (unit st u) = true ->
     exists t, getTile (grid st) (col (tile (unit st u))) (row (tile (unit st u)))
               = Some t
               /\ occupant t = Some u)
  /\ (forall c r t x, getTile (grid st) c r = Some t -> occupant t = Some x ->
        In x (units st) /\ alive (unit st x) = true
        /\ tile (unit st x) = mkPos c r).

(** [aiStep u st st']: what every step of an AI activation of [u]
    guarantees between the state before and the state after: the roster,
    the two sides and every unit's faction are the same, the
    bookkeeping of hit points and the sign of the action points are
    kept, [u] has gained no action point, the active unit and the
    activation queue are the same, and, the sides being distinct and [u]
    a living roster unit, [u] is still alive and the grid and the units
    still agree on who stands where if they did. *)
Definition aiStep (u : UnitRef) (st st' : Game) : Prop :=
  units st' = units st
  /\ playerFaction st' = playerFaction st
  /\ aiFaction st' = aiFaction st
  /\ (forall x, faction (unit st' x) = faction (unit st x))
  /\ (allHealthy st -> allHealthy st')
  /\ (apNonneg st -> apNonneg st')
  /\ ap (unit st' u) <= Z.max 0 (ap (unit st u))
  /\ activeUnit st' = activeUnit st
  /\ activationQueue st' = activationQueue st
  /\ (playerFaction st <> aiFaction st ->
      In u (units st) -> alive (unit st u) = true ->
      alive (unit st' u) = true /\ (occupancy st -> occupancy st')).

(** The targets an AI activation may attack: roster units of the other
    side. *)
Definition attacksEnemies (st : Game) (u : UnitRef) (log : list AIAction) : Prop :=
  forall t ty, In (AIAttack t ty) log ->
    In t (units st) /\ faction (unit st t) = enemyFactionOf st u
    /\ (ty = Melee \/ ty = Ranged).

(** The state of a session in good order: two distinct sides, the
    bookkeeping of hit points, grid and units in agreement, a living
    roster unit as active unit if there is one, and roster units only in
    the activation queue. *)
Definition wellFormed (st : Game) : Prop :=
  playerFaction st <> aiFaction st
  /\ allHealthy st
  /\ occupancy st
  /\ (forall u, activeUnit st = Some u ->
        In u (units st) /\ alive (unit st u) = true)
  /\ (forall u, In u (activationQueue st) -> In u (units st)).

(** One step of a session: a command of the player, or one move of the
    scheduler.  The attack command is the choice of the attack type
    followed by the click on a target; the scheduler either starts the
    next activation (running it to its end when it is the AI's), or
    ends the game, or resets the units and rebuilds the queue for a new
    turn; [step_start] is the queue built by [startGame]. *)
Inductive gameStep (fuel : nat) : Game -> Game -> Prop :=
| step_move : forall rng st c r st' out,
    onPlayerMoveClick fuel rng st c r = Some (st', out) ->
    gameStep fuel st st'
| step_action : forall st sel actionType,
    gameStep fuel st (fst (onPlayerAction st sel actionType))
| step_attack : forall st sel actionType c r roll,
    actionType = ActShoot \/ actionType = ActMelee ->
    gameStep fuel st
             (fst (onTargetClick (fst (onPlayerAction st sel actionType))
                                 (snd (onPlayerAction st sel actionType))
                                 c r roll))
| step_next : forall st,
    (forall u, snd (nextActivation st) <> AIActivation u) ->
    snd (nextActivation st) <> TurnEnds ->
    gameStep fuel st (fst (nextActivation st))
| step_ai : forall rng st u st' winner,
    snd (nextActivation st) = AIActivation u ->
    beginAIActivation fuel rng (fst (nextActivation st)) u = Some (st', winner) ->
    gameStep fuel st st'
| step_turn : forall st,
    snd (nextActivation st) = TurnEnds ->
    gameStep fuel st
             (withCurrentActivationIndex 0
                (buildActivationQueue (resetActivations (fst (nextActivation st)))))
| step_start : forall st,
    gameStep fuel st (withCurrentActivationIndex 0 (buildActivationQueue st)).

(** The states a session can reach. *)
Inductive reachable (fuel : nat) (st : Game) : Game -> Prop :=
| reach_here : reachable fuel st st
| reach_step : forall st1 st2,
    reachable fuel st st1 -> gameStep fuel st1 st2 -> reachable fuel st st2.

(** The number of [cameFrom] bindings between the key [k] and the start:
    the depth at which the search recorded [k]. *)
Fixpoint depthIn (cameFrom : list (Pos * Pos)) (k : Pos) : nat :=
  match cameFrom with
  | [] => 0
  | (n, p) :: older =>
      if pos_eqb k n then S (depthIn older p) else depthIn older k
  end.

(** [pathFrontier g st closed L]: the search has reached depth [L]. The
    tiles of [closed] are visited at depth [L] at most and every tile one
    legal step from one of them is visited, one binding deeper at most;
    every other visited tile is at depth [L] or [L + 1]. *)
Definition pathFrontier (g : GridManager) (st : PathState)
           (closed : list Pos) (L : nat) : Prop :=
  (forall v, In v (pvisited st) ->
     In v closed \/ (L <= depthIn (cameFrom st) v)%nat)
  /\ (forall v b, In v closed -> legalStep g v b ->
        In b (pvisited st)
        /\ (depthIn (cameFrom st) b <= S (depthIn (cameFrom st) v))%nat)
  /\ (forall v, In v (pvisited st) -> (depthIn (cameFrom st) v <= S L)%nat)
  /\ (forall v, In v closed ->
        In v (pvisited st) /\ (depthIn (cameFrom st) v <= L)%nat).

(** [pathQueueOrder st closed L]: every visited tile is closed or
    queued, and the queue holds visited tiles in the order of their
    depth, none below depth [L]. *)
Definition pathQueueOrder (st : PathState) (closed : list Pos) (L : nat)
  : Prop :=
  (forall v, In v (pvisited st) -> In v closed \/ In v (pqueue st))
  /\ StronglySorted (fun a b => (depthIn (cameFrom st) a
                                 <= depthIn (cameFrom st) b)%nat) (pqueue st)
  /\ (forall q, In q (pqueue st) ->
        In q (pvisited st) /\ (L <= depthIn (cameFrom st) q)%nat).

(* ================================================================== *)
(** * The start of a session: spawn zones and squads *)
(* ================================================================== *)

Definition withSpawnZone (z : option Faction) (t : Tile) : Tile :=
  mkTile (walkable t) (tileCover t) (coverDirection t) (objectType t)
         (occupant t) z.

(** [GridManager.setSpawnZone]. *)
Definition setSpawnZone (g : GridManager) (c r : Z) (factionId : Faction)
  : GridManager :=
  match getTile g c r with
  | Some _ => updTile g c r (withSpawnZone (Some factionId))
  | None => g
  end.

(** [tile.spawnZone === factionId]. *)
Definition zoneIs (z : option Faction) (factionId : Faction) : bool :=
  match z with
  | Some f => faction_eqb f factionId
  | None => false
  end.

(** [GridManager.getSpawnTiles]: the two nested loops, column by
    column. *)
Definition getSpawnTiles (g : GridManager) (factionId : Faction) : list Pos :=
  flat_map
    (fun c =>
       flat_map
         (fun r =>
            if zoneIs (spawnZone (tiles g c r)) factionId
            then [mkPos c r] else [])
         (map Z.of_nat (seq 0 (Z.to_nat (gridHeight g)))))
    (map Z.of_nat (seq 0 (Z.to_nat (gridWidth g)))).

(** [CONSTANTS.FACTIONS[factionId].squadSize]. *)
Definition squadSize (factionId : Faction) : nat :=
  match factionId with
  | orderOfTheAbyss => 5
  | germani => 5
  end.

(** The reference of a newly built unit object: one no roster unit
    has. *)
Definition newRef (st : Game) : UnitRef :=
  fold_right Nat.max 0%nat (map S (units st)).

(** [UnitManager.createUnit]: the new object is registered as the
    occupant of its spawn tile and pushed on the roster. *)
Definition createUnit (st : Game) (factionId : Faction) (spawnCol spawnRow : Z)
  : Game :=
  let u := newRef st in
  mkGame (setOccupant (grid st) spawnCol spawnRow u)
         (units st ++ [u])
         (fun r => if Nat.eqb r u then newUnit factionId spawnCol spawnRow
                   else unit st r)
         (playerFaction st) (aiFaction st) (phase st) (activeUnit st)
         (activationQueue st) (currentActivationIndex st)
         (_selectedMoveTiles st).

(** [UnitManager.spawnSquad]: one unit on each of the first [squadSize]
    spawn tiles of the faction, the tiles being read before the first
    unit is created. *)
Definition spawnSquad (st : Game) (factionId : Faction) : Game :=
  let spawnTiles := getSpawnTiles (grid st) factionId in
  fold_left (fun st0 t => createUnit st0 factionId (col t) (row t))
            (firstn (squadSize factionId) spawnTiles) st.

(** The session before any unit exists: the [gameState] literal of
    [main.js] and the fields the [TurnManager] constructor sets, over
    the grid of the loaded map.  No unit object exists yet; [unit] is
    read only through the references of the roster. *)
Definition newSession (g : GridManager) : Game :=
  mkGame g [] (fun _ => newUnit orderOfTheAbyss 0 0) orderOfTheAbyss germani
         LOADING None [] 0 [].

(** Step 13 of [init]: the player's squad, then the AI's. *)
Definition deploy (st : Game) : Game :=
  spawnSquad (spawnSquad st orderOfTheAbyss) germani.

(** A 4 by 2 map with two spawn tiles of the first faction and one of
    the second. *)
Definition spawnMap : GridManager :=
  setSpawnZone
    (setSpawnZone (setSpawnZone (newGrid 4 2) 0 0 orderOfTheAbyss)
                  0 1 orderOfTheAbyss)
    3 1 germani.

(** [coverObjectAt g k p]: the tile [p] of the grid carries cover of
    tier [k] and a placed object. *)
Definition coverObjectAt (g : GridManager) (k : CoverType) (p : Pos) : Prop :=
  exists tile_, getTile g (col p) (row p) = Some tile_
                /\ tileCover tile_ = k /\ hasObject tile_ = true.

(** [coverNextTo g k t]: some tile of the grid next to [t] has cover of
    tier [k], with or without an object. *)
Definition coverNextTo (g : GridManager) (k : CoverType) (t : Pos) : Prop :=
  exists n tile_, tileDistance t n = 1
                  /\ getTile g (col n) (row n) = Some tile_
                  /\ tileCover tile_ = k.

(** The tests of [getCoverBetween] on one inspected tile. *)
Definition fullObjectAt (g : GridManager) (p : Pos) : bool :=
  match getTile g (col p) (row p) with
  | Some tile_ => isFull (tileCover tile_) && hasObject tile_
  | None => false
  end.

Definition halfObjectAt (g : GridManager) (p : Pos) : bool :=
  match getTile g (col p) (row p) with
  | Some tile_ => isHalf (tileCover tile_) && hasObject tile_
  | None => false
  end.

(** The tests of [getCoverAdjacentTiles] on one neighbouring tile. *)
Definition fullTile (g : GridManager) (n : Pos) : bool :=
  match getTile g (col n) (row n) with
  | Some nTile => isFull (tileCover nTile)
  | None => false
  end.

Definition halfTile (g : GridManager) (n : Pos) : bool :=
  match getTile g (col n) (row n) with
  | Some nTile => isHalf (tileCover nTile)
  | None => false
  end.

(** [declines x y]: the unit object [y] is a later state of [x] in a
    session: it has lost hit points or kept them, it lives only if [x]
    did, and it has the same maximum and faction. *)
Definition declines (x y : Unit) : Prop :=
  (0 <= hp x -> 0 <= hp y <= hp x)
  /\ (alive y = true -> alive x = true)
  /\ maxHp y = maxHp x
  /\ faction y = faction x.

(** The same within one turn: an activated unit stays activated. *)
Definition declinesInTurn (x y : Unit) : Prop :=
  declines x y /\ (activated x = true -> activated y = true).

(** The two relations on sessions: the roster is the same and every
    unit object is a later state of itself. *)
Definition laterInGame (st st' : Game) : Prop :=
  units st' = units st /\ forall r, declines (unit st r) (unit st' r).

Definition laterInTurn (st st' : Game) : Prop :=
  units st' = units st /\ forall r, declinesInTurn (unit st r) (unit st' r).

(* ================================================================== *)
(** * Properties *)
(* ================================================================== *)

Unset Implicit Arguments.

(** ** Reading a state after a write *)

Lemma unit_modify_same r f st : unit (modify r f st) r = f (unit st r).
Proof. unfold modify; simpl. now rewrite Nat.eqb_refl. Qed.

Lemma unit_modify_other r r' f st :
  r' <> r -> unit (modify r f st) r' = unit st r'.
Proof.
  intros Hne. unfold modify; simpl.
  destruct (Nat.eqb r' r) eqn:E; [apply Nat.eqb_eq in E; contradiction | reflexivity].
Qed.

Lemma unit_modify r r' f st :
  unit (modify r f st) r' = if Nat.eqb r' r then f (unit st r') else unit st r'.
Proof. reflexivity. Qed.

Lemma grid_modify r f st : grid (modify r f st) = grid st.
Proof. reflexivity. Qed.

Lemma pos_eqb_eq a b : pos_eqb a b = true <-> a = b.
Proof.
  unfold pos_eqb. rewrite andb_true_iff, !Z.eqb_eq.
  destruct a, b; simpl; split.
  - intros [-> ->]; reflexivity.
  - intros H; injection H; auto.
Qed.

Lemma pos_eqb_refl a : pos_eqb a a = true.
Proof. now apply pos_eqb_eq. Qed.

Lemma pos_eqb_neq a b : pos_eqb a b = false <-> a <> b.
Proof.
  split.
  - intros E H. apply pos_eqb_eq in H. congruence.
  - intros H. destruct (pos_eqb a b) eqn:E; [apply pos_eqb_eq in E; contradiction | reflexivity].
Qed.

Lemma getTile_inBounds g c r :
  getTile g c r = if inBounds (gridWidth g) (gridHeight g) c r
                  then Some (tiles g c r) else None.
Proof.
  unfold getTile, inBounds.
  destruct (c <? 0) eqn:E1, (c >=? gridWidth g) eqn:E2,
           (r <? 0) eqn:E3, (r >=? gridHeight g) eqn:E4,
           (c >=? 0) eqn:E5, (c <? gridWidth g) eqn:E6,
           (r >=? 0) eqn:E7, (r <? gridHeight g) eqn:E8; simpl; try reflexivity; lia.
Qed.

(** ** The diagonal corner rule *)

(** ** Path search: the two early returns *)

(** C8. [findPath] (and its occupied-destination variant) returns the
    empty path, not none, when start and end are the same tile, whatever
    the state of that tile; for distinct tiles it returns none when the
    destination fails its walkability test, which looks at the occupant
    for [findPath] and ignores it for [findPathAllowDestination].  Both
    hold for every fuel: neither return enters a loop. *)
Theorem findPath_early_returns (fuel : nat) (g : GridManager) (start end_ : Pos) :
  findPath fuel g start start = Some (Some [])
  /\ findPathAllowDestination fuel g start start = Some (Some [])
  /\ (start <> end_ -> isWalkable g (col end_) (row end_) = false ->
      findPath fuel g start end_ = Some None)
  /\ (start <> end_ ->
      isWalkableIgnoreOccupant g (col end_) (row end_) = false ->
      findPathAllowDestination fuel g start end_ = Some None).
Proof.
  unfold findPath, findPathAllowDestination, _findPathBFS.
  rewrite !Z.eqb_refl. simpl.
  split; [reflexivity|]. split; [reflexivity|].
  assert (Hne : start <> end_ ->
                (col start =? col end_) && (row start =? row end_) = false).
  { intros Hne. apply pos_eqb_neq in Hne. exact Hne. }
  split; intros Hd Hw; rewrite (Hne Hd), Hw; reflexivity.
Qed.

(** In the duel: the path from a unit's tile to itself is empty, the
    path to the tile the other unit occupies is none, and so is the path
    to a tile off the grid even when an occupant is allowed. *)
Lemma findPath_early_returns_witness :
  findPath 0 (grid duel) (mkPos 0 0) (mkPos 0 0) = Some (Some [])
  /\ findPath 0 (grid duel) (mkPos 0 0) (mkPos 5 0) = Some None
  /\ findPathAllowDestination 0 (grid duel) (mkPos 0 0) (mkPos 10 0) = Some None.
Proof.
  pose proof (findPath_early_returns 0 (grid duel) (mkPos 0 0) (mkPos 5 0))
    as [H1 [_ [H2 _]]].
  pose proof (findPath_early_returns 0 (grid duel) (mkPos 0 0) (mkPos 10 0))
    as [_ [_ [_ H3]]].
  split; [exact H1|]. split.
  - apply H2; [discriminate | reflexivity].
  - apply H3; [discriminate | reflexivity].
Defined.

(** ** What an attack writes *)

Ltac unit_cases :=
  repeat match goal with
         | |- context [Nat.eqb ?a ?b] => destruct (Nat.eqb a b) eqn:?
         end.

Lemma unit_faceTarget st u p r :
  unit (faceTarget st u p) r
  = if Nat.eqb r u
    then withFacing (mkPos (sign (col p - col (tile (unit st u))))
                           (sign (row p - row (tile (unit st u))))) (unit st r)
    else unit st r.
Proof. reflexivity. Qed.

Lemma unit_setUnitDead st u r :
  unit (setUnitDead st u) r
  = if Nat.eqb r u
    then withHp 0 (withStatus DEAD (withAlive false (unit st r)))
    else unit st r.
Proof. unfold setUnitDead, modify; simpl. destruct (Nat.eqb r u); reflexivity. Qed.

Lemma grid_setUnitDead st u :
  grid (setUnitDead st u)
  = clearOccupant (grid st) (col (tile (unit st u))) (row (tile (unit st u))).
Proof. unfold setUnitDead, modify; simpl. rewrite Nat.eqb_refl. reflexivity. Qed.

Lemma unit_applyDamage st u d r :
  unit (fst (applyDamage st u d)) r
  = if Nat.eqb r u then withHp (Z.max 0 (hp (unit st u) - d)) (unit st r)
    else unit st r.
Proof.
  unfold applyDamage.
  match goal with |- context [if ?c then _ else _] => destruct c end; reflexivity.
Qed.

Lemma grid_applyDamage st u d : grid (fst (applyDamage st u d)) = grid st.
Proof.
  unfold applyDamage.
  match goal with |- context [if ?c then _ else _] => destruct c end; reflexivity.
Qed.

Lemma killed_applyDamage st u d :
  snd (applyDamage st u d) = (hp (unit st u) - d <=? 0).
Proof.
  unfold applyDamage. rewrite unit_modify_same. simpl.
  destruct (Z.max 0 (hp (unit st u) - d) <=? 0) eqn:E; simpl; symmetry.
  - apply Z.leb_le in E. apply Z.leb_le. lia.
  - apply Z.leb_gt in E. apply Z.leb_gt. lia.
Qed.

Lemma executeAttack_eq st a t ty roll :
  let hit_ := PrimFloat.leb roll (fst (calculateHitChance st a t ty)) in
  let st2 := afterRoll st a t ty hit_ in
  executeAttack st a t ty roll
  = (modify a (withAp (Z.max 0 (ap (unit st2 a) - 1))) st2,
     mkAttackResult hit_
       (if hit_ then attackDamage ty else 0)
       (if hit_
        then snd (applyDamage
                    (faceTarget (withPhase COMBAT_ANIMATION st) a
                                (tile (unit st t))) t (attackDamage ty))
        else false)).
Proof.
  unfold executeAttack, afterRoll.
  destruct (calculateHitChance st a t ty) as [chance bd]. simpl.
  destruct (PrimFloat.leb roll chance); [|reflexivity].
  fold (attackDamage ty).
  destruct (applyDamage _ t (attackDamage ty)) as [st2 k]. simpl.
  destruct k; reflexivity.
Qed.

(** Fields other than hit points, liveness, status and facing are left
    alone by an attack up to the deduction. *)
Lemma afterRoll_ap st a t ty h r :
  ap (unit (afterRoll st a t ty h) r) = ap (unit st r).
Proof.
  unfold afterRoll. destruct h.
  - destruct (snd (applyDamage _ t (attackDamage ty))).
    + rewrite unit_setUnitDead, unit_applyDamage, unit_faceTarget. simpl.
      unit_cases; reflexivity.
    + rewrite unit_applyDamage, unit_faceTarget. simpl. unit_cases; reflexivity.
  - rewrite unit_faceTarget. simpl. unit_cases; reflexivity.
Qed.

Lemma executeAttack_ap st a t ty roll r :
  ap (unit (fst (executeAttack st a t ty roll)) r)
  = if Nat.eqb r a then Z.max 0 (ap (unit st r) - 1) else ap (unit st r).
Proof.
  rewrite executeAttack_eq. cbv zeta. cbn [fst]. rewrite unit_modify.
  destruct (Nat.eqb r a) eqn:E.
  - apply Nat.eqb_eq in E. subst r. cbn [ap withAp]. now rewrite afterRoll_ap.
  - apply afterRoll_ap.
Qed.

Lemma setOverwatch_ap st u r :
  ap (unit (setOverwatch st u) r)
  = if Nat.eqb r u then Z.max 0 (ap (unit st r) - 1) else ap (unit st r).
Proof.
  unfold setOverwatch, setUnitStatus, modify; simpl.
  rewrite !Nat.eqb_refl. destruct (Nat.eqb r u) eqn:E; [|reflexivity].
  apply Nat.eqb_eq in E. subst. reflexivity.
Qed.

Lemma setHunker_ap st u r :
  ap (unit (setHunker st u) r)
  = if Nat.eqb r u then Z.max 0 (ap (unit st r) - 1) else ap (unit st r).
Proof.
  unfold setHunker, setUnitStatus, modify; simpl.
  rewrite !Nat.eqb_refl. destruct (Nat.eqb r u) eqn:E; [|reflexivity].
  apply Nat.eqb_eq in E. subst. reflexivity.
Qed.

Lemma executeOverwatchShot_ap st w m roll r :
  ap (unit (fst (executeOverwatchShot st w m roll)) r)
  = if Nat.eqb r w then Z.max 0 (ap (unit st r) - 1) else ap (unit st r).
Proof.
  unfold executeOverwatchShot.
  pose proof (executeAttack_ap st w m Ranged roll r) as H.
  destruct (executeAttack st w m Ranged roll) as [st' res]. simpl in *.
  unfold modify; simpl. destruct (Nat.eqb r w); exact H.
Qed.

Lemma afterRoll_faction st a t ty h r :
  faction (unit (afterRoll st a t ty h) r) = faction (unit st r).
Proof.
  unfold afterRoll. destruct h.
  - destruct (snd (applyDamage _ t (attackDamage ty))).
    + rewrite unit_setUnitDead, unit_applyDamage, unit_faceTarget. simpl.
      unit_cases; reflexivity.
    + rewrite unit_applyDamage, unit_faceTarget. simpl. unit_cases; reflexivity.
  - rewrite unit_faceTarget. simpl. unit_cases; reflexivity.
Qed.

Lemma afterRoll_sides st a t ty h :
  playerFaction (afterRoll st a t ty h) = playerFaction st
  /\ aiFaction (afterRoll st a t ty h) = aiFaction st.
Proof.
  unfold afterRoll. destruct h; [|split; reflexivity].
  unfold applyDamage, setUnitDead.
  repeat match goal with |- context [if ?c then _ else _] => destruct c end;
    split; reflexivity.
Qed.

Lemma executeOverwatchShot_static st w m roll :
  let st' := fst (executeOverwatchShot st w m roll) in
  (forall r, faction (unit st' r) = faction (unit st r))
  /\ playerFaction st' = playerFaction st
  /\ aiFaction st' = aiFaction st.
Proof.
  unfold executeOverwatchShot.
  pose proof (executeAttack_eq st w m Ranged roll) as H. cbv zeta in H.
  rewrite H. cbn [fst].
  destruct (afterRoll_sides st w m Ranged
              (PrimFloat.leb roll (fst (calculateHitChance st w m Ranged)))) as [Hp Ha].
  split; [|split; [exact Hp | exact Ha]].
  intros r. unfold modify; simpl.
  unit_cases; simpl; apply afterRoll_faction.
Qed.

Lemma faction_eqb_eq a b : faction_eqb a b = true <-> a = b.
Proof. destruct a, b; simpl; split; congruence. Qed.

Lemma status_eqb_eq a b : status_eqb a b = true <-> a = b.
Proof. destruct a, b; simpl; split; congruence. Qed.

Lemma checkOverwatch_enemy st u f t w :
  In w (checkOverwatch st u f t) ->
  In w (units st)
  /\ faction (unit st w)
     = (if faction_eqb (faction (unit st u)) (playerFaction st)
        then aiFaction st else playerFaction st)
  /\ alive (unit st w) = true
  /\ overwatchTriggers st t w = true.
Proof.
  unfold checkOverwatch, getAliveUnits. rewrite !filter_In, andb_true_iff.
  rewrite faction_eqb_eq. tauto.
Qed.

Lemma checkOverwatch_not_self st u f t w :
  playerFaction st <> aiFaction st ->
  In w (checkOverwatch st u f t) -> w <> u.
Proof.
  intros Hsides Hin Heq. subst w.
  apply checkOverwatch_enemy in Hin. destruct Hin as [_ [Hf _]].
  destruct (faction_eqb (faction (unit st u)) (playerFaction st)) eqn:E.
  - apply faction_eqb_eq in E. congruence.
  - rewrite Hf in E. destruct (playerFaction st); discriminate.
Qed.

Lemma overwatchShots_ap rng u : forall triggers n st,
  let st' := fst (fst (overwatchShots rng n st u triggers)) in
  (apNonneg st -> apNonneg st')
  /\ (~ In u triggers -> ap (unit st' u) = ap (unit st u))
  /\ (forall r, faction (unit st' r) = faction (unit st r))
  /\ playerFaction st' = playerFaction st
  /\ aiFaction st' = aiFaction st.
Proof.
  induction triggers as [|w more IH]; intros n st; simpl.
  - repeat split; auto.
  - pose proof (executeOverwatchShot_static st w u (rng n)) as Hs.
    pose proof (executeOverwatchShot_ap st w u (rng n)) as Hap.
    destruct (executeOverwatchShot st w u (rng n)) as [st1 res].
    cbv zeta in Hs. cbn [fst] in Hs, Hap. destruct Hs as [Hf [Hp Ha]].
    assert (Hnn : apNonneg st -> apNonneg st1).
    { intros H r. rewrite Hap. specialize (H r). destruct (Nat.eqb r w); lia. }
    assert (Hu : ~ (w = u \/ In u more) -> ap (unit st1 u) = ap (unit st u)).
    { intros H. rewrite Hap. destruct (Nat.eqb u w) eqn:E; [|reflexivity].
      apply Nat.eqb_eq in E. exfalso. apply H. left. congruence. }
    destruct (negb (alive (unit st1 u))).
    + simpl. repeat split; auto.
    + specialize (IH (S n) st1). cbv zeta in IH.
      destruct IH as [I1 [I2 [I3 [I4 I5]]]].
      repeat split.
      * auto.
      * intros H. rewrite I2 by tauto. auto.
      * intros r. rewrite I3. apply Hf.
      * congruence.
      * congruence.
Qed.

Lemma overwatchAlongPath_ap rng u : forall path n st from trig,
  let st' := fst (fst (overwatchAlongPath rng n st u from path trig)) in
  (apNonneg st -> apNonneg st')
  /\ (playerFaction st <> aiFaction st -> ap (unit st' u) = ap (unit st u))
  /\ (forall r, faction (unit st' r) = faction (unit st r))
  /\ playerFaction st' = playerFaction st
  /\ aiFaction st' = aiFaction st.
Proof.
  induction path as [|toTile more IH]; intros n st from trig; simpl.
  - repeat split; auto.
  - pose proof (overwatchShots_ap rng u (checkOverwatch st u from toTile) n st) as Hs.
    assert (Hself : playerFaction st <> aiFaction st ->
                    ~ In u (checkOverwatch st u from toTile)).
    { intros Hsides Hin.
      now apply (checkOverwatch_not_self st u from toTile u Hsides Hin). }
    destruct (overwatchShots rng n st u (checkOverwatch st u from toTile))
      as [[st1 n1] died].
    cbv zeta in Hs. cbn [fst] in Hs. destruct Hs as [S1 [S2 [S3 [S4 S5]]]].
    destruct died.
    + simpl. repeat split; auto.
    + specialize (IH n1 st1 toTile
                     (trig || negb (Nat.eqb (length (checkOverwatch st u from toTile)) 0))).
      cbv zeta in IH. destruct IH as [I1 [I2 [I3 [I4 I5]]]].
      repeat split.
      * auto.
      * intros H. rewrite I2 by congruence. auto.
      * intros r. rewrite I3. apply S3.
      * congruence.
      * congruence.
Qed.

Lemma fold_modify_field {A : Type} (proj : Unit -> A) (u : UnitRef)
      (f : Pos -> Unit -> Unit) :
  (forall p x, proj (f p x) = proj x) ->
  forall path st r,
    proj (unit (fold_left (fun st p => modify u (f p) st) path st) r)
    = proj (unit st r).
Proof.
  intros Hf. induction path as [|p path IH]; intros st r; simpl; [reflexivity|].
  rewrite IH. rewrite unit_modify. destruct (Nat.eqb r u); auto.
Qed.

Lemma fold_modify_sides (u : UnitRef) (f : Pos -> Unit -> Unit) :
  forall path st,
    playerFaction (fold_left (fun st p => modify u (f p) st) path st)
    = playerFaction st
    /\ aiFaction (fold_left (fun st p => modify u (f p) st) path st)
       = aiFaction st.
Proof.
  induction path as [|p path IH]; intros st; simpl; [split; reflexivity|].
  destruct (IH (modify u (f p) st)) as [H1 H2]. split; assumption.
Qed.

Lemma moveUnit_ap st u path r :
  ap (unit (moveUnit st u path) r) = ap (unit st r).
Proof.
  unfold moveUnit. destruct path as [|p path]; [reflexivity|].
  destruct (lastTwo (p :: path)) as [[a b]|].
  - rewrite unit_modify.
    assert (H : forall x, ap (unit (withGrid x st) r) = ap (unit st r)) by reflexivity.
    destruct (Nat.eqb r u); cbn [ap withFacing withGrid unit];
      rewrite (fold_modify_field ap u withTile) by reflexivity; reflexivity.
  - cbn [ap withGrid unit].
    rewrite (fold_modify_field ap u withTile) by reflexivity; reflexivity.
Qed.

Lemma moveUnit_sides st u path :
  playerFaction (moveUnit st u path) = playerFaction st
  /\ aiFaction (moveUnit st u path) = aiFaction st.
Proof.
  unfold moveUnit. destruct path as [|p path]; [split; reflexivity|].
  pose proof (fold_modify_sides u withTile (p :: path)
                (withGrid (clearOccupant (grid st) (col (tile (unit st u)))
                                         (row (tile (unit st u)))) st)) as H.
  destruct (lastTwo (p :: path)) as [[a b]|];
    cbn [playerFaction aiFaction withGrid modify withUnit]; exact H.
Qed.

Lemma endActivation_ap st u r :
  ap (unit (endActivation st u) r) = ap (unit st r).
Proof.
  unfold endActivation, markActivated.
  destruct (status_eqb _ READY); unfold modify; simpl; unit_cases; reflexivity.
Qed.

(** ** Killing blow *)

Lemma getTile_updTile g c r f c' r' :
  getTile (updTile g c r f) c' r'
  = match getTile g c' r' with
    | Some t => Some (if (c' =? c) && (r' =? r) then f t else t)
    | None => None
    end.
Proof.
  unfold getTile, updTile; simpl.
  destruct ((c' <? 0) || (c' >=? gridWidth g) || (r' <? 0) || (r' >=? gridHeight g));
    reflexivity.
Qed.

Lemma getTile_clearOccupant_same g c r :
  getTile (clearOccupant g c r) c r
  = option_map (withOccupant None) (getTile g c r).
Proof.
  unfold clearOccupant. destruct (getTile g c r) eqn:E.
  - rewrite getTile_updTile, E, !Z.eqb_refl. reflexivity.
  - rewrite E. reflexivity.
Qed.

Lemma afterRoll_tile st a t ty h r :
  tile (unit (afterRoll st a t ty h) r) = tile (unit st r).
Proof.
  unfold afterRoll. destruct h.
  - destruct (snd (applyDamage _ t (attackDamage ty))).
    + rewrite unit_setUnitDead, unit_applyDamage, unit_faceTarget. simpl.
      unit_cases; reflexivity.
    + rewrite unit_applyDamage, unit_faceTarget. simpl. unit_cases; reflexivity.
  - rewrite unit_faceTarget. simpl. unit_cases; reflexivity.
Qed.

(** C7. When an attack hits and its damage brings the target's hit
    points to 0 or below, [executeAttack] reports the kill and leaves the
    target with status Dead, not alive, at 0 hit points and on the same
    tile; if that tile is on the grid, its occupant is cleared (the
    other fields of the tile are untouched) and the next [isWalkable]
    query on it answers the tile's walkable flag, so it answers true
    when the terrain is walkable. *)
Theorem killing_blow_frees_tile (st : Game) (attacker target : UnitRef)
        (attackType : AttackType) (roll : float) :
  PrimFloat.leb roll (fst (calculateHitChance st attacker target attackType)) = true ->
  hp (unit st target) - attackDamage attackType <= 0 ->
  let st' := fst (executeAttack st attacker target attackType roll) in
  let res := snd (executeAttack st attacker target attackType roll) in
  let c := col (tile (unit st target)) in
  let r := row (tile (unit st target)) in
  hit res = true /\ killed res = true
  /\ status (unit st' target) = DEAD
  /\ alive (unit st' target) = false
  /\ hp (unit st' target) = 0
  /\ tile (unit st' target) = tile (unit st target)
  /\ (forall t, getTile (grid st) c r = Some t ->
        getTile (grid st') c r = Some (withOccupant None t)
        /\ isWalkable (grid st') c r = walkable t).
Proof.
  intros Hhit Hdmg.
  pose proof (executeAttack_eq st attacker target attackType roll) as E.
  cbv zeta in E. rewrite Hhit in E.
  set (st1 := faceTarget (withPhase COMBAT_ANIMATION st) attacker
                         (tile (unit st target))) in *.
  assert (Hhp : hp (unit st1 target) = hp (unit st target)).
  { unfold st1. rewrite unit_faceTarget. destruct (Nat.eqb target attacker); reflexivity. }
  assert (Htile1 : tile (unit st1 target) = tile (unit st target)).
  { unfold st1. rewrite unit_faceTarget. destruct (Nat.eqb target attacker); reflexivity. }
  assert (Hk : snd (applyDamage st1 target (attackDamage attackType)) = true).
  { rewrite killed_applyDamage, Hhp. apply Z.leb_le. exact Hdmg. }
  rewrite Hk in E. cbv zeta. rewrite E. cbn [fst snd hit killed].
  unfold afterRoll. fold st1. rewrite Hk.
  set (st2 := fst (applyDamage st1 target (attackDamage attackType))).
  assert (Htile2 : tile (unit st2 target) = tile (unit st target)).
  { unfold st2. rewrite unit_applyDamage, Nat.eqb_refl. exact Htile1. }
  assert (Hg2 : grid st2 = grid st).
  { unfold st2. rewrite grid_applyDamage. reflexivity. }
  split; [reflexivity|]. split; [reflexivity|].
  rewrite !unit_modify, !unit_setUnitDead, Nat.eqb_refl.
  repeat split;
    try (destruct (Nat.eqb target attacker); cbn; now rewrite ?Htile2).
  - rewrite grid_modify, grid_setUnitDead, Htile2, Hg2.
    rewrite getTile_clearOccupant_same, H. reflexivity.
  - unfold isWalkable.
    rewrite grid_modify, grid_setUnitDead, Htile2, Hg2.
    rewrite getTile_clearOccupant_same, H. simpl. apply andb_true_r.
Qed.

(** In the duel, the third hit on unit 1 kills it: its tile (5,0), held
    and not walkable before, is walkable after. *)
Lemma killing_blow_frees_tile_witness :
  let st := fst (executeAttack (fst (executeAttack duel 0%nat 1%nat Ranged 0%float))
                               0%nat 1%nat Ranged 0%float) in
  let st' := fst (executeAttack st 0%nat 1%nat Ranged 0%float) in
  occupant (tiles (grid st) 5 0) = Some 1%nat
  /\ isWalkable (grid st) 5 0 = false
  /\ status (unit st' 1%nat) = DEAD
  /\ isWalkable (grid st') 5 0 = true.
Proof.
  set (st := fst (executeAttack (fst (executeAttack duel 0%nat 1%nat Ranged 0%float))
                               0%nat 1%nat Ranged 0%float)).
  assert (H1 : PrimFloat.leb 0 (fst (calculateHitChance st 0%nat 1%nat Ranged)) = true)
    by (vm_compute; reflexivity).
  assert (H2 : hp (unit st 1%nat) - attackDamage Ranged <= 0)
    by (vm_compute; discriminate).
  pose proof (killing_blow_frees_tile st 0%nat 1%nat Ranged 0%float H1 H2) as H.
  cbv zeta in H. destruct H as [_ [_ [Hs [_ [_ [_ Ht]]]]]].
  specialize (Ht (tiles (grid st) 5 0) eq_refl). destruct Ht as [_ Hw].
  cbv zeta. split; [vm_compute; reflexivity|]. split; [vm_compute; reflexivity|].
  split; [exact Hs | exact Hw].
Defined.

(** ** Overwatch cone and status *)

(** The paths that do keep the cone in step with the status. *)
Lemma setOverwatch_cone st u : coneIffOverwatch (unit (setOverwatch st u) u).
Proof.
  unfold coneIffOverwatch, setOverwatch, setUnitStatus, modify; simpl.
  rewrite !Nat.eqb_refl; simpl. split; [reflexivity | discriminate].
Qed.

Lemma executeOverwatchShot_cone st w m roll :
  coneIffOverwatch (unit (fst (executeOverwatchShot st w m roll)) w).
Proof.
  unfold executeOverwatchShot.
  destruct (executeAttack st w m Ranged roll) as [st' res]; simpl.
  unfold coneIffOverwatch. rewrite !Nat.eqb_refl; simpl.
  split; [congruence | discriminate].
Qed.

Lemma resetActivation_cone st u r :
  coneIffOverwatch (unit st r) -> coneIffOverwatch (unit (resetActivation st u) r).
Proof.
  unfold resetActivation. intros H.
  destruct (negb (alive (unit st u))); [exact H|].
  rewrite !unit_modify_same. cbn [status withAp withActivated].
  destruct (status_eqb (status (unit st u)) OVERWATCH
            || status_eqb (status (unit st u)) HUNKERED) eqn:E.
  - rewrite !unit_modify. destruct (Nat.eqb r u) eqn:Er; [|exact H].
    unfold coneIffOverwatch; simpl. split; [congruence | discriminate].
  - rewrite !unit_modify. destruct (Nat.eqb r u) eqn:Er; exact H.
Qed.

Lemma resetActivations_cone st :
  (forall r, coneIffOverwatch (unit st r)) ->
  forall r, coneIffOverwatch (unit (resetActivations st) r).
Proof.
  unfold resetActivations. generalize (units st) as us.
  intros us. revert st. induction us as [|u us IH]; intros st H r; simpl.
  - apply H.
  - apply IH. intros r'. apply resetActivation_cone, H.
Qed.

(** The two paths that change the status and leave the cone as it is. *)
Lemma setUnitDead_cone st u :
  status (unit (setUnitDead st u) u) = DEAD
  /\ overwatchCone (unit (setUnitDead st u) u) = overwatchCone (unit st u).
Proof. rewrite unit_setUnitDead, Nat.eqb_refl. split; reflexivity. Qed.

Lemma setHunker_cone st u :
  status (unit (setHunker st u) u) = HUNKERED
  /\ overwatchCone (unit (setHunker st u) u) = overwatchCone (unit st u).
Proof.
  unfold setHunker, setUnitStatus, modify; simpl.
  rewrite !Nat.eqb_refl. split; reflexivity.
Qed.

(** C4 (the code departs from the invariant). A unit killed while on
    overwatch keeps its cone: in the duel, unit 1 goes on overwatch and is
    then hit three times; it ends Dead, not alive, with the cone it
    snapshotted still set, so the equivalence between a set cone and
    status Overwatch fails for it, and the start-of-turn reset, which
    skips dead units, does not repair it. *)
Theorem death_keeps_overwatch_cone :
  status (unit duelOverwatchKilled 1%nat) = DEAD
  /\ alive (unit duelOverwatchKilled 1%nat) = false
  /\ overwatchCone (unit duelOverwatchKilled 1%nat) = Some (mkPos (-1) 0)
  /\ ~ coneIffOverwatch (unit duelOverwatchKilled 1%nat)
  /\ ~ coneIffOverwatch (unit (resetActivations duelOverwatchKilled) 1%nat).
Proof.
  assert (H1 : status (unit duelOverwatchKilled 1%nat) = DEAD) by (vm_compute; reflexivity).
  assert (H2 : overwatchCone (unit duelOverwatchKilled 1%nat) = Some (mkPos (-1) 0))
    by (vm_compute; reflexivity).
  assert (H3 : status (unit (resetActivations duelOverwatchKilled) 1%nat) = DEAD)
    by (vm_compute; reflexivity).
  assert (H4 : overwatchCone (unit (resetActivations duelOverwatchKilled) 1%nat)
               = Some (mkPos (-1) 0)) by (vm_compute; reflexivity).
  split; [exact H1|]. split; [vm_compute; reflexivity|]. split; [exact H2|].
  unfold coneIffOverwatch. split.
  - rewrite H1, H2. intros [H _]. discriminate H. discriminate.
  - rewrite H3, H4. intros [H _]. discriminate H. discriminate.
Qed.

(** ** Activation queue *)

Lemma interleave_nil_r {A : Type} (l : list A) : interleave l [] = l.
Proof. destruct l; reflexivity. Qed.

Lemma skipn_cons_nth {A : Type} (l : list A) : forall k x tl,
  skipn k l = x :: tl ->
  nth_error l k = Some x /\ (k < length l)%nat /\ skipn (S k) l = tl.
Proof.
  induction l as [|y l IH]; intros k x tl H.
  - destruct k; discriminate.
  - destruct k; simpl in *.
    + injection H as -> ->. repeat split. lia.
    + destruct (IH k x tl H) as [H1 [H2 H3]]. repeat split; auto. lia.
Qed.

Lemma skipn_nil_length {A : Type} (l : list A) : forall k,
  skipn k l = [] -> (length l <= k)%nat /\ skipn (S k) l = [].
Proof.
  induction l as [|y l IH]; intros k H.
  - destruct k; simpl; split; auto; lia.
  - destruct k; simpl in *; [discriminate|].
    destruct (IH k H) as [H1 H2]. split; auto. lia.
Qed.

Lemma pushAt_skipn queue l i :
  pushAt queue l i = queue ++ firstn 1 (skipn i l).
Proof.
  unfold pushAt. destruct (skipn i l) as [|x tl] eqn:E.
  - apply skipn_nil_length in E. destruct E as [E _].
    destruct (Nat.ltb i (length l)) eqn:L.
    + apply Nat.ltb_lt in L. lia.
    + simpl. now rewrite app_nil_r.
  - apply skipn_cons_nth in E. destruct E as [E1 [E2 _]].
    apply Nat.ltb_lt in E2. rewrite E2, E1. reflexivity.
Qed.

Lemma zip_loop_interleave (p a : list UnitRef) : forall n k queue,
  fold_left (fun queue i => pushAt (pushAt queue p i) a i) (seq k n) queue
  = queue ++ interleave (firstn n (skipn k p)) (firstn n (skipn k a)).
Proof.
  induction n as [|n IH]; intros k queue.
  - simpl. now rewrite app_nil_r.
  - cbn [seq fold_left]. rewrite IH, !pushAt_skipn, <- !app_assoc. f_equal.
    destruct (skipn k p) as [|x tp] eqn:Ep; destruct (skipn k a) as [|y ta] eqn:Ea.
    + apply skipn_nil_length in Ep, Ea. destruct Ep as [_ ->], Ea as [_ ->].
      rewrite !firstn_nil. reflexivity.
    + apply skipn_nil_length in Ep. apply skipn_cons_nth in Ea.
      destruct Ep as [_ ->], Ea as [_ [_ ->]]. rewrite !firstn_nil. reflexivity.
    + apply skipn_cons_nth in Ep. apply skipn_nil_length in Ea.
      destruct Ep as [_ [_ ->]], Ea as [_ ->]. rewrite !firstn_nil. simpl.
      now rewrite interleave_nil_r.
    + apply skipn_cons_nth in Ep, Ea.
      destruct Ep as [_ [_ ->]], Ea as [_ [_ ->]]. reflexivity.
Qed.

Lemma getUnactivatedUnits_spec st f u :
  In u (getUnactivatedUnits st f) ->
  faction (unit st u) = f /\ alive (unit st u) = true
  /\ activated (unit st u) = false.
Proof.
  unfold getUnactivatedUnits. rewrite filter_In, !andb_true_iff, negb_true_iff.
  rewrite faction_eqb_eq. tauto.
Qed.

(** C9. [buildActivationQueue] stores the round-robin zip of the living,
    not yet activated units of the player's faction and of the AI's
    faction, each in creation order; when each side has 5 such units the
    queue has 10 entries, the even positions holding the player's units
    and the odd positions the AI's, in order. *)
Theorem buildActivationQueue_interleaves (st : Game) :
  let playerUnits := getUnactivatedUnits st (playerFaction st) in
  let aiUnits := getUnactivatedUnits st (aiFaction st) in
  let queue := activationQueue (buildActivationQueue st) in
  queue = interleave playerUnits aiUnits
  /\ (length playerUnits = 5%nat -> length aiUnits = 5%nat ->
      length queue = 10%nat
      /\ forall i, (i < 5)%nat ->
           exists p a,
             nth_error playerUnits i = Some p /\ nth_error aiUnits i = Some a
             /\ nth_error queue (2 * i) = Some p
             /\ nth_error queue (2 * i + 1) = Some a
             /\ faction (unit st p) = playerFaction st
             /\ faction (unit st a) = aiFaction st).
Proof.
  intros playerUnits aiUnits queue.
  assert (Hq : queue = interleave playerUnits aiUnits).
  { unfold queue, buildActivationQueue. cbn [activationQueue withActivationQueue].
    fold playerUnits aiUnits. rewrite zip_loop_interleave. simpl.
    rewrite !firstn_all2 by lia. reflexivity. }
  split; [exact Hq|].
  intros Hp Ha.
  assert (Hfp : forall u, In u playerUnits -> faction (unit st u) = playerFaction st).
  { intros u Hu. now apply getUnactivatedUnits_spec in Hu. }
  assert (Hfa : forall u, In u aiUnits -> faction (unit st u) = aiFaction st).
  { intros u Hu. now apply getUnactivatedUnits_spec in Hu. }
  rewrite Hq. clearbody playerUnits aiUnits. clear Hq queue.
  destruct playerUnits as [|p0 [|p1 [|p2 [|p3 [|p4 [|? ?]]]]]]; try discriminate.
  destruct aiUnits as [|a0 [|a1 [|a2 [|a3 [|a4 [|? ?]]]]]]; try discriminate.
  split; [reflexivity|].
  intros i Hi.
  destruct i as [|[|[|[|[|i]]]]]; [ | | | | | lia];
    eexists; eexists; simpl;
    (repeat split; [apply Hfp | apply Hfa]); simpl; tauto.
Qed.

(** The two squads of five give the queue 0, 1, ..., 9: player and AI
    units in turn. *)
Lemma buildActivationQueue_interleaves_witness :
  length (getUnactivatedUnits twoSquads orderOfTheAbyss) = 5%nat
  /\ length (getUnactivatedUnits twoSquads germani) = 5%nat
  /\ activationQueue (buildActivationQueue twoSquads)
     = [0; 1; 2; 3; 4; 5; 6; 7; 8; 9]%nat
  /\ length (activationQueue (buildActivationQueue twoSquads)) = 10%nat.
Proof.
  pose proof (buildActivationQueue_interleaves twoSquads) as [H Hlen].
  cbv zeta in Hlen. destruct (Hlen eq_refl eq_refl) as [H10 _].
  split; [reflexivity|]. split; [reflexivity|].
  split; [rewrite H; vm_compute; reflexivity | exact H10].
Defined.

(** ** Cover and hit chance *)

Lemma coverStep_tier g best pos : coverTier best -> coverTier (coverStep g best pos).
Proof.
  intros H. unfold coverStep.
  destruct (getTile g (col pos) (row pos)) as [t|]; [|exact H].
  destruct (isFull (tileCover t) && hasObject t).
  - destruct (gtb _ _); [right; right; reflexivity | exact H].
  - destruct (isHalf (tileCover t) && hasObject t); [|exact H].
    destruct (gtb _ _); [right; left; reflexivity | exact H].
Qed.

Lemma getCoverBetween_tier g a t : coverTier (getCoverBetween g a t).
Proof.
  unfold getCoverBetween.
  assert (H : coverTier (mkCoverResult CoverNone 0%float)) by (left; reflexivity).
  revert H. generalize (mkCoverResult CoverNone 0%float) as best.
  induction (coverCheckPositions a t) as [|p ps IH]; intros best H; simpl.
  - exact H.
  - apply IH, coverStep_tier, H.
Qed.

Lemma checkLOS_cases g fc fr tc tr :
  checkLOS g fc fr tc tr = mkLosResult false 0%float LosBlocked
  \/ (checkLOS g fc fr tc tr
      = mkLosResult true (penalty (getCoverBetween g (mkPos fc fr) (mkPos tc tr)))
                    (LosCoverOf (coverResultType
                                   (getCoverBetween g (mkPos fc fr) (mkPos tc tr))))).
Proof.
  unfold checkLOS. destruct (existsb _ _); [left | right]; reflexivity.
Qed.

Lemma checkLOS_penalty g fc fr tc tr :
  coverPenalty (checkLOS g fc fr tc tr) = 0%float
  \/ coverPenalty (checkLOS g fc fr tc tr) = CONSTANTS.COVER_BONUS_half
  \/ coverPenalty (checkLOS g fc fr tc tr) = CONSTANTS.COVER_BONUS_full.
Proof.
  destruct (checkLOS_cases g fc fr tc tr) as [-> | ->]; simpl; [left; reflexivity|].
  destruct (getCoverBetween_tier g (mkPos fc fr) (mkPos tc tr)) as [-> | [-> | ->]];
    simpl; auto.
Qed.

(** C1. For a ranged attack, the chance [calculateHitChance] returns is
    the clamp to [MIN_HIT_CHANCE, MAX_HIT_CHANCE] of the sum, taken from
    the left in double arithmetic, of: the base ranged accuracy, the
    cover penalty [cp] that [checkLOS] reports from the attacker's tile
    to the target's, that penalty once more when the target is Hunkered
    and the penalty is not 0, the flanking bonus when [checkFlanking]
    holds for the target's facing, and -0.05 when the Chebyshev distance
    is at least [rangedRange - 1].  The penalty [cp] is the one
    [getCoverBetween] finds at the target when the line of sight is
    clear and 0 when the line is blocked; it is 0, -0.25 or -0.5.  The
    breakdown holds the base, each modifier that was applied (and only
    those), the ranged damage and the final chance. *)
Theorem calculateHitChance_ranged (st : Game) (attacker target : UnitRef) :
  let a := unit st attacker in
  let t := unit st target in
  let los := checkLOS (grid st) (col (tile a)) (row (tile a))
                      (col (tile t)) (row (tile t)) in
  let cp := coverPenalty los in
  let hunkered := status_eqb (status t) HUNKERED in
  let flanked := checkFlanking (tile a) (tile t) (Some (facing t)) in
  let nearMaxRange := tileDistance (tile a) (tile t) >=? CONSTANTS.rangedRange - 1 in
  let chance := fst (calculateHitChance st attacker target Ranged) in
  let breakdown := snd (calculateHitChance st attacker target Ranged) in
  chance = clamp (rangedRawChance cp hunkered flanked nearMaxRange)
                 CONSTANTS.MIN_HIT_CHANCE CONSTANTS.MAX_HIT_CHANCE
  /\ (CONSTANTS.MIN_HIT_CHANCE <=? chance)%float = true
  /\ (chance <=? CONSTANTS.MAX_HIT_CHANCE)%float = true
  /\ cp = (if clear los
           then penalty (getCoverBetween (grid st) (tile a) (tile t))
           else 0%float)
  /\ (cp = 0%float \/ cp = CONSTANTS.COVER_BONUS_half
      \/ cp = CONSTANTS.COVER_BONUS_full)
  /\ base breakdown = Some CONSTANTS.rangedAccuracy
  /\ breakdownCoverPenalty breakdown
     = (if (cp =? 0)%float then None else Some cp)
  /\ hunkeredPenalty breakdown
     = (if hunkered && negb (cp =? 0)%float then Some cp else None)
  /\ flankingBonus breakdown
     = (if flanked then Some CONSTANTS.FLANKING_BONUS else None)
  /\ rangePenalty breakdown
     = (if nearMaxRange then Some (-0.05)%float else None)
  /\ damage breakdown = Some CONSTANTS.rangedDamage
  /\ final breakdown = Some chance.
Proof.
  intros a t los cp hunkered flanked nearMaxRange chance breakdown.
  assert (Hclear : cp = (if clear los
                         then penalty (getCoverBetween (grid st) (tile a) (tile t))
                         else 0%float)).
  { unfold cp, los.
    destruct (checkLOS_cases (grid st) (col (tile a)) (row (tile a))
                             (col (tile t)) (row (tile t))) as [-> | ->]; simpl.
    - reflexivity.
    - destruct (tile a), (tile t); reflexivity. }
  assert (Htier : cp = 0%float \/ cp = CONSTANTS.COVER_BONUS_half
                  \/ cp = CONSTANTS.COVER_BONUS_full)
    by apply checkLOS_penalty.
  split; [|split; [|split; [|split; [exact Hclear|split; [exact Htier|]]]]];
    clear Hclear;
    unfold chance, breakdown, calculateHitChance, rangedRawChance;
    fold a t; fold los; fold cp; fold hunkered; fold flanked; fold nearMaxRange;
    cbn [fst snd base breakdownCoverPenalty hunkeredPenalty flankingBonus
         rangePenalty damage final];
    clearbody hunkered flanked nearMaxRange; clearbody cp;
    destruct Htier as [E | [E | E]]; subst cp;
    destruct hunkered, flanked, nearMaxRange;
    (repeat split; reflexivity).
Qed.

(** C1, counterexample to the wording with the target's cover.  In the
    duel with a wall (full cover, an object) on (4,0), unit 0 on (0,0)
    shoots at unit 1 on (5,0).  The cover of the target from the
    attacker's direction is full, penalty -0.5, but the wall stands on
    the line of sight, [checkLOS] reports the line blocked with penalty
    0, and the chance returned is the base 0.7 with no cover entry in
    the breakdown, where base plus the penalty of the target's cover
    would be 0.19999999999999996.  Such a shot is fired when a watcher
    on overwatch, triggered on an earlier tile of a path, shoots at the
    mover standing on the last tile. *)
Lemma calculateHitChance_blocked_line_counterexample :
  let st := duelWall in
  let a := unit st 0%nat in
  let t := unit st 1%nat in
  getCoverBetween (grid st) (tile a) (tile t)
  = mkCoverResult CoverFull CONSTANTS.COVER_BONUS_full
  /\ clear (checkLOS (grid st) (col (tile a)) (row (tile a))
                     (col (tile t)) (row (tile t))) = false
  /\ fst (calculateHitChance st 0%nat 1%nat Ranged) = 0.7%float
  /\ breakdownCoverPenalty (snd (calculateHitChance st 0%nat 1%nat Ranged)) = None
  /\ clamp (rangedRawChance CONSTANTS.COVER_BONUS_full false false false)
           CONSTANTS.MIN_HIT_CHANCE CONSTANTS.MAX_HIT_CHANCE
     = 0.19999999999999996%float
  /\ fst (calculateHitChance st 0%nat 1%nat Ranged)
     <> clamp (rangedRawChance CONSTANTS.COVER_BONUS_full false false false)
              CONSTANTS.MIN_HIT_CHANCE CONSTANTS.MAX_HIT_CHANCE.
Proof.
  cbv zeta.
  split; [vm_compute; reflexivity|]. split; [vm_compute; reflexivity|].
  split; [vm_compute; reflexivity|]. split; [vm_compute; reflexivity|].
  split; [vm_compute; reflexivity|].
  intros H.
  assert (E : (fst (calculateHitChance duelWall 0%nat 1%nat Ranged)
               =? clamp (rangedRawChance CONSTANTS.COVER_BONUS_full false false false)
                        CONSTANTS.MIN_HIT_CHANCE CONSTANTS.MAX_HIT_CHANCE)%float
              = false) by (vm_compute; reflexivity).
  rewrite <- H in E. vm_compute in E. discriminate.
Qed.

(** The shot through the wall as it is fired in play.  In [duelAmbush]
    the player moves unit 0 from (0,0) to (2,1).  The path found is
    (1,0), (2,1); the unit is moved first and the path checked after.
    The watcher on (5,0) sees (1,0), so the first step triggers it, and
    its shot is aimed at the mover where it now stands, on (2,1), behind
    the wall on (3,1) and facing (1,1), which the watcher flanks.  The
    line is blocked and the target's cover from the watcher's direction
    is full, yet the chance used is base plus flanking bonus, 0.85,
    with no cover entry in the breakdown.  A roll of 0.5 hits and takes
    4 hit points, where the sum with the penalty of full cover, 0.35,
    would have missed. *)
Example scenario_overwatch_through_wall :
  let path := [mkPos 1 0; mkPos 2 1] in
  let moved :=
    moveUnit (withPhase COMBAT_ANIMATION (modify 0%nat (withAp 1) duelAmbush))
             0%nat path in
  findPath 31 (grid duelAmbush) (mkPos 0 0) (mkPos 2 1) = Some (Some path)
  /\ checkOverwatch moved 0%nat (mkPos 0 0) (mkPos 1 0) = [1%nat]
  /\ tile (unit moved 0%nat) = mkPos 2 1
  /\ alive (unit moved 0%nat) = true
  /\ clear (checkLOS (grid moved) 5 0 2 1) = false
  /\ getCoverBetween (grid moved) (mkPos 5 0) (mkPos 2 1)
     = mkCoverResult CoverFull CONSTANTS.COVER_BONUS_full
  /\ fst (calculateHitChance moved 1%nat 0%nat Ranged) = 0.85%float
  /\ breakdownCoverPenalty (snd (calculateHitChance moved 1%nat 0%nat Ranged))
     = None
  /\ clamp (rangedRawChance CONSTANTS.COVER_BONUS_full false true false)
           CONSTANTS.MIN_HIT_CHANCE CONSTANTS.MAX_HIT_CHANCE = 0.35%float
  /\ hit (snd (executeOverwatchShot moved 1%nat 0%nat 0.5%float)) = true
  /\ hp (unit duelAmbush 0%nat) = 10
  /\ option_map (fun res => (snd res, hp (unit (fst res) 0%nat)))
                (onPlayerMoveClick 31 (fun _ => 0.5%float) duelAmbush 2 1)
     = Some (MoveToAction, 6).
Proof.
  cbv zeta.
  do 11 (split; [vm_compute; reflexivity|]).
  vm_compute. reflexivity.
Qed.

(** ** Overwatch triggers *)

Lemma overwatchTriggers_spec st toTile w :
  overwatchTriggers st toTile w = true
  <-> status (unit st w) = OVERWATCH /\ triggersByWatcherOffset st toTile w.
Proof.
  unfold overwatchTriggers, triggersByWatcherOffset. cbv zeta.
  destruct (status_eqb (status (unit st w)) OVERWATCH) eqn:Es; simpl.
  - apply status_eqb_eq in Es.
    destruct (tileDistance (tile (unit st w)) toTile >? CONSTANTS.OVERWATCH_range) eqn:Ed.
    + split; [discriminate|]. intros [_ [H _]]. apply Z.gtb_lt in Ed. lia.
    + assert (Hd : tileDistance (tile (unit st w)) toTile <= CONSTANTS.OVERWATCH_range).
      { destruct (Z.gtb_spec (tileDistance (tile (unit st w)) toTile)
                             CONSTANTS.OVERWATCH_range); [discriminate | lia]. }
      destruct (clear (checkLOS (grid st) (col (tile (unit st w)))
                                (row (tile (unit st w))) (col toTile) (row toTile)));
        simpl.
      * destruct (overwatchCone (unit st w)) as [cone|].
        -- destruct (_ <? 0) eqn:Ec.
           ++ split; [discriminate|]. intros [_ [_ [_ H]]].
              specialize (H cone eq_refl). apply Z.ltb_lt in Ec. lia.
           ++ split; [|reflexivity]. intros _. repeat split; auto.
              intros c Hc. injection Hc as <-. apply Z.ltb_ge in Ec. exact Ec.
        -- split; [|reflexivity]. intros _. repeat split; auto. discriminate.
      * split; [discriminate|]. intros [_ [_ [H _]]]. discriminate.
  - split; [discriminate|]. intros [H _].
    apply status_eqb_eq in H. congruence.
Qed.

(** C2, as the code has it. [checkOverwatch] returns exactly the units of
    the mover's enemy faction that are alive, on Overwatch, within
    overwatch range of [toTile] (Chebyshev distance), with a clear line
    of sight to [toTile], and whose cone, when one is recorded, has a
    non-negative dot product with the offset from the watcher's own tile
    to [toTile].  The offset is not normalised and [fromTile] plays no
    part: the test is on where the mover arrives relative to the
    watcher, not on the direction of the step. *)
Theorem checkOverwatch_triggers (st : Game) (movingUnit : UnitRef)
        (fromTile toTile : Pos) (watcher : UnitRef) :
  In watcher (checkOverwatch st movingUnit fromTile toTile)
  <-> In watcher (units st)
      /\ faction (unit st watcher) = enemyFactionOf st movingUnit
      /\ alive (unit st watcher) = true
      /\ status (unit st watcher) = OVERWATCH
      /\ triggersByWatcherOffset st toTile watcher.
Proof.
  unfold checkOverwatch, getAliveUnits, enemyFactionOf.
  rewrite !filter_In, andb_true_iff, faction_eqb_eq, overwatchTriggers_spec.
  tauto.
Qed.

(** C2, counterexample to the wording with the movement direction. Unit
    1 stands at (5,0) on overwatch with cone (-1,0); unit 0 walks the path
    (1,0), (2,0) towards it, and the check is the one made for the second
    step, from (1,0) to (2,0).  The step points against the cone (dot
    product -1), yet the arrival tile lies inside the cone as seen from
    the watcher (dot product 3), in range and in sight: the watcher is
    returned. *)
Lemma checkOverwatch_movement_direction_counterexample :
  let st := moveUnit (setOverwatch duel 1%nat) 0%nat [mkPos 1 0; mkPos 2 0] in
  In 1%nat (units st)
  /\ faction (unit st 1%nat) = enemyFactionOf st 0%nat
  /\ alive (unit st 1%nat) = true
  /\ status (unit st 1%nat) = OVERWATCH
  /\ In 1%nat (checkOverwatch st 0%nat (mkPos 1 0) (mkPos 2 0))
  /\ ~ triggersByMovementDirection st (mkPos 1 0) (mkPos 2 0) 1%nat.
Proof.
  cbv zeta.
  split; [simpl; tauto|]. split; [reflexivity|]. split; [reflexivity|].
  split; [reflexivity|]. split.
  - vm_compute. tauto.
  - intros [_ [_ H]]. specialize (H (mkPos (-1) 0) eq_refl).
    vm_compute in H. apply H. reflexivity.
Qed.

(** ** The traced line *)

Section Bresenham.

(** The constants of one call of [bresenhamLine]. *)
Variables x1 y1 dx dy sx sy : Z.
Hypothesis dx_nonneg : 0 <= dx.
Hypothesis dy_nonneg : 0 <= dy.
Hypothesis sx_unit : sx = 1 \/ sx = -1.
Hypothesis sy_unit : sy = 1 \/ sy = -1.

Lemma bresenham_step_inv x0 y0 err :
  bresenham_inv x1 y1 dx dy sx sy x0 y0 err ->
  (x0 =? x1) && (y0 =? y1) = false ->
  let '(x0', y0', err') := bresenham_step dx dy sx sy x0 y0 err in
  bresenham_inv x1 y1 dx dy sx sy x0' y0' err'
  /\ stepsLeft sx x1 x0' + stepsLeft sy y1 y0'
     < stepsLeft sx x1 x0 + stepsLeft sy y1 y0.
Proof.
  unfold bresenham_inv, bresenham_step, stepsLeft.
  intros [Hx [Hy He]] Hne.
  assert (Hpos : 0 < sx * (x1 - x0) + sy * (y1 - y0)).
  { apply andb_false_iff in Hne.
    destruct Hne as [H | H]; apply Z.eqb_neq in H;
      destruct sx_unit, sy_unit; subst sx sy; lia. }
  destruct (2 * err >? - dy) eqn:E1; destruct (2 * err <? dx) eqn:E2;
    [apply Z.gtb_lt in E1 | apply Z.gtb_lt in E1 | | ];
    try apply Z.ltb_lt in E2; try apply Z.ltb_ge in E2.
  - (* both steps *)
    assert (1 <= sx * (x1 - x0)) by nia.
    assert (1 <= sy * (y1 - y0)) by nia.
    destruct sx_unit, sy_unit; subst sx sy; repeat split; nia.
  - (* column step only *)
    assert (1 <= sx * (x1 - x0)) by nia.
    destruct sx_unit; subst sx; repeat split; nia.
  - (* row step only *)
    assert (Hle : 2 * err <= - dy).
    { destruct (Z.gtb_spec (2 * err) (- dy)); [discriminate | lia]. }
    assert (1 <= sy * (y1 - y0)) by nia.
    destruct sy_unit; subst sy; repeat split; nia.
  - (* no step: impossible away from the end point *)
    assert (Hle : 2 * err <= - dy).
    { destruct (Z.gtb_spec (2 * err) (- dy)); [discriminate | lia]. }
    exfalso. nia.
Qed.

Lemma bresenham_loop_total : forall fuel x0 y0 err tiles,
  bresenham_inv x1 y1 dx dy sx sy x0 y0 err ->
  (Z.to_nat (stepsLeft sx x1 x0 + stepsLeft sy y1 y0) <= fuel)%nat ->
  exists line, bresenham_loop fuel x1 y1 dx dy sx sy x0 y0 err tiles = Some line.
Proof.
  induction fuel as [|fuel IH]; intros x0 y0 err tiles Hinv Hfuel;
    simpl; destruct ((x0 =? x1) && (y0 =? y1)) eqn:Hend; eauto.
  - exfalso. pose proof (bresenham_step_inv x0 y0 err Hinv Hend) as H.
    destruct (bresenham_step dx dy sx sy x0 y0 err) as [[x0' y0'] err'].
    destruct H as [[Hx [Hy _]] Hlt]. lia.
  - pose proof (bresenham_step_inv x0 y0 err Hinv Hend) as H.
    destruct (bresenham_step dx dy sx sy x0 y0 err) as [[x0' y0'] err'].
    destruct H as [Hinv' Hlt]. apply IH; [exact Hinv'|].
    destruct Hinv' as [Hx [Hy _]]. lia.
Qed.

End Bresenham.

Lemma bresenham_loop_more_fuel x1 y1 dx dy sx sy :
  forall fuel fuel' x0 y0 err tiles line,
    (fuel <= fuel')%nat ->
    bresenham_loop fuel x1 y1 dx dy sx sy x0 y0 err tiles = Some line ->
    bresenham_loop fuel' x1 y1 dx dy sx sy x0 y0 err tiles = Some line.
Proof.
  induction fuel as [|fuel IH]; intros fuel' x0 y0 err tiles line Hle H.
  - simpl in H. destruct ((x0 =? x1) && (y0 =? y1)) eqn:Hend; [|discriminate].
    destruct fuel'; simpl; rewrite Hend; exact H.
  - destruct fuel' as [|fuel']; [lia|]. simpl in *.
    destruct ((x0 =? x1) && (y0 =? y1)); [exact H|].
    destruct (bresenham_step dx dy sx sy x0 y0 err) as [[x0' y0'] err'].
    apply IH; [lia | exact H].
Qed.

(** The trace of [bresenhamLine] is reached within the budget, and any
    larger budget gives the same trace. *)
Lemma bresenhamLine_total (start end_ : Pos) (fuel : nat) :
  (bresenham_budget start end_ <= fuel)%nat ->
  bresenhamLine_fuel fuel start end_ = Some (bresenhamLine start end_).
Proof.
  intros Hfuel.
  assert (H : exists line,
             bresenhamLine_fuel (bresenham_budget start end_) start end_ = Some line).
  { unfold bresenhamLine_fuel, bresenham_budget.
    apply bresenham_loop_total.
    - lia.
    - lia.
    - destruct (col start <? col end_); auto.
    - destruct (row start <? row end_); auto.
    - unfold bresenham_inv, stepsLeft.
      destruct (Z.ltb_spec (col start) (col end_)), (Z.ltb_spec (row start) (row end_));
        repeat split; try lia; nia.
    - unfold stepsLeft.
      destruct (Z.ltb_spec (col start) (col end_)), (Z.ltb_spec (row start) (row end_));
        lia. }
  destruct H as [line Hline].
  unfold bresenhamLine. rewrite Hline.
  unfold bresenhamLine_fuel in *.
  eapply bresenham_loop_more_fuel; eauto.
Qed.

(** ** Line of sight *)

Lemma losBlockedAt_spec g (to lt : Pos) :
  losBlockedAt g (col to) (row to) lt = true
  <-> lt <> to
      /\ exists tile_, getTile g (col lt) (row lt) = Some tile_
                       /\ tileCover tile_ = CoverFull /\ hasObject tile_ = true.
Proof.
  unfold losBlockedAt. fold (pos_eqb lt to).
  destruct (pos_eqb lt to) eqn:E.
  - apply pos_eqb_eq in E. split; [discriminate | intros [H _]; contradiction].
  - apply pos_eqb_neq in E.
    destruct (getTile g (col lt) (row lt)) as [t|].
    + rewrite andb_true_iff. split.
      * intros [H1 H2]. split; [exact E|]. exists t. repeat split; auto.
        destruct (tileCover t); simpl in H1; congruence.
      * intros [_ [t' [Ht [Hc Ho]]]]. injection Ht as <-. rewrite Hc. auto.
    + split; [discriminate|]. intros [_ [t' [Ht _]]]. discriminate.
Qed.

Lemma blockedBetween_existsb g from to :
  blockedBetween g from to
  <-> existsb (losBlockedAt g (col to) (row to)) (bresenhamLine from to) = true.
Proof.
  unfold blockedBetween. rewrite existsb_exists. split.
  - intros [lt [t [Hin [Hne [Ht [Hc Ho]]]]]]. exists lt. split; [exact Hin|].
    apply losBlockedAt_spec. split; [exact Hne|]. exists t. auto.
  - intros [lt [Hin H]]. apply losBlockedAt_spec in H.
    destruct H as [Hne [t [Ht [Hc Ho]]]]. exists lt, t. auto.
Qed.

(** C6. The line [checkLOS] traces is produced within the budget of
    [bresenhamLine].  When some tile of it other than the target tile is
    on the grid with cover type full and an object placed, [checkLOS]
    returns clear = false, the blocked marker as cover and penalty 0;
    otherwise it returns clear = true with the cover type and penalty
    that [getCoverBetween] finds at the target. *)
Theorem checkLOS_blocking (g : GridManager) (from to : Pos) :
  bresenhamLine_fuel (bresenham_budget from to) from to
  = Some (bresenhamLine from to)
  /\ (blockedBetween g from to ->
      checkLOS g (col from) (row from) (col to) (row to)
      = mkLosResult false 0%float LosBlocked)
  /\ (~ blockedBetween g from to ->
      checkLOS g (col from) (row from) (col to) (row to)
      = mkLosResult true (penalty (getCoverBetween g from to))
                    (LosCoverOf (coverResultType (getCoverBetween g from to)))).
Proof.
  split; [apply bresenhamLine_total; lia|].
  rewrite blockedBetween_existsb.
  unfold checkLOS. destruct from as [fc fr], to as [tc tr]. simpl.
  destruct (existsb (losBlockedAt g tc tr) (bresenhamLine (mkPos fc fr) (mkPos tc tr))).
  - split; [reflexivity | intros H; exfalso; apply H; reflexivity].
  - split; [discriminate | reflexivity].
Qed.

(** A column on (2,0) blocks the row it stands on, leaves the next row
    clear, and does not block a line that ends on it. *)
Lemma checkLOS_blocking_witness :
  let g := setObject (newGrid 10 3) 2 0 "column" CoverFull in
  blockedBetween g (mkPos 0 0) (mkPos 5 0)
  /\ clear (checkLOS g 0 0 5 0) = false
  /\ ~ blockedBetween g (mkPos 0 1) (mkPos 5 1)
  /\ clear (checkLOS g 0 1 5 1) = true
  /\ ~ blockedBetween g (mkPos 0 0) (mkPos 2 0)
  /\ clear (checkLOS g 0 0 2 0) = true.
Proof.
  cbv zeta.
  set (g := setObject (newGrid 10 3) 2 0 "column" CoverFull).
  assert (B1 : blockedBetween g (mkPos 0 0) (mkPos 5 0))
    by (apply blockedBetween_existsb; vm_compute; reflexivity).
  assert (B2 : ~ blockedBetween g (mkPos 0 1) (mkPos 5 1))
    by (rewrite blockedBetween_existsb; vm_compute; discriminate).
  assert (B3 : ~ blockedBetween g (mkPos 0 0) (mkPos 2 0))
    by (rewrite blockedBetween_existsb; vm_compute; discriminate).
  destruct (checkLOS_blocking g (mkPos 0 0) (mkPos 5 0)) as [_ [H1 _]].
  destruct (checkLOS_blocking g (mkPos 0 1) (mkPos 5 1)) as [_ [_ H2]].
  destruct (checkLOS_blocking g (mkPos 0 0) (mkPos 2 0)) as [_ [_ H3]].
  split; [exact B1|]. split; [simpl in H1; rewrite (H1 B1); reflexivity|].
  split; [exact B2|]. split; [simpl in H2; rewrite (H2 B2); reflexivity|].
  split; [exact B3|]. simpl in H3; rewrite (H3 B3); reflexivity.
Defined.

(** ** Movement range: the steps the flood fill takes *)

Lemma visitedHas_In visited p : visitedHas visited p = true <-> In p visited.
Proof.
  unfold visitedHas. rewrite existsb_exists. split.
  - intros [x [Hin Hx]]. apply pos_eqb_eq in Hx. now subst.
  - intros H. exists p. split; [exact H | apply pos_eqb_refl].
Qed.

Lemma visitedHas_not_In visited p : visitedHas visited p = false <-> ~ In p visited.
Proof.
  rewrite <- visitedHas_In. destruct (visitedHas visited p); split; congruence.
Qed.

Lemma In_getNeighbors (a b : Pos) (w h : Z) :
  In b (getNeighbors (col a) (row a) w h)
  <-> inBounds w h (col b) (row b) = true /\ tileDistance a b = 1.
Proof.
  unfold getNeighbors. rewrite filter_In, in_map_iff. split.
  - intros [[[dc dr] [Hb Hin]] Hinb]. split; [exact Hinb|].
    subst b. unfold tileDistance. simpl in *.
    repeat (destruct Hin as [Hin | Hin];
            [injection Hin as <- <-; lia|]). contradiction.
  - intros [Hinb Hd]. split; [|exact Hinb].
    exists (col b - col a, row b - row a). split.
    + destruct b as [cb rb]. simpl. f_equal; lia.
    + unfold tileDistance in Hd. unfold neighborOffsets.
      assert (Hc : col b - col a = -1 \/ col b - col a = 0 \/ col b - col a = 1) by lia.
      assert (Hr : row b - row a = -1 \/ row b - row a = 0 \/ row b - row a = 1) by lia.
      destruct Hc as [Hc | [Hc | Hc]], Hr as [Hr | [Hr | Hr]];
        rewrite Hc, Hr; simpl; try tauto.
      exfalso. lia.
Qed.

(** The steps the flood fill can take are the legal steps. *)
Lemma legalStep_code (g : GridManager) (a b : Pos) :
  legalStep g a b
  <-> In b (getNeighbors (col a) (row a) (gridWidth g) (gridHeight g))
      /\ rangeAdmits g a b = true.
Proof.
  rewrite In_getNeighbors. unfold legalStep, rangeAdmits.
  replace (col a + (col b - col a)) with (col b) by lia.
  replace (row a + (row b - row a)) with (row b) by lia.
  destruct (isWalkable g (col b) (row b)); simpl.
  2: { split; [intros [_ [_ [H _]]]; discriminate | intros [_ H]; discriminate]. }
  destruct (Z.eqb_spec (col b - col a) 0) as [Ec | Ec];
    destruct (Z.eqb_spec (row b - row a) 0) as [Er | Er]; simpl.
  - split; [tauto|]. intros [[H1 H2] _]. repeat split; auto; lia.
  - split; [tauto|]. intros [[H1 H2] _]. repeat split; auto; lia.
  - split; [tauto|]. intros [[H1 H2] _]. repeat split; auto; lia.
  - destruct (isWalkableIgnoreOccupant g (col b) (row a)),
             (isWalkableIgnoreOccupant g (col a) (row b)); simpl.
    + split; [tauto|]. intros [[H1 H2] _]. repeat split; auto.
    + split; [|intros [_ H]; discriminate].
      intros [_ [_ [_ H]]]. destruct H; [lia | lia | discriminate].
    + split; [|intros [_ H]; discriminate].
      intros [_ [_ [_ H]]]. destruct H; [lia | lia | discriminate].
    + split; [|intros [_ H]; discriminate].
      intros [_ [_ [_ H]]]. destruct H; [lia | lia | discriminate].
Qed.

(** What one expansion adds: the new tiles, in the order of discovery. *)
Lemma fold_rangeVisit_spec (g : GridManager) (current : RangeNode) :
  forall ns visited queue,
  exists news,
    fold_left (rangeVisit g current) ns (visited, queue)
    = (rev news ++ visited,
       queue ++ map (fun p => mkNode p (cost current + 1)) news)
    /\ NoDup news
    /\ (forall p, In p news ->
          In p ns /\ ~ In p visited /\ rangeAdmits g (ntile current) p = true)
    /\ (forall p, In p ns -> rangeAdmits g (ntile current) p = true ->
          In p visited \/ In p news).
Proof.
  induction ns as [|n ns IH]; intros visited queue.
  - exists []. simpl. rewrite app_nil_r. repeat split; auto using NoDup_nil; contradiction.
  - cbn [fold_left]. unfold rangeVisit at 2.
    destruct (visitedHas visited n) eqn:Ev.
    + apply visitedHas_In in Ev.
      destruct (IH visited queue) as [news [E [Hnd [Hn Hc]]]].
      exists news. repeat split; auto.
      * right. now apply Hn.
      * now apply Hn.
      * now apply Hn.
      * intros p [-> | Hp] Ha; auto.
    + apply visitedHas_not_In in Ev.
      destruct (rangeAdmits g (ntile current) n) eqn:Ea.
      * destruct (IH (n :: visited) (queue ++ [mkNode n (cost current + 1)]))
          as [news [E [Hnd [Hn Hc]]]].
        exists (n :: news). simpl. rewrite E, <- !app_assoc. simpl.
        repeat split.
        -- constructor; [|exact Hnd]. intros Hin. apply Hn in Hin.
           destruct Hin as [_ [Hin _]]. apply Hin. now left.
        -- destruct H as [<- | H]; [now left | right; now apply Hn].
        -- destruct H as [<- | H]; [exact Ev|].
           apply Hn in H. destruct H as [_ [H _]]. intros Hv. apply H. now right.
        -- destruct H as [<- | H]; [exact Ea | now apply Hn].
        -- intros p [-> | Hp] Ha; [right; now left|].
           destruct (Hc p Hp Ha) as [[-> | Hv] | Hnw]; simpl; auto.
      * destruct (IH visited queue) as [news [E [Hnd [Hn Hc]]]].
        exists news. repeat split; auto.
        -- right. now apply Hn.
        -- now apply Hn.
        -- now apply Hn.
        -- intros p [-> | Hp] Ha; [congruence | auto].
Qed.

(** ** Movement range: the loop invariant *)

Lemma StronglySorted_app {A : Type} (R : A -> A -> Prop) (l1 l2 : list A) :
  StronglySorted R l1 -> StronglySorted R l2 ->
  (forall a b, In a l1 -> In b l2 -> R a b) ->
  StronglySorted R (l1 ++ l2).
Proof.
  induction l1 as [|x l1 IH]; intros H1 H2 H12; simpl; [exact H2|].
  apply StronglySorted_inv in H1. destruct H1 as [H1 Hx].
  constructor.
  - apply IH; auto. intros a b Ha Hb. apply H12; [now right | exact Hb].
  - apply Forall_app. split; [exact Hx|].
    apply Forall_forall. intros b Hb. apply H12; [now left | exact Hb].
Qed.

Lemma StronglySorted_same_cost (k : Z) (ps : list Pos) :
  StronglySorted (fun a b => cost a <= cost b) (map (fun p => mkNode p k) ps).
Proof.
  induction ps as [|p ps IH]; simpl; constructor; [exact IH|].
  apply Forall_forall. intros b Hb. apply in_map_iff in Hb.
  destruct Hb as [q [<- _]]. simpl. lia.
Qed.

Lemma map_ntile_mkNode (k : Z) (ps : list Pos) :
  map ntile (map (fun p => mkNode p k) ps) = ps.
Proof. rewrite map_map. simpl. apply map_id. Qed.

Lemma node_eta (n : RangeNode) : mkNode (ntile n) (cost n) = n.
Proof. destruct n; reflexivity. Qed.

Lemma range_inv_init (g : GridManager) (origin : Pos) (moveRange : Z) :
  range_inv g origin moveRange [] [mkNode origin 0] [origin].
Proof.
  constructor; simpl.
  - tauto.
  - constructor; [intros [] | constructor].
  - now left.
  - intros n [<- | []]. simpl. split; [lia | constructor].
  - intros n [<- | []]. now left.
  - intros n h [].
  - constructor; [constructor | constructor].
  - intros a b [<- | []] [<- | []]. simpl. lia.
  - intros n b [].
Qed.

Section RangeInvariant.

Variables (g : GridManager) (origin : Pos) (moveRange : Z).
Variables (processed rest : list RangeNode) (current : RangeNode).
Variable visited : list Pos.
Hypothesis Hinv : range_inv g origin moveRange processed (current :: rest) visited.

Lemma current_le_rest : forall x, In x rest -> cost current <= cost x.
Proof.
  intros x Hx. pose proof (inv_sorted Hinv) as Hs.
  apply StronglySorted_inv in Hs. destruct Hs as [_ Hs].
  rewrite Forall_forall in Hs. now apply Hs.
Qed.

Lemma all_nodes_shift (extra : list RangeNode) :
  (processed ++ [current]) ++ rest ++ extra
  = (processed ++ current :: rest) ++ extra.
Proof. rewrite <- !app_assoc. reflexivity. Qed.

(** The [continue] taken when the node is at the movement limit. *)
Lemma range_inv_skip :
  moveRange <= cost current ->
  range_inv g origin moveRange (processed ++ [current]) rest visited.
Proof.
  intros Hlimit.
  pose proof (all_nodes_shift []) as Hshift. rewrite !app_nil_r in Hshift.
  destruct Hinv as [Hv Hnd Ho Hw Hb Hl Hs Hwd Hc].
  constructor; rewrite ?Hshift; auto.
  - intros n h Hn Hh. apply in_app_iff in Hn. destruct Hn as [Hn | [<- | []]].
    + apply Hl; [exact Hn | now right].
    + now apply current_le_rest.
  - apply StronglySorted_inv in Hs. tauto.
  - intros a b Ha Hb'. apply Hwd; now right.
  - intros n b Hn Hlt Hstep. apply in_app_iff in Hn.
    destruct Hn as [Hn | [<- | []]]; [eauto | lia].
Qed.

(** The expansion of a node below the movement limit. *)
Lemma range_inv_expand (visited' : list Pos) (queue' : list RangeNode) :
  cost current < moveRange ->
  fold_left (rangeVisit g current)
            (getNeighbors (col (ntile current)) (row (ntile current))
                          (gridWidth g) (gridHeight g))
            (visited, rest)
  = (visited', queue') ->
  range_inv g origin moveRange (processed ++ [current]) queue' visited'.
Proof.
  intros Hlt Hfold.
  destruct (fold_rangeVisit_spec g current
              (getNeighbors (col (ntile current)) (row (ntile current))
                            (gridWidth g) (gridHeight g)) visited rest)
    as [news [E [Hnews [Hnew Hcov]]]].
  rewrite E in Hfold. injection Hfold as <- <-.
  set (k := cost current + 1) in *.
  set (N := map (fun p => mkNode p k) news).
  assert (Hle := current_le_rest).
  destruct Hinv as [Hv Hnd Ho Hw Hb Hl Hs Hwd Hc].
  assert (Hcur : In current (processed ++ current :: rest))
    by (apply in_app_iff; right; now left).
  assert (Hc0 : 0 <= cost current) by (now apply Hw).
  assert (HN : forall x, In x N -> cost x = k /\ In (ntile x) news).
  { intros x Hx. apply in_map_iff in Hx. destruct Hx as [p [<- Hp]]. auto. }
  constructor; rewrite ?all_nodes_shift.
  - intros p. rewrite map_app, !in_app_iff, <- in_rev, <- Hv.
    unfold N. rewrite map_ntile_mkNode. tauto.
  - rewrite map_app. unfold N. rewrite map_ntile_mkNode.
    apply NoDup_app; [exact Hnd | exact Hnews |].
    intros p Hp Hp'. apply Hv in Hp. apply Hnew in Hp'. tauto.
  - apply in_app_iff. now left.
  - intros n Hn. apply in_app_iff in Hn. destruct Hn as [Hn | Hn]; [auto|].
    apply HN in Hn. destruct Hn as [Hk Hn]. apply Hnew in Hn.
    destruct Hn as [Hn [_ Ha]]. rewrite Hk. unfold k. split; [lia|].
    replace (Z.to_nat (cost current + 1)) with (S (Z.to_nat (cost current))) by lia.
    apply walk_step with (a := ntile current).
    + now apply Hw.
    + apply legalStep_code. auto.
  - intros n Hn. apply in_app_iff in Hn. destruct Hn as [Hn | Hn]; [auto|].
    apply HN in Hn. right. unfold k in Hn. lia.
  - intros n h Hn Hh. apply in_app_iff in Hn, Hh.
    assert (Hnc : cost n <= cost current).
    { destruct Hn as [Hn | [<- | []]]; [|lia]. apply Hl; [exact Hn | now left]. }
    destruct Hh as [Hh | Hh].
    + destruct Hn as [Hn | [<- | []]]; [apply Hl; [exact Hn | now right] | auto].
    + apply HN in Hh. unfold k in Hh. lia.
  - apply StronglySorted_app.
    + apply StronglySorted_inv in Hs. tauto.
    + apply StronglySorted_same_cost.
    + intros a b Ha Hb'. apply HN in Hb'.
      specialize (Hwd current a (or_introl eq_refl) (or_intror Ha)).
      unfold k in Hb'. lia.
  - intros a b Ha Hb'. apply in_app_iff in Ha, Hb'.
    destruct Ha as [Ha | Ha], Hb' as [Hb' | Hb'].
    + apply Hwd; now right.
    + apply HN in Hb'. specialize (Hle a Ha). unfold k in Hb'. lia.
    + apply HN in Ha.
      specialize (Hwd current b (or_introl eq_refl) (or_intror Hb')).
      unfold k in Ha. lia.
    + apply HN in Ha, Hb'. lia.
  - intros n b Hn Hn_lt Hstep. apply in_app_iff in Hn.
    destruct Hn as [Hn | [<- | []]].
    + destruct (Hc n b Hn Hn_lt Hstep) as [c [Hin Hle']].
      exists c. split; [apply in_app_iff; now left | exact Hle'].
    + apply legalStep_code in Hstep. destruct Hstep as [Hnb Hadm].
      destruct (Hcov b Hnb Hadm) as [Hvis | Hnw].
      * apply Hv in Hvis. apply in_map_iff in Hvis.
        destruct Hvis as [nb [Hnb_tile Hnb_in]].
        exists (cost nb). rewrite <- Hnb_tile, node_eta.
        split; [apply in_app_iff; now left|].
        apply in_app_iff in Hnb_in. destruct Hnb_in as [Hp | [<- | Hr]].
        -- specialize (Hl nb current Hp (or_introl eq_refl)). lia.
        -- lia.
        -- specialize (Hwd current nb (or_introl eq_refl) (or_intror Hr)). lia.
      * exists k. split; [|unfold k; lia].
        apply in_app_iff. right. unfold N. apply in_map_iff. now exists b.
Qed.

End RangeInvariant.

(** ** Movement range: termination *)

Lemma In_allTiles (g : GridManager) (p : Pos) :
  inBounds (gridWidth g) (gridHeight g) (col p) (row p) = true ->
  In p (allTiles g).
Proof.
  unfold inBounds, allTiles. rewrite !andb_true_iff. intros [[[H1 H2] H3] H4].
  apply Z.geb_le in H1, H3. apply Z.ltb_lt in H2, H4.
  apply in_map_iff. exists (col p, row p). split; [destruct p; reflexivity|].
  apply in_prod_iff. split; apply in_map_iff.
  - exists (Z.to_nat (col p)). split; [lia|]. apply in_seq. lia.
  - exists (Z.to_nat (row p)). split; [lia|]. apply in_seq. lia.
Qed.

Lemma length_allTiles (g : GridManager) :
  length (allTiles g) = (Z.to_nat (gridWidth g) * Z.to_nat (gridHeight g))%nat.
Proof.
  unfold allTiles. now rewrite length_map, length_prod, !length_map, !length_seq.
Qed.

Lemma unvisitedCount_le (g : GridManager) (visited : list Pos) :
  (unvisitedCount g visited <= Z.to_nat (gridWidth g) * Z.to_nat (gridHeight g))%nat.
Proof. unfold unvisitedCount. rewrite <- length_allTiles. apply filter_length_le. Qed.

Lemma unvisitedCount_ext (g : GridManager) (v1 v2 : list Pos) :
  (forall p, In p v1 <-> In p v2) -> unvisitedCount g v1 = unvisitedCount g v2.
Proof.
  intros H. unfold unvisitedCount. f_equal. apply filter_ext. intros p. f_equal.
  destruct (visitedHas v1 p) eqn:E1, (visitedHas v2 p) eqn:E2; try reflexivity.
  - apply visitedHas_In in E1. apply visitedHas_not_In in E2. apply H in E1. contradiction.
  - apply visitedHas_In in E2. apply visitedHas_not_In in E1. apply H in E2. contradiction.
Qed.

Lemma unvisited_filter_cons (visited l : list Pos) (p : Pos) :
  (length (filter (fun q => negb (visitedHas (p :: visited) q)) l)
   <= length (filter (fun q => negb (visitedHas visited q)) l))%nat
  /\ (In p l -> ~ In p visited ->
      (length (filter (fun q => negb (visitedHas (p :: visited) q)) l)
       < length (filter (fun q => negb (visitedHas visited q)) l))%nat).
Proof.
  induction l as [|x l [IH1 IH2]]; simpl in *; [split; [lia | contradiction]|].
  destruct (pos_eqb x p) eqn:Exp; simpl.
  - apply pos_eqb_eq in Exp. subst x.
    destruct (visitedHas visited p) eqn:Ev; simpl.
    + split; [exact IH1|]. intros _ Hv. apply visitedHas_In in Ev. contradiction.
    + split; [lia|]. intros _ _. lia.
  - apply pos_eqb_neq in Exp.
    destruct (visitedHas visited x); simpl.
    + split; [exact IH1|]. intros [Hx | Hin] Hv; [congruence | auto].
    + split; [lia|]. intros [Hx | Hin] Hv; [congruence|].
      specialize (IH2 Hin Hv). lia.
Qed.

Lemma unvisitedCount_news (g : GridManager) (visited : list Pos) :
  forall news,
    NoDup news ->
    (forall p, In p news -> In p (allTiles g) /\ ~ In p visited) ->
    (unvisitedCount g (rev news ++ visited) + length news
     <= unvisitedCount g visited)%nat.
Proof.
  intros news Hnd Hnew.
  rewrite (unvisitedCount_ext g (rev news ++ visited) (news ++ visited)).
  2: { intros p. rewrite !in_app_iff, <- in_rev. tauto. }
  induction news as [|p news IH]; simpl; [lia|].
  inversion Hnd as [|? ? Hp Hnd']; subst.
  assert (IH' := IH Hnd' (fun q Hq => Hnew q (or_intror Hq))).
  destruct (Hnew p (or_introl eq_refl)) as [Hall Hvis].
  assert (Hfresh : ~ In p (news ++ visited)).
  { rewrite in_app_iff. tauto. }
  destruct (unvisited_filter_cons (news ++ visited) (allTiles g) p) as [_ Hlt].
  specialize (Hlt Hall Hfresh). unfold unvisitedCount in *. lia.
Qed.

Section RangeLoop.

Variables (g : GridManager) (origin : Pos) (moveRange : Z).

(** With fuel for every tile still unvisited and every node still
    queued, the loop ends, and it ends with the invariant and with
    the dequeued nodes of positive cost as its result. *)
Lemma range_loop_sound : forall fuel processed queue visited,
  range_inv g origin moveRange processed queue visited ->
  (unvisitedCount g visited + length queue <= fuel)%nat ->
  exists processed' visited',
    range_loop fuel g moveRange queue visited
               (filter (fun n => cost n >? 0) processed)
    = Some (filter (fun n => cost n >? 0) processed')
    /\ range_inv g origin moveRange processed' [] visited'.
Proof.
  induction fuel as [|fuel IH]; intros processed queue visited Hinv Hfuel.
  - destruct queue as [|current rest]; simpl in *; [eauto | lia].
  - destruct queue as [|current rest]; simpl; [eauto|].
    assert (Hreach : (if cost current >? 0
                      then filter (fun n => cost n >? 0) processed ++ [current]
                      else filter (fun n => cost n >? 0) processed)
                     = filter (fun n => cost n >? 0) (processed ++ [current])).
    { rewrite filter_app. simpl. destruct (cost current >? 0);
        [reflexivity | now rewrite app_nil_r]. }
    rewrite Hreach.
    destruct (cost current >=? moveRange) eqn:Hlimit.
    + apply IH.
      * apply range_inv_skip; [exact Hinv|]. apply Z.geb_le in Hlimit. lia.
      * simpl in Hfuel. lia.
    + assert (Hlt : cost current < moveRange).
      { destruct (Z.geb_spec (cost current) moveRange); [discriminate | lia]. }
      destruct (fold_rangeVisit_spec g current
                  (getNeighbors (col (ntile current)) (row (ntile current))
                                (gridWidth g) (gridHeight g)) visited rest)
        as [news [E [Hnews [Hnew _]]]].
      pose proof (range_inv_expand g origin moveRange processed rest current
                                   visited Hinv _ _ Hlt E) as Hinv'.
      rewrite E. apply IH; [exact Hinv'|].
      rewrite length_app, length_map.
      assert (Hcount := unvisitedCount_news g visited news Hnews).
      simpl in Hfuel.
      assert (unvisitedCount g (rev news ++ visited) + length news
              <= unvisitedCount g visited)%nat; [|lia].
      apply Hcount. intros p Hp. apply Hnew in Hp.
      destruct Hp as [Hp [Hv _]]. split; [|exact Hv].
      apply In_allTiles. apply In_getNeighbors in Hp. tauto.
Qed.

End RangeLoop.

(** The flood fill ends within the budget, with the invariant. *)
Lemma getMovementRange_inv (g : GridManager) (startCol startRow moveRange : Z) :
  exists processed visited,
    getMovementRange_fuel (gridBudget g) g startCol startRow moveRange
    = Some (getMovementRange g startCol startRow moveRange)
    /\ getMovementRange g startCol startRow moveRange
       = filter (fun n => cost n >? 0) processed
    /\ range_inv g (mkPos startCol startRow) moveRange processed [] visited.
Proof.
  destruct (range_loop_sound g (mkPos startCol startRow) moveRange
              (gridBudget g) [] [mkNode (mkPos startCol startRow) 0]
              [mkPos startCol startRow]) as [processed [visited [E Hinv]]].
  - apply range_inv_init.
  - unfold gridBudget. simpl.
    pose proof (unvisitedCount_le g [mkPos startCol startRow]). lia.
  - exists processed, visited. cbn [filter] in E.
    unfold getMovementRange, getMovementRange_fuel. rewrite E. auto.
Qed.

(** ** Movement range: optimal and complete *)

Lemma NoDup_map_same {A B : Type} (f : A -> B) (l : list A) (x y : A) :
  NoDup (map f l) -> In x l -> In y l -> f x = f y -> x = y.
Proof.
  induction l as [|a l IH]; simpl; intros Hnd Hx Hy Hf; [contradiction|].
  inversion Hnd as [|? ? Ha Hnd']; subst.
  destruct Hx as [-> | Hx], Hy as [-> | Hy]; auto.
  - exfalso. apply Ha. rewrite Hf. now apply in_map.
  - exfalso. apply Ha. rewrite <- Hf. now apply in_map.
Qed.

Lemma NoDup_tiles_filter (keep : RangeNode -> bool) (nodes : list RangeNode) :
  NoDup (map ntile nodes) -> NoDup (map ntile (filter keep nodes)).
Proof.
  intros Hnd. induction nodes as [|n nodes IH]; simpl; [constructor|].
  simpl in Hnd. inversion Hnd as [|? ? Hfresh Hrest]; subst.
  destruct (keep n); simpl; [|auto].
  constructor; [|auto]. intros Hin. apply Hfresh.
  apply in_map_iff in Hin. destruct Hin as [x [Hx Hin]].
  apply filter_In in Hin. apply in_map_iff. exists x. tauto.
Qed.

Section RangeFinal.

Variables (g : GridManager) (origin : Pos) (moveRange : Z).
Variables (processed : list RangeNode) (visited : list Pos).
Hypothesis Hinv : range_inv g origin moveRange processed [] visited.

Lemma final_unique (t : Pos) (c c' : Z) :
  In (mkNode t c) processed -> In (mkNode t c') processed -> c = c'.
Proof.
  intros H1 H2. pose proof (inv_nodup Hinv) as Hnd. rewrite app_nil_r in Hnd.
  assert (E : mkNode t c = mkNode t c')
    by (apply (NoDup_map_same ntile processed); auto).
  now injection E.
Qed.

(** Every tile a path of at most [moveRange] steps leads to has a
    node, whose cost is at most the length of the path. *)
Lemma final_complete : forall m t,
  walk g origin m t -> Z.of_nat m <= moveRange ->
  exists c, In (mkNode t c) processed /\ c <= Z.of_nat m.
Proof.
  intros m t Hwalk. induction Hwalk as [|m a b Hwalk IH Hstep]; intros Hm.
  - exists 0. split; [|lia]. pose proof (inv_origin Hinv) as H.
    now rewrite app_nil_r in H.
  - destruct IH as [c [Hin Hc]]; [lia|].
    destruct (inv_closed Hinv (mkNode a c) (b := b) Hin) as [c' [Hin' Hc']];
      simpl; [lia | exact Hstep |].
    rewrite app_nil_r in Hin'. exists c'. simpl in Hc'. split; [exact Hin' | lia].
Qed.

Lemma final_optimal (n : RangeNode) :
  In n processed -> 0 < cost n ->
  trueCost g origin (ntile n) (cost n) /\ cost n <= moveRange.
Proof.
  intros Hin Hpos.
  assert (Hin' : In n (processed ++ [])) by now rewrite app_nil_r.
  destruct (inv_walk Hinv n Hin') as [_ Hwalk].
  destruct (inv_bound Hinv n Hin') as [H0 | Hb]; [lia|].
  split; [|exact Hb].
  exists (Z.to_nat (cost n)). split; [lia|]. split; [exact Hwalk|].
  intros m Hm. destruct (Z_le_gt_dec (Z.of_nat m) moveRange) as [Hle | Hgt]; [|lia].
  destruct (final_complete m (ntile n) Hm Hle) as [c [Hc Hcm]].
  rewrite <- (node_eta n) in Hin. rewrite (final_unique _ _ _ Hin Hc). lia.
Qed.

Lemma final_reaches (t : Pos) (c : Z) :
  t <> origin -> trueCost g origin t c -> c <= moveRange ->
  In (mkNode t c) processed /\ 0 < c.
Proof.
  intros Hne [k [-> [Hwalk Hmin]]] Hle.
  destruct (final_complete k t Hwalk Hle) as [c' [Hin Hc']].
  assert (Hin' : In (mkNode t c') (processed ++ [])) by now rewrite app_nil_r.
  destruct (inv_walk Hinv _ Hin') as [H0 Hwalk']. simpl in H0, Hwalk'.
  specialize (Hmin _ Hwalk').
  assert (c' = Z.of_nat k) by lia. subst c'.
  split; [exact Hin|].
  destruct k; [|lia]. inversion Hwalk; subst. contradiction.
Qed.

End RangeFinal.

(** C3, as the code has it. [getMovementRange] ends within its budget.
    The cost reported for each returned tile is the true shortest path
    cost from the origin under the walkability and corner rules, it is
    positive and at most [moveRange]; every tile other than the origin
    whose true cost is at most [moveRange] is returned, with that cost;
    no tile is returned twice, and the origin itself is never returned
    (its true cost is 0 and nodes are collected only at a positive
    cost). *)
Theorem getMovementRange_optimal (g : GridManager)
        (startCol startRow moveRange : Z) :
  let origin := mkPos startCol startRow in
  let reachable := getMovementRange g startCol startRow moveRange in
  getMovementRange_fuel (gridBudget g) g startCol startRow moveRange
  = Some reachable
  /\ (forall n, In n reachable ->
        trueCost g origin (ntile n) (cost n) /\ 0 < cost n <= moveRange)
  /\ (forall t c, t <> origin -> trueCost g origin t c -> c <= moveRange ->
        In (mkNode t c) reachable)
  /\ NoDup (map ntile reachable)
  /\ ~ In origin (map ntile reachable).
Proof.
  intros origin reachable.
  destruct (getMovementRange_inv g startCol startRow moveRange)
    as [processed [visited [Hfuel [Hres Hinv]]]].
  fold origin in Hinv. fold reachable in Hfuel, Hres.
  split; [exact Hfuel|]. rewrite Hres.
  split; [|split; [|split]].
  - intros n Hn. apply filter_In in Hn. destruct Hn as [Hn Hpos].
    apply Z.gtb_lt in Hpos.
    destruct (final_optimal g origin moveRange processed visited Hinv n Hn Hpos).
    repeat split; auto.
  - intros t c Hne Htrue Hle.
    destruct (final_reaches g origin moveRange processed visited Hinv t c Hne Htrue Hle)
      as [Hin Hpos].
    apply filter_In. split; [exact Hin|]. simpl. apply Z.gtb_lt. lia.
  - apply NoDup_tiles_filter. pose proof (inv_nodup Hinv) as H.
    now rewrite app_nil_r in H.
  - intros Hin. apply in_map_iff in Hin. destruct Hin as [n [Hn Hin]].
    apply filter_In in Hin. destruct Hin as [Hin Hpos]. apply Z.gtb_lt in Hpos.
    pose proof (inv_origin Hinv) as Ho. rewrite app_nil_r in Ho.
    rewrite <- (node_eta n), Hn in Hin.
    pose proof (final_unique g origin moveRange processed visited Hinv
                             origin (cost n) 0 Hin Ho). lia.
Qed.

(** C3, counterexample to completeness as worded. In the duel, the
    movement range of unit 0 is computed from its tile (0,0) with the 4
    movement points of a unit.  The origin has true cost 0, within the
    allowance, and is not among the tiles returned (on a grid of two
    tiles the result is the other tile alone). *)
Lemma getMovementRange_omits_origin :
  let g := grid duel in
  let origin := tile (unit duel 0%nat) in
  trueCost g origin origin 0
  /\ 0 <= CONSTANTS.movement
  /\ (forall c, ~ In (mkNode origin c)
                    (getMovementRange g (col origin) (row origin)
                                      CONSTANTS.movement))
  /\ getMovementRange (newGrid 2 1) 0 0 1 = [mkNode (mkPos 1 0) 1].
Proof.
  cbv zeta. split.
  - exists 0%nat. split; [reflexivity|]. split; [constructor | intros; lia].
  - split; [discriminate|]. split; [|vm_compute; reflexivity].
    intros c H. apply (in_map ntile) in H. vm_compute in H.
    repeat (destruct H as [H | H]; [discriminate|]). exact H.
Qed.

(** ** Path search: termination *)

Lemma cameFromGet_skip (l1 l2 : list (Pos * Pos)) (k : Pos) :
  ~ In k (map fst l1) -> cameFromGet (l1 ++ l2) k = cameFromGet l2 k.
Proof.
  induction l1 as [|[n p] l1 IH]; simpl; intros Hk; [reflexivity|].
  destruct (pos_eqb k n) eqn:E.
  - apply pos_eqb_eq in E. exfalso. apply Hk. now left.
  - apply IH. tauto.
Qed.

Lemma cameFromChain_suffix (start : Pos) (l1 l2 : list (Pos * Pos)) :
  cameFromChain start (l1 ++ l2) ->
  cameFromChain start l2
  /\ forall k, In k (map fst l1) -> ~ In k (map fst l2 ++ [start]).
Proof.
  induction l1 as [|[n p] l1 IH]; simpl.
  - intros H. split; [exact H | contradiction].
  - intros [Hc [_ Hn]]. destruct (IH Hc) as [H2 Hk]. split; [exact H2|].
    intros k [<- | Hin]; [|auto].
    intros Hin. apply Hn. rewrite map_app, <- app_assoc, in_app_iff. now right.
Qed.

(** Following [cameFrom] from a recorded tile reaches the start within
    as many steps as there are older bindings. *)
Lemma rebuild_loop_total (start : Pos) :
  forall older newer k path fuel,
    cameFromChain start (newer ++ older) ->
    In k (map fst older ++ [start]) ->
    (length older <= fuel)%nat ->
    exists r, rebuild_loop fuel (newer ++ older) start k path = Some r.
Proof.
  induction older as [|[n p] older IH]; intros newer k path fuel Hc Hk Hfuel.
  - simpl in Hk. destruct Hk as [<- | []].
    destruct fuel; simpl; rewrite pos_eqb_refl; eauto.
  - destruct (pos_eqb k start) eqn:Es.
    { destruct fuel; simpl; rewrite Es; eauto. }
    destruct fuel as [|fuel]; [simpl in Hfuel; lia|].
    cbn [rebuild_loop]. rewrite Es.
    destruct (cameFromChain_suffix start newer ((n, p) :: older) Hc) as [Hs Hnew].
    simpl in Hs. destruct Hs as [Hold [Hp Hn]].
    assert (Hc' : cameFromChain start ((newer ++ [(n, p)]) ++ older))
      by (rewrite <- app_assoc; exact Hc).
    simpl in Hk. destruct Hk as [<- | Hk].
    + rewrite cameFromGet_skip.
      2: { intros Hin. apply (Hnew _ Hin). simpl. now left. }
      simpl. rewrite pos_eqb_refl.
      replace (newer ++ (n, p) :: older) with ((newer ++ [(n, p)]) ++ older)
        by (rewrite <- app_assoc; reflexivity).
      apply IH; [exact Hc' | exact Hp | simpl in Hfuel; lia].
    + destruct (IH (newer ++ [(n, p)]) k path (S fuel) Hc' Hk) as [r Hr];
        [simpl in Hfuel; lia|].
      rewrite <- app_assoc in Hr. cbn [app rebuild_loop] in Hr. rewrite Es in Hr.
      eauto.
Qed.

Section PathInvariant.

Variables (g : GridManager) (start end_ : Pos) (allow : bool).

Lemma cameFromChain_NoDup (cf : list (Pos * Pos)) :
  cameFromChain start cf -> NoDup (map fst cf).
Proof.
  induction cf as [|[n p] cf IH]; simpl; [constructor|].
  intros [Hc [_ Hn]]. constructor; [|auto].
  intros Hin. apply Hn. apply in_app_iff. now left.
Qed.

(** One scan of the neighbours keeps the invariant and does not raise
    the measure; [current] is a visited tile. *)
Lemma pathScan_inv (current : Pos) : forall neighbors st,
  (forall n, In n neighbors -> In n (allTiles g)) ->
  path_inv g start end_ st ->
  In current (pvisited st) ->
  let st' := pathScan g end_ allow current neighbors st in
  path_inv g start end_ st'
  /\ (unvisitedCount g (pvisited st') + length (pqueue st')
      <= unvisitedCount g (pvisited st) + length (pqueue st))%nat.
Proof.
  induction neighbors as [|n ns IH]; intros st Hns Hinv Hcur; simpl.
  - split; [exact Hinv | lia].
  - assert (Hns' : forall x, In x ns -> In x (allTiles g))
      by (intros x Hx; apply Hns; now right).
    destruct (visitedHas (pvisited st) n) eqn:Ev; [now apply IH|].
    destruct (negb (pathAdmits g end_ allow current n)); [now apply IH|].
    apply visitedHas_not_In in Ev.
    assert (Hall : In n (allTiles g)) by (apply Hns; now left).
    destruct (unvisited_filter_cons (pvisited st) (allTiles g) n) as [_ Hlt].
    specialize (Hlt Hall Ev). fold (unvisitedCount g (n :: pvisited st)) in Hlt.
    fold (unvisitedCount g (pvisited st)) in Hlt.
    destruct Hinv as [Hc Hv Ht Hq Hf].
    assert (Hinv' : forall q' f',
               (forall q, In q q' -> q = n \/ In q (pqueue st)) ->
               (f' = true -> n = end_) ->
               path_inv g start end_
                        (mkPathState q' (n :: pvisited st)
                                     ((n, current) :: cameFrom st) f')).
    { intros q' f' Hq' Hf'. constructor; simpl.
      - rewrite <- Hv. auto.
      - now rewrite Hv.
      - intros k [<- | Hk]; auto.
      - intros q Hin. destruct (Hq' q Hin) as [-> | Hin']; auto.
      - intros Htrue. left. auto. }
    destruct ((col n =? col end_) && (row n =? row end_)) eqn:Eend.
    + split.
      * apply Hinv'; [auto|]. intros _. now apply pos_eqb_eq.
      * simpl. lia.
    + specialize (IH (mkPathState (pqueue st ++ [n]) (n :: pvisited st)
                                  ((n, current) :: cameFrom st) false) Hns').
      cbv zeta in IH. destruct IH as [I1 I2].
      * apply Hinv'; [|discriminate].
        intros q Hin. apply in_app_iff in Hin. simpl in Hin.
        destruct Hin as [Hin | [Hin | []]]; auto.
      * simpl. now right.
      * split; [exact I1|]. simpl in I2. rewrite length_app in I2. simpl in I2. lia.
Qed.

Lemma path_loop_total : forall fuel st,
  path_inv g start end_ st ->
  (unvisitedCount g (pvisited st) + length (pqueue st) <= fuel)%nat ->
  exists st', path_loop fuel g end_ allow st = Some st'
              /\ path_inv g start end_ st'.
Proof.
  induction fuel as [|fuel IH]; intros st Hinv Hfuel.
  - simpl. destruct (found st); [eauto|].
    destruct (pqueue st) eqn:Eq; [eauto | simpl in Hfuel; lia].
  - simpl. destruct (found st) eqn:Ef; [eauto|].
    destruct (pqueue st) as [|current rest] eqn:Eq; [eauto|].
    assert (Hcur : In current (pvisited st)).
    { apply (pinv_queue Hinv). rewrite Eq. now left. }
    destruct ((col current =? col end_) && (row current =? row end_)) eqn:Eend.
    + eexists. split; [reflexivity|].
      destruct Hinv as [Hc Hv Ht Hq Hf]. constructor; simpl; auto.
      * intros q Hin. apply Hq. rewrite Eq. now right.
      * intros _. apply pos_eqb_eq in Eend. now subst.
    + set (st0 := mkPathState rest (pvisited st) (cameFrom st) false).
      assert (Hinv0 : path_inv g start end_ st0).
      { destruct Hinv as [Hc Hv Ht Hq Hf]. constructor; simpl; auto.
        - intros q Hin. apply Hq. rewrite Eq. now right.
        - discriminate. }
      destruct (pathScan_inv current
                  (getNeighbors (col current) (row current)
                                (gridWidth g) (gridHeight g)) st0)
        as [Hinv1 Hm]; auto.
      * intros n Hn. apply In_allTiles.
        change (col current) with (col (mkPos (col current) (row current))) in Hn.
        change (row current) with (row (mkPos (col current) (row current))) in Hn at 2.
        apply In_getNeighbors in Hn. tauto.
      * apply IH; [exact Hinv1|]. simpl in Hm. simpl in Hfuel. lia.
Qed.

End PathInvariant.

(** [_findPathBFS] returns within the budget of the grid. *)
Lemma findPathBFS_total (g : GridManager) (start end_ : Pos) (allow : bool)
      (fuel : nat) :
  (gridBudget g <= fuel)%nat ->
  exists r, _findPathBFS fuel g start end_ allow = Some r.
Proof.
  intros Hfuel. unfold _findPathBFS.
  destruct ((col start =? col end_) && (row start =? row end_)); [eauto|].
  destruct (negb _); [eauto|].
  destruct (path_loop_total g start end_ allow fuel
              (mkPathState [start] [start] [] false)) as [st [E Hinv]].
  - constructor; simpl; auto; [contradiction | discriminate].
  - simpl. pose proof (unvisitedCount_le g [start]). unfold gridBudget in Hfuel. lia.
  - rewrite E. destruct (negb (found st)) eqn:Ef; [eauto|].
    apply negb_false_iff in Ef.
    pose proof (pinv_found Hinv Ef) as Hend. rewrite (pinv_visited Hinv) in Hend.
    apply (rebuild_loop_total start (cameFrom st) [] end_ [] fuel);
      [exact (pinv_chain Hinv) | exact Hend |].
    assert (Hlen : (length (map fst (cameFrom st)) <= length (allTiles g))%nat).
    { apply NoDup_incl_length.
      - apply (cameFromChain_NoDup start), (pinv_chain Hinv).
      - intros k Hk. now apply (pinv_tiles Hinv). }
    rewrite length_map, length_allTiles in Hlen. unfold gridBudget in Hfuel. lia.
Qed.

(** ** Action points *)

Lemma checkOverwatchAlongPath_fst rng st u path :
  fst (_checkOverwatchAlongPath rng st u path)
  = fst (fst (overwatchAlongPath rng 0 st u (tile (unit st u)) path false)).
Proof.
  unfold _checkOverwatchAlongPath.
  destruct (overwatchAlongPath rng 0 st u (tile (unit st u)) path false)
    as [[st' n] t]. reflexivity.
Qed.

(** The state in which an accepted move leaves the mover's activation:
    the deduction, the movement, then the overwatch shots along the
    path. *)
Lemma onPlayerMoveClick_cases fuel rng st c r st' out :
  onPlayerMoveClick fuel rng st c r = Some (st', out) ->
  (out = MoveIgnored /\ st' = st)
  \/ (out = MoveNoPath /\ exists u, st' = _showMovementRange st u)
  \/ (exists u path st4,
        activeUnit st = Some u
        /\ st4 = fst (_checkOverwatchAlongPath rng
                        (moveUnit
                           (withPhase COMBAT_ANIMATION
                              (modify u (withAp (Z.max 0 (ap (unit st u) - 1))) st))
                           u path) u path)
        /\ ((out = MoveToAction /\ st' = _enterActionPhase st4 u)
            \/ (out = MoveEndsActivation /\ st' = endActivation st4 u))).
Proof.
  unfold onPlayerMoveClick.
  destruct (activeUnit st) as [u|]; [|intros H; injection H as <- <-; auto].
  destruct (negb (phase_eqb (phase st) PLAYER_MOVEMENT));
    [intros H; injection H as <- <-; auto|].
  destruct (negb (existsb _ (_selectedMoveTiles st)));
    [intros H; injection H as <- <-; auto|].
  destruct (findPath fuel (grid st) (tile (unit st u)) (mkPos c r))
    as [[[|p path]|]|]; try discriminate;
    try (intros H; injection H as <- <-; right; left; eauto).
  destruct (_checkOverwatchAlongPath rng _ u (p :: path)) as [st4 trig] eqn:E4.
  intros H. right. right. exists u, (p :: path), st4.
  split; [reflexivity|]. split; [rewrite E4; reflexivity|].
  destruct (negb (alive (unit st4 u))); [injection H as <- <-; auto|].
  destruct (ap (unit st4 u) >? 0); injection H as <- <-; auto.
Qed.

Lemma onPlayerMoveClick_total fuel rng st c r :
  (gridBudget (grid st) <= fuel)%nat ->
  exists res, onPlayerMoveClick fuel rng st c r = Some res.
Proof.
  intros Hfuel. unfold onPlayerMoveClick.
  destruct (activeUnit st) as [u|]; [|eauto].
  destruct (negb (phase_eqb (phase st) PLAYER_MOVEMENT)); [eauto|].
  destruct (negb (existsb _ (_selectedMoveTiles st))); [eauto|].
  destruct (findPathBFS_total (grid st) (tile (unit st u)) (mkPos c r) false fuel Hfuel)
    as [res Hres].
  unfold findPath. rewrite Hres.
  destruct res as [[|p path]|]; eauto.
  destruct (_checkOverwatchAlongPath _ _ u (p :: path)) as [st4 trig].
  destruct (negb (alive (unit st4 u))); [eauto|].
  destruct (ap (unit st4 u) >? 0); eauto.
Qed.

Lemma accepted_move_ap rng st u path :
  let st4 := fst (_checkOverwatchAlongPath rng
                    (moveUnit
                       (withPhase COMBAT_ANIMATION
                          (modify u (withAp (Z.max 0 (ap (unit st u) - 1))) st))
                       u path) u path) in
  (apNonneg st -> apNonneg st4)
  /\ (playerFaction st <> aiFaction st ->
      ap (unit st4 u) = Z.max 0 (ap (unit st u) - 1)).
Proof.
  intros st4.
  set (st1 := modify u (withAp (Z.max 0 (ap (unit st u) - 1))) st) in *.
  set (st3 := moveUnit (withPhase COMBAT_ANIMATION st1) u path) in *.
  assert (Hap3 : forall x, ap (unit st3 x)
                           = if Nat.eqb x u then Z.max 0 (ap (unit st u) - 1)
                             else ap (unit st x)).
  { intros x. unfold st3. rewrite moveUnit_ap. unfold st1. simpl.
    destruct (Nat.eqb x u) eqn:E; [|reflexivity].
    apply Nat.eqb_eq in E. subst x. reflexivity. }
  destruct (moveUnit_sides (withPhase COMBAT_ANIMATION st1) u path) as [Hp Ha].
  fold st3 in Hp, Ha. simpl in Hp, Ha.
  unfold st4. rewrite checkOverwatchAlongPath_fst.
  destruct (overwatchAlongPath_ap rng u path 0%nat st3 (tile (unit st3 u)) false)
    as [H1 [H2 _]].
  split.
  - intros Hnn. apply H1. intros x. rewrite Hap3. specialize (Hnn x).
    destruct (Nat.eqb x u); lia.
  - intros Hsides. rewrite H2 by congruence. rewrite Hap3, Nat.eqb_refl. reflexivity.
Qed.

(** ** The scenarios, run on the sample maps *)

(** Ranged attack on a target behind half cover, not flanked, inside the
    range band: 0.7 + -0.25 in doubles. *)
Example scenario_half_cover :
  fst (calculateHitChance duelHalfCover 0%nat 1%nat Ranged)
  = 0.44999999999999996%float
  /\ breakdownCoverPenalty
       (snd (calculateHitChance duelHalfCover 0%nat 1%nat Ranged))
     = Some CONSTANTS.COVER_BONUS_half
  /\ flankingBonus (snd (calculateHitChance duelHalfCover 0%nat 1%nat Ranged))
     = None
  /\ rangePenalty (snd (calculateHitChance duelHalfCover 0%nat 1%nat Ranged))
     = None.
Proof. repeat split. Qed.

(** The same target hunkered: the penalty counts twice. *)
Example scenario_hunkered :
  fst (calculateHitChance (setHunker duelHalfCover 1%nat) 0%nat 1%nat Ranged)
  = 0.19999999999999996%float.
Proof. vm_compute. reflexivity. Qed.

(** Full cover at the edge of the range: 0.7 + -0.5 + -0.05 in doubles
    is just below 0.15, so a roll of 0.15 misses. *)
Example scenario_roll_at_the_edge :
  clamp (rangedRawChance CONSTANTS.COVER_BONUS_full false false true)
        CONSTANTS.MIN_HIT_CHANCE CONSTANTS.MAX_HIT_CHANCE
  = 0.14999999999999997%float
  /\ (0.15 <=? 0.14999999999999997)%float = false.
Proof. split; reflexivity. Qed.

(** A watcher at (5,0) with cone (-1,0): a mover arriving at (3,0), in
    front of it, triggers; one arriving at (7,0), behind it, does not. *)
Example scenario_overwatch_arc :
  checkOverwatch (setOverwatch duel 1%nat) 0%nat (mkPos 2 0) (mkPos 3 0) = [1%nat]
  /\ checkOverwatch (setOverwatch duel 1%nat) 0%nat (mkPos 6 0) (mkPos 7 0) = [].
Proof. split; reflexivity. Qed.

(** Around the column of [cornerMap]: with one movement point only the
    tile below the origin is reached, the diagonal being cut off by the
    column; with two, the diagonal tile is reached in two steps. *)
Example scenario_corner_range :
  getMovementRange cornerMap 0 0 1 = [mkNode (mkPos 0 1) 1]
  /\ getMovementRange cornerMap 0 0 2
     = [mkNode (mkPos 0 1) 1; mkNode (mkPos 0 2) 2; mkNode (mkPos 1 1) 2;
        mkNode (mkPos 1 2) 2].
Proof. split; vm_compute; reflexivity. Qed.

Example scenario_corner_path :
  findPath (gridBudget cornerMap) cornerMap (mkPos 0 0) (mkPos 1 1)
  = Some (Some [mkPos 0 1; mkPos 1 1])
  /\ findPath (gridBudget cornerMap) cornerMap (mkPos 0 0) (mkPos 1 0)
     = Some None.
Proof. split; vm_compute; reflexivity. Qed.

(** A full-cover object on the line blocks it; the object next to the
    target only gives cover. *)
Example scenario_line_of_sight :
  bresenhamLine (mkPos 0 0) (mkPos 3 1)
  = [mkPos 1 0; mkPos 2 1; mkPos 3 1]
  /\ checkLOS (setObject (newGrid 10 3) 2 0 "column" CoverFull) 0 0 5 0
     = mkLosResult false 0%float LosBlocked
  /\ checkLOS (grid duelHalfCover) 0 0 5 0
     = mkLosResult true CONSTANTS.COVER_BONUS_half (LosCoverOf CoverHalf).
Proof. repeat split. Qed.

(* ================================================================== *)
(** * Further properties of the rules *)
(* ================================================================== *)

(** ** Distance and neighbours *)

(** X1. [tileDistance] is a metric on tiles: it is never negative, it is
    0 exactly between a tile and itself, it is symmetric, and it obeys
    the triangle inequality. *)
Theorem tileDistance_metric (a b c : Pos) :
  0 <= tileDistance a b
  /\ (tileDistance a b = 0 <-> a = b)
  /\ tileDistance a b = tileDistance b a
  /\ tileDistance a c <= tileDistance a b + tileDistance b c.
Proof.
  unfold tileDistance. repeat split; try lia.
  - intros H. destruct a as [ca ra], b as [cb rb]; simpl in *.
    f_equal; lia.
  - intros ->. lia.
Qed.

Lemma getNeighbors_NoDup (c r w h : Z) : NoDup (getNeighbors c r w h).
Proof.
  unfold getNeighbors. apply NoDup_filter. simpl.
  repeat (constructor;
          [simpl; intros H;
           repeat (destruct H as [H | H]; [injection H; lia|]); exact H|]).
  constructor.
Qed.

(** X2. [getNeighbors] returns each tile of the grid at Chebyshev
    distance 1 from the given one exactly once, and nothing else: never
    the tile itself, never a tile off the grid, at most 8 tiles; and
    being a neighbour is symmetric between tiles of the grid. *)
Theorem getNeighbors_exact (a b : Pos) (w h : Z) :
  (In b (getNeighbors (col a) (row a) w h)
   <-> inBounds w h (col b) (row b) = true /\ tileDistance a b = 1)
  /\ NoDup (getNeighbors (col a) (row a) w h)
  /\ ~ In a (getNeighbors (col a) (row a) w h)
  /\ (length (getNeighbors (col a) (row a) w h) <= 8)%nat
  /\ (inBounds w h (col a) (row a) = true ->
      In b (getNeighbors (col a) (row a) w h) ->
      In a (getNeighbors (col b) (row b) w h)).
Proof.
  split; [apply In_getNeighbors|]. split; [apply getNeighbors_NoDup|].
  split; [|split].
  - intros H. apply In_getNeighbors in H. destruct H as [_ H].
    unfold tileDistance in H. lia.
  - unfold getNeighbors.
    etransitivity; [apply filter_length_le|]. rewrite length_map. simpl. lia.
  - intros Ha Hb. apply In_getNeighbors in Hb. apply In_getNeighbors.
    split; [exact Ha|]. unfold tileDistance in *. lia.
Qed.

Lemma getNeighbors_exact_witness :
  getNeighbors 0 0 10 3 = [mkPos 0 1; mkPos 1 0; mkPos 1 1]
  /\ In (mkPos 0 0) (getNeighbors 1 1 10 3).
Proof.
  split; [reflexivity|].
  destruct (getNeighbors_exact (mkPos 0 0) (mkPos 1 1) 10 3) as [_ [_ [_ [_ H]]]].
  apply H; [reflexivity | simpl; tauto].
Defined.

(** ** The shape of the traced line *)

Section BresenhamShape.

Variables x1 y1 dx dy sx sy : Z.
Hypothesis dx_nonneg : 0 <= dx.
Hypothesis dy_nonneg : 0 <= dy.
Hypothesis sx_unit : sx = 1 \/ sx = -1.
Hypothesis sy_unit : sy = 1 \/ sy = -1.

(** One pass away from the end point: the invariant and the band are
    kept, the longer axis loses exactly one step, the other one at most
    one, and the new point is next to the old one. *)
Lemma bresenham_step_shape x0 y0 err :
  bresenham_inv x1 y1 dx dy sx sy x0 y0 err ->
  bresenham_band dx dy err ->
  (x0 =? x1) && (y0 =? y1) = false ->
  let '(x0', y0', err') := bresenham_step dx dy sx sy x0 y0 err in
  bresenham_inv x1 y1 dx dy sx sy x0' y0' err'
  /\ bresenham_band dx dy err'
  /\ longSteps x1 y1 dx dy sx sy (mkPos x0' y0')
     = longSteps x1 y1 dx dy sx sy (mkPos x0 y0) - 1
  /\ stepsLeft sx x1 x0 - 1 <= stepsLeft sx x1 x0' <= stepsLeft sx x1 x0
  /\ stepsLeft sy y1 y0 - 1 <= stepsLeft sy y1 y0' <= stepsLeft sy y1 y0
  /\ tileDistance (mkPos x0 y0) (mkPos x0' y0') = 1.
Proof.
  unfold bresenham_inv, bresenham_band, bresenham_step, longSteps, stepsLeft,
    tileDistance.
  cbn [col row]. cbv zeta. intros [Hx [Hy He]] [Ha Hb] Hne.
  assert (Hpos : 0 < sx * (x1 - x0) + sy * (y1 - y0)).
  { apply andb_false_iff in Hne.
    destruct Hne as [H | H]; apply Z.eqb_neq in H;
      destruct sx_unit, sy_unit; subst sx sy; lia. }
  destruct (Z.leb_spec dy dx) as [Hcase | Hcase].
  - specialize (Ha Hcase). clear Hb.
    assert (E1 : (2 * err >? - dy) = true) by (apply Z.gtb_lt; lia).
    rewrite E1.
    assert (1 <= sx * (x1 - x0)).
    { destruct (Z_le_gt_dec 1 (sx * (x1 - x0))) as [|Hz]; [assumption|].
      assert (Hr : sx * (x1 - x0) = 0) by lia.
      rewrite Hr in He, Hpos.
      assert (0 <= (sy * (y1 - y0) - 1) * dx) by (apply Z.mul_nonneg_nonneg; lia).
      lia. }
    destruct (2 * err <? dx) eqn:E2;
      [apply Z.ltb_lt in E2 | apply Z.ltb_ge in E2].
    + assert (1 <= sy * (y1 - y0)) by nia.
      destruct sx_unit, sy_unit; subst sx sy; repeat split; try lia; nia.
    + destruct sx_unit, sy_unit; subst sx sy; repeat split; try lia; nia.
  - specialize (Hb Hcase). clear Ha.
    assert (E2 : (2 * err <? dx) = true) by (apply Z.ltb_lt; lia).
    rewrite E2.
    assert (1 <= sy * (y1 - y0)).
    { destruct (Z_le_gt_dec 1 (sy * (y1 - y0))) as [|Hz]; [assumption|].
      assert (Hr : sy * (y1 - y0) = 0) by lia.
      rewrite Hr in He, Hpos.
      assert (0 <= (sx * (x1 - x0) - 1) * dy) by (apply Z.mul_nonneg_nonneg; lia).
      lia. }
    destruct (2 * err >? - dy) eqn:E1.
    + apply Z.gtb_lt in E1.
      assert (1 <= sx * (x1 - x0)) by nia.
      destruct sx_unit, sy_unit; subst sx sy; repeat split; try lia; nia.
    + assert (Hle : 2 * err <= - dy).
      { destruct (Z.gtb_spec (2 * err) (- dy)); [discriminate | lia]. }
      destruct sx_unit, sy_unit; subst sx sy; repeat split; try lia; nia.
Qed.

(** What the loop appends: as many tiles as there are steps left on the
    longer axis, each next to the one before, none further from the end
    than the current point on either axis, and the end point last. *)
Lemma bresenham_loop_shape : forall fuel x0 y0 err tiles line,
  bresenham_inv x1 y1 dx dy sx sy x0 y0 err ->
  bresenham_band dx dy err ->
  bresenham_loop fuel x1 y1 dx dy sx sy x0 y0 err tiles = Some line ->
  exists new,
    line = tiles ++ new
    /\ Z.of_nat (length new) = longSteps x1 y1 dx dy sx sy (mkPos x0 y0)
    /\ stepChain (mkPos x0 y0) new
    /\ (forall p, In p new ->
          0 <= stepsLeft sx x1 (col p) <= stepsLeft sx x1 x0
          /\ 0 <= stepsLeft sy y1 (row p) <= stepsLeft sy y1 y0
          /\ longSteps x1 y1 dx dy sx sy p
             < longSteps x1 y1 dx dy sx sy (mkPos x0 y0))
    /\ (new = [] -> x0 = x1 /\ y0 = y1)
    /\ (new <> [] -> exists front, new = front ++ [mkPos x1 y1]).
Proof.
  induction fuel as [|fuel IH]; intros x0 y0 err tiles line Hinv Hband Hloop;
    simpl in Hloop; destruct ((x0 =? x1) && (y0 =? y1)) eqn:Hend;
    try discriminate.
  - injection Hloop as <-. exists []. rewrite app_nil_r.
    apply andb_true_iff in Hend. destruct Hend as [Ex Ey].
    apply Z.eqb_eq in Ex, Ey. subst.
    repeat split; simpl; try contradiction; try congruence.
    unfold longSteps, stepsLeft. simpl. destruct (dy <=? dx); lia.
  - injection Hloop as <-. exists []. rewrite app_nil_r.
    apply andb_true_iff in Hend. destruct Hend as [Ex Ey].
    apply Z.eqb_eq in Ex, Ey. subst.
    repeat split; simpl; try contradiction; try congruence.
    unfold longSteps, stepsLeft. simpl. destruct (dy <=? dx); lia.
  - pose proof (bresenham_step_shape x0 y0 err Hinv Hband Hend) as Hstep.
    destruct (bresenham_step dx dy sx sy x0 y0 err) as [[x0' y0'] err'].
    destruct Hstep as [Hinv' [Hband' [Hlong [Hsx [Hsy Hadj]]]]].
    destruct (IH x0' y0' err' (tiles ++ [mkPos x0' y0']) line Hinv' Hband' Hloop)
      as [new [Hline [Hlen [Hchain [Hbox [Hnil Hlast]]]]]].
    exists (mkPos x0' y0' :: new).
    assert (Hin' : 0 <= stepsLeft sx x1 x0' /\ 0 <= stepsLeft sy y1 y0').
    { destruct Hinv' as [? [? _]]. lia. }
    repeat split.
    + rewrite Hline, <- app_assoc. reflexivity.
    + simpl length. rewrite Nat2Z.inj_succ, Hlen, Hlong. lia.
    + exact Hadj.
    + exact Hchain.
    + destruct H as [<- | H]; simpl; [lia | apply Hbox in H; lia].
    + destruct H as [<- | H]; simpl; [lia | apply Hbox in H; lia].
    + destruct H as [<- | H]; simpl; [lia | apply Hbox in H; lia].
    + destruct H as [<- | H]; simpl; [lia | apply Hbox in H; lia].
    + destruct H as [<- | H]; [rewrite Hlong; lia|].
      apply Hbox in H. rewrite Hlong in H. lia.
    + discriminate.
    + discriminate.
    + intros _. destruct new as [|q new'].
      * destruct (Hnil eq_refl) as [-> ->]. exists []. reflexivity.
      * destruct Hlast as [front Hfront]; [discriminate|].
        exists (mkPos x0' y0' :: front). rewrite Hfront. reflexivity.
Qed.

End BresenhamShape.

(** The trace of [bresenhamLine], read off the loop invariant. *)
Lemma bresenhamLine_trace (start end_ : Pos) :
  Z.of_nat (length (bresenhamLine start end_)) = tileDistance start end_
  /\ stepChain start (bresenhamLine start end_)
  /\ (forall p, In p (bresenhamLine start end_) ->
        Z.min (col start) (col end_) <= col p <= Z.max (col start) (col end_)
        /\ Z.min (row start) (row end_) <= row p <= Z.max (row start) (row end_)
        /\ p <> start)
  /\ (start <> end_ -> exists front, bresenhamLine start end_ = front ++ [end_]).
Proof.
  pose proof (bresenhamLine_total start end_ (bresenham_budget start end_) (le_n _))
    as Hrun.
  destruct (pos_eqb start end_) eqn:Heq.
  - apply pos_eqb_eq in Heq. subst end_.
    unfold bresenhamLine_fuel in Hrun.
    destruct (bresenham_budget start start); simpl in Hrun;
      rewrite !Z.eqb_refl in Hrun; simpl in Hrun;
      injection Hrun as <-; unfold tileDistance; simpl;
      repeat split; try contradiction; try lia; congruence.
  - assert (Hne : col start <> col end_ \/ row start <> row end_).
    { unfold pos_eqb in Heq. apply andb_false_iff in Heq.
      destruct Heq as [H | H]; apply Z.eqb_neq in H; auto. }
    unfold bresenhamLine_fuel in Hrun. cbv zeta in Hrun.
    set (sx := if col start <? col end_ then 1 else -1) in *.
    set (sy := if row start <? row end_ then 1 else -1) in *.
    set (dx := Z.abs (col end_ - col start)) in *.
    set (dy := Z.abs (row end_ - row start)) in *.
    assert (Hsx : sx = 1 \/ sx = -1)
      by (subst sx; destruct (col start <? col end_); auto).
    assert (Hsy : sy = 1 \/ sy = -1)
      by (subst sy; destruct (row start <? row end_); auto).
    assert (Hrx : stepsLeft sx (col end_) (col start) = dx).
    { subst sx dx. unfold stepsLeft.
      destruct (Z.ltb_spec (col start) (col end_)); lia. }
    assert (Hry : stepsLeft sy (row end_) (row start) = dy).
    { subst sy dy. unfold stepsLeft.
      destruct (Z.ltb_spec (row start) (row end_)); lia. }
    assert (Hdx : 0 <= dx) by (subst dx; lia).
    assert (Hdy : 0 <= dy) by (subst dy; lia).
    assert (Hpos : 0 < dx \/ 0 < dy) by (subst dx dy; lia).
    destruct (bresenham_loop_shape (col end_) (row end_) dx dy sx sy
                Hdx Hdy Hsx Hsy (bresenham_budget start end_)
                (col start) (row start) (dx - dy) []
                (bresenhamLine start end_))
      as [new [Hline [Hlen [Hchain [Hbox [Hnil Hlast]]]]]].
    + unfold bresenham_inv. rewrite Hrx, Hry. repeat split; lia.
    + unfold bresenham_band. split; intros; lia.
    + exact Hrun.
    + simpl in Hline. rewrite Hline.
      assert (Hlong : longSteps (col end_) (row end_) dx dy sx sy
                        (mkPos (col start) (row start)) = tileDistance start end_).
      { unfold longSteps. cbn [col row]. rewrite Hrx, Hry.
        unfold tileDistance. subst dx dy.
        destruct (Z.leb_spec (Z.abs (row end_ - row start))
                             (Z.abs (col end_ - col start))); lia. }
      repeat split.
      * rewrite Hlen. exact Hlong.
      * destruct start; exact Hchain.
      * apply Hbox in H. destruct H as [H _]. rewrite Hrx in H.
        subst sx dx. unfold stepsLeft in H.
        destruct (Z.ltb_spec (col start) (col end_)); lia.
      * apply Hbox in H. destruct H as [H _]. rewrite Hrx in H.
        subst sx dx. unfold stepsLeft in H.
        destruct (Z.ltb_spec (col start) (col end_)); lia.
      * apply Hbox in H. destruct H as [_ [H _]]. rewrite Hry in H.
        subst sy dy. unfold stepsLeft in H.
        destruct (Z.ltb_spec (row start) (row end_)); lia.
      * apply Hbox in H. destruct H as [_ [H _]]. rewrite Hry in H.
        subst sy dy. unfold stepsLeft in H.
        destruct (Z.ltb_spec (row start) (row end_)); lia.
      * intros ->. apply Hbox in H. destruct H as [_ [_ H]].
        destruct start; cbn [col row] in H. lia.
      * intros _. destruct new as [|q new'].
        -- destruct (Hnil eq_refl). lia.
        -- destruct Hlast as [front Hfront]; [discriminate|].
           exists front. rewrite Hfront. destruct end_; reflexivity.
Qed.

(** X3. The line traced by [bresenhamLine] has exactly as many tiles as
    the Chebyshev distance between its ends; each tile is adjacent
    (distance 1) to the one before it, the first to the start; every tile
    lies in the rectangle spanned by the two ends and differs from the
    start; and for distinct ends the last tile is the end point. *)
Theorem bresenhamLine_shape (start end_ : Pos) :
  Z.of_nat (length (bresenhamLine start end_)) = tileDistance start end_
  /\ stepChain start (bresenhamLine start end_)
  /\ (forall p, In p (bresenhamLine start end_) ->
        Z.min (col start) (col end_) <= col p <= Z.max (col start) (col end_)
        /\ Z.min (row start) (row end_) <= row p <= Z.max (row start) (row end_)
        /\ p <> start)
  /\ (start <> end_ -> exists front, bresenhamLine start end_ = front ++ [end_]).
Proof.
  exact (bresenhamLine_trace start end_).
Qed.

(** ** Line of sight at close quarters *)

(** Between two tiles at distance at most 1 the traced line holds at most
    the target tile itself. *)
Lemma bresenhamLine_adjacent (a b : Pos) :
  tileDistance a b <= 1 ->
  bresenhamLine a b = [] \/ bresenhamLine a b = [b].
Proof.
  intros Hd.
  destruct (bresenhamLine_trace a b) as [Hlen [_ [_ Hlast]]].
  destruct (bresenhamLine a b) as [|p [|q rest]] eqn:E.
  - left. reflexivity.
  - right. destruct (pos_eqb a b) eqn:Hab.
    + apply pos_eqb_eq in Hab. subst b.
      unfold tileDistance in Hlen. simpl in Hlen. lia.
    + destruct Hlast as [front Hfront].
      { intros ->. rewrite pos_eqb_refl in Hab. discriminate. }
      destruct front as [|f [|f' front']]; simpl in Hfront.
      * congruence.
      * discriminate.
      * destruct front'; discriminate.
  - simpl length in Hlen. lia.
Qed.

Lemma checkLOS_adjacent (g : GridManager) (a b : Pos) :
  tileDistance a b <= 1 ->
  clear (checkLOS g (col a) (row a) (col b) (row b)) = true.
Proof.
  intros Hd. unfold checkLOS. cbv zeta.
  assert (Ea : mkPos (col a) (row a) = a) by (destruct a; reflexivity).
  assert (Eb : mkPos (col b) (row b) = b) by (destruct b; reflexivity).
  rewrite Ea, Eb.
  destruct (bresenhamLine_adjacent a b Hd) as [-> | ->]; simpl.
  - reflexivity.
  - unfold losBlockedAt. rewrite !Z.eqb_refl. reflexivity.
Qed.

(** X4. Two tiles at Chebyshev distance at most 1 always have a clear
    line of sight, whatever stands on either of them or around them:
    [checkLOS] never reports a neighbour as blocked. *)
Theorem checkLOS_adjacent_clear (g : GridManager) (a b : Pos) :
  tileDistance a b <= 1 ->
  clear (checkLOS g (col a) (row a) (col b) (row b)) = true.
Proof.
  intros Hd. apply checkLOS_adjacent. exact Hd.
Qed.

Lemma checkLOS_adjacent_clear_witness :
  tileDistance (mkPos 0 0) (mkPos 1 0) <= 1
  /\ isFull (tileCover (tiles cornerMap 1 0)) = true
  /\ clear (checkLOS cornerMap 0 0 1 0) = true.
Proof.
  split; [vm_compute; discriminate|]. split; [reflexivity|].
  apply (checkLOS_adjacent_clear cornerMap (mkPos 0 0) (mkPos 1 0)).
  vm_compute. discriminate.
Defined.

(** ** Targets and actions *)

Lemma In_getValidMeleeTargets st u e :
  In e (getValidMeleeTargets st u) -> In e (getValidRangedTargets st u).
Proof.
  unfold getValidMeleeTargets, getValidRangedTargets. cbv zeta.
  rewrite !filter_In. intros [Hin Hd]. split; [exact Hin|].
  apply Z.leb_le in Hd. unfold CONSTANTS.meleeRange in Hd.
  destruct (Z.gtb_spec (tileDistance (tile (unit st u)) (tile (unit st e)))
                       CONSTANTS.rangedRange) as [Hgt | _].
  - unfold CONSTANTS.rangedRange in Hgt. lia.
  - apply checkLOS_adjacent. exact Hd.
Qed.

(** X5. Every unit [getValidMeleeTargets] returns is also returned by
    [getValidRangedTargets], and both return only living units of the
    other side; so whenever [getAvailableActions] offers a melee attack
    it offers a shot as well, and a missing, dead or AP-less unit is
    offered nothing. *)
Theorem melee_targets_are_ranged_targets (st : Game) (u : UnitRef) :
  (forall e, In e (getValidMeleeTargets st u) ->
             In e (getValidRangedTargets st u))
  /\ (forall e, In e (getValidRangedTargets st u) ->
        In e (units st) /\ alive (unit st e) = true
        /\ faction (unit st e)
           = (if faction_eqb (faction (unit st u)) (playerFaction st)
              then aiFaction st else playerFaction st)
        /\ tileDistance (tile (unit st u)) (tile (unit st e))
           <= CONSTANTS.rangedRange)
  /\ (canMelee (getAvailableActions st (Some u)) = true ->
      canShoot (getAvailableActions st (Some u)) = true)
  /\ (alive (unit st u) = false \/ ap (unit st u) <= 0 ->
      getAvailableActions st (Some u) = mkActions false false false false)
  /\ getAvailableActions st None = mkActions false false false false.
Proof.
  split; [intros e; apply In_getValidMeleeTargets|].
  split.
  { intros e. unfold getValidRangedTargets, getAliveUnits. cbv zeta.
    rewrite !filter_In. intros [[Hin Hfa] Hd].
    apply andb_true_iff in Hfa. destruct Hfa as [Hf Ha].
    apply faction_eqb_eq in Hf.
    repeat split; try assumption.
    destruct (Z.gtb_spec (tileDistance (tile (unit st u)) (tile (unit st e)))
                         CONSTANTS.rangedRange); [discriminate | lia]. }
  split.
  { unfold getAvailableActions.
    destruct (negb (alive (unit st u)) || (ap (unit st u) <=? 0));
      [discriminate|].
    cbv zeta. cbn [canMelee canShoot]. intros Hm.
    apply Nat.ltb_lt in Hm. apply Nat.ltb_lt.
    destruct (getValidMeleeTargets st u) as [|e rest] eqn:E;
      [simpl in Hm; lia|].
    assert (Hin : In e (getValidRangedTargets st u)).
    { apply In_getValidMeleeTargets. rewrite E. left. reflexivity. }
    destruct (getValidRangedTargets st u); [contradiction | simpl; lia]. }
  split.
  { intros H. unfold getAvailableActions.
    destruct H as [H | H].
    - rewrite H. reflexivity.
    - apply Z.leb_le in H. rewrite H, orb_true_r. reflexivity. }
  reflexivity.
Qed.

(** ** World coordinates *)

(** The round trip along one axis, for every coordinate from -4096 to
    4095, by running the two functions. *)
Lemma worldToTile_axis (c : Z) :
  -4096 <= c < 4096 ->
  Math_floor ((Number c * CONSTANTS.TILE_SIZE + CONSTANTS.TILE_SIZE * 0.5)
              / CONSTANTS.TILE_SIZE)%float = c.
Proof.
  intros Hc.
  assert (Hall : forallb
                   (fun n =>
                      let k := Z.of_nat n - 4096 in
                      Math_floor ((Number k * CONSTANTS.TILE_SIZE
                                   + CONSTANTS.TILE_SIZE * 0.5)
                                  / CONSTANTS.TILE_SIZE)%float =? k)
                   (seq 0 (Z.to_nat 8192)) = true)
    by (vm_compute; reflexivity).
  rewrite forallb_forall in Hall.
  specialize (Hall (Z.to_nat (c + 4096))). cbv zeta in Hall.
  replace (Z.of_nat (Z.to_nat (c + 4096)) - 4096) with c in Hall by lia.
  apply Z.eqb_eq, Hall. apply in_seq. lia.
Qed.

(** X6. With the tile size of the game, [TILE_SIZE] = 2.0, the two
    conversions are inverse on tile centres in double arithmetic: for
    every tile with both coordinates from -4096 to 4095, [worldToTile]
    of the centre [tileToWorld] gives is the tile again. *)
Theorem worldToTile_tileToWorld (c r : Z) :
  -4096 <= c < 4096 -> -4096 <= r < 4096 ->
  worldToTile (wx (tileToWorld c r CONSTANTS.TILE_SIZE))
              (wz (tileToWorld c r CONSTANTS.TILE_SIZE)) CONSTANTS.TILE_SIZE
  = mkPos c r.
Proof.
  intros Hc Hr. unfold worldToTile, tileToWorld. cbn [wx wz].
  rewrite (worldToTile_axis c Hc), (worldToTile_axis r Hr). reflexivity.
Qed.

Lemma worldToTile_tileToWorld_witness :
  -4096 <= 3 < 4096 /\ -4096 <= -2 < 4096
  /\ worldToTile (wx (tileToWorld 3 (-2) CONSTANTS.TILE_SIZE))
                 (wz (tileToWorld 3 (-2) CONSTANTS.TILE_SIZE))
                 CONSTANTS.TILE_SIZE
     = mkPos 3 (-2).
Proof.
  assert (H1 : -4096 <= 3 < 4096) by lia.
  assert (H2 : -4096 <= -2 < 4096) by lia.
  split; [exact H1|]. split; [exact H2|].
  exact (worldToTile_tileToWorld 3 (-2) H1 H2).
Defined.

(** ** Turns and activations *)

Lemma unit_resetActivation st u r :
  unit (resetActivation st u) r
  = if Nat.eqb r u then resetUnit (unit st r) else unit st r.
Proof.
  unfold resetActivation, resetUnit.
  destruct (Nat.eqb r u) eqn:E.
  - apply Nat.eqb_eq in E. subst r.
    destruct (negb (alive (unit st u))); [reflexivity|].
    rewrite !unit_modify_same. cbn [status withAp withActivated maxAp].
    destruct (status_eqb (status (unit st u)) OVERWATCH
              || status_eqb (status (unit st u)) HUNKERED);
      rewrite ?unit_modify_same; reflexivity.
  - destruct (negb (alive (unit st u))); [reflexivity|].
    rewrite !unit_modify_same. cbn [status withAp withActivated maxAp].
    destruct (status_eqb (status (unit st u)) OVERWATCH
              || status_eqb (status (unit st u)) HUNKERED);
      rewrite !unit_modify, E; reflexivity.
Qed.

Lemma resetUnit_idem x : resetUnit (resetUnit x) = resetUnit x.
Proof.
  unfold resetUnit. destruct x as [f t h mh a ma ac al s fa oc].
  destruct al; simpl; [|reflexivity].
  destruct s; reflexivity.
Qed.

Lemma resetActivation_static st u :
  grid (resetActivation st u) = grid st
  /\ units (resetActivation st u) = units st
  /\ playerFaction (resetActivation st u) = playerFaction st
  /\ aiFaction (resetActivation st u) = aiFaction st.
Proof.
  unfold resetActivation.
  destruct (negb (alive (unit st u))); [repeat split|].
  destruct (status_eqb _ _ || status_eqb _ _); repeat split.
Qed.

Lemma fold_resetActivation us : forall st,
  (forall r, unit (fold_left resetActivation us st) r
             = if existsb (Nat.eqb r) us then resetUnit (unit st r)
               else unit st r)
  /\ grid (fold_left resetActivation us st) = grid st
  /\ units (fold_left resetActivation us st) = units st
  /\ playerFaction (fold_left resetActivation us st) = playerFaction st
  /\ aiFaction (fold_left resetActivation us st) = aiFaction st.
Proof.
  induction us as [|u us IH]; intros st; cbn [fold_left existsb].
  - repeat split.
  - destruct (IH (resetActivation st u)) as [Hu [Hg [Hl [Hp Ha]]]].
    destruct (resetActivation_static st u) as [Hg' [Hl' [Hp' Ha']]].
    repeat split; try congruence.
    intros r. rewrite Hu, unit_resetActivation.
    destruct (Nat.eqb r u); simpl; [|reflexivity].
    rewrite resetUnit_idem. destruct (existsb (Nat.eqb r) us); reflexivity.
Qed.

Lemma existsb_eqb_In (r : UnitRef) (us : list UnitRef) :
  existsb (Nat.eqb r) us = true <-> In r us.
Proof.
  rewrite existsb_exists. split.
  - intros [x [Hin E]]. apply Nat.eqb_eq in E. now subst.
  - intros H. exists r. split; [exact H | apply Nat.eqb_refl].
Qed.

Lemma unit_resetActivations st r :
  unit (resetActivations st) r
  = if existsb (Nat.eqb r) (units st) then resetUnit (unit st r) else unit st r.
Proof. apply fold_resetActivation. Qed.

Lemma resetUnit_fields x :
  faction (resetUnit x) = faction x /\ tile (resetUnit x) = tile x
  /\ hp (resetUnit x) = hp x /\ maxHp (resetUnit x) = maxHp x
  /\ maxAp (resetUnit x) = maxAp x /\ alive (resetUnit x) = alive x
  /\ facing (resetUnit x) = facing x.
Proof.
  unfold resetUnit. destruct x as [f t h mh a ma ac al s fa oc].
  destruct al; simpl; [|repeat split].
  destruct s; repeat split.
Qed.

(** X7. [resetActivations] gives every living unit of the roster its
    full AP back and clears its activated flag; Overwatch and Hunkered
    become Ready with the cone dropped, any other status (Activated
    included) and cone stay; dead units and units outside the roster are
    untouched; faction, tile, hp, aliveness and facing of every unit and
    the grid are unchanged. *)
Theorem resetActivations_post (st : Game) (r : UnitRef) :
  (In r (units st) -> alive (unit st r) = true ->
     activated (unit (resetActivations st) r) = false
     /\ ap (unit (resetActivations st) r) = maxAp (unit st r)
     /\ (status (unit st r) = OVERWATCH \/ status (unit st r) = HUNKERED ->
         status (unit (resetActivations st) r) = READY
         /\ overwatchCone (unit (resetActivations st) r) = None)
     /\ (status (unit st r) <> OVERWATCH -> status (unit st r) <> HUNKERED ->
         status (unit (resetActivations st) r) = status (unit st r)
         /\ overwatchCone (unit (resetActivations st) r)
            = overwatchCone (unit st r)))
  /\ (alive (unit st r) = false \/ ~ In r (units st) ->
      unit (resetActivations st) r = unit st r)
  /\ faction (unit (resetActivations st) r) = faction (unit st r)
  /\ tile (unit (resetActivations st) r) = tile (unit st r)
  /\ hp (unit (resetActivations st) r) = hp (unit st r)
  /\ alive (unit (resetActivations st) r) = alive (unit st r)
  /\ facing (unit (resetActivations st) r) = facing (unit st r)
  /\ grid (resetActivations st) = grid st
  /\ units (resetActivations st) = units st.
Proof.
  rewrite unit_resetActivations.
  destruct (fold_resetActivation (units st) st) as [_ [Hg [Hl _]]].
  fold (resetActivations st) in Hg, Hl.
  destruct (resetUnit_fields (unit st r)) as [Hf [Ht [Hh [_ [_ [Hal Hfa]]]]]].
  split.
  { intros Hin Halive. apply existsb_eqb_In in Hin. rewrite Hin.
    clear - Halive. unfold resetUnit.
    destruct (unit st r) as [f t h mh a ma ac al s fa oc].
    cbn in Halive. subst al.
    destruct s; cbn; repeat split; try reflexivity;
      try (intros [H | H]; discriminate);
      try match goal with
          | H : _ \/ _ |- _ => destruct H; discriminate
          end;
      congruence. }
  split.
  { intros [Hd | Hout].
    - destruct (existsb (Nat.eqb r) (units st)); [|reflexivity].
      unfold resetUnit. rewrite Hd. reflexivity.
    - destruct (existsb (Nat.eqb r) (units st)) eqn:E; [|reflexivity].
      apply existsb_eqb_In in E. contradiction. }
  destruct (existsb (Nat.eqb r) (units st)); repeat split; assumption.
Qed.

Lemma getAliveUnits_In st f u :
  In u (getAliveUnits st f)
  <-> In u (units st) /\ faction (unit st u) = f /\ alive (unit st u) = true.
Proof.
  unfold getAliveUnits. rewrite filter_In, andb_true_iff, faction_eqb_eq.
  tauto.
Qed.

Lemma getAliveUnits_none st f :
  Nat.eqb (length (getAliveUnits st f)) 0 = true
  <-> (forall u, In u (units st) -> faction (unit st u) = f ->
                 alive (unit st u) = false).
Proof.
  rewrite Nat.eqb_eq. split.
  - intros H u Hin Hf. apply length_zero_iff_nil in H.
    destruct (alive (unit st u)) eqn:Ha; [|reflexivity].
    assert (Hu : In u (getAliveUnits st f)) by (apply getAliveUnits_In; auto).
    rewrite H in Hu. contradiction.
  - intros H. destruct (getAliveUnits st f) as [|u rest] eqn:E; [reflexivity|].
    assert (Hu : In u (getAliveUnits st f)) by (rewrite E; left; reflexivity).
    apply getAliveUnits_In in Hu. destruct Hu as [Hin [Hf Ha]].
    rewrite (H u Hin Hf) in Ha. discriminate.
Qed.

Lemma getAliveUnits_some st f :
  Nat.eqb (length (getAliveUnits st f)) 0 = false
  <-> (exists u, In u (units st) /\ faction (unit st u) = f
                 /\ alive (unit st u) = true).
Proof.
  split.
  - intros H. destruct (getAliveUnits st f) as [|u rest] eqn:E; [discriminate|].
    exists u. apply getAliveUnits_In. rewrite E. left. reflexivity.
  - intros [u Hu]. apply getAliveUnits_In in Hu.
    destruct (getAliveUnits st f); [contradiction | reflexivity].
Qed.

(** X8. [checkWinCondition] reports no winner exactly when each side
    still has a living unit in the roster; when the AI side has none the
    player's faction wins, also when the player's side has none either;
    the AI's faction wins only when it alone has a living unit. *)
Theorem checkWinCondition_spec (st : Game) :
  (checkWinCondition st = None
   <-> (exists p, In p (units st) /\ faction (unit st p) = playerFaction st
                  /\ alive (unit st p) = true)
       /\ (exists a, In a (units st) /\ faction (unit st a) = aiFaction st
                     /\ alive (unit st a) = true))
  /\ ((forall a, In a (units st) -> faction (unit st a) = aiFaction st ->
                 alive (unit st a) = false)
      <-> checkWinCondition st = Some (playerFaction st))
  /\ (playerFaction st <> aiFaction st ->
      (checkWinCondition st = Some (aiFaction st)
       <-> (exists a, In a (units st) /\ faction (unit st a) = aiFaction st
                      /\ alive (unit st a) = true)
           /\ (forall p, In p (units st) ->
                         faction (unit st p) = playerFaction st ->
                         alive (unit st p) = false))).
Proof.
  unfold checkWinCondition. cbv zeta.
  pose proof (getAliveUnits_none st (aiFaction st)) as HaN.
  pose proof (getAliveUnits_some st (aiFaction st)) as HaS.
  pose proof (getAliveUnits_none st (playerFaction st)) as HpN.
  pose proof (getAliveUnits_some st (playerFaction st)) as HpS.
  destruct (Nat.eqb (length (getAliveUnits st (aiFaction st))) 0) eqn:Ea;
    destruct (Nat.eqb (length (getAliveUnits st (playerFaction st))) 0) eqn:Ep.
  - assert (Hdead := proj1 HaN eq_refl).
    split; [split; [discriminate|] |].
    { intros [_ [a [Hin [Hf Hal]]]]. rewrite (Hdead a Hin Hf) in Hal. discriminate. }
    split; [tauto|].
    intros Hne. split; [intros H; congruence|].
    intros [[a [Hin [Hf Hal]]] _]. rewrite (Hdead a Hin Hf) in Hal. discriminate.
  - assert (Hdead := proj1 HaN eq_refl).
    split; [split; [discriminate|] |].
    { intros [_ [a [Hin [Hf Hal]]]]. rewrite (Hdead a Hin Hf) in Hal. discriminate. }
    split; [tauto|].
    intros Hne. split; [intros H; congruence|].
    intros [[a [Hin [Hf Hal]]] _]. rewrite (Hdead a Hin Hf) in Hal. discriminate.
  - assert (Hlive := proj1 HaS eq_refl). assert (Hdead := proj1 HpN eq_refl).
    split; [split; [discriminate|] |].
    { intros [[p [Hin [Hf Hal]]] _]. rewrite (Hdead p Hin Hf) in Hal. discriminate. }
    split.
    { split.
      - intros H. destruct Hlive as [a [Hin [Hf Hal]]].
        rewrite (H a Hin Hf) in Hal. discriminate.
      - intros H. injection H as H.
        intros a Hin Hf. apply Hdead; congruence. }
    intros Hne. tauto.
  - assert (Hlive := proj1 HaS eq_refl). assert (Hlive' := proj1 HpS eq_refl).
    split; [tauto|].
    split.
    { split; [|discriminate].
      intros H. destruct Hlive as [a [Hin [Hf Hal]]].
      rewrite (H a Hin Hf) in Hal. discriminate. }
    intros Hne. split; [discriminate|].
    intros [_ H]. destruct Hlive' as [p [Hin [Hf Hal]]].
    rewrite (H p Hin Hf) in Hal. discriminate.
Qed.

Lemma nextActivation_scan_spec st : forall rest i,
  exists skipped,
    (forall v, In v skipped -> eligible st v = false)
    /\ fst (nextActivation_scan st rest i) = (i + length skipped)%nat
    /\ match snd (nextActivation_scan st rest i) with
       | Some u => eligible st u = true
                   /\ exists more, rest = skipped ++ u :: more
       | None => rest = skipped
       end.
Proof.
  induction rest as [|u more IH]; intros i; cbn [nextActivation_scan].
  - exists []. simpl. repeat split; [contradiction | lia].
  - fold (eligible st u). destruct (eligible st u) eqn:E.
    + exists []. simpl. repeat split; try contradiction; try lia; eauto.
    + destruct (IH (S i)) as [skipped [Hs [Hi Hn]]].
      exists (u :: skipped). repeat split.
      * intros v [<- | Hv]; auto.
      * rewrite Hi. simpl. lia.
      * destruct (snd (nextActivation_scan st more (S i))).
        -- destruct Hn as [He [more' ->]]. split; [exact He|].
           exists more'. reflexivity.
        -- subst. reflexivity.
Qed.

Lemma nth_error_skipn_split (queue : list UnitRef) (i : nat)
      (skipped : list UnitRef) (rest : list UnitRef) :
  skipn i queue = skipped ++ rest ->
  forall k v, (i <= k < i + length skipped)%nat ->
    nth_error queue k = Some v -> In v skipped.
Proof.
  intros Hq k v Hk Hn.
  assert (Hn' : nth_error (skipn i queue) (k - i) = Some v).
  { rewrite nth_error_skipn. replace (i + (k - i))%nat with k by lia. exact Hn. }
  rewrite Hq, nth_error_app1 in Hn' by lia.
  eapply nth_error_In; eauto.
Qed.

Lemma nth_error_skipn_found (queue : list UnitRef) (i : nat)
      (skipped : list UnitRef) (u : UnitRef) (more : list UnitRef) :
  skipn i queue = skipped ++ u :: more ->
  nth_error queue (i + length skipped) = Some u.
Proof.
  intros Hq. rewrite <- nth_error_skipn, Hq, nth_error_app2 by lia.
  rewrite Nat.sub_diag. reflexivity.
Qed.

(** X9. [nextActivation] ends the game exactly when [checkWinCondition]
    names a winner; otherwise it stops on the first queue entry at or
    after the current index that is alive and not yet activated (never
    a dead or activated unit, never skipping an eligible one), hands it to
    the player's activation (active unit, movement phase and fresh
    movement range set) when it is of the player's faction and to the
    AI's otherwise, and asks for the end of the turn only when no entry
    from the index on is eligible. *)
Theorem nextActivation_schedules (st : Game) :
  match snd (nextActivation st) with
  | GameOver w =>
      checkWinCondition st = Some w
      /\ phase (fst (nextActivation st)) = GAME_OVER
      /\ unit (fst (nextActivation st)) = unit st
  | PlayerActivation u =>
      scheduledUnit st (fst (nextActivation st)) u
      /\ faction (unit st u) = playerFaction st
      /\ activeUnit (fst (nextActivation st)) = Some u
      /\ phase (fst (nextActivation st)) = PLAYER_MOVEMENT
      /\ _selectedMoveTiles (fst (nextActivation st))
         = getMovementRange (grid st) (col (tile (unit st u)))
                            (row (tile (unit st u))) CONSTANTS.movement
  | AIActivation u =>
      scheduledUnit st (fst (nextActivation st)) u
      /\ faction (unit st u) <> playerFaction st
  | TurnEnds =>
      checkWinCondition st = None
      /\ (forall v, In v (skipn (currentActivationIndex st) (activationQueue st)) ->
                    eligible st v = false)
      /\ unit (fst (nextActivation st)) = unit st
  end.
Proof.
  unfold nextActivation.
  destruct (checkWinCondition st) as [w|] eqn:Ew.
  { cbn. repeat split. }
  destruct (nextActivation_scan_spec st
              (skipn (currentActivationIndex st) (activationQueue st))
              (currentActivationIndex st)) as [skipped [Hs [Hi Hn]]].
  destruct (nextActivation_scan st
              (skipn (currentActivationIndex st) (activationQueue st))
              (currentActivationIndex st)) as [i next].
  cbn [fst snd] in Hi, Hn. subst i.
  destruct next as [u|].
  - destruct Hn as [He [more Hq]].
    assert (Hsched : forall st',
      currentActivationIndex st'
      = (currentActivationIndex st + length skipped)%nat ->
      unit st' = unit st -> grid st' = grid st ->
      activationQueue st' = activationQueue st ->
      scheduledUnit st st' u).
    { intros st' Hidx Hu Hg Hqq. unfold scheduledUnit. rewrite Hidx.
      unfold eligible in He. apply andb_true_iff in He.
      destruct He as [Hal Hac]. apply negb_true_iff in Hac.
      repeat split; try assumption; try lia.
      - eapply nth_error_skipn_found; eauto.
      - intros k v Hk Hkv. apply Hs.
        eapply nth_error_skipn_split; eauto. }
    cbv zeta. cbn [unit withCurrentActivationIndex playerFaction].
    destruct (faction_eqb (faction (unit st u)) (playerFaction st)) eqn:Ef;
      cbn [fst snd].
    + split; [apply Hsched; reflexivity|].
      apply faction_eqb_eq in Ef. repeat split; assumption.
    + split; [apply Hsched; reflexivity|].
      intros H. apply faction_eqb_eq in H. congruence.
  - cbn [fst snd]. repeat split. intros v Hv. apply Hs. rewrite <- Hn. exact Hv.
Qed.

Lemma activationQueue_interleave st :
  activationQueue (buildActivationQueue st)
  = interleave (getUnactivatedUnits st (playerFaction st))
               (getUnactivatedUnits st (aiFaction st)).
Proof.
  unfold buildActivationQueue. cbn [activationQueue withActivationQueue].
  rewrite zip_loop_interleave. simpl.
  rewrite !firstn_all2 by lia. reflexivity.
Qed.

Lemma resetUnit_activated x :
  alive x = true -> activated (resetUnit x) = false.
Proof.
  unfold resetUnit. intros ->. cbn [negb].
  destruct (status_eqb _ _ || status_eqb _ _); reflexivity.
Qed.

Lemma getUnactivatedUnits_reset st f :
  getUnactivatedUnits (resetActivations st) f = getAliveUnits st f.
Proof.
  unfold getUnactivatedUnits, getAliveUnits.
  destruct (fold_resetActivation (units st) st) as [_ [_ [Hl _]]].
  fold (resetActivations st) in Hl. rewrite Hl.
  apply filter_ext_in. intros u Hin.
  rewrite unit_resetActivations.
  apply existsb_eqb_In in Hin. rewrite Hin.
  destruct (resetUnit_fields (unit st u)) as [Hf [_ [_ [_ [_ [Hal _]]]]]].
  rewrite Hf, Hal.
  destruct (alive (unit st u)) eqn:Ea.
  - rewrite (resetUnit_activated _ Ea). rewrite !andb_true_r. reflexivity.
  - rewrite !andb_false_r. reflexivity.
Qed.

Lemma getAliveUnits_reset st f :
  getAliveUnits (resetActivations st) f = getAliveUnits st f.
Proof.
  unfold getAliveUnits.
  destruct (fold_resetActivation (units st) st) as [_ [_ [Hl _]]].
  fold (resetActivations st) in Hl. rewrite Hl.
  apply filter_ext. intros u. rewrite unit_resetActivations.
  destruct (resetUnit_fields (unit st u)) as [Hf [_ [_ [_ [_ [Hal _]]]]]].
  destruct (existsb (Nat.eqb u) (units st)); [rewrite Hf, Hal|]; reflexivity.
Qed.

Lemma resetActivations_sides st :
  playerFaction (resetActivations st) = playerFaction st
  /\ aiFaction (resetActivations st) = aiFaction st.
Proof.
  destruct (fold_resetActivation (units st) st) as [_ [_ [_ [Hp Ha]]]].
  split; assumption.
Qed.

(** X10. A turn started by [startTurn] never passes straight to the end
    of the turn and never opens with an AI unit: unless
    [checkWinCondition] already names a winner (then the game ends), the
    first activation goes to the first living unit of the player's
    faction in roster order, at queue index 0. *)
Theorem startTurn_first_activation (st : Game) :
  match snd (startTurn st) with
  | GameOver w => checkWinCondition st = Some w
  | PlayerActivation u =>
      checkWinCondition st = None
      /\ (exists rest, getAliveUnits st (playerFaction st) = u :: rest)
      /\ currentActivationIndex (fst (startTurn st)) = 0%nat
      /\ activeUnit (fst (startTurn st)) = Some u
  | AIActivation _ => False
  | TurnEnds => False
  end.
Proof.
  unfold startTurn. cbv zeta.
  set (st1 := resetActivations st).
  set (st2 := withCurrentActivationIndex 0 (buildActivationQueue st1)).
  destruct (resetActivations_sides st) as [Hp Ha]. fold st1 in Hp, Ha.
  assert (Hwin : checkWinCondition st2 = checkWinCondition st).
  { unfold checkWinCondition, st2. cbv zeta.
    change (getAliveUnits (withCurrentActivationIndex 0 (buildActivationQueue st1))
                          (playerFaction (withCurrentActivationIndex 0 (buildActivationQueue st1))))
      with (getAliveUnits st1 (playerFaction st1)).
    change (getAliveUnits (withCurrentActivationIndex 0 (buildActivationQueue st1))
                          (aiFaction (withCurrentActivationIndex 0 (buildActivationQueue st1))))
      with (getAliveUnits st1 (aiFaction st1)).
    change (playerFaction (withCurrentActivationIndex 0 (buildActivationQueue st1)))
      with (playerFaction st1).
    change (aiFaction (withCurrentActivationIndex 0 (buildActivationQueue st1)))
      with (aiFaction st1).
    rewrite Hp, Ha. unfold st1. rewrite !getAliveUnits_reset. reflexivity. }
  unfold nextActivation. rewrite Hwin.
  destruct (checkWinCondition st) as [w|] eqn:Ew; [reflexivity|].
  assert (Hq : activationQueue st2
               = interleave (getAliveUnits st (playerFaction st))
                            (getAliveUnits st (aiFaction st))).
  { unfold st2. cbn [activationQueue withCurrentActivationIndex].
    rewrite activationQueue_interleave, Hp, Ha. unfold st1.
    rewrite !getUnactivatedUnits_reset. reflexivity. }
  assert (Hidx : currentActivationIndex st2 = 0%nat) by reflexivity.
  rewrite Hidx, Hq. cbn [skipn].
  unfold checkWinCondition in Ew. cbv zeta in Ew.
  destruct (getAliveUnits st (aiFaction st)) as [|a arest] eqn:Ea;
    [discriminate|].
  destruct (getAliveUnits st (playerFaction st)) as [|p prest] eqn:Epl;
    [discriminate|].
  cbn [interleave nextActivation_scan].
  assert (Hpin : In p (getAliveUnits st (playerFaction st)))
    by (rewrite Epl; left; reflexivity).
  apply getAliveUnits_In in Hpin. destruct Hpin as [Hin [Hf Hal]].
  assert (Hunit : unit st2 p = resetUnit (unit st p)).
  { unfold st2, st1. cbn [unit withCurrentActivationIndex buildActivationQueue
                          withActivationQueue].
    rewrite unit_resetActivations.
    apply existsb_eqb_In in Hin. rewrite Hin. reflexivity. }
  destruct (resetUnit_fields (unit st p)) as [Hf' [_ [_ [_ [_ [Hal' _]]]]]].
  rewrite Hunit, Hal', Hal, (resetUnit_activated _ Hal). cbn [andb negb].
  cbv zeta. cbn [unit withCurrentActivationIndex playerFaction].
  change (playerFaction st2) with (playerFaction st1).
  rewrite Hunit, Hf', Hf, Hp.
  assert (Hrefl : faction_eqb (playerFaction st) (playerFaction st) = true)
    by (apply faction_eqb_eq; reflexivity).
  rewrite Hrefl. cbn [fst snd].
  repeat split. exists prest. reflexivity.
Qed.

Lemma interleave_Permutation (xs : list UnitRef) : forall ys,
  Permutation (interleave xs ys) (xs ++ ys).
Proof.
  induction xs as [|x xs IH]; intros ys; [reflexivity|].
  destruct ys as [|y ys]; cbn [interleave].
  - rewrite app_nil_r. reflexivity.
  - cbn [app]. constructor.
    etransitivity; [apply perm_skip, IH|].
    apply Permutation_middle.
Qed.

Lemma filter_split_Permutation (p q : UnitRef -> bool) (l : list UnitRef) :
  (forall x, In x l -> p x = true -> q x = false) ->
  Permutation (filter p l ++ filter q l) (filter (fun x => p x || q x) l).
Proof.
  induction l as [|x l IH]; intros Hd; [reflexivity|].
  assert (IH' := IH (fun y Hy => Hd y (or_intror Hy))).
  cbn [filter]. destruct (p x) eqn:Ep.
  - rewrite (Hd x (or_introl eq_refl) Ep). cbn. constructor. exact IH'.
  - destruct (q x); cbn.
    + etransitivity; [symmetry; apply Permutation_middle|].
      constructor. exact IH'.
    + exact IH'.
Qed.

(** X11. The queue [buildActivationQueue] stores is a rearrangement of
    the living, not yet activated units of the two factions; built at
    the start of a turn (right after [resetActivations]) with distinct
    faction ids, it is a rearrangement of all the living units of the
    roster, so each of them gets exactly one slot when the roster has no
    duplicate. *)
Theorem activation_queue_covers_living (st : Game) :
  playerFaction st <> aiFaction st ->
  Permutation (activationQueue (buildActivationQueue st))
              (getUnactivatedUnits st (playerFaction st)
               ++ getUnactivatedUnits st (aiFaction st))
  /\ Permutation (activationQueue (buildActivationQueue (resetActivations st)))
                 (filter (fun u => alive (unit st u)) (units st))
  /\ (NoDup (units st) ->
      NoDup (activationQueue (buildActivationQueue (resetActivations st)))).
Proof.
  intros Hne.
  assert (H1 : Permutation (activationQueue (buildActivationQueue st))
                 (getUnactivatedUnits st (playerFaction st)
                  ++ getUnactivatedUnits st (aiFaction st))).
  { rewrite activationQueue_interleave. apply interleave_Permutation. }
  assert (H2 : Permutation
                 (activationQueue (buildActivationQueue (resetActivations st)))
                 (filter (fun u => alive (unit st u)) (units st))).
  { rewrite activationQueue_interleave.
    destruct (resetActivations_sides st) as [-> ->].
    rewrite !getUnactivatedUnits_reset.
    etransitivity; [apply interleave_Permutation|].
    unfold getAliveUnits.
    etransitivity; [apply filter_split_Permutation|].
    - intros x _ Hx. apply andb_true_iff in Hx. destruct Hx as [Hf _].
      apply faction_eqb_eq in Hf.
      destruct (faction_eqb (faction (unit st x)) (aiFaction st)) eqn:E;
        [|reflexivity].
      apply faction_eqb_eq in E. congruence.
    - erewrite filter_ext; [reflexivity|].
      intros x. cbv beta.
      destruct (faction (unit st x)), (playerFaction st), (aiFaction st),
        (alive (unit st x)); try reflexivity; congruence. }
  split; [exact H1|]. split; [exact H2|].
  intros Hnd. eapply Permutation_NoDup; [symmetry; exact H2|].
  apply NoDup_filter. exact Hnd.
Qed.

Lemma activation_queue_covers_living_witness :
  playerFaction twoSquads <> aiFaction twoSquads
  /\ Permutation (activationQueue (buildActivationQueue (resetActivations twoSquads)))
                 (filter (fun u => alive (unit twoSquads u)) (units twoSquads)).
Proof.
  split; [discriminate|].
  apply (activation_queue_covers_living twoSquads). discriminate.
Defined.

(** ** Attacks *)

(** The order of doubles, read off their specification. *)
Ltac sf_cmp :=
  repeat match goal with
         | H : context [PosDef.Pos.compare_cont Eq ?a ?b] |- _ =>
             change (PosDef.Pos.compare_cont Eq a b) with (Pos.compare a b) in H
         | |- context [PosDef.Pos.compare_cont Eq ?a ?b] =>
             change (PosDef.Pos.compare_cont Eq a b) with (Pos.compare a b)
         end;
  repeat match goal with
         | H : context [Z.compare ?x ?y] |- _ => destruct (Z.compare_spec x y)
         | |- context [Z.compare ?x ?y] => destruct (Z.compare_spec x y)
         | H : context [Pos.compare ?x ?y] |- _ => destruct (Pos.compare_spec x y)
         | |- context [Pos.compare ?x ?y] => destruct (Pos.compare_spec x y)
         end;
  cbn in *; try congruence; try lia.

Lemma SFleb_trans (a b c : spec_float) :
  SFleb a b = true -> SFleb b c = true -> SFleb a c = true.
Proof.
  unfold SFleb, SFcompare.
  destruct a as [sa|sa| |sa ma ea], b as [sb|sb| |sb mb eb],
           c as [sc|sc| |sc mc ec];
    try destruct sa; try destruct sb; try destruct sc;
    try (intros; congruence); try discriminate;
    intros H1 H2; sf_cmp.
Qed.

Lemma SFltb_not_leb (a b : spec_float) :
  SFltb a b = true -> SFleb b a = false.
Proof.
  unfold SFleb, SFltb, SFcompare.
  destruct a as [sa|sa| |sa ma ea], b as [sb|sb| |sb mb eb];
    try destruct sa; try destruct sb;
    try (intros; congruence); try discriminate;
    intros H1; sf_cmp.
Qed.

Lemma float_leb_trans (a b c : float) :
  (a <=? b)%float = true -> (b <=? c)%float = true -> (a <=? c)%float = true.
Proof. rewrite !FloatAxioms.leb_spec. apply SFleb_trans. Qed.

Lemma float_ltb_leb_false (c m r : float) :
  (c <=? m)%float = true -> (m <? r)%float = true -> (r <=? c)%float = false.
Proof.
  intros H1 H2. destruct (r <=? c)%float eqn:E; [|reflexivity].
  pose proof (float_leb_trans r c m E H1) as H3.
  rewrite FloatAxioms.ltb_spec in H2. rewrite FloatAxioms.leb_spec in H3.
  rewrite (SFltb_not_leb _ _ H2) in H3. discriminate.
Qed.

(** The chance of a ranged or melee attack lies within the clamp. *)
Lemma hit_chance_range (st : Game) (a t : UnitRef) (ty : AttackType) :
  ty <> OtherAttack ->
  (CONSTANTS.MIN_HIT_CHANCE <=? fst (calculateHitChance st a t ty))%float = true
  /\ (fst (calculateHitChance st a t ty) <=? CONSTANTS.MAX_HIT_CHANCE)%float
     = true.
Proof.
  intros Hty. destruct ty; [| |contradiction].
  - unfold calculateHitChance. cbv zeta. cbn [fst].
    destruct (checkLOS_penalty (grid st) (col (tile (unit st a)))
                (row (tile (unit st a))) (col (tile (unit st t)))
                (row (tile (unit st t)))) as [E | [E | E]];
      rewrite E;
      destruct (status_eqb (status (unit st t)) HUNKERED),
               (checkFlanking _ _ _), (_ >=? _);
      split; reflexivity.
  - unfold calculateHitChance. cbv zeta. cbn [fst].
    destruct (checkFlanking _ _ _); split; reflexivity.
Qed.

(** X12. For a ranged or melee attack [calculateHitChance] returns a
    chance between [MIN_HIT_CHANCE] and [MAX_HIT_CHANCE] and records it
    as the breakdown's [final]; a melee attack has chance 0.85, or 0.95
    when it flanks (the raw 1.00 is clamped); any other attack type gets
    chance 0 and an empty breakdown.  Hence in [executeAttack] a roll of
    at most 0.05 always hits and a roll above 0.95 never does. *)
Theorem hit_chance_bounds (st : Game) (a t : UnitRef) (ty : AttackType) :
  match ty with
  | OtherAttack => calculateHitChance st a t ty = (0%float, emptyBreakdown)
  | _ =>
      (CONSTANTS.MIN_HIT_CHANCE <=? fst (calculateHitChance st a t ty))%float
      = true
      /\ (fst (calculateHitChance st a t ty) <=? CONSTANTS.MAX_HIT_CHANCE)%float
         = true
      /\ final (snd (calculateHitChance st a t ty))
         = Some (fst (calculateHitChance st a t ty))
      /\ (forall roll, (roll <=? CONSTANTS.MIN_HIT_CHANCE)%float = true ->
            hit (snd (executeAttack st a t ty roll)) = true)
      /\ (forall roll, (CONSTANTS.MAX_HIT_CHANCE <? roll)%float = true ->
            hit (snd (executeAttack st a t ty roll)) = false)
  end
  /\ fst (calculateHitChance st a t Melee)
     = (if checkFlanking (tile (unit st a)) (tile (unit st t))
                         (Some (facing (unit st t)))
        then 0.95%float else 0.85%float).
Proof.
  assert (Hroll : forall ty', ty' <> OtherAttack ->
            (forall roll, (roll <=? CONSTANTS.MIN_HIT_CHANCE)%float = true ->
               hit (snd (executeAttack st a t ty' roll)) = true)
            /\ (forall roll, (CONSTANTS.MAX_HIT_CHANCE <? roll)%float = true ->
               hit (snd (executeAttack st a t ty' roll)) = false)).
  { intros ty' Hty. destruct (hit_chance_range st a t ty' Hty) as [Hlo Hhi].
    split; intros roll Hr.
    - pose proof (executeAttack_eq st a t ty' roll) as E. cbv zeta in E.
      rewrite E. cbn [snd hit]. eapply float_leb_trans; eauto.
    - pose proof (executeAttack_eq st a t ty' roll) as E. cbv zeta in E.
      rewrite E. cbn [snd hit]. eapply float_ltb_leb_false; eauto. }
  split.
  - destruct ty; [| |reflexivity].
    + destruct (hit_chance_range st a t Ranged) as [Hlo Hhi]; [discriminate|].
      destruct (Hroll Ranged) as [H1 H2]; [discriminate|].
      split; [exact Hlo|]. split; [exact Hhi|]. split; [reflexivity|].
      split; assumption.
    + destruct (hit_chance_range st a t Melee) as [Hlo Hhi]; [discriminate|].
      destruct (Hroll Melee) as [H1 H2]; [discriminate|].
      split; [exact Hlo|]. split; [exact Hhi|]. split; [reflexivity|].
      split; assumption.
  - unfold calculateHitChance. cbv zeta. cbn [fst].
    destruct (checkFlanking _ _ _); reflexivity.
Qed.

Lemma unit_afterRoll st a t ty h r :
  unit (afterRoll st a t ty h) r
  = let x :=
      if Nat.eqb r a
      then withFacing
             (mkPos (sign (col (tile (unit st t)) - col (tile (unit st a))))
                    (sign (row (tile (unit st t)) - row (tile (unit st a)))))
             (unit st r)
      else unit st r in
    if h && Nat.eqb r t then struck (attackDamage ty) x else x.
Proof.
  unfold afterRoll. cbv zeta. destruct h; cbn [andb].
  - rewrite killed_applyDamage.
    assert (Hhp : hp (unit (faceTarget (withPhase COMBAT_ANIMATION st) a
                                       (tile (unit st t))) t)
                  = hp (unit st t)).
    { rewrite unit_faceTarget. destruct (Nat.eqb t a); reflexivity. }
    rewrite Hhp.
    destruct (Nat.eqb r t) eqn:Ert.
    + apply Nat.eqb_eq in Ert. subst r. unfold struck.
      assert (Hx : hp (if Nat.eqb t a
                       then withFacing
                              (mkPos (sign (col (tile (unit st t)) - col (tile (unit st a))))
                                     (sign (row (tile (unit st t)) - row (tile (unit st a)))))
                              (unit st t)
                       else unit st t) = hp (unit st t))
        by (destruct (Nat.eqb t a); reflexivity).
      rewrite Hx.
      destruct (hp (unit st t) - attackDamage ty <=? 0) eqn:Ek.
      * rewrite unit_setUnitDead, Nat.eqb_refl, unit_applyDamage, Nat.eqb_refl.
        rewrite unit_faceTarget. cbn [unit withPhase].
        destruct (Nat.eqb t a); reflexivity.
      * rewrite unit_applyDamage, Nat.eqb_refl, Hhp, unit_faceTarget.
        cbn [unit withPhase]. apply Z.leb_gt in Ek.
        rewrite Z.max_r by lia.
        destruct (Nat.eqb t a); reflexivity.
    + destruct (hp (unit st t) - attackDamage ty <=? 0).
      * rewrite unit_setUnitDead, Ert, unit_applyDamage, Ert, unit_faceTarget.
        reflexivity.
      * rewrite unit_applyDamage, Ert, unit_faceTarget. reflexivity.
  - rewrite unit_faceTarget. reflexivity.
Qed.

Lemma unit_executeAttack st a t ty roll r :
  unit (fst (executeAttack st a t ty roll)) r
  = let x := unit (afterRoll st a t ty
                     (PrimFloat.leb roll (fst (calculateHitChance st a t ty)))) r in
    if Nat.eqb r a then withAp (Z.max 0 (ap x - 1)) x else x.
Proof.
  pose proof (executeAttack_eq st a t ty roll) as E. cbv zeta in E.
  rewrite E. cbn [fst]. rewrite unit_modify. cbv zeta.
  destruct (Nat.eqb r a) eqn:Era; [|reflexivity].
  apply Nat.eqb_eq in Era. subst r. reflexivity.
Qed.

Lemma grid_afterRoll st a t ty h :
  grid (afterRoll st a t ty h)
  = if h && (hp (unit st t) - attackDamage ty <=? 0)
    then clearOccupant (grid st) (col (tile (unit st t))) (row (tile (unit st t)))
    else grid st.
Proof.
  unfold afterRoll. cbv zeta. destruct h; cbn [andb]; [|reflexivity].
  rewrite killed_applyDamage.
  assert (Hhp : hp (unit (faceTarget (withPhase COMBAT_ANIMATION st) a
                                     (tile (unit st t))) t)
                = hp (unit st t)).
  { rewrite unit_faceTarget. destruct (Nat.eqb t a); reflexivity. }
  rewrite Hhp.
  destruct (hp (unit st t) - attackDamage ty <=? 0).
  - rewrite grid_setUnitDead, grid_applyDamage, unit_applyDamage, Nat.eqb_refl.
    rewrite unit_faceTarget. cbn [grid faceTarget modify withUnit withPhase unit].
    destruct (Nat.eqb t a); reflexivity.
  - rewrite grid_applyDamage. reflexivity.
Qed.

Lemma attackDamage_pos ty : 0 < attackDamage ty.
Proof. destruct ty; reflexivity. Qed.

(** X13. What [executeAttack] writes.  A unit that is neither attacker
    nor target is untouched, and no unit changes tile, faction or
    maximum hit points.  On a miss no unit's hit points, aliveness or
    status change, the grid is as before and the result reports damage 0
    and no kill.  On a hit the target's hit points become
    [max(0, hp - damage)] with damage 4 (ranged) or 5 (melee); when that
    is still positive the target keeps its aliveness and status, no
    kill is reported and the grid is as before. *)
Theorem executeAttack_writes (st : Game) (a t : UnitRef) (ty : AttackType)
        (roll : float) :
  (forall r, r <> a -> r <> t ->
     unit (fst (executeAttack st a t ty roll)) r = unit st r)
  /\ (forall r,
        tile (unit (fst (executeAttack st a t ty roll)) r) = tile (unit st r)
        /\ faction (unit (fst (executeAttack st a t ty roll)) r)
           = faction (unit st r)
        /\ maxHp (unit (fst (executeAttack st a t ty roll)) r)
           = maxHp (unit st r))
  /\ (hit (snd (executeAttack st a t ty roll)) = false ->
      (forall r,
         hp (unit (fst (executeAttack st a t ty roll)) r) = hp (unit st r)
         /\ alive (unit (fst (executeAttack st a t ty roll)) r)
            = alive (unit st r)
         /\ status (unit (fst (executeAttack st a t ty roll)) r)
            = status (unit st r))
      /\ grid (fst (executeAttack st a t ty roll)) = grid st
      /\ resultDamage (snd (executeAttack st a t ty roll)) = 0
      /\ killed (snd (executeAttack st a t ty roll)) = false)
  /\ (hit (snd (executeAttack st a t ty roll)) = true ->
      hp (unit (fst (executeAttack st a t ty roll)) t)
      = Z.max 0 (hp (unit st t) - attackDamage ty)
      /\ resultDamage (snd (executeAttack st a t ty roll)) = attackDamage ty
      /\ (attackDamage ty < hp (unit st t) ->
          alive (unit (fst (executeAttack st a t ty roll)) t)
          = alive (unit st t)
          /\ status (unit (fst (executeAttack st a t ty roll)) t)
             = status (unit st t)
          /\ killed (snd (executeAttack st a t ty roll)) = false
          /\ grid (fst (executeAttack st a t ty roll)) = grid st)).
Proof.
  pose proof (executeAttack_eq st a t ty roll) as E. cbv zeta in E.
  assert (Hu := fun r => unit_executeAttack st a t ty roll r).
  cbv zeta in Hu.
  assert (Hg : grid (fst (executeAttack st a t ty roll))
               = grid (afterRoll st a t ty
                         (PrimFloat.leb roll (fst (calculateHitChance st a t ty)))))
    by (rewrite E; reflexivity).
  assert (Hres : snd (executeAttack st a t ty roll)
                 = mkAttackResult
                     (PrimFloat.leb roll (fst (calculateHitChance st a t ty)))
                     (if PrimFloat.leb roll (fst (calculateHitChance st a t ty))
                      then attackDamage ty else 0)
                     (if PrimFloat.leb roll (fst (calculateHitChance st a t ty))
                      then hp (unit st t) - attackDamage ty <=? 0
                      else false)).
  { rewrite E. cbn [snd]. rewrite killed_applyDamage, unit_faceTarget.
    destruct (Nat.eqb t a); reflexivity. }
  rewrite Hres, Hg, grid_afterRoll. cbn [hit resultDamage killed].
  set (h := PrimFloat.leb roll (fst (calculateHitChance st a t ty))) in *.
  clearbody h. clear E Hg Hres.
  split.
  { intros r Hra Hrt. rewrite Hu, unit_afterRoll. cbv zeta.
    apply Nat.eqb_neq in Hra, Hrt. rewrite Hra, Hrt, andb_false_r. reflexivity. }
  split.
  { intros r. rewrite Hu, unit_afterRoll. cbv zeta. unfold struck.
    destruct (Nat.eqb r a), (h && Nat.eqb r t);
      repeat match goal with
             | |- context [if ?c then _ else _] => destruct c
             end; repeat split. }
  split.
  { intros Hh. subst h. cbn [andb].
    split; [|repeat split].
    intros r. rewrite Hu, unit_afterRoll. cbv zeta. cbn [andb].
    destruct (Nat.eqb r a); repeat split. }
  intros Hh. subst h. cbn [andb].
  split.
  { rewrite Hu, unit_afterRoll. cbv zeta. rewrite Nat.eqb_refl. cbn [andb].
    unfold struck.
    destruct (Nat.eqb t a); cbn [hp withFacing];
      destruct (Z.leb_spec (hp (unit st t) - attackDamage ty) 0);
      cbn; lia. }
  split; [reflexivity|].
  intros Hlive.
  assert (Ek : (hp (unit st t) - attackDamage ty <=? 0) = false)
    by (apply Z.leb_gt; lia).
  rewrite Ek.
  repeat split; rewrite Hu, unit_afterRoll; cbv zeta;
    rewrite Nat.eqb_refl; cbn [andb]; unfold struck;
    destruct (Nat.eqb t a); cbn [hp withFacing]; rewrite Ek; reflexivity.
Qed.

(** ** The bookkeeping of hit points, aliveness and status *)

Lemma healthy_fields (x y : Unit) :
  hp y = hp x -> maxHp y = maxHp x -> alive y = alive x ->
  (status y = status x \/ (alive x = true /\ status y <> DEAD)) ->
  healthy x -> healthy y.
Proof.
  unfold healthy. intros -> -> -> Hs [H1 [H2 H3]].
  split; [exact H1|]. split.
  - intros Ha. destruct (H2 Ha) as [Hp Hd]. split; [exact Hp|].
    destruct Hs as [-> | [_ Hs]]; assumption.
  - intros Ha. destruct (H3 Ha) as [Hp Hd]. split; [exact Hp|].
    destruct Hs as [-> | [Ha' _]]; [assumption | congruence].
Qed.

Lemma healthy_struck (d : Z) (x : Unit) :
  0 < d -> healthy x -> healthy (struck d x).
Proof.
  unfold healthy, struck. intros Hd [H1 [H2 H3]].
  destruct (Z.leb_spec (hp x - d) 0) as [Hk | Hk]; cbn.
  - repeat split; try lia; try discriminate.
  - destruct (alive x) eqn:Ha.
    + destruct (H2 eq_refl) as [Hp Hs].
      repeat split; try lia; try discriminate; assumption.
    + destruct (H3 eq_refl) as [Hp Hs]. lia.
Qed.

Lemma healthy_executeAttack st a t ty roll :
  allHealthy st -> allHealthy (fst (executeAttack st a t ty roll)).
Proof.
  intros H r. rewrite unit_executeAttack, unit_afterRoll. cbv zeta.
  set (x1 := if Nat.eqb r a then withFacing _ (unit st r) else unit st r).
  assert (H1 : healthy x1).
  { unfold x1. destruct (Nat.eqb r a); [|apply H].
    apply (healthy_fields (unit st r)); auto. }
  set (x2 := if _ && Nat.eqb r t then struck (attackDamage ty) x1 else x1).
  assert (H2 : healthy x2).
  { unfold x2. destruct (_ && Nat.eqb r t); [|exact H1].
    apply healthy_struck; [apply attackDamage_pos | exact H1]. }
  destruct (Nat.eqb r a); [|exact H2].
  apply (healthy_fields x2); auto.
Qed.

Lemma alive_executeAttack st a t ty roll r :
  r <> t ->
  alive (unit (fst (executeAttack st a t ty roll)) r) = alive (unit st r).
Proof.
  intros Hrt. rewrite unit_executeAttack, unit_afterRoll. cbv zeta.
  apply Nat.eqb_neq in Hrt. rewrite Hrt, andb_false_r.
  destruct (Nat.eqb r a); reflexivity.
Qed.

Lemma unit_executeOverwatchShot st w m roll r :
  unit (fst (executeOverwatchShot st w m roll)) r
  = if Nat.eqb r w
    then withOverwatchCone None
           (withStatus ACTIVATED
              (unit (fst (executeAttack st w m Ranged roll)) r))
    else unit (fst (executeAttack st w m Ranged roll)) r.
Proof.
  unfold executeOverwatchShot.
  destruct (executeAttack st w m Ranged roll) as [st1 res]. cbn [fst].
  rewrite !unit_modify. destruct (Nat.eqb r w); reflexivity.
Qed.

Lemma healthy_executeOverwatchShot st w m roll :
  alive (unit st w) = true -> w <> m ->
  allHealthy st -> allHealthy (fst (executeOverwatchShot st w m roll)).
Proof.
  intros Hw Hwm H r. rewrite unit_executeOverwatchShot.
  pose proof (healthy_executeAttack st w m Ranged roll H r) as Hr.
  destruct (Nat.eqb r w) eqn:E; [|exact Hr].
  apply Nat.eqb_eq in E. subst r.
  apply (healthy_fields (unit (fst (executeAttack st w m Ranged roll)) w)); auto.
  right. rewrite alive_executeAttack by exact Hwm.
  split; [exact Hw | discriminate].
Qed.

Lemma alive_executeOverwatchShot st w m roll r :
  r <> m ->
  alive (unit (fst (executeOverwatchShot st w m roll)) r) = alive (unit st r).
Proof.
  intros Hrm. rewrite unit_executeOverwatchShot.
  destruct (Nat.eqb r w); cbn [alive withOverwatchCone withStatus];
    apply alive_executeAttack; exact Hrm.
Qed.

Lemma healthy_overwatchShots rng u : forall triggers n st,
  (forall w, In w triggers -> alive (unit st w) = true /\ w <> u) ->
  allHealthy st ->
  allHealthy (fst (fst (overwatchShots rng n st u triggers))).
Proof.
  induction triggers as [|w more IH]; intros n st Htr H; cbn [overwatchShots].
  - exact H.
  - destruct (Htr w (or_introl eq_refl)) as [Hw Hwu].
    pose proof (healthy_executeOverwatchShot st w u (rng n) Hw Hwu H) as H1.
    assert (Hal : forall r, r <> u ->
              alive (unit (fst (executeOverwatchShot st w u (rng n))) r)
              = alive (unit st r))
      by (intros r Hr; apply alive_executeOverwatchShot; exact Hr).
    destruct (executeOverwatchShot st w u (rng n)) as [st1 res].
    cbn [fst] in H1, Hal.
    destruct (negb (alive (unit st1 u))); [exact H1|].
    apply IH; [|exact H1].
    intros w' Hw'. destruct (Htr w' (or_intror Hw')) as [Ha Hne].
    split; [rewrite Hal by exact Hne; exact Ha | exact Hne].
Qed.

Lemma healthy_overwatchAlongPath rng u : forall path n st from trig,
  playerFaction st <> aiFaction st ->
  allHealthy st ->
  allHealthy (fst (fst (overwatchAlongPath rng n st u from path trig))).
Proof.
  induction path as [|toTile more IH]; intros n st from trig Hsides H;
    cbn [overwatchAlongPath].
  - exact H.
  - assert (Htr : forall w, In w (checkOverwatch st u from toTile) ->
                    alive (unit st w) = true /\ w <> u).
    { intros w Hw. split.
      - apply checkOverwatch_enemy in Hw. tauto.
      - eapply checkOverwatch_not_self; eauto. }
    pose proof (healthy_overwatchShots rng u (checkOverwatch st u from toTile)
                  n st Htr H) as H1.
    destruct (overwatchShots_ap rng u (checkOverwatch st u from toTile) n st)
      as [_ [_ [_ [Hp Ha]]]].
    destruct (overwatchShots rng n st u (checkOverwatch st u from toTile))
      as [[st1 n1] died].
    cbn [fst] in H1, Hp, Ha.
    destruct died; [exact H1|].
    apply IH; [congruence | exact H1].
Qed.

Lemma healthy_markActivated st u :
  allHealthy st -> allHealthy (markActivated st u).
Proof.
  intros H r. unfold markActivated. cbv zeta.
  rewrite unit_modify_same. cbn [status withActivated].
  destruct (status_eqb (status (unit st u)) READY) eqn:Es.
  - rewrite !unit_modify. destruct (Nat.eqb r u) eqn:E; [|apply H].
    apply Nat.eqb_eq in E. subst r. apply status_eqb_eq in Es.
    specialize (H u). unfold healthy in *. cbn.
    destruct H as [H1 [H2 H3]]. split; [exact H1|]. split.
    + intros Ha. split; [apply H2, Ha | discriminate].
    + intros Ha. destruct (H3 Ha) as [_ Hd]. congruence.
  - rewrite unit_modify. destruct (Nat.eqb r u); [|apply H].
    apply (healthy_fields (unit st r)); auto.
Qed.

Lemma healthy_endActivation st u :
  allHealthy st -> allHealthy (endActivation st u).
Proof. intros H r. apply (healthy_markActivated st u H r). Qed.

Lemma moveUnit_health st u path r :
  hp (unit (moveUnit st u path) r) = hp (unit st r)
  /\ maxHp (unit (moveUnit st u path) r) = maxHp (unit st r)
  /\ alive (unit (moveUnit st u path) r) = alive (unit st r)
  /\ status (unit (moveUnit st u path) r) = status (unit st r).
Proof.
  unfold moveUnit. destruct path as [|p path]; [repeat split|].
  cbv zeta.
  set (stf := fold_left (fun st0 arrivedTile => modify u (withTile arrivedTile) st0)
                        (p :: path) _).
  assert (Hf : hp (unit stf r) = hp (unit st r)
               /\ maxHp (unit stf r) = maxHp (unit st r)
               /\ alive (unit stf r) = alive (unit st r)
               /\ status (unit stf r) = status (unit st r)).
  { unfold stf.
    rewrite (fold_modify_field hp u withTile (fun _ _ => eq_refl)).
    rewrite (fold_modify_field maxHp u withTile (fun _ _ => eq_refl)).
    rewrite (fold_modify_field alive u withTile (fun _ _ => eq_refl)).
    rewrite (fold_modify_field status u withTile (fun _ _ => eq_refl)).
    repeat split. }
  destruct (lastTwo (p :: path)) as [[a b]|].
  - rewrite unit_modify. cbn [unit withGrid].
    destruct (Nat.eqb r u); exact Hf.
  - exact Hf.
Qed.

Lemma healthy_moveUnit st u path :
  allHealthy st -> allHealthy (moveUnit st u path).
Proof.
  intros H r. destruct (moveUnit_health st u path r) as [H1 [H2 [H3 H4]]].
  apply (healthy_fields (unit st r)); auto.
Qed.

Lemma healthy_resetActivations st :
  allHealthy st -> allHealthy (resetActivations st).
Proof.
  intros H r. rewrite unit_resetActivations.
  destruct (existsb (Nat.eqb r) (units st)); [|apply H].
  specialize (H r). unfold resetUnit.
  destruct (alive (unit st r)) eqn:Ha; cbn [negb]; [|exact H].
  cbn [status withAp withActivated].
  destruct (status_eqb (status (unit st r)) OVERWATCH
            || status_eqb (status (unit st r)) HUNKERED).
  - apply (healthy_fields (unit st r)); auto.
    right. split; [exact Ha | discriminate].
  - apply (healthy_fields (unit st r)); auto.
Qed.

Lemma healthy_moveCommand fuel rng st c r st' out :
  playerFaction st <> aiFaction st ->
  allHealthy st ->
  onPlayerMoveClick fuel rng st c r = Some (st', out) ->
  allHealthy st'.
Proof.
  intros Hsides H Hclick.
  apply onPlayerMoveClick_cases in Hclick.
  destruct Hclick as [[_ ->] | [[_ [u ->]] | [u [path [st4 [_ [E4 Hout]]]]]]].
  - exact H.
  - exact H.
  - assert (H4 : allHealthy st4).
    { rewrite E4, checkOverwatchAlongPath_fst.
      apply healthy_overwatchAlongPath.
      - destruct (moveUnit_sides
                    (withPhase COMBAT_ANIMATION
                       (modify u (withAp (Z.max 0 (ap (unit st u) - 1))) st))
                    u path) as [Hp Ha].
        rewrite Hp, Ha. exact Hsides.
      - apply healthy_moveUnit. intros x.
        cbn [unit withPhase]. rewrite unit_modify.
        destruct (Nat.eqb x u); [|apply H].
        apply (healthy_fields (unit st x)); auto. }
    destruct Hout as [[_ ->] | [_ ->]].
    + exact H4.
    + apply healthy_endActivation. exact H4.
Qed.

(** X14. The bookkeeping of hit points (0 <= hp <= maxHp; alive means
    hp > 0 and not marked Dead; not alive means hp = 0 and marked Dead),
    once true of every unit, stays true after an attack with any
    participants, type and roll, after an overwatch shot by a living
    unit at another unit, after [resetActivations], [endActivation] and
    [moveUnit], after [setOverwatch] and [setHunker] of a living unit,
    and, when the two faction ids differ, after every outcome of the
    move command [onPlayerMoveClick], overwatch fire included. *)
Theorem health_bookkeeping_preserved (st : Game) :
  allHealthy st ->
  (forall a t ty roll, allHealthy (fst (executeAttack st a t ty roll)))
  /\ (forall w m roll, alive (unit st w) = true -> w <> m ->
        allHealthy (fst (executeOverwatchShot st w m roll)))
  /\ allHealthy (resetActivations st)
  /\ (forall u, allHealthy (endActivation st u))
  /\ (forall u path, allHealthy (moveUnit st u path))
  /\ (forall u, alive (unit st u) = true ->
        allHealthy (setOverwatch st u) /\ allHealthy (setHunker st u))
  /\ (playerFaction st <> aiFaction st ->
      forall fuel rng c r st' out,
        onPlayerMoveClick fuel rng st c r = Some (st', out) ->
        allHealthy st').
Proof.
  intros H.
  split; [intros; apply healthy_executeAttack; exact H|].
  split; [intros; apply healthy_executeOverwatchShot; assumption|].
  split; [apply healthy_resetActivations; exact H|].
  split; [intros; apply healthy_endActivation; exact H|].
  split; [intros; apply healthy_moveUnit; exact H|].
  split.
  { intros u Hu. split; intros r.
    - unfold setOverwatch, setUnitStatus. cbv zeta. rewrite !unit_modify.
      destruct (Nat.eqb r u) eqn:E; [|apply H].
      apply Nat.eqb_eq in E. subst r.
      apply (healthy_fields (unit st u)); auto.
      right. split; [exact Hu | discriminate].
    - unfold setHunker, setUnitStatus. cbv zeta. rewrite !unit_modify.
      destruct (Nat.eqb r u) eqn:E; [|apply H].
      apply Nat.eqb_eq in E. subst r.
      apply (healthy_fields (unit st u)); auto.
      right. split; [exact Hu | discriminate]. }
  intros Hsides fuel rng c r st' out Hclick.
  eapply healthy_moveCommand; eauto.
Qed.

Lemma health_bookkeeping_preserved_witness :
  allHealthy duel
  /\ allHealthy (fst (executeAttack duel 0%nat 1%nat Ranged 0%float))
  /\ allHealthy (resetActivations duel).
Proof.
  assert (H : allHealthy duel).
  { intros r. unfold healthy.
    destruct r as [|r]; cbn; repeat split; try discriminate; lia. }
  split; [exact H|].
  destruct (health_bookkeeping_preserved duel H) as [H1 [_ [H3 _]]].
  split; [apply H1 | exact H3].
Defined.

(** ** Path search: the path found, and when there is none *)

Lemma pathAdmits_rangeAdmits (g : GridManager) (end_ a b : Pos) :
  pathAdmits g end_ false a b = rangeAdmits g a b.
Proof.
  unfold pathAdmits, rangeAdmits. cbv zeta. rewrite andb_false_r. reflexivity.
Qed.

Lemma cameFromGet_In (cf : list (Pos * Pos)) (k p : Pos) :
  cameFromGet cf k = Some p -> In (k, p) cf.
Proof.
  induction cf as [|[k' v] cf IH]; simpl; [discriminate|].
  destruct (pos_eqb k k') eqn:E.
  - intros H. injection H as ->. apply pos_eqb_eq in E. subst. now left.
  - intros H. right. auto.
Qed.

Lemma cameFromGet_bound (cf : list (Pos * Pos)) (k : Pos) :
  In k (map fst cf) -> exists p, cameFromGet cf k = Some p.
Proof.
  induction cf as [|[k' v] cf IH]; simpl; [contradiction|].
  intros H. destruct (pos_eqb k k') eqn:E; [eauto|].
  destruct H as [<- | H]; [rewrite pos_eqb_refl in E; discriminate | auto].
Qed.

Lemma cameFromChain_parent (start : Pos) (cf : list (Pos * Pos)) :
  cameFromChain start cf ->
  forall n p, In (n, p) cf -> In p (map fst cf ++ [start]).
Proof.
  induction cf as [|[n' p'] cf IH]; simpl; [contradiction|].
  intros [Hc [Hp _]] n p [H | H].
  - injection H as <- <-. now right.
  - right. eapply IH; eauto.
Qed.

(** With every recorded parent itself recorded, the walk back from a
    recorded key never meets a missing entry. *)
Lemma rebuild_loop_not_null (start : Pos) (cf : list (Pos * Pos)) :
  (forall n p, In (n, p) cf -> In p (map fst cf ++ [start])) ->
  forall fuel k path,
    In k (map fst cf ++ [start]) ->
    rebuild_loop fuel cf start k path <> Some None.
Proof.
  intros Hpar. induction fuel as [|fuel IH]; intros k path Hk;
    cbn [rebuild_loop]; destruct (pos_eqb k start) eqn:Es; try discriminate.
  apply in_app_iff in Hk. destruct Hk as [Hk | [<- | []]].
  - destruct (cameFromGet_bound cf k Hk) as [p Hp]. rewrite Hp.
    apply IH. eapply Hpar. apply cameFromGet_In. exact Hp.
  - rewrite pos_eqb_refl in Es. discriminate.
Qed.

Lemma last_default (l : list Pos) : forall p a b,
  last (p :: l) a = last (p :: l) b.
Proof.
  induction l as [|x l IH]; intros p a b; [reflexivity|].
  change (last (x :: l) a = last (x :: l) b). apply IH.
Qed.

Lemma legalPath_snoc (g : GridManager) : forall l a k,
  legalPath g a l -> legalStep g (last l a) k -> legalPath g a (l ++ [k]).
Proof.
  induction l as [|x l IH]; intros a k Hl Hs; simpl in *.
  - split; [exact Hs | exact I].
  - destruct Hl as [H1 H2]. split; [exact H1|].
    apply IH; [exact H2|].
    destruct l as [|y l]; [exact Hs|].
    rewrite (last_default l y x a). exact Hs.
Qed.

Lemma legalPath_app (g : GridManager) : forall l1 l2 a,
  legalPath g a l1 -> legalPath g (last l1 a) l2 -> legalPath g a (l1 ++ l2).
Proof.
  induction l1 as [|x l1 IH]; intros l2 a H1 H2; simpl in *; [exact H2|].
  destruct H1 as [Hs Hl]. split; [exact Hs|].
  apply IH; [exact Hl|]. destruct l1 as [|y l1]; [exact H2|].
  rewrite (last_default l1 y x a). exact H2.
Qed.

Lemma last_snoc (l : list Pos) (k d : Pos) : last (l ++ [k]) d = k.
Proof. apply last_last. Qed.

(** The walk back from [k] puts in front of [path] a legal path from the
    start to [k]. *)
Lemma rebuild_loop_sound (g : GridManager) (start : Pos)
      (cf : list (Pos * Pos)) :
  (forall n p, In (n, p) cf -> legalStep g p n) ->
  forall fuel k path res,
    rebuild_loop fuel cf start k path = Some (Some res) ->
    exists pre, res = pre ++ path
                /\ legalPath g start pre /\ last pre start = k.
Proof.
  intros Hlinks. induction fuel as [|fuel IH]; intros k path res;
    cbn [rebuild_loop]; destruct (pos_eqb k start) eqn:Es; try discriminate.
  - intros H. injection H as <-. apply pos_eqb_eq in Es. subst k.
    exists []. simpl. auto.
  - intros H. injection H as <-. apply pos_eqb_eq in Es. subst k.
    exists []. simpl. auto.
  - destruct (cameFromGet cf k) as [prev|] eqn:Eg; [|discriminate].
    intros H. destruct (IH prev (k :: path) res H) as [pre [Hres [Hl Hlast]]].
    exists (pre ++ [k]). split; [rewrite <- app_assoc; exact Hres|].
    split.
    + apply legalPath_snoc; [exact Hl|]. rewrite Hlast.
      apply Hlinks. apply cameFromGet_In. exact Eg.
    + apply last_snoc.
Qed.

Section PathSearch.

Variables (g : GridManager) (start end_ : Pos).

Lemma pathScan_search (current : Pos) : forall todo st,
  (forall n, In n todo ->
     In n (getNeighbors (col current) (row current) (gridWidth g) (gridHeight g))) ->
  pathLinks g st ->
  ~ In end_ (pvisited st) ->
  found st = false ->
  pathScanning g st current todo ->
  let st' := pathScan g end_ false current todo st in
  pathLinks g st'
  /\ (forall x, In x (pvisited st) -> In x (pvisited st'))
  /\ (found st' = false -> ~ In end_ (pvisited st') /\ pathClosed g st').
Proof.
  induction todo as [|n more IH]; intros st Hnb Hlinks Hend Hf Hscan;
    cbn [pathScan].
  - cbv zeta. split; [exact Hlinks|]. split; [auto|].
    intros _. split; [exact Hend|].
    intros a Ha. destruct (Hscan a Ha) as [Hq | Hc]; [now left|].
    right. intros b Hb. destruct (Hc b Hb) as [H | [_ []]]. exact H.
  - assert (Hnb' : forall x, In x more ->
              In x (getNeighbors (col current) (row current)
                                 (gridWidth g) (gridHeight g)))
      by (intros x Hx; apply Hnb; now right).
    destruct (visitedHas (pvisited st) n) eqn:Ev.
    { apply IH; auto.
      apply visitedHas_In in Ev.
      intros a Ha. destruct (Hscan a Ha) as [Hq | Hc]; [now left|].
      right. intros b Hb. destruct (Hc b Hb) as [H | [Hac [<- | Hin]]]; auto. }
    apply visitedHas_not_In in Ev.
    rewrite pathAdmits_rangeAdmits.
    destruct (rangeAdmits g current n) eqn:Ea; cbn [negb].
    2: { apply IH; auto.
         intros a Ha. destruct (Hscan a Ha) as [Hq | Hc]; [now left|].
         right. intros b Hb. destruct (Hc b Hb) as [H | [Hac [<- | Hin]]]; auto.
         subst a. apply legalStep_code in Hb. destruct Hb as [_ Hb].
         rewrite Hb in Ea. discriminate. }
    assert (Hstep : legalStep g current n).
    { apply legalStep_code. split; [apply Hnb; now left | exact Ea]. }
    destruct ((col n =? col end_) && (row n =? row end_)) eqn:Eend.
    + cbv zeta. cbn [found pvisited cameFrom].
      split.
      * intros k p [H | H]; [injection H as <- <-; exact Hstep | auto].
      * split; [intros x Hx; now right | discriminate].
    + assert (Hne : n <> end_).
      { intros ->. rewrite !Z.eqb_refl in Eend. discriminate. }
      set (st1 := mkPathState (pqueue st ++ [n]) (n :: pvisited st)
                              ((n, current) :: cameFrom st) false).
      destruct (IH st1 Hnb') as [I1 [I2 I3]].
      * intros k p [H | H]; [injection H as <- <-; exact Hstep | auto].
      * simpl. intros [H | H]; [auto | auto].
      * reflexivity.
      * intros a Ha. simpl in Ha. simpl.
        destruct Ha as [<- | Ha].
        -- left. apply in_app_iff. right. now left.
        -- destruct (Hscan a Ha) as [Hq | Hc].
           ++ left. apply in_app_iff. now left.
           ++ right. intros b Hb.
              destruct (Hc b Hb) as [H | [Hac [<- | Hin]]]; auto.
      * split; [exact I1|]. split; [|exact I3].
        intros x Hx. apply I2. simpl. now right.
Qed.

Lemma path_loop_search : forall fuel st st',
  path_loop fuel g end_ false st = Some st' ->
  pathLinks g st ->
  In start (pvisited st) ->
  (found st = false -> ~ In end_ (pvisited st) /\ pathClosed g st) ->
  pathLinks g st'
  /\ In start (pvisited st')
  /\ (found st' = false ->
      pqueue st' = [] /\ ~ In end_ (pvisited st') /\ pathClosed g st').
Proof.
  induction fuel as [|fuel IH]; intros st st' Hrun Hlinks Hstart Hopen;
    cbn [path_loop] in Hrun.
  - destruct (found st) eqn:Ef.
    + injection Hrun as <-. rewrite Ef.
      split; [auto|]. split; [auto | discriminate].
    + destruct (pqueue st) eqn:Eq; [|discriminate].
      injection Hrun as <-. destruct (Hopen eq_refl).
      split; [auto|]. split; [auto|]. intros _. auto.
  - destruct (found st) eqn:Ef.
    + injection Hrun as <-. rewrite Ef.
      split; [auto|]. split; [auto | discriminate].
    + destruct (Hopen eq_refl) as [Hend Hclosed].
      destruct (pqueue st) as [|current rest] eqn:Eq.
      * injection Hrun as <-.
        split; [auto|]. split; [auto|]. intros _. auto.
      * destruct ((col current =? col end_) && (row current =? row end_)).
        { injection Hrun as <-. cbn [found pvisited cameFrom pathLinks].
          split; [auto|]. split; [auto | discriminate]. }
        set (st0 := mkPathState rest (pvisited st) (cameFrom st) false) in *.
        destruct (pathScan_search current
                    (getNeighbors (col current) (row current)
                                  (gridWidth g) (gridHeight g)) st0)
          as [S1 [S2 S3]]; auto.
        { intros a Ha. simpl in Ha. simpl.
          destruct (Hclosed a Ha) as [Hq | Hc].
          - rewrite Eq in Hq. destruct Hq as [<- | Hq]; [|now left].
            right. intros b Hb. right. split; [reflexivity|].
            apply legalStep_code in Hb. tauto.
          - right. intros b Hb. left. auto. }
        apply (IH _ _ Hrun); auto.
Qed.

(** A closed search that has run out of queue has visited every tile a
    walk from the start leads to. *)
Lemma pathClosed_reaches (st : PathState) :
  pqueue st = [] -> pathClosed g st -> In start (pvisited st) ->
  forall n t, walk g start n t -> In t (pvisited st).
Proof.
  intros Hq Hclosed Hstart n t Hwalk.
  induction Hwalk as [|n a b Hwalk IH Hstep]; [exact Hstart|].
  destruct (Hclosed a IH) as [Hin | Hc]; [rewrite Hq in Hin; contradiction|].
  apply Hc. exact Hstep.
Qed.

End PathSearch.

Lemma findPath_result (g : GridManager) (start end_ : Pos) (fuel : nat) :
  (gridBudget g <= fuel)%nat ->
  exists r, findPath fuel g start end_ = Some r
    /\ match r with
       | Some path =>
           legalPath g start path /\ last path start = end_
           /\ (path = [] <-> start = end_)
       | None => start <> end_ /\ forall n, ~ walk g start n end_
       end.
Proof.
  intros Hfuel. unfold findPath, _findPathBFS. cbv zeta.
  destruct ((col start =? col end_) && (row start =? row end_)) eqn:Ese.
  { exists (Some []). split; [reflexivity|].
    assert (start = end_) by (apply pos_eqb_eq; exact Ese).
    simpl. tauto. }
  assert (Hne : start <> end_).
  { intros ->. rewrite !Z.eqb_refl in Ese. discriminate. }
  destruct (isWalkable g (col end_) (row end_)) eqn:Ew; cbn [negb].
  2: { exists None. split; [reflexivity|]. split; [exact Hne|].
       intros n Hwalk. inversion Hwalk as [|m a b Hw Hstep]; subst.
       - apply Hne. reflexivity.
       - destruct Hstep as [_ [_ [Hwk _]]]. congruence. }
  destruct (path_loop_total g start end_ false fuel
              (mkPathState [start] [start] [] false)) as [st [E Hinv]].
  { constructor; simpl; auto; [contradiction | discriminate]. }
  { simpl. pose proof (unvisitedCount_le g [start]).
    unfold gridBudget in Hfuel. lia. }
  rewrite E.
  destruct (path_loop_search g start end_ fuel _ st E) as [Hlinks [Hstart Hopen]].
  { intros n p []. }
  { simpl. now left. }
  { intros _. split.
    - simpl. intros [H | []]. apply Hne. exact H.
    - intros a Ha. left. exact Ha. }
  destruct (found st) eqn:Ef; cbn [negb].
  - pose proof (pinv_found Hinv Ef) as Hend.
    rewrite (pinv_visited Hinv) in Hend.
    destruct (rebuild_loop_total start (cameFrom st) [] end_ [] fuel)
      as [r Hr]; [exact (pinv_chain Hinv) | exact Hend | |].
    { assert (Hlen : (length (map fst (cameFrom st)) <= length (allTiles g))%nat).
      { apply NoDup_incl_length.
        - apply (cameFromChain_NoDup start), (pinv_chain Hinv).
        - intros k Hk. now apply (pinv_tiles Hinv). }
      rewrite length_map, length_allTiles in Hlen.
      unfold gridBudget in Hfuel. lia. }
    cbn [app] in Hr. rewrite Hr.
    destruct r as [res|].
    + exists (Some res). split; [reflexivity|].
      destruct (rebuild_loop_sound g start (cameFrom st) Hlinks fuel end_ [] res Hr)
        as [pre [Hres [Hl Hlast]]].
      rewrite app_nil_r in Hres. subst pre.
      split; [exact Hl|]. split; [exact Hlast|].
      split; [|intros H; contradiction].
      intros ->. simpl in Hlast. contradiction.
    + exfalso.
      apply (rebuild_loop_not_null start (cameFrom st)
               (cameFromChain_parent start (cameFrom st) (pinv_chain Hinv))
               fuel end_ [] Hend Hr).
  - exists None. split; [reflexivity|]. split; [exact Hne|].
    destruct (Hopen eq_refl) as [Hq [Hend Hclosed]].
    intros n Hwalk. apply Hend.
    eapply pathClosed_reaches; eauto.
Qed.

(** X15. Given the budget of the grid, [findPath] returns, and its
    answer is right both ways: a path it returns leads from the start to
    the end by legal steps only (each tile a walkable, unoccupied
    neighbour of the one before, no diagonal cutting a corner), the
    empty path arising only for start = end; and it answers "none" only
    when no sequence of legal steps of any length leads from the start
    to the end. *)
Theorem findPath_sound_complete (g : GridManager) (start end_ : Pos)
        (fuel : nat) :
  (gridBudget g <= fuel)%nat ->
  exists r, findPath fuel g start end_ = Some r
    /\ match r with
       | Some path =>
           legalPath g start path /\ last path start = end_
           /\ (path = [] <-> start = end_)
       | None => start <> end_ /\ forall n, ~ walk g start n end_
       end.
Proof.
  intros Hfuel. apply findPath_result. exact Hfuel.
Qed.

Lemma findPath_sound_complete_witness :
  (gridBudget cornerMap <= 20)%nat
  /\ exists r, findPath 20 cornerMap (mkPos 0 0) (mkPos 2 0) = Some r
       /\ match r with
          | Some path =>
              legalPath cornerMap (mkPos 0 0) path
              /\ last path (mkPos 0 0) = mkPos 2 0
              /\ (path = [] <-> mkPos 0 0 = mkPos 2 0)
          | None => mkPos 0 0 <> mkPos 2 0
                    /\ forall n, ~ walk cornerMap (mkPos 0 0) n (mkPos 2 0)
          end.
Proof.
  assert (H : (gridBudget cornerMap <= 20)%nat) by (vm_compute; lia).
  split; [exact H|].
  apply (findPath_sound_complete cornerMap (mkPos 0 0) (mkPos 2 0) 20 H).
Defined.

(** ** The movement range and the path search together *)

Lemma walk_distance (g : GridManager) (origin : Pos) : forall n t,
  walk g origin n t -> tileDistance origin t <= Z.of_nat n.
Proof.
  intros n t Hwalk. induction Hwalk as [|n a b Hwalk IH Hstep].
  - unfold tileDistance. lia.
  - destruct Hstep as [_ [Hd _]]. unfold tileDistance in *. lia.
Qed.

Lemma walk_last_free (g : GridManager) (origin : Pos) (n : nat) (t : Pos) :
  walk g origin (S n) t ->
  inBounds (gridWidth g) (gridHeight g) (col t) (row t) = true
  /\ isWalkable g (col t) (row t) = true.
Proof.
  intros Hwalk. inversion Hwalk as [|m a b Hw Hstep]; subst.
  destruct Hstep as [Hb [_ [Hw' _]]]. split; assumption.
Qed.

Lemma range_node_walk (g : GridManager) (c r moveRange : Z) (n : RangeNode) :
  In n (getMovementRange g c r moveRange) ->
  0 < cost n <= moveRange
  /\ walk g (mkPos c r) (Z.to_nat (cost n)) (ntile n)
  /\ ntile n <> mkPos c r.
Proof.
  intros Hn.
  destruct (getMovementRange_inv g c r moveRange)
    as [processed [visited [_ [Hres Hinv]]]].
  rewrite Hres in Hn. apply filter_In in Hn. destruct Hn as [Hn Hpos].
  apply Z.gtb_lt in Hpos.
  assert (Hn' : In n (processed ++ [])) by now rewrite app_nil_r.
  destruct (inv_walk Hinv n Hn') as [_ Hwalk].
  destruct (inv_bound Hinv n Hn') as [H0 | Hb]; [lia|].
  split; [lia|]. split; [exact Hwalk|].
  intros Heq. pose proof (inv_origin Hinv) as Ho. rewrite app_nil_r in Ho.
  rewrite <- (node_eta n), Heq in Hn.
  pose proof (final_unique g (mkPos c r) moveRange processed visited Hinv
                           (mkPos c r) (cost n) 0 Hn Ho). lia.
Qed.

Lemma range_node_path (g : GridManager) (c r moveRange : Z) (n : RangeNode)
      (fuel : nat) :
  In n (getMovementRange g c r moveRange) ->
  (gridBudget g <= fuel)%nat ->
  exists p path,
    findPath fuel g (mkPos c r) (ntile n) = Some (Some (p :: path))
    /\ legalPath g (mkPos c r) (p :: path)
    /\ last (p :: path) (mkPos c r) = ntile n.
Proof.
  intros Hn Hfuel.
  destruct (range_node_walk g c r moveRange n Hn) as [Hc [Hwalk Hne]].
  destruct (findPath_result g (mkPos c r) (ntile n) fuel Hfuel) as [res [E Hres]].
  destruct res as [[|p path]|].
  - destruct Hres as [_ [_ [Hnil _]]]. exfalso. apply Hne. symmetry. now apply Hnil.
  - exists p, path. tauto.
  - destruct Hres as [_ Hno]. exfalso. eapply Hno. exact Hwalk.
Qed.

(** X16. Every tile [getMovementRange] returns is inside the grid,
    walkable and unoccupied, and lies at a Chebyshev distance from the
    origin between 1 and its reported cost; and [findPath] from the
    origin to it, given the budget of the grid, returns a non-empty path
    of legal steps ending on it: a highlighted tile can always be
    walked to. *)
Theorem range_tiles_have_paths (g : GridManager) (c r moveRange : Z)
        (n : RangeNode) (fuel : nat) :
  In n (getMovementRange g c r moveRange) ->
  (gridBudget g <= fuel)%nat ->
  (exists tile_, getTile g (col (ntile n)) (row (ntile n)) = Some tile_
                 /\ walkable tile_ = true /\ occupant tile_ = None)
  /\ 1 <= tileDistance (mkPos c r) (ntile n) <= cost n
  /\ exists p path,
       findPath fuel g (mkPos c r) (ntile n) = Some (Some (p :: path))
       /\ legalPath g (mkPos c r) (p :: path)
       /\ last (p :: path) (mkPos c r) = ntile n.
Proof.
  intros Hn Hfuel.
  destruct (range_node_walk g c r moveRange n Hn) as [Hc [Hwalk Hne]].
  split.
  { destruct (Z.to_nat (cost n)) as [|k] eqn:Ek; [lia|].
    destruct (walk_last_free g (mkPos c r) k (ntile n) Hwalk) as [Hb Hw].
    unfold isWalkable in Hw. rewrite getTile_inBounds, Hb in *.
    exists (tiles g (col (ntile n)) (row (ntile n))).
    split; [reflexivity|].
    apply andb_true_iff in Hw. destruct Hw as [Hw Ho].
    split; [exact Hw|].
    destruct (occupant (tiles g (col (ntile n)) (row (ntile n))));
      [discriminate | reflexivity]. }
  split.
  { pose proof (walk_distance g (mkPos c r) _ _ Hwalk) as Hd.
    split; [|lia].
    destruct (Z.eq_dec (tileDistance (mkPos c r) (ntile n)) 0) as [E | E];
      [|unfold tileDistance in *; lia].
    exfalso. apply Hne. unfold tileDistance in E.
    destruct (ntile n) as [c' r']. cbn [col row] in E. f_equal; lia. }
  apply (range_node_path g c r moveRange n fuel Hn Hfuel).
Qed.

Lemma range_tiles_have_paths_witness :
  In (mkNode (mkPos 1 1) 1) (getMovementRange (grid duel) 0 0 4)
  /\ (gridBudget (grid duel) <= 31)%nat
  /\ exists p path,
       findPath 31 (grid duel) (mkPos 0 0) (mkPos 1 1) = Some (Some (p :: path))
       /\ legalPath (grid duel) (mkPos 0 0) (p :: path)
       /\ last (p :: path) (mkPos 0 0) = mkPos 1 1.
Proof.
  assert (Hin : In (mkNode (mkPos 1 1) 1) (getMovementRange (grid duel) 0 0 4)).
  { vm_compute. repeat (try (left; reflexivity); right). }
  assert (Hfuel : (gridBudget (grid duel) <= 31)%nat) by (vm_compute; lia).
  split; [exact Hin|]. split; [exact Hfuel|].
  apply (range_tiles_have_paths (grid duel) 0 0 4 (mkNode (mkPos 1 1) 1) 31
           Hin Hfuel).
Defined.

(** ** Where a move ends *)

Lemma fold_withTile_tile (u : UnitRef) : forall path st r,
  tile (unit (fold_left (fun st0 arrivedTile => modify u (withTile arrivedTile) st0)
                        path st) r)
  = if Nat.eqb r u then last path (tile (unit st r)) else tile (unit st r).
Proof.
  induction path as [|p path IH]; intros st r.
  - simpl. destruct (Nat.eqb r u); reflexivity.
  - cbn [fold_left]. rewrite IH, unit_modify.
    destruct (Nat.eqb r u); [|reflexivity].
    cbn [tile withTile]. destruct path as [|q path]; [reflexivity|].
    change (last (p :: q :: path) (tile (unit st r)))
      with (last (q :: path) (tile (unit st r))).
    apply last_default.
Qed.

Lemma fold_withTile_grid (u : UnitRef) : forall path st,
  grid (fold_left (fun st0 arrivedTile => modify u (withTile arrivedTile) st0)
                  path st) = grid st.
Proof.
  induction path as [|p path IH]; intros st; [reflexivity|].
  cbn [fold_left]. rewrite IH. reflexivity.
Qed.

Lemma moveUnit_tile st u path r :
  tile (unit (moveUnit st u path) r)
  = if Nat.eqb r u then last path (tile (unit st r)) else tile (unit st r).
Proof.
  unfold moveUnit. destruct path as [|p path].
  - simpl. destruct (Nat.eqb r u); reflexivity.
  - cbv zeta.
    destruct (lastTwo (p :: path)) as [[a b]|];
      [rewrite unit_modify|]; cbn [unit withGrid];
      [destruct (Nat.eqb r u) eqn:E; cbn [tile withFacing]|];
      rewrite fold_withTile_tile; cbn [unit withGrid];
      try rewrite E; reflexivity.
Qed.

Lemma grid_moveUnit st u p path :
  grid (moveUnit st u (p :: path))
  = setOccupant
      (clearOccupant (grid st) (col (tile (unit st u))) (row (tile (unit st u))))
      (col (last (p :: path) (tile (unit st u))))
      (row (last (p :: path) (tile (unit st u)))) u.
Proof.
  unfold moveUnit. cbv zeta.
  destruct (lastTwo (p :: path)) as [[a b]|];
    cbn [grid modify withUnit withGrid];
    rewrite fold_withTile_grid, fold_withTile_tile, Nat.eqb_refl;
    reflexivity.
Qed.

Lemma shot_tile st w m roll r :
  tile (unit (fst (executeOverwatchShot st w m roll)) r) = tile (unit st r).
Proof.
  rewrite unit_executeOverwatchShot.
  assert (H : tile (unit (fst (executeAttack st w m Ranged roll)) r)
              = tile (unit st r)).
  { rewrite unit_executeAttack. cbv zeta.
    destruct (Nat.eqb r w); cbn [tile withAp]; apply afterRoll_tile. }
  destruct (Nat.eqb r w); cbn [tile withOverwatchCone withStatus]; exact H.
Qed.

Lemma shot_grid_alive st w m roll :
  (grid (fst (executeOverwatchShot st w m roll)) = grid st
   /\ alive (unit (fst (executeOverwatchShot st w m roll)) m)
      = alive (unit st m))
  \/ (grid (fst (executeOverwatchShot st w m roll))
      = clearOccupant (grid st) (col (tile (unit st m))) (row (tile (unit st m)))
      /\ alive (unit (fst (executeOverwatchShot st w m roll)) m) = false).
Proof.
  assert (Hg : grid (fst (executeOverwatchShot st w m roll))
               = grid (afterRoll st w m Ranged
                         (PrimFloat.leb roll (fst (calculateHitChance st w m Ranged))))).
  { unfold executeOverwatchShot.
    pose proof (executeAttack_eq st w m Ranged roll) as E. cbv zeta in E.
    rewrite E. reflexivity. }
  assert (Ha : alive (unit (fst (executeOverwatchShot st w m roll)) m)
               = alive (unit (afterRoll st w m Ranged
                         (PrimFloat.leb roll (fst (calculateHitChance st w m Ranged)))) m)).
  { rewrite unit_executeOverwatchShot, unit_executeAttack. cbv zeta.
    destruct (Nat.eqb m w); reflexivity. }
  rewrite Hg, Ha, grid_afterRoll, unit_afterRoll. cbv zeta.
  rewrite Nat.eqb_refl, andb_true_r.
  destruct (PrimFloat.leb roll (fst (calculateHitChance st w m Ranged))); cbn [andb].
  - unfold struck.
    assert (Hhp : forall f, hp (if Nat.eqb m w then withFacing f (unit st m)
                                else unit st m) = hp (unit st m))
      by (intros f; destruct (Nat.eqb m w); reflexivity).
    rewrite Hhp.
    destruct (hp (unit st m) - attackDamage Ranged <=? 0).
    + right. split; reflexivity.
    + left. split; [reflexivity|]. destruct (Nat.eqb m w); reflexivity.
  - left. split; [reflexivity|]. destruct (Nat.eqb m w); reflexivity.
Qed.

Lemma getTile_clearOccupant g c r c' r' :
  getTile (clearOccupant g c r) c' r'
  = match getTile g c' r' with
    | Some t => Some (if (c' =? c) && (r' =? r) then withOccupant None t else t)
    | None => None
    end.
Proof.
  unfold clearOccupant. destruct (getTile g c r) eqn:E.
  - apply getTile_updTile.
  - destruct (getTile g c' r') eqn:E'; [|reflexivity].
    destruct ((c' =? c) && (r' =? r)) eqn:Ec; [|reflexivity].
    apply andb_true_iff in Ec. destruct Ec as [Ec Er].
    apply Z.eqb_eq in Ec, Er. subst. congruence.
Qed.

Lemma getTile_setOccupant g c r u c' r' :
  getTile (setOccupant g c r u) c' r'
  = match getTile g c' r' with
    | Some t => Some (if (c' =? c) && (r' =? r) then withOccupant (Some u) t else t)
    | None => None
    end.
Proof.
  unfold setOccupant. destruct (getTile g c r) eqn:E.
  - apply getTile_updTile.
  - destruct (getTile g c' r') eqn:E'; [|reflexivity].
    destruct ((c' =? c) && (r' =? r)) eqn:Ec; [|reflexivity].
    apply andb_true_iff in Ec. destruct Ec as [Ec Er].
    apply Z.eqb_eq in Ec, Er. subst. congruence.
Qed.

(** The overwatch fire a move draws leaves every unit on its tile; the
    grid is as before unless the mover was killed, and then only the
    occupant of the mover's tile has been cleared. *)
Lemma overwatchShots_grid rng u : forall triggers n st,
  let st' := fst (fst (overwatchShots rng n st u triggers)) in
  (forall r, tile (unit st' r) = tile (unit st r))
  /\ ((grid st' = grid st /\ alive (unit st' u) = alive (unit st u))
      \/ ((forall c r,
             getTile (grid st') c r
             = getTile (clearOccupant (grid st) (col (tile (unit st u)))
                                      (row (tile (unit st u)))) c r)
          /\ alive (unit st' u) = false)).
Proof.
  induction triggers as [|w more IH]; intros n st; cbn [overwatchShots].
  - cbv zeta. cbn [fst]. split; [reflexivity | left; split; reflexivity].
  - pose proof (shot_tile st w u (rng n)) as Ht.
    pose proof (shot_grid_alive st w u (rng n)) as Hg.
    destruct (executeOverwatchShot st w u (rng n)) as [st1 res].
    cbn [fst] in Ht, Hg.
    destruct (negb (alive (unit st1 u))) eqn:Ea.
    + cbv zeta. cbn [fst]. split; [exact Ht|].
      destruct Hg as [Hg | [Hg Hd]]; [left; exact Hg|].
      right. split; [|exact Hd]. intros c r. rewrite Hg. reflexivity.
    + specialize (IH (S n) st1). cbv zeta in IH. destruct IH as [It Ig].
      apply negb_false_iff in Ea.
      destruct Hg as [[Hg1 Ha1] | [_ Hd]]; [|congruence].
      cbv zeta. split.
      * intros r. rewrite It. apply Ht.
      * rewrite !Ht in Ig. rewrite Hg1, Ha1 in Ig. exact Ig.
Qed.

Lemma overwatchAlongPath_grid rng u : forall path n st from trig,
  let st' := fst (fst (overwatchAlongPath rng n st u from path trig)) in
  (forall r, tile (unit st' r) = tile (unit st r))
  /\ ((grid st' = grid st /\ alive (unit st' u) = alive (unit st u))
      \/ ((forall c r,
             getTile (grid st') c r
             = getTile (clearOccupant (grid st) (col (tile (unit st u)))
                                      (row (tile (unit st u)))) c r)
          /\ alive (unit st' u) = false)).
Proof.
  induction path as [|toTile more IH]; intros n st from trig;
    cbn [overwatchAlongPath].
  - cbv zeta. cbn [fst]. split; [reflexivity | left; split; reflexivity].
  - pose proof (overwatchShots_grid rng u (checkOverwatch st u from toTile) n st)
      as Hs.
    destruct (overwatchShots rng n st u (checkOverwatch st u from toTile))
      as [[st1 n1] died].
    cbv zeta in Hs. cbn [fst] in Hs. destruct Hs as [Ht Hg].
    destruct died.
    + cbv zeta. cbn [fst]. split; [exact Ht | exact Hg].
    + specialize (IH n1 st1 toTile
                     (trig || negb (Nat.eqb (length (checkOverwatch st u from toTile)) 0))).
      cbv zeta in IH. destruct IH as [It Ig]. cbv zeta. split.
      * intros r. rewrite It. apply Ht.
      * rewrite !Ht in Ig.
        destruct Hg as [[Hg1 Ha1] | [Hg1 Hd]].
        -- rewrite Hg1, Ha1 in Ig. exact Ig.
        -- right. destruct Ig as [[Ig1 Ia] | [Ig1 Ia]].
           ++ split; [|congruence]. intros c r. rewrite Ig1. apply Hg1.
           ++ split; [|exact Ia]. intros c r.
              rewrite Ig1, !getTile_clearOccupant, Hg1, getTile_clearOccupant.
              destruct (getTile (grid st) c r) as [t|]; [|reflexivity].
              destruct ((c =? col (tile (unit st u)))
                        && (r =? row (tile (unit st u)))); reflexivity.
Qed.

Lemma phase_eqb_refl p : phase_eqb p p = true.
Proof. destruct p; reflexivity. Qed.

Lemma onPlayerMoveClick_accepted fuel rng st u c r p path :
  activeUnit st = Some u ->
  phase st = PLAYER_MOVEMENT ->
  existsb (fun t => (col (ntile t) =? c) && (row (ntile t) =? r))
          (_selectedMoveTiles st) = true ->
  findPath fuel (grid st) (tile (unit st u)) (mkPos c r)
  = Some (Some (p :: path)) ->
  exists st4,
    st4 = fst (_checkOverwatchAlongPath rng
                 (moveUnit
                    (withPhase COMBAT_ANIMATION
                       (modify u (withAp (Z.max 0 (ap (unit st u) - 1))) st))
                    u (p :: path)) u (p :: path))
    /\ (onPlayerMoveClick fuel rng st c r
        = Some (_enterActionPhase st4 u, MoveToAction)
        \/ onPlayerMoveClick fuel rng st c r
           = Some (endActivation st4 u, MoveEndsActivation)).
Proof.
  intros Hact Hph Hsel Hpath. unfold onPlayerMoveClick.
  rewrite Hact, Hph, phase_eqb_refl, Hsel, Hpath. cbn [negb]. cbv zeta.
  destruct (_checkOverwatchAlongPath rng _ u (p :: path)) as [st4 trig] eqn:E4.
  exists st4. split; [reflexivity|].
  destruct (negb (alive (unit st4 u))); [now right|].
  destruct (ap (unit st4 u) >? 0); [now left | now right].
Qed.

(** A click on a tile of the movement range shown for the unit's tile
    finds a path of at least one step. *)
Lemma click_in_range_path (fuel : nat) (st : Game) (u : UnitRef) (c r : Z) :
  _selectedMoveTiles st
  = getMovementRange (grid st) (col (tile (unit st u))) (row (tile (unit st u)))
                     CONSTANTS.movement ->
  existsb (fun t => (col (ntile t) =? c) && (row (ntile t) =? r))
          (_selectedMoveTiles st) = true ->
  (gridBudget (grid st) <= fuel)%nat ->
  exists p path,
    findPath fuel (grid st) (tile (unit st u)) (mkPos c r) = Some (Some (p :: path)).
Proof.
  intros Hfresh Hsel Hfuel.
  apply existsb_exists in Hsel. destruct Hsel as [n [Hin Hn]].
  assert (En : ntile n = mkPos c r).
  { apply andb_true_iff in Hn. destruct Hn as [Hc Hr].
    apply Z.eqb_eq in Hc, Hr. destruct (ntile n). simpl in *. congruence. }
  rewrite Hfresh in Hin.
  set (old := tile (unit st u)) in *.
  assert (Hold : mkPos (col old) (row old) = old) by (destruct old; reflexivity).
  destruct (range_node_path (grid st) (col old) (row old) CONSTANTS.movement
                            n fuel Hin Hfuel) as [p [path [Hpath _]]].
  rewrite Hold, En in Hpath. exists p, path. exact Hpath.
Qed.

(** C10. Each operation that spends an action point writes
    [max 0 (ap - 1)]: [executeAttack] for the attacker, [setOverwatch]
    and [setHunker] for the unit, and the move command for the mover.
    The move command does carry out the move, and writes that value,
    whenever the player's active unit is in the movement phase, the
    clicked tile is in the movement range shown for the unit's tile and
    the path search has the budget of the grid; a rejected click or a
    failed path search leaves every unit's action points as they were.
    The move command returns whenever the path search has the budget of
    the grid.  So the unit's action points are never negative
    afterwards, whatever they were before, a unit at 0 stays at 0, and
    no operation makes any unit's action points negative.  For the move
    command the value is read after the overwatch shots the move
    triggered; these are fired by units of the other side, which takes
    the two sides to be distinct. *)
Theorem ap_deduction_clamped (st : Game) (u target : UnitRef)
        (attackType : AttackType) (roll : float)
        (fuel : nat) (rng : nat -> float) (c r : Z) :
  let spent := Z.max 0 (ap (unit st u) - 1) in
  ap (unit (fst (executeAttack st u target attackType roll)) u) = spent
  /\ ap (unit (setOverwatch st u) u) = spent
  /\ ap (unit (setHunker st u) u) = spent
  /\ 0 <= spent
  /\ (ap (unit st u) = 0 -> spent = 0)
  /\ (activeUnit st = Some u ->
      phase st = PLAYER_MOVEMENT ->
      _selectedMoveTiles st
      = getMovementRange (grid st) (col (tile (unit st u)))
                         (row (tile (unit st u))) CONSTANTS.movement ->
      existsb (fun t => (col (ntile t) =? c) && (row (ntile t) =? r))
              (_selectedMoveTiles st) = true ->
      (gridBudget (grid st) <= fuel)%nat ->
      playerFaction st <> aiFaction st ->
      exists st' out,
        onPlayerMoveClick fuel rng st c r = Some (st', out)
        /\ (out = MoveToAction \/ out = MoveEndsActivation)
        /\ ap (unit st' u) = spent)
  /\ ((gridBudget (grid st) <= fuel)%nat ->
      exists res, onPlayerMoveClick fuel rng st c r = Some res)
  /\ (forall st' out,
        onPlayerMoveClick fuel rng st c r = Some (st', out) ->
        match out with
        | MoveIgnored | MoveNoPath => forall x, ap (unit st' x) = ap (unit st x)
        | MoveToAction | MoveEndsActivation =>
            exists mover,
              activeUnit st = Some mover
              /\ (playerFaction st <> aiFaction st ->
                  ap (unit st' mover) = Z.max 0 (ap (unit st mover) - 1))
        end)
  /\ (apNonneg st ->
      apNonneg (fst (executeAttack st u target attackType roll))
      /\ apNonneg (setOverwatch st u)
      /\ apNonneg (setHunker st u)
      /\ forall st' out,
           onPlayerMoveClick fuel rng st c r = Some (st', out) -> apNonneg st').
Proof.
  intros spent.
  split; [rewrite executeAttack_ap, Nat.eqb_refl; reflexivity|].
  split; [rewrite setOverwatch_ap, Nat.eqb_refl; reflexivity|].
  split; [rewrite setHunker_ap, Nat.eqb_refl; reflexivity|].
  split; [unfold spent; lia|].
  split; [unfold spent; lia|].
  split.
  { intros Hact Hph Hfresh Hsel Hfuel Hsides.
    destruct (click_in_range_path fuel st u c r Hfresh Hsel Hfuel)
      as [p [path Hpath]].
    destruct (onPlayerMoveClick_accepted fuel rng st u c r p path
                                         Hact Hph Hsel Hpath)
      as [st4 [E4 Hout]].
    destruct (accepted_move_ap rng st u (p :: path)) as [_ Hap].
    cbv zeta in Hap. rewrite <- E4 in Hap. specialize (Hap Hsides).
    destruct Hout as [Hout | Hout].
    - exists (_enterActionPhase st4 u), MoveToAction.
      split; [exact Hout|]. split; [now left|].
      unfold _enterActionPhase. simpl. exact Hap.
    - exists (endActivation st4 u), MoveEndsActivation.
      split; [exact Hout|]. split; [now right|].
      rewrite endActivation_ap. exact Hap. }
  split; [apply onPlayerMoveClick_total|].
  split.
  - intros st' out H. apply onPlayerMoveClick_cases in H.
    destruct H as [[-> ->] | [[-> [m ->]] | [m [path [st4 [Hact [Hst4 H]]]]]]];
      [reflexivity | reflexivity |].
    destruct (accepted_move_ap rng st m path) as [_ Hap]. cbv zeta in Hap.
    rewrite <- Hst4 in Hap.
    destruct H as [[-> ->] | [-> ->]]; exists m; (split; [exact Hact|]);
      intros Hsides.
    + unfold _enterActionPhase. simpl. auto.
    + rewrite endActivation_ap. auto.
  - intros Hnn. split; [|split; [|split]].
    + intros x. rewrite executeAttack_ap. specialize (Hnn x).
      destruct (Nat.eqb x u); lia.
    + intros x. rewrite setOverwatch_ap. specialize (Hnn x).
      destruct (Nat.eqb x u); lia.
    + intros x. rewrite setHunker_ap. specialize (Hnn x).
      destruct (Nat.eqb x u); lia.
    + intros st' out H. apply onPlayerMoveClick_cases in H.
      destruct H as [[-> ->] | [[-> [m ->]] | [m [path [st4 [Hact [Hst4 H]]]]]]];
        [exact Hnn | exact Hnn |].
      destruct (accepted_move_ap rng st m path) as [Hn4 _]. cbv zeta in Hn4.
      rewrite <- Hst4 in Hn4. specialize (Hn4 Hnn).
      destruct H as [[-> ->] | [-> ->]]; intros x.
      * apply Hn4.
      * rewrite endActivation_ap. apply Hn4.
Qed.

(** On the duel map the player's unit, activated with 2 action points,
    is clicked onto (1,1): the move is carried out and leaves it 1; the
    same click on a unit brought to 0 action points is carried out too
    and leaves it 0. *)
Lemma ap_deduction_clamped_witness :
  (exists st' out,
     onPlayerMoveClick 31 (fun _ => 0%float) (beginPlayerActivation duel 0%nat) 1 1
     = Some (st', out)
     /\ (out = MoveToAction \/ out = MoveEndsActivation)
     /\ ap (unit (beginPlayerActivation duel 0%nat) 0%nat) = 2
     /\ ap (unit st' 0%nat) = 1)
  /\ (exists st' out,
       onPlayerMoveClick 31 (fun _ => 0%float)
         (modify 0%nat (withAp 0) (beginPlayerActivation duel 0%nat)) 1 1
       = Some (st', out)
       /\ (out = MoveToAction \/ out = MoveEndsActivation)
       /\ ap (unit st' 0%nat) = 0).
Proof.
  split.
  - destruct (ap_deduction_clamped (beginPlayerActivation duel 0%nat) 0%nat 1%nat
                Ranged 0%float 31 (fun _ => 0%float) 1 1)
      as [_ [_ [_ [_ [_ [Hmove _]]]]]].
    destruct Hmove as [st' [out [Hrun [Hout Hap]]]].
    + reflexivity.
    + reflexivity.
    + reflexivity.
    + vm_compute. reflexivity.
    + vm_compute. lia.
    + discriminate.
    + exists st', out. split; [exact Hrun|]. split; [exact Hout|].
      split; [reflexivity | exact Hap].
  - destruct (ap_deduction_clamped
                (modify 0%nat (withAp 0) (beginPlayerActivation duel 0%nat))
                0%nat 1%nat Ranged 0%float 31 (fun _ => 0%float) 1 1)
      as [_ [_ [_ [_ [_ [Hmove _]]]]]].
    destruct Hmove as [st' [out [Hrun [Hout Hap]]]].
    + reflexivity.
    + reflexivity.
    + reflexivity.
    + vm_compute. reflexivity.
    + vm_compute. lia.
    + discriminate.
    + exists st', out. split; [exact Hrun|]. split; [exact Hout|]. exact Hap.
Defined.

(** X17. A click of the move command on a tile of the movement range
    shown for the active unit (the range [beginPlayerActivation] stored
    for its current tile) is always carried out: the command returns
    with the unit in the action phase or its activation ended, never
    ignored and never for want of a path; the unit then stands on the
    clicked tile and every other unit where it was; the tile it left has
    no occupant; and unless overwatch fire killed it on the way, the
    clicked tile has it as occupant. *)
Theorem move_reaches_clicked_tile (fuel : nat) (rng : nat -> float) (st : Game)
        (u : UnitRef) (c r : Z) :
  activeUnit st = Some u ->
  phase st = PLAYER_MOVEMENT ->
  _selectedMoveTiles st
  = getMovementRange (grid st) (col (tile (unit st u))) (row (tile (unit st u)))
                     CONSTANTS.movement ->
  existsb (fun t => (col (ntile t) =? c) && (row (ntile t) =? r))
          (_selectedMoveTiles st) = true ->
  (gridBudget (grid st) <= fuel)%nat ->
  exists st' out,
    onPlayerMoveClick fuel rng st c r = Some (st', out)
    /\ (out = MoveToAction \/ out = MoveEndsActivation)
    /\ tile (unit st' u) = mkPos c r
    /\ (forall x, x <> u -> tile (unit st' x) = tile (unit st x))
    /\ (forall t, getTile (grid st') (col (tile (unit st u)))
                          (row (tile (unit st u))) = Some t ->
                  occupant t = None)
    /\ (alive (unit st' u) = true ->
        exists t, getTile (grid st') c r = Some t /\ occupant t = Some u).
Proof.
  intros Hact Hph Hfresh Hsel Hfuel.
  assert (Hnode : exists n, In n (_selectedMoveTiles st) /\ ntile n = mkPos c r).
  { apply existsb_exists in Hsel. destruct Hsel as [n [Hin Hn]].
    exists n. split; [exact Hin|].
    apply andb_true_iff in Hn. destruct Hn as [Hc Hr].
    apply Z.eqb_eq in Hc, Hr. destruct (ntile n). simpl in *. congruence. }
  destruct Hnode as [n [Hin Hn]]. rewrite Hfresh in Hin.
  set (old := tile (unit st u)) in *.
  assert (Hold : mkPos (col old) (row old) = old) by (destruct old; reflexivity).
  destruct (range_node_path (grid st) (col old) (row old) CONSTANTS.movement
                            n fuel Hin Hfuel) as [p [path [Hpath [Hlegal Hlast]]]].
  destruct (range_node_walk (grid st) (col old) (row old) CONSTANTS.movement
                            n Hin) as [_ [Hwalk Hne]].
  rewrite Hold, Hn in *.
  destruct (onPlayerMoveClick_accepted fuel rng st u c r p path Hact Hph Hsel Hpath)
    as [st4 [E4 Hout]].
  set (st1 := withPhase COMBAT_ANIMATION
                (modify u (withAp (Z.max 0 (ap (unit st u) - 1))) st)) in *.
  set (st3 := moveUnit st1 u (p :: path)) in *.
  assert (Hold1 : tile (unit st1 u) = old).
  { unfold st1. cbn [unit withPhase]. rewrite unit_modify_same. reflexivity. }
  assert (Ht3 : forall x, tile (unit st3 x)
                          = if Nat.eqb x u then mkPos c r else tile (unit st x)).
  { intros x. unfold st3. rewrite moveUnit_tile.
    destruct (Nat.eqb x u) eqn:E.
    - apply Nat.eqb_eq in E. subst x. rewrite Hold1. exact Hlast.
    - unfold st1. cbn [unit withPhase]. rewrite unit_modify, E. reflexivity. }
  assert (Hg3 : grid st3
                = setOccupant (clearOccupant (grid st) (col old) (row old)) c r u).
  { unfold st3. rewrite grid_moveUnit, Hold1, Hlast. reflexivity. }
  rewrite checkOverwatchAlongPath_fst in E4.
  destruct (overwatchAlongPath_grid rng u (p :: path) 0%nat st3
                                    (tile (unit st3 u)) false) as [Ht4 Hg4].
  rewrite <- E4 in Ht4, Hg4.
  assert (Hnew : (col old =? c) && (row old =? r) = false).
  { destruct ((col old =? c) && (row old =? r)) eqn:E; [|reflexivity].
    apply andb_true_iff in E. destruct E as [Ec Er].
    apply Z.eqb_eq in Ec, Er. exfalso. apply Hne.
    rewrite <- Hold. congruence. }
  assert (Hinb : exists t0, getTile (grid st) c r = Some t0).
  { destruct (Z.to_nat (cost n)) as [|k] eqn:Ek.
    - inversion Hwalk; subst. exfalso. apply Hne. congruence.
    - destruct (walk_last_free (grid st) old k (mkPos c r) Hwalk) as [Hb _].
      cbn [col row] in Hb. rewrite getTile_inBounds, Hb. eauto. }
  assert (Hmain : forall st',
            (forall x, tile (unit st' x) = tile (unit st4 x)) ->
            alive (unit st' u) = alive (unit st4 u) ->
            grid st' = grid st4 ->
            tile (unit st' u) = mkPos c r
            /\ (forall x, x <> u -> tile (unit st' x) = tile (unit st x))
            /\ (forall t, getTile (grid st') (col old) (row old) = Some t ->
                          occupant t = None)
            /\ (alive (unit st' u) = true ->
                exists t, getTile (grid st') c r = Some t /\ occupant t = Some u)).
  { intros st' Ht' Ha' Hg'. rewrite Hg', Ha'.
    split; [rewrite Ht', Ht4, Ht3, Nat.eqb_refl; reflexivity|].
    split.
    { intros x Hx. rewrite Ht', Ht4, Ht3.
      apply Nat.eqb_neq in Hx. rewrite Hx. reflexivity. }
    rewrite Ht3, Nat.eqb_refl in Hg4. cbn [col row] in Hg4.
    destruct Hinb as [t0 Ht0].
    destruct Hg4 as [[Hg4 Ha4] | [Hg4 Ha4]].
    - rewrite Hg4, Hg3. split.
      + intros t. rewrite getTile_setOccupant, getTile_clearOccupant.
        destruct (getTile (grid st) (col old) (row old)) as [t1|]; [|discriminate].
        rewrite Hnew, !Z.eqb_refl. cbn [andb]. intros H. injection H as <-.
        reflexivity.
      + intros _. rewrite getTile_setOccupant, getTile_clearOccupant, Ht0.
        rewrite !Z.eqb_refl. cbn [andb]. eexists. split; [reflexivity|].
        reflexivity.
    - split.
      + intros t. rewrite Hg4, getTile_clearOccupant, Hg3.
        rewrite getTile_setOccupant, getTile_clearOccupant.
        destruct (getTile (grid st) (col old) (row old)) as [t1|]; [|discriminate].
        rewrite Hnew, !Z.eqb_refl. cbn [andb]. intros H. injection H as <-.
        reflexivity.
      + rewrite Ha4. discriminate. }
  destruct Hout as [Hout | Hout].
  - exists (_enterActionPhase st4 u), MoveToAction.
    split; [exact Hout|]. split; [now left|].
    apply Hmain; reflexivity.
  - exists (endActivation st4 u), MoveEndsActivation.
    split; [exact Hout|]. split; [now right|].
    apply Hmain.
    + intros x. unfold endActivation, markActivated. cbv zeta.
      cbn [unit withCurrentActivationIndex withActiveUnit].
      rewrite unit_modify_same. cbn [status withActivated].
      destruct (status_eqb (status (unit st4 u)) READY);
        rewrite ?unit_modify; destruct (Nat.eqb x u); reflexivity.
    + unfold endActivation, markActivated. cbv zeta.
      cbn [unit withCurrentActivationIndex withActiveUnit].
      rewrite unit_modify_same. cbn [status withActivated].
      destruct (status_eqb (status (unit st4 u)) READY);
        rewrite ?unit_modify_same; reflexivity.
    + unfold endActivation, markActivated. cbv zeta.
      cbn [grid withCurrentActivationIndex withActiveUnit].
      rewrite unit_modify_same. cbn [status withActivated].
      destruct (status_eqb (status (unit st4 u)) READY); reflexivity.
Qed.

Lemma move_reaches_clicked_tile_witness :
  activeUnit (beginPlayerActivation duel 0%nat) = Some 0%nat
  /\ phase (beginPlayerActivation duel 0%nat) = PLAYER_MOVEMENT
  /\ existsb (fun t => (col (ntile t) =? 1) && (row (ntile t) =? 1))
             (_selectedMoveTiles (beginPlayerActivation duel 0%nat)) = true
  /\ exists st' out,
       onPlayerMoveClick 31 (fun _ => 0%float) (beginPlayerActivation duel 0%nat) 1 1
       = Some (st', out)
       /\ tile (unit st' 0%nat) = mkPos 1 1.
Proof.
  assert (Hsel : existsb (fun t => (col (ntile t) =? 1) && (row (ntile t) =? 1))
                         (_selectedMoveTiles (beginPlayerActivation duel 0%nat))
                 = true) by (vm_compute; reflexivity).
  assert (Hfuel : (gridBudget (grid (beginPlayerActivation duel 0%nat)) <= 31)%nat)
    by (vm_compute; lia).
  split; [reflexivity|]. split; [reflexivity|]. split; [exact Hsel|].
  destruct (move_reaches_clicked_tile 31 (fun _ => 0%float)
              (beginPlayerActivation duel 0%nat) 0%nat 1 1
              eq_refl eq_refl eq_refl Hsel Hfuel)
    as [st' [out [Hrun [_ [Htile _]]]]].
  exists st', out. split; assumption.
Defined.

(** ** Tiles in range *)

Lemma In_span (range d : Z) :
  In d (map (fun i => Z.of_nat i - range) (seq 0 (Z.to_nat (2 * range + 1))))
  <-> - range <= d <= range.
Proof.
  rewrite in_map_iff. split.
  - intros [i [<- Hi]]. apply in_seq in Hi. lia.
  - intros Hd. exists (Z.to_nat (d + range)). split; [lia|].
    apply in_seq. lia.
Qed.

Lemma NoDup_span (range : Z) :
  NoDup (map (fun i => Z.of_nat i - range) (seq 0 (Z.to_nat (2 * range + 1)))).
Proof.
  apply Finite.Injective_map_NoDup; [|apply seq_NoDup].
  intros a b H. lia.
Qed.

Lemma NoDup_flat_map_tiles (f : Z -> list Pos) (l : list Z) :
  NoDup l ->
  (forall d, NoDup (f d)) ->
  (forall d d' p, In p (f d) -> In p (f d') -> d = d') ->
  NoDup (flat_map f l).
Proof.
  intros Hl Hf Hdisj. induction Hl as [|d l Hd Hl IH]; simpl; [constructor|].
  apply NoDup_app; [apply Hf | exact IH |].
  intros p Hp Hin. apply in_flat_map in Hin. destruct Hin as [d' [Hd' Hp']].
  assert (d = d') by (eapply Hdisj; eauto). subst. contradiction.
Qed.

(** X18. [tilesInRange] returns exactly the tiles inside the grid at
    Chebyshev distance between 1 and [range] from the origin, each
    once; with [range] 1 these are the tiles [getNeighbors] returns. *)
Theorem tilesInRange_exact (origin : Pos) (range w h : Z) :
  (forall p, In p (tilesInRange origin range w h)
             <-> inBounds w h (col p) (row p) = true
                 /\ 1 <= tileDistance origin p <= range)
  /\ NoDup (tilesInRange origin range w h)
  /\ (forall p, In p (tilesInRange origin 1 w h)
                <-> In p (getNeighbors (col origin) (row origin) w h)).
Proof.
  assert (Hspec : forall rg p, In p (tilesInRange origin rg w h)
             <-> inBounds w h (col p) (row p) = true
                 /\ 1 <= tileDistance origin p <= rg).
  { intros rg p. unfold tilesInRange. cbv zeta.
    rewrite in_flat_map. split.
    - intros [dc [Hdc Hin]]. apply in_flat_map in Hin.
      destruct Hin as [dr [Hdr Hin]].
      apply In_span in Hdc, Hdr.
      destruct ((col origin + dc <? 0) || (col origin + dc >=? w)
                || (row origin + dr <? 0) || (row origin + dr >=? h)) eqn:Eb;
        [contradiction|].
      destruct ((col origin + dc =? col origin)
                && (row origin + dr =? row origin)) eqn:Eo; [contradiction|].
      destruct (tileDistance origin (mkPos (col origin + dc) (row origin + dr))
                <=? rg) eqn:Ed; [|contradiction].
      destruct Hin as [<- | []]. cbn [col row].
      apply Z.leb_le in Ed. unfold inBounds, tileDistance in *. cbn [col row] in *.
      repeat rewrite orb_false_iff in Eb. destruct Eb as [[[E1 E2] E3] E4].
      apply andb_false_iff in Eo.
      split.
      + rewrite !andb_true_iff. lia.
      + split; [|exact Ed]. destruct Eo as [Eo | Eo]; lia.
    - intros [Hb [Hd1 Hd2]].
      exists (col p - col origin). split.
      + apply In_span. unfold tileDistance in *. lia.
      + apply in_flat_map. exists (row p - row origin). split.
        * apply In_span. unfold tileDistance in *. lia.
        * replace (col origin + (col p - col origin)) with (col p) by lia.
          replace (row origin + (row p - row origin)) with (row p) by lia.
          unfold inBounds in Hb. rewrite !andb_true_iff in Hb.
          assert (Eb : (col p <? 0) || (col p >=? w) || (row p <? 0)
                       || (row p >=? h) = false).
          { repeat rewrite orb_false_iff. lia. }
          rewrite Eb.
          assert (Eo : (col p =? col origin) && (row p =? row origin) = false).
          { apply andb_false_iff. unfold tileDistance in Hd1. lia. }
          rewrite Eo.
          assert (Ep : mkPos (col p) (row p) = p) by (destruct p; reflexivity).
          rewrite Ep.
          assert (Ed : (tileDistance origin p <=? rg) = true)
            by (apply Z.leb_le; exact Hd2).
          rewrite Ed. left. reflexivity. }
  split; [apply Hspec|]. split.
  - unfold tilesInRange. cbv zeta.
    apply NoDup_flat_map_tiles.
    + apply NoDup_span.
    + intros dc. apply NoDup_flat_map_tiles.
      * apply NoDup_span.
      * intros dr.
        repeat match goal with
               | |- context [if ?c then _ else _] => destruct c
               end; repeat constructor; simpl; tauto.
      * intros dr dr' p Hp Hp'.
        repeat match type of Hp with
               | context [if ?c then _ else _] => destruct c
               end; try contradiction.
        repeat match type of Hp' with
               | context [if ?c then _ else _] => destruct c
               end; try contradiction.
        destruct Hp as [<- | []]. destruct Hp' as [Hp' | []].
        injection Hp' as Hp'. lia.
    + intros dc dc' p Hp Hp'.
      apply in_flat_map in Hp, Hp'.
      destruct Hp as [dr [_ Hp]], Hp' as [dr' [_ Hp']].
      repeat match type of Hp with
             | context [if ?c then _ else _] => destruct c
             end; try contradiction.
      repeat match type of Hp' with
             | context [if ?c then _ else _] => destruct c
             end; try contradiction.
      destruct Hp as [<- | []]. destruct Hp' as [Hp' | []].
      injection Hp' as Hp' _. lia.
  - intros p. rewrite Hspec, In_getNeighbors.
    split; intros [Hb Hd]; (split; [exact Hb | lia]).
Qed.

(** ** Overwatch is spent by its shot *)

Lemma units_afterRoll st a t ty h : units (afterRoll st a t ty h) = units st.
Proof.
  unfold afterRoll. cbv zeta. destruct h; [|reflexivity].
  unfold applyDamage, setUnitDead. cbv zeta.
  repeat match goal with |- context [if ?c then _ else _] => destruct c end;
    reflexivity.
Qed.

Lemma units_executeOverwatchShot st w m roll :
  units (fst (executeOverwatchShot st w m roll)) = units st.
Proof.
  unfold executeOverwatchShot.
  pose proof (executeAttack_eq st w m Ranged roll) as E. cbv zeta in E.
  rewrite E. cbn [fst units modify withUnit]. apply units_afterRoll.
Qed.

Lemma status_executeOverwatchShot st w m roll r :
  status (unit (fst (executeOverwatchShot st w m roll)) r)
  = if Nat.eqb r w then ACTIVATED
    else if PrimFloat.leb roll (fst (calculateHitChance st w m Ranged))
            && Nat.eqb r m
            && (hp (unit st r) - attackDamage Ranged <=? 0)
         then DEAD else status (unit st r).
Proof.
  rewrite unit_executeOverwatchShot.
  destruct (Nat.eqb r w) eqn:Erw; [reflexivity|].
  rewrite unit_executeAttack. cbv zeta. rewrite Erw, unit_afterRoll. cbv zeta.
  rewrite Erw.
  destruct (PrimFloat.leb roll (fst (calculateHitChance st w m Ranged)) && Nat.eqb r m);
    cbn [andb]; [|reflexivity].
  unfold struck. destruct (hp (unit st r) - attackDamage Ranged <=? 0); reflexivity.
Qed.

Lemma filter_length_drop (p q : UnitRef -> bool) (w : UnitRef) :
  forall l, NoDup l -> In w l ->
    p w = true -> q w = false ->
    (forall x, In x l -> q x = true -> p x = true) ->
    (length (filter q l) < length (filter p l))%nat.
Proof.
  assert (Hle : forall l, (forall x, In x l -> q x = true -> p x = true) ->
                  (length (filter q l) <= length (filter p l))%nat).
  { induction l as [|x l IH]; intros H; simpl; [lia|].
    assert (IH' := IH (fun y Hy => H y (or_intror Hy))).
    destruct (q x) eqn:Eq.
    - rewrite (H x (or_introl eq_refl) Eq). simpl. lia.
    - destruct (p x); simpl; lia. }
  induction l as [|x l IH]; intros Hnd Hin Hp Hq Himp; [contradiction|].
  inversion Hnd as [|? ? Hx Hnd']; subst.
  assert (Himp' : forall y, In y l -> q y = true -> p y = true)
    by (intros y Hy; apply Himp; now right).
  simpl. destruct Hin as [-> | Hin].
  - rewrite Hp, Hq. simpl. specialize (Hle l Himp'). lia.
  - specialize (IH Hnd' Hin Hp Hq Himp').
    destruct (q x) eqn:Eq.
    + rewrite (Himp x (or_introl eq_refl) Eq). simpl. lia.
    + destruct (p x); simpl; lia.
Qed.

Lemma overwatchCount_shot st w m roll :
  NoDup (units st) -> In w (units st) -> status (unit st w) = OVERWATCH ->
  (overwatchCount (fst (executeOverwatchShot st w m roll)) < overwatchCount st)%nat.
Proof.
  intros Hnd Hin Hw. unfold overwatchCount.
  rewrite units_executeOverwatchShot.
  apply (filter_length_drop _ _ w); auto.
  - rewrite Hw. reflexivity.
  - rewrite status_executeOverwatchShot, Nat.eqb_refl. reflexivity.
  - intros x _. rewrite status_executeOverwatchShot.
    destruct (Nat.eqb x w); [discriminate|].
    destruct (_ && _ && _); [discriminate | auto].
Qed.

Lemma overwatchShots_count rng u : forall triggers n st,
  NoDup (units st) -> NoDup triggers ->
  (forall w, In w triggers ->
     In w (units st) /\ status (unit st w) = OVERWATCH /\ w <> u) ->
  let res := overwatchShots rng n st u triggers in
  units (fst (fst res)) = units st
  /\ (snd (fst res) + overwatchCount (fst (fst res)) <= n + overwatchCount st)%nat.
Proof.
  induction triggers as [|w more IH]; intros n st Hnd Hnt Htr;
    cbn [overwatchShots].
  - cbv zeta. cbn [fst snd]. split; [reflexivity | lia].
  - destruct (Htr w (or_introl eq_refl)) as [Hin [Hw Hwu]].
    pose proof (overwatchCount_shot st w u (rng n) Hnd Hin Hw) as Hc.
    pose proof (units_executeOverwatchShot st w u (rng n)) as Hu.
    assert (Hst : forall r, r <> w -> r <> u ->
              status (unit (fst (executeOverwatchShot st w u (rng n))) r)
              = status (unit st r)).
    { intros r Hrw Hru. rewrite status_executeOverwatchShot.
      apply Nat.eqb_neq in Hrw, Hru. rewrite Hrw, Hru, andb_false_r.
      reflexivity. }
    destruct (executeOverwatchShot st w u (rng n)) as [st1 res1].
    cbn [fst] in Hc, Hu, Hst.
    destruct (negb (alive (unit st1 u))).
    + cbv zeta. cbn [fst snd]. split; [exact Hu | lia].
    + inversion Hnt as [|? ? Hfresh Hnt']; subst.
      destruct (IH (S n) st1) as [I1 I2].
      * rewrite Hu. exact Hnd.
      * exact Hnt'.
      * intros w' Hw'. destruct (Htr w' (or_intror Hw')) as [Hin' [Hs' Hne']].
        split; [rewrite Hu; exact Hin'|]. split; [|exact Hne'].
        rewrite Hst; [exact Hs' | | exact Hne'].
        intros ->. contradiction.
      * cbv zeta. split; [congruence | lia].
Qed.

Lemma checkOverwatch_NoDup st u f t :
  NoDup (units st) -> NoDup (checkOverwatch st u f t).
Proof.
  intros H. unfold checkOverwatch, getAliveUnits. cbv zeta.
  apply NoDup_filter, NoDup_filter. exact H.
Qed.

Lemma overwatchAlongPath_count rng u : forall path n st from trig,
  NoDup (units st) -> playerFaction st <> aiFaction st ->
  let res := overwatchAlongPath rng n st u from path trig in
  (snd (fst res) + overwatchCount (fst (fst res)) <= n + overwatchCount st)%nat.
Proof.
  induction path as [|toTile more IH]; intros n st from trig Hnd Hsides;
    cbn [overwatchAlongPath].
  - cbv zeta. cbn [fst snd]. lia.
  - assert (Htr : forall w, In w (checkOverwatch st u from toTile) ->
              In w (units st) /\ status (unit st w) = OVERWATCH /\ w <> u).
    { intros w Hw. pose proof (checkOverwatch_not_self st u from toTile w Hsides Hw).
      apply checkOverwatch_enemy in Hw. destruct Hw as [Hin [_ [_ Ht]]].
      split; [exact Hin|]. split; [|assumption].
      unfold overwatchTriggers in Ht. cbv zeta in Ht.
      destruct (status_eqb (status (unit st w)) OVERWATCH) eqn:Es;
        [apply status_eqb_eq; exact Es | discriminate]. }
    pose proof (overwatchShots_count rng u (checkOverwatch st u from toTile) n st
                  Hnd (checkOverwatch_NoDup st u from toTile Hnd) Htr) as Hs.
    destruct (overwatchShots_ap rng u (checkOverwatch st u from toTile) n st)
      as [_ [_ [_ [Hp Ha]]]].
    destruct (overwatchShots rng n st u (checkOverwatch st u from toTile))
      as [[st1 n1] died].
    cbv zeta in Hs. cbn [fst snd] in Hs, Hp, Ha. destruct Hs as [Hu Hc].
    destruct died.
    + cbv zeta. cbn [fst snd]. exact Hc.
    + specialize (IH n1 st1 toTile
                     (trig || negb (Nat.eqb (length (checkOverwatch st u from toTile)) 0))).
      cbv zeta in IH. cbv zeta.
      assert (IH' := IH ltac:(rewrite Hu; exact Hnd) ltac:(congruence)).
      lia.
Qed.

(** X19. An overwatch shot spends the overwatch: after
    [executeOverwatchShot] the shooter has status Activated and no cone,
    and no later [checkOverwatch] lists it, whoever moves and wherever.
    With a duplicate-free roster and distinct faction ids, the shots
    one move draws in [_checkOverwatchAlongPath] are at most as many as
    there were units on overwatch, the count of units on overwatch going
    down by at least one per shot. *)
Theorem overwatch_fires_once (st : Game) (w m : UnitRef) (roll : float) :
  status (unit (fst (executeOverwatchShot st w m roll)) w) = ACTIVATED
  /\ overwatchCone (unit (fst (executeOverwatchShot st w m roll)) w) = None
  /\ (forall mover fromTile toTile,
        ~ In w (checkOverwatch (fst (executeOverwatchShot st w m roll))
                               mover fromTile toTile))
  /\ (NoDup (units st) -> playerFaction st <> aiFaction st ->
      forall rng path,
        (snd (fst (overwatchAlongPath rng 0 st m (tile (unit st m)) path false))
         + overwatchCount
             (fst (fst (overwatchAlongPath rng 0 st m (tile (unit st m)) path false)))
         <= overwatchCount st)%nat).
Proof.
  split; [rewrite status_executeOverwatchShot, Nat.eqb_refl; reflexivity|].
  split.
  { rewrite unit_executeOverwatchShot, Nat.eqb_refl. reflexivity. }
  split.
  { intros mover f t Hin. apply checkOverwatch_enemy in Hin.
    destruct Hin as [_ [_ [_ Ht]]].
    unfold overwatchTriggers in Ht. cbv zeta in Ht.
    rewrite status_executeOverwatchShot, Nat.eqb_refl in Ht. discriminate. }
  intros Hnd Hsides rng path.
  pose proof (overwatchAlongPath_count rng m path 0%nat st (tile (unit st m))
                false Hnd Hsides) as H.
  cbv zeta in H. lia.
Qed.

(** A path the search returns is sound whatever the budget it ran
    with. *)
Lemma findPath_sound (g : GridManager) (start end_ : Pos) (fuel : nat)
      (path : list Pos) :
  findPath fuel g start end_ = Some (Some path) ->
  legalPath g start path /\ last path start = end_.
Proof.
  unfold findPath, _findPathBFS. cbv zeta.
  destruct ((col start =? col end_) && (row start =? row end_)) eqn:Ese.
  { intros H. injection H as <-.
    assert (start = end_) by (apply pos_eqb_eq; exact Ese).
    simpl. auto. }
  assert (Hne : start <> end_).
  { intros ->. rewrite !Z.eqb_refl in Ese. discriminate. }
  destruct (negb (isWalkable g (col end_) (row end_))); [discriminate|].
  destruct (path_loop fuel g end_ false (mkPathState [start] [start] [] false))
    as [st|] eqn:E; [|discriminate].
  destruct (path_loop_search g start end_ fuel _ st E) as [Hlinks _].
  { intros n p []. }
  { simpl. now left. }
  { intros _. split.
    - simpl. intros [H | []]. apply Hne. exact H.
    - intros a Ha. left. exact Ha. }
  destruct (negb (found st)); [discriminate|].
  intros Hr.
  destruct (rebuild_loop_sound g start (cameFrom st) Hlinks fuel end_ [] path Hr)
    as [pre [Hres [Hl Hlast]]].
  rewrite app_nil_r in Hres. subst pre. auto.
Qed.

Lemma legalPath_last_free (g : GridManager) : forall path a p,
  legalPath g a (p :: path) ->
  exists t0, getTile g (col (last (p :: path) a)) (row (last (p :: path) a))
             = Some t0
             /\ occupant t0 = None.
Proof.
  induction path as [|q path IH]; intros a p [Hs Hl].
  - cbn [last]. destruct Hs as [Hb [_ [Hw _]]].
    unfold isWalkable in Hw. rewrite getTile_inBounds, Hb in *.
    eexists. split; [reflexivity|].
    apply andb_true_iff in Hw. destruct Hw as [_ Ho].
    destruct (occupant (tiles g (col p) (row p))); [discriminate | reflexivity].
  - change (last (p :: q :: path) a) with (last (q :: path) a).
    rewrite (last_default path q a p). apply IH. exact Hl.
Qed.

(** ** Grid and units stay in agreement *)

Lemma moveUnit_units st u path : units (moveUnit st u path) = units st.
Proof.
  unfold moveUnit. destruct path as [|p path]; [reflexivity|]. cbv zeta.
  assert (H : forall l s,
            units (fold_left (fun st0 arrivedTile => modify u (withTile arrivedTile) st0)
                             l s) = units s).
  { induction l as [|x l IH]; intros s; [reflexivity|].
    cbn [fold_left]. rewrite IH. reflexivity. }
  destruct (lastTwo (p :: path)) as [[a b]|];
    cbn [units modify withUnit withGrid]; rewrite H; reflexivity.
Qed.

Lemma moveUnit_control st u path :
  activeUnit (moveUnit st u path) = activeUnit st
  /\ activationQueue (moveUnit st u path) = activationQueue st.
Proof.
  unfold moveUnit. destruct path as [|p path]; [split; reflexivity|]. cbv zeta.
  assert (H : forall l s,
            activeUnit (fold_left (fun st0 arrivedTile =>
                                     modify u (withTile arrivedTile) st0) l s)
            = activeUnit s
            /\ activationQueue (fold_left (fun st0 arrivedTile =>
                                             modify u (withTile arrivedTile) st0) l s)
               = activationQueue s).
  { induction l as [|x l IH]; intros s; [split; reflexivity|].
    cbn [fold_left]. destruct (IH (modify u (withTile x) s)) as [H1 H2].
    split; [rewrite H1 | rewrite H2]; reflexivity. }
  destruct (lastTwo (p :: path)) as [[a b]|];
    cbn [activeUnit activationQueue modify withUnit withGrid];
    match goal with
    | |- context [fold_left _ ?l ?s] => destruct (H l s) as [H1 H2]
    end; rewrite H1, H2; split; reflexivity.
Qed.

Lemma moveUnit_other st u path x :
  x <> u -> unit (moveUnit st u path) x = unit st x.
Proof.
  intros Hx. apply Nat.eqb_neq in Hx.
  unfold moveUnit. destruct path as [|p path]; [reflexivity|]. cbv zeta.
  assert (H : forall l s,
            unit (fold_left (fun st0 arrivedTile => modify u (withTile arrivedTile) st0)
                            l s) x = unit s x).
  { induction l as [|y l IH]; intros s; [reflexivity|].
    cbn [fold_left]. rewrite IH, unit_modify, Hx. reflexivity. }
  destruct (lastTwo (p :: path)) as [[a b]|];
    [rewrite unit_modify, Hx|]; cbn [unit withGrid]; rewrite H; reflexivity.
Qed.

Lemma moveUnit_faction st u path x :
  faction (unit (moveUnit st u path) x) = faction (unit st x).
Proof.
  unfold moveUnit. destruct path as [|p path]; [reflexivity|]. cbv zeta.
  destruct (lastTwo (p :: path)) as [[a b]|];
    [rewrite unit_modify; destruct (Nat.eqb x u); cbn [faction withFacing]|];
    cbn [unit withGrid];
    rewrite (fold_modify_field faction u withTile (fun _ _ => eq_refl));
    reflexivity.
Qed.

Lemma occupancy_kill st st' t :
  occupancy st -> In t (units st) -> alive (unit st t) = true ->
  units st' = units st ->
  (forall x, tile (unit st' x) = tile (unit st x)) ->
  ((forall c r, getTile (grid st') c r = getTile (grid st) c r)
   /\ (forall x, alive (unit st' x) = alive (unit st x)))
  \/ ((forall c r,
         getTile (grid st') c r
         = getTile (clearOccupant (grid st) (col (tile (unit st t)))
                                  (row (tile (unit st t)))) c r)
      /\ alive (unit st' t) = false
      /\ (forall x, x <> t -> alive (unit st' x) = alive (unit st x))) ->
  occupancy st'.
Proof.
  intros [O1 O2] Hin Hal Hu Ht [[Hg Ha] | [Hg [Hd Ha]]].
  - split.
    + intros u Hu' Hau. rewrite Hu in Hu'. rewrite Ha in Hau.
      rewrite Ht, Hg. apply O1; assumption.
    + intros c r t0 x Hget Hocc. rewrite Hg in Hget.
      destruct (O2 c r t0 x Hget Hocc) as [H1 [H2 H3]].
      rewrite Hu, Ha, Ht. auto.
  - destruct (O1 t Hin Hal) as [tt [Htt Hott]].
    split.
    + intros u Hu' Hau. rewrite Hu in Hu'.
      assert (Hne : u <> t) by (intros ->; congruence).
      rewrite Ha in Hau by exact Hne.
      destruct (O1 u Hu' Hau) as [tu [Htu Hotu]].
      rewrite Ht, Hg, getTile_clearOccupant, Htu.
      destruct ((col (tile (unit st u)) =? col (tile (unit st t)))
                && (row (tile (unit st u)) =? row (tile (unit st t)))) eqn:E.
      * exfalso. apply Hne.
        assert (Heq : tile (unit st u) = tile (unit st t))
          by (apply pos_eqb_eq; exact E).
        rewrite Heq in Htu. congruence.
      * eauto.
    + intros c r t0 x Hget Hocc.
      rewrite Hg, getTile_clearOccupant in Hget.
      destruct (getTile (grid st) c r) as [t1|] eqn:E1; [|discriminate].
      destruct ((c =? col (tile (unit st t))) && (r =? row (tile (unit st t))))
        eqn:E.
      * injection Hget as <-. discriminate.
      * injection Hget as <-.
        destruct (O2 c r t1 x E1 Hocc) as [H1 [H2 H3]].
        assert (Hne : x <> t).
        { intros ->. rewrite H3 in E. cbn [col row] in E.
          rewrite !Z.eqb_refl in E. discriminate. }
        rewrite Hu, Ht, Ha by exact Hne. auto.
Qed.

Lemma attack_grid_alive st a t ty roll :
  ((forall c r, getTile (grid (fst (executeAttack st a t ty roll))) c r
                = getTile (grid st) c r)
   /\ (forall x, alive (unit (fst (executeAttack st a t ty roll)) x)
                 = alive (unit st x)))
  \/ ((forall c r,
         getTile (grid (fst (executeAttack st a t ty roll))) c r
         = getTile (clearOccupant (grid st) (col (tile (unit st t)))
                                  (row (tile (unit st t)))) c r)
      /\ alive (unit (fst (executeAttack st a t ty roll)) t) = false
      /\ (forall x, x <> t ->
            alive (unit (fst (executeAttack st a t ty roll)) x)
            = alive (unit st x))).
Proof.
  assert (Hg : grid (fst (executeAttack st a t ty roll))
               = grid (afterRoll st a t ty
                         (PrimFloat.leb roll (fst (calculateHitChance st a t ty))))).
  { pose proof (executeAttack_eq st a t ty roll) as E. cbv zeta in E.
    rewrite E. reflexivity. }
  assert (Ha : forall x, alive (unit (fst (executeAttack st a t ty roll)) x)
               = alive (unit (afterRoll st a t ty
                         (PrimFloat.leb roll (fst (calculateHitChance st a t ty)))) x)).
  { intros x. rewrite unit_executeAttack. cbv zeta.
    destruct (Nat.eqb x a); reflexivity. }
  rewrite Hg, grid_afterRoll.
  destruct (PrimFloat.leb roll (fst (calculateHitChance st a t ty))) eqn:Eh;
    cbn [andb].
  - destruct (hp (unit st t) - attackDamage ty <=? 0) eqn:Ek.
    + right. split; [reflexivity|]. split.
      * rewrite Ha, unit_afterRoll. cbv zeta. rewrite Nat.eqb_refl. cbn [andb].
        unfold struck.
        assert (Hhp : forall f, hp (if Nat.eqb t a then withFacing f (unit st t)
                                    else unit st t) = hp (unit st t))
          by (intros f; destruct (Nat.eqb t a); reflexivity).
        rewrite Hhp, Ek. reflexivity.
      * intros x Hx. rewrite Ha, unit_afterRoll. cbv zeta.
        apply Nat.eqb_neq in Hx. rewrite Hx, andb_false_r.
        destruct (Nat.eqb x a); reflexivity.
    + left. split; [reflexivity|].
      intros x. rewrite Ha, unit_afterRoll. cbv zeta.
      destruct (Nat.eqb x t) eqn:Ext; cbn [andb].
      * apply Nat.eqb_eq in Ext. subst x. unfold struck.
        assert (Hhp : forall f, hp (if Nat.eqb t a then withFacing f (unit st t)
                                    else unit st t) = hp (unit st t))
          by (intros f; destruct (Nat.eqb t a); reflexivity).
        rewrite Hhp, Ek. destruct (Nat.eqb t a); reflexivity.
      * destruct (Nat.eqb x a); reflexivity.
  - left. split; [reflexivity|].
    intros x. rewrite Ha, unit_afterRoll. cbv zeta. cbn [andb].
    destruct (Nat.eqb x a); reflexivity.
Qed.

Lemma tile_executeAttack st a t ty roll x :
  tile (unit (fst (executeAttack st a t ty roll)) x) = tile (unit st x).
Proof.
  rewrite unit_executeAttack. cbv zeta.
  destruct (Nat.eqb x a); cbn [tile withAp]; apply afterRoll_tile.
Qed.

Lemma units_executeAttack st a t ty roll :
  units (fst (executeAttack st a t ty roll)) = units st.
Proof.
  pose proof (executeAttack_eq st a t ty roll) as E. cbv zeta in E.
  rewrite E. cbn [fst units modify withUnit]. apply units_afterRoll.
Qed.

Lemma occupancy_attack st a t ty roll :
  occupancy st -> In t (units st) -> alive (unit st t) = true ->
  occupancy (fst (executeAttack st a t ty roll)).
Proof.
  intros Ho Hin Hal.
  apply (occupancy_kill st _ t Ho Hin Hal).
  - apply units_executeAttack.
  - intros x. apply tile_executeAttack.
  - apply attack_grid_alive.
Qed.

(** A change of fields other than tile and aliveness, the grid being
    read the same, keeps the agreement. *)
Lemma occupancy_same st st' :
  units st' = units st ->
  (forall c r, getTile (grid st') c r = getTile (grid st) c r) ->
  (forall x, tile (unit st' x) = tile (unit st x)) ->
  (forall x, alive (unit st' x) = alive (unit st x)) ->
  occupancy st -> occupancy st'.
Proof.
  intros Hu Hg Ht Ha [O1 O2]. split.
  - intros u Hin Hal. rewrite Hu in Hin. rewrite Ha in Hal.
    rewrite Ht, Hg. auto.
  - intros c r t x Hget Hocc. rewrite Hg in Hget.
    rewrite Hu, Ha, Ht. eauto.
Qed.

Lemma occupancy_shot st w m roll :
  occupancy st -> In m (units st) -> alive (unit st m) = true ->
  occupancy (fst (executeOverwatchShot st w m roll)).
Proof.
  intros Ho Hin Hal.
  apply (occupancy_same (fst (executeAttack st w m Ranged roll))).
  - rewrite units_executeOverwatchShot, units_executeAttack. reflexivity.
  - intros c r. unfold executeOverwatchShot.
    destruct (executeAttack st w m Ranged roll) as [st1 res]. reflexivity.
  - intros x. rewrite shot_tile, tile_executeAttack. reflexivity.
  - intros x. rewrite unit_executeOverwatchShot.
    destruct (Nat.eqb x w); reflexivity.
  - apply occupancy_attack; assumption.
Qed.

Lemma occupancy_overwatchShots rng u : forall triggers n st,
  occupancy st -> In u (units st) -> alive (unit st u) = true ->
  occupancy (fst (fst (overwatchShots rng n st u triggers))).
Proof.
  induction triggers as [|w more IH]; intros n st Ho Hin Hal;
    cbn [overwatchShots]; [exact Ho|].
  pose proof (occupancy_shot st w u (rng n) Ho Hin Hal) as Ho1.
  pose proof (units_executeOverwatchShot st w u (rng n)) as Hu.
  destruct (executeOverwatchShot st w u (rng n)) as [st1 res].
  cbn [fst] in Ho1, Hu.
  destruct (negb (alive (unit st1 u))) eqn:E; [exact Ho1|].
  apply negb_false_iff in E.
  apply IH; [exact Ho1 | rewrite Hu; exact Hin | exact E].
Qed.

Lemma overwatchShots_units rng u : forall triggers n st,
  units (fst (fst (overwatchShots rng n st u triggers))) = units st.
Proof.
  induction triggers as [|w more IH]; intros n st; cbn [overwatchShots];
    [reflexivity|].
  pose proof (units_executeOverwatchShot st w u (rng n)) as Hu.
  destruct (executeOverwatchShot st w u (rng n)) as [st1 res]. cbn [fst] in Hu.
  destruct (negb (alive (unit st1 u))); [exact Hu|].
  rewrite IH. exact Hu.
Qed.

Lemma overwatchShots_died rng u : forall triggers n st,
  snd (overwatchShots rng n st u triggers) = false ->
  alive (unit st u) = true ->
  alive (unit (fst (fst (overwatchShots rng n st u triggers))) u) = true.
Proof.
  induction triggers as [|w more IH]; intros n st; cbn [overwatchShots];
    [auto|].
  destruct (executeOverwatchShot st w u (rng n)) as [st1 res].
  destruct (negb (alive (unit st1 u))) eqn:E; [discriminate|].
  apply negb_false_iff in E. intros Hd _. apply IH; assumption.
Qed.

Lemma occupancy_overwatchAlongPath rng u : forall path n st from trig,
  occupancy st -> In u (units st) -> alive (unit st u) = true ->
  occupancy (fst (fst (overwatchAlongPath rng n st u from path trig)))
  /\ units (fst (fst (overwatchAlongPath rng n st u from path trig))) = units st.
Proof.
  induction path as [|toTile more IH]; intros n st from trig Ho Hin Hal;
    cbn [overwatchAlongPath]; [auto|].
  pose proof (occupancy_overwatchShots rng u (checkOverwatch st u from toTile)
                n st Ho Hin Hal) as Ho1.
  pose proof (overwatchShots_units rng u (checkOverwatch st u from toTile) n st)
    as Hu.
  pose proof (overwatchShots_died rng u (checkOverwatch st u from toTile) n st)
    as Hd.
  destruct (overwatchShots rng n st u (checkOverwatch st u from toTile))
    as [[st1 n1] died].
  cbn [fst snd] in Ho1, Hu, Hd.
  destruct died; [auto|].
  destruct (IH n1 st1 toTile
               (trig || negb (Nat.eqb (length (checkOverwatch st u from toTile)) 0))
               Ho1) as [I1 I2].
  - rewrite Hu. exact Hin.
  - apply Hd; auto.
  - split; [exact I1 | congruence].
Qed.

Lemma occupancy_moveUnit st u p path :
  occupancy st -> In u (units st) -> alive (unit st u) = true ->
  last (p :: path) (tile (unit st u)) <> tile (unit st u) ->
  (exists t0, getTile (grid st) (col (last (p :: path) (tile (unit st u))))
                      (row (last (p :: path) (tile (unit st u)))) = Some t0
              /\ occupant t0 = None) ->
  occupancy (moveUnit st u (p :: path)).
Proof.
  intros [O1 O2] Hin Hal Hne [t0 [Ht0 Hfree]].
  set (dest := last (p :: path) (tile (unit st u))) in *.
  set (old := tile (unit st u)) in *.
  assert (Hal' : forall x, alive (unit (moveUnit st u (p :: path)) x)
                           = alive (unit st x)).
  { intros x. destruct (moveUnit_health st u (p :: path) x) as [_ [_ [H _]]].
    exact H. }
  assert (Ht' : forall x, tile (unit (moveUnit st u (p :: path)) x)
                          = if Nat.eqb x u then dest else tile (unit st x)).
  { intros x. rewrite moveUnit_tile. destruct (Nat.eqb x u) eqn:E; [|reflexivity].
    apply Nat.eqb_eq in E. subst x. reflexivity. }
  assert (Hg' : forall c r,
            getTile (grid (moveUnit st u (p :: path))) c r
            = match getTile (grid st) c r with
              | Some t =>
                  Some (if (c =? col dest) && (r =? row dest)
                        then withOccupant (Some u)
                               (if (c =? col old) && (r =? row old)
                                then withOccupant None t else t)
                        else if (c =? col old) && (r =? row old)
                             then withOccupant None t else t)
              | None => None
              end).
  { intros c r. rewrite grid_moveUnit, getTile_setOccupant, getTile_clearOccupant.
    destruct (getTile (grid st) c r); reflexivity. }
  destruct (O1 u Hin Hal) as [tu [Htu Hou]]. fold old in Htu.
  assert (Hdo : (col dest =? col old) && (row dest =? row old) = false).
  { destruct ((col dest =? col old) && (row dest =? row old)) eqn:E; [|reflexivity].
    exfalso. apply Hne. apply pos_eqb_eq. exact E. }
  split.
  - intros x Hx Hax. rewrite moveUnit_units in Hx. rewrite Hal' in Hax.
    rewrite Ht'. destruct (Nat.eqb x u) eqn:Exu.
    + apply Nat.eqb_eq in Exu. subst x.
      rewrite Hg', Ht0, !Z.eqb_refl. cbn [andb]. eexists. split; reflexivity.
    + apply Nat.eqb_neq in Exu.
      destruct (O1 x Hx Hax) as [tx [Htx Hox]].
      rewrite Hg', Htx.
      assert (E1 : (col (tile (unit st x)) =? col dest)
                   && (row (tile (unit st x)) =? row dest) = false).
      { destruct ((col (tile (unit st x)) =? col dest)
                  && (row (tile (unit st x)) =? row dest)) eqn:E; [|reflexivity].
        assert (Heq : tile (unit st x) = dest) by (apply pos_eqb_eq; exact E).
        rewrite Heq in Htx. congruence. }
      assert (E2 : (col (tile (unit st x)) =? col old)
                   && (row (tile (unit st x)) =? row old) = false).
      { destruct ((col (tile (unit st x)) =? col old)
                  && (row (tile (unit st x)) =? row old)) eqn:E; [|reflexivity].
        assert (Heq : tile (unit st x) = old) by (apply pos_eqb_eq; exact E).
        rewrite Heq in Htx. exfalso. apply Exu. congruence. }
      rewrite E1, E2. eauto.
  - intros c r t x Hget Hocc. rewrite Hg' in Hget.
    destruct (getTile (grid st) c r) as [t1|] eqn:E1; [|discriminate].
    injection Hget as <-. rewrite moveUnit_units, Hal', Ht'.
    destruct ((c =? col dest) && (r =? row dest)) eqn:Ed.
    + cbn in Hocc. injection Hocc as <-. rewrite Nat.eqb_refl.
      split; [exact Hin|]. split; [exact Hal|].
      apply andb_true_iff in Ed. destruct Ed as [Ec Er].
      apply Z.eqb_eq in Ec, Er. subst. destruct dest; reflexivity.
    + destruct ((c =? col old) && (r =? row old)) eqn:Eo; [discriminate|].
      destruct (O2 c r t1 x E1 Hocc) as [H1 [H2 H3]].
      destruct (Nat.eqb x u) eqn:Exu.
      * apply Nat.eqb_eq in Exu. subst x. exfalso.
        fold old in H3. rewrite H3 in Eo. cbn [col row] in Eo.
        rewrite !Z.eqb_refl in Eo. discriminate.
      * auto.
Qed.

(** ** The AI's activation *)

Lemma pickBestTarget_loop_In st u : forall targets best score t,
  pickBestTarget_loop st u targets best score = Some t ->
  In t targets \/ best = Some t.
Proof.
  induction targets as [|x more IH]; intros best score t;
    cbn [pickBestTarget_loop].
  - intros ->. now right.
  - cbv zeta. destruct (beats (targetScore st u x) score); intros H.
    + destruct (IH _ _ _ H) as [Hin | Hb]; [left; now right|].
      injection Hb as <-. left. now left.
    + destruct (IH _ _ _ H) as [Hin | Hb]; [left; now right | now right].
Qed.

Lemma pickBestTarget_loop_some st u : forall targets b score,
  exists t, pickBestTarget_loop st u targets (Some b) score = Some t.
Proof.
  induction targets as [|x more IH]; intros b score; cbn [pickBestTarget_loop].
  - eauto.
  - cbv zeta. destruct (beats (targetScore st u x) score); apply IH.
Qed.

Lemma pickBestTarget_In st u targets :
  targets <> [] ->
  exists t, pickBestTarget st u targets = Some t /\ In t targets.
Proof.
  intros Hne. destruct targets as [|x [|y more]]; [contradiction | |].
  - exists x. split; [reflexivity | now left].
  - unfold pickBestTarget. cbn [hd_error].
    destruct (pickBestTarget_loop_some st u (x :: y :: more) x
                PrimFloat.neg_infinity) as [t Ht].
    exists t. split; [exact Ht|].
    destruct (pickBestTarget_loop_In st u _ _ _ _ Ht) as [H | H]; [exact H|].
    injection H as <-. now left.
Qed.

Lemma findBestMoveTile_loop_In st u pt enemies : forall cands best score t,
  findBestMoveTile_loop st u pt enemies cands best score = Some t ->
  In t cands \/ best = Some t.
Proof.
  induction cands as [|x more IH]; intros best score t;
    cbn [findBestMoveTile_loop].
  - intros ->. now right.
  - cbv zeta. destruct (beats (moveTileScore st u pt enemies x) score); intros H.
    + destruct (IH _ _ _ H) as [Hin | Hb]; [left; now right|].
      injection Hb as <-. left. now left.
    + destruct (IH _ _ _ H) as [Hin | Hb]; [left; now right | now right].
Qed.

Lemma findBestMoveTile_In st u pt cands enemies t :
  findBestMoveTile st u pt cands enemies = Some t -> In t cands.
Proof.
  unfold findBestMoveTile. intros H.
  destruct (findBestMoveTile_loop_In st u pt enemies _ _ _ _ H) as [Hin | Hb];
    [exact Hin | discriminate].
Qed.

Lemma validTargets_enemy st u t :
  In t (getValidRangedTargets st u) \/ In t (getValidMeleeTargets st u) ->
  In t (units st) /\ faction (unit st t) = enemyFactionOf st u
  /\ alive (unit st t) = true.
Proof.
  unfold getValidRangedTargets, getValidMeleeTargets, enemyFactionOf. cbv zeta.
  intros [H | H]; apply filter_In in H; destruct H as [H _];
    apply getAliveUnits_In in H; exact H.
Qed.

Lemma aiStep_refl u st : aiStep u st st.
Proof.
  unfold aiStep. do 6 (split; [auto|]). split; [lia|].
  split; [reflexivity|]. split; [reflexivity | auto].
Qed.

Lemma aiStep_trans u st1 st2 st3 :
  aiStep u st1 st2 -> aiStep u st2 st3 -> aiStep u st1 st3.
Proof.
  unfold aiStep.
  intros [A1 [A2 [A3 [A4 [A5 [A6 [A7 [A9 [A10 A8]]]]]]]]]
         [B1 [B2 [B3 [B4 [B5 [B6 [B7 [B9 [B10 B8]]]]]]]]].
  split; [congruence|]. split; [congruence|]. split; [congruence|].
  split; [intros x; rewrite B4; apply A4|].
  split; [auto|]. split; [auto|]. split; [lia|].
  split; [congruence|]. split; [congruence|].
  intros Hsides Hin Hal. destruct (A8 Hsides Hin Hal) as [Hal2 Ho2].
  destruct B8 as [Hal3 Ho3]; [congruence | congruence | exact Hal2|].
  split; [exact Hal3 | auto].
Qed.

Lemma enemy_not_self st u t :
  playerFaction st <> aiFaction st ->
  faction (unit st t) = enemyFactionOf st u -> t <> u.
Proof.
  unfold enemyFactionOf. intros Hsides Hf ->.
  destruct (faction_eqb (faction (unit st u)) (playerFaction st)) eqn:E.
  - apply faction_eqb_eq in E. congruence.
  - rewrite Hf in E. destruct (playerFaction st); discriminate.
Qed.

Lemma aiStep_attack u st t ty roll :
  In t (getValidRangedTargets st u) \/ In t (getValidMeleeTargets st u) ->
  aiStep u st (executeAIAttack st u t ty roll).
Proof.
  intros Hvalid. apply validTargets_enemy in Hvalid.
  destruct Hvalid as [Htin [Htf Htal]].
  unfold aiStep, executeAIAttack.
  pose proof (executeAttack_eq st u t ty roll) as E. cbv zeta in E.
  destruct (afterRoll_sides st u t ty
              (PrimFloat.leb roll (fst (calculateHitChance st u t ty)))) as [Hp Ha].
  split; [apply units_executeAttack|].
  split; [rewrite E; exact Hp|].
  split; [rewrite E; exact Ha|].
  split.
  { intros x. rewrite E. cbn [fst]. rewrite unit_modify.
    destruct (Nat.eqb x u); cbn [faction withAp]; apply afterRoll_faction. }
  split; [apply healthy_executeAttack|].
  split.
  { intros H x. rewrite executeAttack_ap. specialize (H x).
    destruct (Nat.eqb x u); lia. }
  split; [rewrite executeAttack_ap, Nat.eqb_refl; lia|].
  split; [rewrite E; cbn [fst activeUnit modify withUnit];
          unfold afterRoll, applyDamage, setUnitDead; cbv zeta;
          repeat match goal with
                 | |- context [if ?c then _ else _] => destruct c
                 end; reflexivity|].
  split; [rewrite E; cbn [fst activationQueue modify withUnit];
          unfold afterRoll, applyDamage, setUnitDead; cbv zeta;
          repeat match goal with
                 | |- context [if ?c then _ else _] => destruct c
                 end; reflexivity|].
  intros Hsides Hin Hal. split.
  - rewrite alive_executeAttack; [exact Hal|].
    intros Heq. apply (enemy_not_self st u t Hsides Htf). congruence.
  - intros Ho. apply occupancy_attack; assumption.
Qed.

Lemma aiStep_setOverwatch u st :
  alive (unit st u) = true -> aiStep u st (setOverwatch st u).
Proof.
  intros Hal. unfold aiStep.
  split; [reflexivity|]. split; [reflexivity|]. split; [reflexivity|].
  split.
  { intros x. unfold setOverwatch, setUnitStatus. cbv zeta. rewrite !unit_modify.
    destruct (Nat.eqb x u); reflexivity. }
  split.
  { intros H r. unfold setOverwatch, setUnitStatus. cbv zeta. rewrite !unit_modify.
    destruct (Nat.eqb r u) eqn:E; [|apply H].
    apply Nat.eqb_eq in E. subst r.
    apply (healthy_fields (unit st u)); auto.
    right. split; [exact Hal | discriminate]. }
  split.
  { intros H x. rewrite setOverwatch_ap. specialize (H x).
    destruct (Nat.eqb x u); lia. }
  split; [rewrite setOverwatch_ap, Nat.eqb_refl; lia|].
  split; [reflexivity|]. split; [reflexivity|].
  intros _ _ _. split.
  - unfold setOverwatch, setUnitStatus. cbv zeta. rewrite !unit_modify_same.
    exact Hal.
  - apply occupancy_same; try reflexivity;
      intros x; unfold setOverwatch, setUnitStatus; cbv zeta;
      rewrite !unit_modify; destruct (Nat.eqb x u); reflexivity.
Qed.

Lemma aiStep_move u st fuel t st' :
  executeAIMove fuel st u t = Some st' -> aiStep u st st'.
Proof.
  assert (Hinj : forall a b : Game, Some a = Some b -> a = b)
    by (intros a b H; congruence).
  unfold executeAIMove.
  destruct (findPath fuel (grid st) (tile (unit st u)) t)
    as [[[|p path]|]|] eqn:Epath;
    try discriminate; cbv zeta; intros H; apply Hinj in H; subst st';
    try apply aiStep_refl.
  set (st1 := modify u (withAp (Z.max 0 (ap (unit st u) - 1))) st).
  destruct (moveUnit_sides st1 u (p :: path)) as [Hp Ha].
  unfold aiStep.
  split; [rewrite moveUnit_units; reflexivity|].
  split; [exact Hp|]. split; [exact Ha|].
  split.
  { intros x. rewrite moveUnit_faction. unfold st1. rewrite unit_modify.
    destruct (Nat.eqb x u); reflexivity. }
  split.
  { intros H. apply healthy_moveUnit. intros x. unfold st1.
    rewrite unit_modify. destruct (Nat.eqb x u); [|apply H].
    apply (healthy_fields (unit st x)); auto. }
  split.
  { intros H x. rewrite moveUnit_ap. unfold st1. rewrite unit_modify.
    specialize (H x). destruct (Nat.eqb x u); cbn [ap withAp]; lia. }
  split.
  { rewrite moveUnit_ap. unfold st1. rewrite unit_modify_same.
    cbn [ap withAp]. lia. }
  destruct (moveUnit_control st1 u (p :: path)) as [Hc1 Hc2].
  split; [exact Hc1|]. split; [exact Hc2|].
  intros _ Hin Hal.
  assert (Hal1 : alive (unit st1 u) = true)
    by (unfold st1; rewrite unit_modify_same; exact Hal).
  assert (Ht1 : tile (unit st1 u) = tile (unit st u))
    by (unfold st1; rewrite unit_modify_same; reflexivity).
  split.
  - destruct (moveUnit_health st1 u (p :: path) u) as [_ [_ [H _]]].
    rewrite H. exact Hal1.
  - intros Ho.
    assert (Ho1 : occupancy st1).
    { apply (occupancy_same st); try reflexivity; [| |exact Ho];
        intros x; unfold st1; rewrite unit_modify;
        destruct (Nat.eqb x u); reflexivity. }
    destruct (findPath_sound _ _ _ _ _ Epath) as [Hlegal Hlast].
    destruct (legalPath_last_free (grid st) path (tile (unit st u)) p Hlegal)
      as [t0 [Ht0 Hfree]].
    apply occupancy_moveUnit; auto.
    + rewrite Ht1. intros Heq. rewrite Heq in Ht0.
      destruct Ho as [O1 _]. destruct (O1 u Hin Hal) as [tu [Htu Hou]].
      congruence.
    + rewrite Ht1. exists t0. auto.
Qed.

Lemma enemyFactionOf_step u st st' :
  aiStep u st st' -> enemyFactionOf st' u = enemyFactionOf st u.
Proof.
  intros [_ [Hp [Ha [Hf _]]]]. unfold enemyFactionOf. rewrite Hf, Hp, Ha.
  reflexivity.
Qed.

Lemma attacksEnemies_step u st st' log :
  aiStep u st st' -> attacksEnemies st' u log -> attacksEnemies st u log.
Proof.
  intros Hs H t ty Hin. destruct (H t ty Hin) as [H1 [H2 H3]].
  rewrite (enemyFactionOf_step u st st' Hs) in H2.
  destruct Hs as [Hu [_ [_ [Hf _]]]].
  rewrite Hu in H1. rewrite Hf in H2. auto.
Qed.

Lemma attacksEnemies_app st u l1 l2 :
  attacksEnemies st u l1 -> attacksEnemies st u l2 ->
  attacksEnemies st u (l1 ++ l2).
Proof.
  intros H1 H2 t ty Hin. apply in_app_iff in Hin. destruct Hin; auto.
Qed.

Lemma attackBest_ok st u targets ty roll :
  targets <> [] ->
  (forall t, In t targets ->
     In t (getValidRangedTargets st u) \/ In t (getValidMeleeTargets st u)) ->
  ty = Melee \/ ty = Ranged ->
  exists t,
    In t targets
    /\ attackBest st u targets ty roll
       = Some (executeAIAttack st u t ty roll, [AIAttack t ty])
    /\ attacksEnemies st u [AIAttack t ty]
    /\ aiStep u st (executeAIAttack st u t ty roll).
Proof.
  intros Hne Hvalid Hty.
  destruct (pickBestTarget_In st u targets Hne) as [t [Hpick Hin]].
  exists t. split; [exact Hin|]. unfold attackBest. rewrite Hpick.
  split; [reflexivity|]. split.
  - intros t' ty' [H | []]. injection H as <- <-.
    destruct (validTargets_enemy st u t (Hvalid t Hin)) as [H1 [H2 _]]. auto.
  - apply aiStep_attack. auto.
Qed.

Lemma length_pos_nonempty (A : Type) (l : list A) :
  Nat.ltb 0 (length l) = true <-> l <> [].
Proof.
  destruct l; simpl; split; try congruence; try discriminate; auto.
Qed.

Lemma continueActivation_ok st u roll :
  exists st' log,
    _continueActivation st u roll = Some (st', log)
    /\ aiStep u st st' /\ attacksEnemies st u log /\ (length log <= 1)%nat.
Proof.
  unfold _continueActivation.
  destruct (negb (alive (unit st u)) || (ap (unit st u) <=? 0)) eqn:Eg.
  { exists st, []. split; [reflexivity|]. split; [apply aiStep_refl|].
    split; [intros t ty [] | simpl; lia]. }
  apply orb_false_iff in Eg. destruct Eg as [Hal _].
  apply negb_false_iff in Hal. cbv zeta.
  destruct (Nat.ltb 0 (length (getValidMeleeTargets st u))) eqn:Em.
  { apply length_pos_nonempty in Em.
    destruct (attackBest_ok st u (getValidMeleeTargets st u) Melee roll Em)
      as [t [Hin [E [Hatt Hstep]]]]; [auto | auto|].
    rewrite E. eexists. eexists. split; [reflexivity|].
    split; [exact Hstep|]. split; [exact Hatt | simpl; lia]. }
  destruct (Nat.ltb 0 (length (getValidRangedTargets st u))) eqn:Er.
  { apply length_pos_nonempty in Er.
    destruct (attackBest_ok st u (getValidRangedTargets st u) Ranged roll Er)
      as [t [Hin [E [Hatt Hstep]]]]; [auto | auto|].
    rewrite E. eexists. eexists. split; [reflexivity|].
    split; [exact Hstep|]. split; [exact Hatt | simpl; lia]. }
  destruct (ap (unit st u) >? 0).
  - eexists. eexists. split; [reflexivity|].
    split; [apply aiStep_setOverwatch; exact Hal|].
    split; [|simpl; lia]. intros t ty [H | []]. discriminate.
  - exists st, []. split; [reflexivity|]. split; [apply aiStep_refl|].
    split; [intros t ty [] | simpl; lia].
Qed.

Lemma attackThenContinue_ok st u targets ty rng :
  targets <> [] ->
  (forall t, In t targets ->
     In t (getValidRangedTargets st u) \/ In t (getValidMeleeTargets st u)) ->
  ty = Melee \/ ty = Ranged ->
  exists st' t more,
    attackThenContinue st u targets ty rng = Some (st', AIAttack t ty :: more)
    /\ In t targets
    /\ aiStep u st st'
    /\ attacksEnemies st u (AIAttack t ty :: more)
    /\ (length more <= 1)%nat.
Proof.
  intros Hne Hvalid Hty. unfold attackThenContinue.
  destruct (attackBest_ok st u targets ty (rng 0%nat) Hne Hvalid Hty)
    as [t [Hin [E [Hatt Hs1]]]].
  rewrite E.
  set (st1 := executeAIAttack st u t ty (rng 0%nat)) in *.
  destruct ((ap (unit st1 u) >? 0) && alive (unit st1 u)).
  - destruct (continueActivation_ok st1 u (rng 1%nat))
      as [st2 [log2 [E2 [Hs2 [Hatt2 Hlen]]]]].
    rewrite E2. exists st2, t, log2. split; [reflexivity|].
    split; [exact Hin|]. split; [eapply aiStep_trans; eauto|].
    split; [|exact Hlen].
    apply (attacksEnemies_app st u [AIAttack t ty] log2 Hatt).
    eapply attacksEnemies_step; eauto.
  - exists st1, t, []. split; [reflexivity|].
    split; [exact Hin|]. split; [exact Hs1|]. split; [exact Hatt | simpl; lia].
Qed.

Lemma moveTowardEnemy_ok fuel st u :
  (gridBudget (grid st) <= fuel)%nat ->
  exists st' moved,
    _moveTowardEnemy fuel st u = Some (st', moved)
    /\ aiStep u st st'
    /\ (moved = false -> st' = st)
    /\ (moved = true ->
        exists n p path,
          In n (getMovementRange (grid st) (col (tile (unit st u)))
                                 (row (tile (unit st u))) CONSTANTS.movement)
          /\ last (p :: path) (tile (unit st u)) = ntile n
          /\ st' = moveUnit (modify u (withAp (Z.max 0 (ap (unit st u) - 1))) st)
                            u (p :: path)).
Proof.
  intros Hfuel. unfold _moveTowardEnemy. cbv zeta.
  assert (Hstay : exists st' moved,
            Some (st, false) = Some (st', moved)
            /\ aiStep u st st'
            /\ (moved = false -> st' = st)
            /\ (moved = true ->
                exists n p path,
                  In n (getMovementRange (grid st) (col (tile (unit st u)))
                          (row (tile (unit st u))) CONSTANTS.movement)
                  /\ last (p :: path) (tile (unit st u)) = ntile n
                  /\ st' = moveUnit
                             (modify u (withAp (Z.max 0 (ap (unit st u) - 1))) st)
                             u (p :: path))).
  { exists st, false. split; [reflexivity|]. split; [apply aiStep_refl|].
    split; [reflexivity | discriminate]. }
  destruct (Nat.eqb (length (getAliveUnits st (playerFaction st))) 0);
    [exact Hstay|].
  destruct (nearestEnemy_loop st u _ None None) as [nearest|]; [|exact Hstay].
  destruct (Nat.eqb (length (getMovementRange _ _ _ _)) 0); [exact Hstay|].
  destruct (findBestMoveTile st u nearest _ _) as [bestTile|] eqn:Eb;
    [|exact Hstay].
  destruct ((col (ntile bestTile) =? col (tile (unit st u)))
            && (row (ntile bestTile) =? row (tile (unit st u)))); [exact Hstay|].
  apply findBestMoveTile_In in Eb.
  assert (Hold : mkPos (col (tile (unit st u))) (row (tile (unit st u)))
                 = tile (unit st u)) by (destruct (tile (unit st u)); reflexivity).
  destruct (range_node_path (grid st) _ _ CONSTANTS.movement bestTile fuel Eb Hfuel)
    as [p [path [Hpath [_ Hlast]]]].
  rewrite Hold in Hpath, Hlast.
  assert (Hmove : executeAIMove fuel st u (ntile bestTile)
                  = Some (moveUnit
                            (modify u (withAp (Z.max 0 (ap (unit st u) - 1))) st)
                            u (p :: path))).
  { unfold executeAIMove. rewrite Hpath. reflexivity. }
  rewrite Hmove. eexists. exists true. split; [reflexivity|].
  split; [eapply aiStep_move; exact Hmove|].
  split; [discriminate|].
  intros _. exists bestTile, p, path. auto.
Qed.

(** X20. The move of an AI activation, [_moveTowardEnemy], given the
    budget of the grid for its path search, either leaves the state as
    it is (returning false) or moves the unit onto a tile of its
    movement range (returning true): the unit then stands on that tile,
    has paid one action point (never below 0), has left no occupant on
    its old tile and is the occupant of the new one; every other unit is
    untouched, and no unit's hit points, aliveness or status change (no
    overwatch fire is drawn by this move). *)
Theorem ai_move_is_legal (fuel : nat) (st : Game) (u : UnitRef) :
  (gridBudget (grid st) <= fuel)%nat ->
  exists st' moved,
    _moveTowardEnemy fuel st u = Some (st', moved)
    /\ (moved = false -> st' = st)
    /\ (moved = true ->
        (exists n,
           In n (getMovementRange (grid st) (col (tile (unit st u)))
                                  (row (tile (unit st u))) CONSTANTS.movement)
           /\ tile (unit st' u) = ntile n
           /\ exists t, getTile (grid st') (col (ntile n)) (row (ntile n)) = Some t
                        /\ occupant t = Some u)
        /\ ap (unit st' u) = Z.max 0 (ap (unit st u) - 1)
        /\ (forall x, x <> u -> unit st' x = unit st x)
        /\ (forall x, hp (unit st' x) = hp (unit st x)
                      /\ alive (unit st' x) = alive (unit st x)
                      /\ status (unit st' x) = status (unit st x))
        /\ (forall t, getTile (grid st') (col (tile (unit st u)))
                              (row (tile (unit st u))) = Some t ->
                      occupant t = None)).
Proof.
  intros Hfuel.
  destruct (moveTowardEnemy_ok fuel st u Hfuel)
    as [st' [moved [E [_ [Hstay Hmoved]]]]].
  exists st', moved. split; [exact E|]. split; [exact Hstay|].
  intros Hm. destruct (Hmoved Hm) as [n [p [path [Hin [Hlast ->]]]]].
  set (st1 := modify u (withAp (Z.max 0 (ap (unit st u) - 1))) st).
  assert (Hold1 : tile (unit st1 u) = tile (unit st u)).
  { unfold st1. rewrite unit_modify_same. reflexivity. }
  destruct (range_node_walk (grid st) _ _ CONSTANTS.movement n Hin)
    as [_ [Hwalk Hne]].
  assert (Hold : mkPos (col (tile (unit st u))) (row (tile (unit st u)))
                 = tile (unit st u)) by (destruct (tile (unit st u)); reflexivity).
  rewrite Hold in Hwalk, Hne.
  assert (Hinb : exists t0, getTile (grid st) (col (ntile n)) (row (ntile n))
                            = Some t0).
  { destruct (Z.to_nat (cost n)) as [|k] eqn:Ek.
    - inversion Hwalk; subst. exfalso. apply Hne. congruence.
    - destruct (walk_last_free (grid st) _ k (ntile n) Hwalk) as [Hb _].
      rewrite getTile_inBounds, Hb. eauto. }
  assert (Hnew : (col (tile (unit st u)) =? col (ntile n))
                 && (row (tile (unit st u)) =? row (ntile n)) = false).
  { destruct ((col (tile (unit st u)) =? col (ntile n))
              && (row (tile (unit st u)) =? row (ntile n))) eqn:E'; [|reflexivity].
    exfalso. apply Hne. symmetry. apply pos_eqb_eq. exact E'. }
  assert (Hg : grid (moveUnit st1 u (p :: path))
               = setOccupant
                   (clearOccupant (grid st) (col (tile (unit st u)))
                                  (row (tile (unit st u))))
                   (col (ntile n)) (row (ntile n)) u).
  { rewrite grid_moveUnit, Hold1, Hlast. reflexivity. }
  split.
  { exists n. split; [exact Hin|]. split.
    - rewrite moveUnit_tile, Nat.eqb_refl, Hold1. exact Hlast.
    - destruct Hinb as [t0 Ht0]. rewrite Hg.
      rewrite getTile_setOccupant, getTile_clearOccupant, Ht0, !Z.eqb_refl.
      cbn [andb]. eexists. split; reflexivity. }
  split.
  { rewrite moveUnit_ap. unfold st1. rewrite unit_modify_same. reflexivity. }
  split.
  { intros x Hx. rewrite moveUnit_other by exact Hx.
    unfold st1. apply unit_modify_other. exact Hx. }
  split.
  { intros x. destruct (moveUnit_health st1 u (p :: path) x) as [H1 [_ [H3 H4]]].
    rewrite H1, H3, H4. unfold st1. rewrite unit_modify.
    destruct (Nat.eqb x u); repeat split. }
  intros t. rewrite Hg, getTile_setOccupant, getTile_clearOccupant.
  destruct (getTile (grid st) (col (tile (unit st u))) (row (tile (unit st u))))
    as [t1|]; [|discriminate].
  rewrite Hnew, !Z.eqb_refl. cbn [andb]. intros H. injection H as <-. reflexivity.
Qed.

Lemma ai_move_is_legal_witness :
  (gridBudget (grid duel) <= 31)%nat
  /\ exists st' moved,
       _moveTowardEnemy 31 duel 1%nat = Some (st', moved)
       /\ (moved = false -> st' = duel).
Proof.
  assert (Hfuel : (gridBudget (grid duel) <= 31)%nat) by (vm_compute; lia).
  split; [exact Hfuel|].
  destruct (ai_move_is_legal 31 duel 1%nat Hfuel) as [st' [moved [E [H _]]]].
  exists st', moved. split; assumption.
Defined.

Lemma activateUnit_ok fuel rng st u :
  (gridBudget (grid st) <= fuel)%nat ->
  exists st' log,
    activateUnit fuel rng st u = Some (st', log)
    /\ aiStep u st st'
    /\ attacksEnemies st u log
    /\ (length log <= 2)%nat
    /\ (ap (unit st u) <= 0 -> st' = st /\ log = [])
    /\ (0 < ap (unit st u) -> getValidMeleeTargets st u <> [] ->
        exists t more, log = AIAttack t Melee :: more
                       /\ In t (getValidMeleeTargets st u))
    /\ (0 < ap (unit st u) -> getValidMeleeTargets st u = [] ->
        getValidRangedTargets st u <> [] ->
        exists t more, log = AIAttack t Ranged :: more
                       /\ In t (getValidRangedTargets st u)).
Proof.
  intros Hfuel. unfold activateUnit. cbv zeta.
  destruct (Z.gtb_spec (ap (unit st u)) 0) as [Hap | Hap].
  2: { rewrite !andb_false_r. exists st, [].
       split; [reflexivity|]. split; [apply aiStep_refl|].
       split; [intros t ty []|]. split; [simpl; lia|].
       split; [auto|]. split; intros; lia. }
  rewrite !andb_true_r.
  destruct (Nat.ltb 0 (length (getValidMeleeTargets st u))) eqn:Em.
  { apply length_pos_nonempty in Em.
    destruct (attackThenContinue_ok st u (getValidMeleeTargets st u) Melee rng Em)
      as [st' [t [more [E [Hin [Hs [Hatt Hlen]]]]]]]; [auto | auto|].
    rewrite E. exists st', (AIAttack t Melee :: more).
    split; [reflexivity|]. split; [exact Hs|]. split; [exact Hatt|].
    split; [simpl; lia|]. split; [intros; lia|].
    split; [intros _ _; eauto|]. intros _ Hnil. contradiction. }
  assert (Hm0 : getValidMeleeTargets st u = []).
  { destruct (getValidMeleeTargets st u); [reflexivity | discriminate]. }
  destruct (Nat.ltb 0 (length (getValidRangedTargets st u))) eqn:Er.
  { apply length_pos_nonempty in Er.
    destruct (attackThenContinue_ok st u (getValidRangedTargets st u) Ranged rng Er)
      as [st' [t [more [E [Hin [Hs [Hatt Hlen]]]]]]]; [auto | auto|].
    rewrite E. exists st', (AIAttack t Ranged :: more).
    split; [reflexivity|]. split; [exact Hs|]. split; [exact Hatt|].
    split; [simpl; lia|]. split; [intros; lia|].
    split; [intros _ Hne; contradiction|]. intros _ _ _. eauto. }
  assert (Hr0 : getValidRangedTargets st u = []).
  { destruct (getValidRangedTargets st u); [reflexivity | discriminate]. }
  assert (Htail : forall st' log,
            aiStep u st st' -> attacksEnemies st u log -> (length log <= 2)%nat ->
            exists st'' log',
              Some (st', log) = Some (st'', log')
              /\ aiStep u st st''
              /\ attacksEnemies st u log'
              /\ (length log' <= 2)%nat
              /\ (ap (unit st u) <= 0 -> st'' = st /\ log' = [])
              /\ (0 < ap (unit st u) -> getValidMeleeTargets st u <> [] ->
                  exists t more, log' = AIAttack t Melee :: more
                                 /\ In t (getValidMeleeTargets st u))
              /\ (0 < ap (unit st u) -> getValidMeleeTargets st u = [] ->
                  getValidRangedTargets st u <> [] ->
                  exists t more, log' = AIAttack t Ranged :: more
                                 /\ In t (getValidRangedTargets st u))).
  { intros st' log Hs Hatt Hlen. exists st', log.
    split; [reflexivity|]. split; [exact Hs|]. split; [exact Hatt|].
    split; [exact Hlen|]. split; [intros; lia|].
    split; [intros _ Hne; contradiction|]. intros _ _ Hne. contradiction. }
  destruct (moveTowardEnemy_ok fuel st u Hfuel)
    as [st1 [moved [E [Hs1 _]]]].
  rewrite E.
  set (log := if moved then [AIMove] else []).
  assert (Hlog : attacksEnemies st u log).
  { intros t ty Hin. unfold log in Hin. destruct moved.
    - destruct Hin as [H | []]. discriminate.
    - destruct Hin. }
  assert (Hlen : (length log <= 1)%nat)
    by (unfold log; destruct moved; simpl; lia).
  destruct (negb (alive (unit st1 u))) eqn:Eal; [apply Htail; auto; lia|].
  apply negb_false_iff in Eal.
  destruct (ap (unit st1 u) >? 0); [|apply Htail; auto; lia].
  destruct (Nat.ltb 0 (length (getValidRangedTargets st1 u))) eqn:Er1.
  { apply length_pos_nonempty in Er1.
    destruct (attackBest_ok st1 u (getValidRangedTargets st1 u) Ranged (rng 0%nat) Er1)
      as [t [Hin [Eb [Hatt Hstep]]]]; [auto | auto|].
    rewrite Eb. apply Htail.
    - eapply aiStep_trans; [exact Hs1 | exact Hstep].
    - apply attacksEnemies_app; [exact Hlog|].
      eapply attacksEnemies_step; eauto.
    - rewrite length_app. simpl. lia. }
  destruct (Nat.ltb 0 (length (getValidMeleeTargets st1 u))) eqn:Em1.
  { apply length_pos_nonempty in Em1.
    destruct (attackBest_ok st1 u (getValidMeleeTargets st1 u) Melee (rng 0%nat) Em1)
      as [t [Hin [Eb [Hatt Hstep]]]]; [auto | auto|].
    rewrite Eb. apply Htail.
    - eapply aiStep_trans; [exact Hs1 | exact Hstep].
    - apply attacksEnemies_app; [exact Hlog|].
      eapply attacksEnemies_step; eauto.
    - rewrite length_app. simpl. lia. }
  apply Htail.
  - eapply aiStep_trans; [exact Hs1 | apply aiStep_setOverwatch; exact Eal].
  - apply attacksEnemies_app; [exact Hlog|].
    intros t ty [H | []]. discriminate.
  - rewrite length_app. simpl. lia.
Qed.

(** What [attackBest] returns is the attack, by [executeAttack], on the
    target [pickBestTarget] chose. *)
Lemma attackBest_run st u targets ty roll st' log :
  targets <> [] ->
  attackBest st u targets ty roll = Some (st', log) ->
  exists t,
    pickBestTarget st u targets = Some t /\ In t targets
    /\ st' = fst (executeAttack st u t ty roll)
    /\ log = [AIAttack t ty].
Proof.
  intros Hne. destruct (pickBestTarget_In st u targets Hne) as [t [Hpick Hin]].
  unfold attackBest, executeAIAttack. rewrite Hpick.
  intros H. injection H as <- <-. exists t. auto.
Qed.

Lemma attackThenContinue_run st u targets ty rng st' log :
  targets <> [] ->
  attackThenContinue st u targets ty rng = Some (st', log) ->
  exists t more,
    log = AIAttack t ty :: more /\ In t targets
    /\ pickBestTarget st u targets = Some t
    /\ let st1 := fst (executeAttack st u t ty (rng 0%nat)) in
       ap (unit st1 u) = Z.max 0 (ap (unit st u) - 1)
       /\ if (ap (unit st1 u) >? 0) && alive (unit st1 u)
          then _continueActivation st1 u (rng 1%nat) = Some (st', more)
          else st' = st1 /\ more = [].
Proof.
  intros Hne. destruct (pickBestTarget_In st u targets Hne) as [t [Hpick Hin]].
  unfold attackThenContinue, attackBest, executeAIAttack. rewrite Hpick.
  intros H. exists t.
  assert (Hap : ap (unit (fst (executeAttack st u t ty (rng 0%nat))) u)
                = Z.max 0 (ap (unit st u) - 1))
    by (rewrite executeAttack_ap, Nat.eqb_refl; reflexivity).
  cbv zeta.
  destruct ((ap (unit (fst (executeAttack st u t ty (rng 0%nat))) u) >? 0)
            && alive (unit (fst (executeAttack st u t ty (rng 0%nat))) u)).
  - destruct (_continueActivation _ u (rng 1%nat)) as [[st2 log2]|] eqn:E2;
      [|discriminate].
    injection H as <- <-. exists log2. repeat split; auto.
  - injection H as <- <-. exists []. repeat split; auto.
Qed.

(** The third branch of [activateUnit]: the move, then the attack or
    the overwatch. *)
Lemma activateUnit_move_branch fuel rng st u st' log :
  (gridBudget (grid st) <= fuel)%nat ->
  0 < ap (unit st u) ->
  getValidMeleeTargets st u = [] ->
  getValidRangedTargets st u = [] ->
  activateUnit fuel rng st u = Some (st', log) ->
  exists st1 moved,
    _moveTowardEnemy fuel st u = Some (st1, moved)
    /\ (moved = false -> st1 = st)
    /\ (moved = true ->
        ap (unit st1 u) = ap (unit st u) - 1
        /\ exists n,
             In n (getMovementRange (grid st) (col (tile (unit st u)))
                                    (row (tile (unit st u))) CONSTANTS.movement)
             /\ tile (unit st1 u) = ntile n)
    /\ let moveLog := if moved then [AIMove] else [] in
       if negb (alive (unit st1 u)) || (ap (unit st1 u) <=? 0)
       then st' = st1 /\ log = moveLog
       else
         (getValidRangedTargets st1 u <> [] ->
          exists t,
            In t (getValidRangedTargets st1 u)
            /\ pickBestTarget st1 u (getValidRangedTargets st1 u) = Some t
            /\ st' = fst (executeAttack st1 u t Ranged (rng 0%nat))
            /\ log = moveLog ++ [AIAttack t Ranged])
         /\ (getValidRangedTargets st1 u = [] ->
             getValidMeleeTargets st1 u <> [] ->
             exists t,
               In t (getValidMeleeTargets st1 u)
               /\ pickBestTarget st1 u (getValidMeleeTargets st1 u) = Some t
               /\ st' = fst (executeAttack st1 u t Melee (rng 0%nat))
               /\ log = moveLog ++ [AIAttack t Melee])
         /\ (getValidRangedTargets st1 u = [] ->
             getValidMeleeTargets st1 u = [] ->
             st' = setOverwatch st1 u
             /\ log = moveLog ++ [AIOverwatch]
             /\ ap (unit st' u) = ap (unit st1 u) - 1).
Proof.
  intros Hfuel Hap Hm0 Hr0. unfold activateUnit. cbv zeta.
  rewrite Hm0, Hr0.
  change (Nat.ltb 0 (length (@nil UnitRef))) with false. cbn [andb].
  destruct (Z.gtb_spec (ap (unit st u)) 0) as [_ | Hle]; [|lia].
  destruct (moveTowardEnemy_ok fuel st u Hfuel)
    as [st1 [moved [Emove [_ [Hstay Hmoved]]]]].
  rewrite Emove. intros H. exists st1, moved.
  split; [reflexivity|]. split; [exact Hstay|].
  split.
  { intros Hmv. destruct (Hmoved Hmv) as [n [p [path [Hin [Hlast Est1]]]]].
    split.
    - rewrite Est1, moveUnit_ap, unit_modify_same. cbn [ap withAp]. lia.
    - exists n. split; [exact Hin|].
      rewrite Est1, moveUnit_tile, Nat.eqb_refl, unit_modify_same.
      cbn [tile withAp]. exact Hlast. }
  cbv zeta.
  destruct (negb (alive (unit st1 u))) eqn:Eal.
  { injection H as <- <-. cbn [orb]. auto. }
  cbn [orb].
  destruct (Z.gtb_spec (ap (unit st1 u)) 0) as [Hap1 | Hap1].
  2: { injection H as <- <-.
       destruct (Z.leb_spec (ap (unit st1 u)) 0); [auto | lia]. }
  destruct (Z.leb_spec (ap (unit st1 u)) 0) as [Hbad | _]; [lia|].
  destruct (Nat.ltb 0 (length (getValidRangedTargets st1 u))) eqn:Er1.
  { apply length_pos_nonempty in Er1. cbv iota in H.
    destruct (attackBest st1 u (getValidRangedTargets st1 u) Ranged (rng 0%nat))
      as [[st2 log2]|] eqn:Eb; [|discriminate].
    injection H as <- <-.
    destruct (attackBest_run st1 u (getValidRangedTargets st1 u) Ranged (rng 0%nat)
                st2 log2 Er1 Eb) as [t [Hpick [Hin [-> ->]]]].
    split; [intros _; exists t; auto|].
    split; intros Hnil; contradiction. }
  assert (Hr1 : getValidRangedTargets st1 u = []).
  { destruct (getValidRangedTargets st1 u); [reflexivity | discriminate]. }
  destruct (Nat.ltb 0 (length (getValidMeleeTargets st1 u))) eqn:Em1.
  { apply length_pos_nonempty in Em1. cbv iota in H.
    destruct (attackBest st1 u (getValidMeleeTargets st1 u) Melee (rng 0%nat))
      as [[st2 log2]|] eqn:Eb; [|discriminate].
    injection H as <- <-.
    destruct (attackBest_run st1 u (getValidMeleeTargets st1 u) Melee (rng 0%nat)
                st2 log2 Em1 Eb) as [t [Hpick [Hin [-> ->]]]].
    split; [intros Hne; contradiction|].
    split; [intros _ _; exists t; auto|].
    intros _ Hnil. contradiction. }
  assert (Hm1 : getValidMeleeTargets st1 u = []).
  { destruct (getValidMeleeTargets st1 u); [reflexivity | discriminate]. }
  cbv iota in H. injection H as <- <-.
  split; [intros Hne; contradiction|].
  split; [intros _ Hne; contradiction|].
  intros _ _. split; [reflexivity|]. split; [reflexivity|].
  rewrite setOverwatch_ap, Nat.eqb_refl. lia.
Qed.

(** X21. An AI activation ([activateUnit]), given the budget of the
    grid, always runs to its end and takes at most two actions.  With no
    action point it does nothing.  With one, it attacks in melee when a
    melee target exists, else shoots when a ranged target exists: the
    target is the one [pickBestTarget] chooses among those the target
    enumeration returned, the attack is [executeAttack] on it with the
    first roll and costs the unit one action point, and the state left
    is that attack's when the unit is then dead or out of action
    points, and what [_continueActivation] makes of it with the second
    roll when not.  Otherwise it moves by [_moveTowardEnemy] (staying
    put, or onto a tile of its movement range for one action point)
    and then, if alive with an action point left, shoots the best
    ranged target seen from the new state, else strikes the best melee
    target, else goes on overwatch for one action point; the state left
    is the one [executeAttack] or [setOverwatch] returns.  Every unit it
    attacks is a roster unit of the other side.  The roster, the sides
    and the factions are unchanged, the bookkeeping of hit points and
    the sign of action points are kept, and the unit gains no action
    point. *)
Theorem activateUnit_decides (fuel : nat) (rng : nat -> float) (st : Game)
        (u : UnitRef) :
  (gridBudget (grid st) <= fuel)%nat ->
  exists st' log,
    activateUnit fuel rng st u = Some (st', log)
    /\ aiStep u st st'
    /\ attacksEnemies st u log
    /\ (length log <= 2)%nat
    /\ (ap (unit st u) <= 0 -> st' = st /\ log = [])
    /\ (0 < ap (unit st u) -> getValidMeleeTargets st u <> [] ->
        exists t more,
          log = AIAttack t Melee :: more
          /\ In t (getValidMeleeTargets st u)
          /\ pickBestTarget st u (getValidMeleeTargets st u) = Some t
          /\ let st1 := fst (executeAttack st u t Melee (rng 0%nat)) in
             ap (unit st1 u) = Z.max 0 (ap (unit st u) - 1)
             /\ if (ap (unit st1 u) >? 0) && alive (unit st1 u)
                then _continueActivation st1 u (rng 1%nat) = Some (st', more)
                else st' = st1 /\ more = [])
    /\ (0 < ap (unit st u) -> getValidMeleeTargets st u = [] ->
        getValidRangedTargets st u <> [] ->
        exists t more,
          log = AIAttack t Ranged :: more
          /\ In t (getValidRangedTargets st u)
          /\ pickBestTarget st u (getValidRangedTargets st u) = Some t
          /\ let st1 := fst (executeAttack st u t Ranged (rng 0%nat)) in
             ap (unit st1 u) = Z.max 0 (ap (unit st u) - 1)
             /\ if (ap (unit st1 u) >? 0) && alive (unit st1 u)
                then _continueActivation st1 u (rng 1%nat) = Some (st', more)
                else st' = st1 /\ more = [])
    /\ (0 < ap (unit st u) -> getValidMeleeTargets st u = [] ->
        getValidRangedTargets st u = [] ->
        exists st1 moved,
          _moveTowardEnemy fuel st u = Some (st1, moved)
          /\ (moved = false -> st1 = st)
          /\ (moved = true ->
              ap (unit st1 u) = ap (unit st u) - 1
              /\ exists n,
                   In n (getMovementRange (grid st) (col (tile (unit st u)))
                           (row (tile (unit st u))) CONSTANTS.movement)
                   /\ tile (unit st1 u) = ntile n)
          /\ let moveLog := if moved then [AIMove] else [] in
             if negb (alive (unit st1 u)) || (ap (unit st1 u) <=? 0)
             then st' = st1 /\ log = moveLog
             else
               (getValidRangedTargets st1 u <> [] ->
                exists t,
                  In t (getValidRangedTargets st1 u)
                  /\ pickBestTarget st1 u (getValidRangedTargets st1 u) = Some t
                  /\ st' = fst (executeAttack st1 u t Ranged (rng 0%nat))
                  /\ log = moveLog ++ [AIAttack t Ranged])
               /\ (getValidRangedTargets st1 u = [] ->
                   getValidMeleeTargets st1 u <> [] ->
                   exists t,
                     In t (getValidMeleeTargets st1 u)
                     /\ pickBestTarget st1 u (getValidMeleeTargets st1 u) = Some t
                     /\ st' = fst (executeAttack st1 u t Melee (rng 0%nat))
                     /\ log = moveLog ++ [AIAttack t Melee])
               /\ (getValidRangedTargets st1 u = [] ->
                   getValidMeleeTargets st1 u = [] ->
                   st' = setOverwatch st1 u
                   /\ log = moveLog ++ [AIOverwatch]
                   /\ ap (unit st' u) = ap (unit st1 u) - 1)).
Proof.
  intros Hfuel.
  destruct (activateUnit_ok fuel rng st u Hfuel)
    as [st' [log [E [Hs [Hatt [Hlen [Hzero _]]]]]]].
  exists st', log.
  split; [exact E|]. split; [exact Hs|]. split; [exact Hatt|].
  split; [exact Hlen|]. split; [exact Hzero|].
  split; [|split].
  - intros Hap Hne. apply attackThenContinue_run; [exact Hne|].
    rewrite <- E. unfold activateUnit. cbv zeta.
    apply length_pos_nonempty in Hne. rewrite Hne.
    destruct (Z.gtb_spec (ap (unit st u)) 0); [reflexivity | lia].
  - intros Hap Hm0 Hne. apply attackThenContinue_run; [exact Hne|].
    rewrite <- E. unfold activateUnit. cbv zeta.
    apply length_pos_nonempty in Hne. rewrite Hne, Hm0.
    destruct (Z.gtb_spec (ap (unit st u)) 0); [reflexivity | lia].
  - intros Hap Hm0 Hr0.
    exact (activateUnit_move_branch fuel rng st u st' log Hfuel Hap Hm0 Hr0 E).
Qed.

(** On the duel map, whose two units stand in sight of each other, the
    AI's unit shoots the player's: its first action is a ranged attack
    on unit 0, for one of its two action points. *)
Lemma activateUnit_decides_witness :
  (gridBudget (grid duel) <= 31)%nat
  /\ exists st' log,
       activateUnit 31 (fun _ => 0%float) duel 1%nat = Some (st', log)
       /\ aiStep 1%nat duel st'
       /\ (length log <= 2)%nat
       /\ exists more,
            log = AIAttack 0%nat Ranged :: more
            /\ ap (unit (fst (executeAttack duel 1%nat 0%nat Ranged 0%float)) 1%nat)
               = 1.
Proof.
  assert (Hfuel : (gridBudget (grid duel) <= 31)%nat) by (vm_compute; lia).
  split; [exact Hfuel|].
  destruct (activateUnit_decides 31 (fun _ => 0%float) duel 1%nat Hfuel)
    as [st' [log [E [Hs [_ [Hlen [_ [_ [Hranged _]]]]]]]]].
  exists st', log. split; [exact E|]. split; [exact Hs|]. split; [exact Hlen|].
  destruct Hranged as [t [more [Hlog [_ [Hpick [Hap1 _]]]]]];
    [vm_compute; reflexivity | reflexivity | vm_compute; discriminate|].
  vm_compute in Hpick. injection Hpick as <-.
  exists more. split; [exact Hlog | exact Hap1].
Defined.


(** ** Every reachable state is in good order *)

Lemma executeAttack_control st a t ty roll :
  activeUnit (fst (executeAttack st a t ty roll)) = activeUnit st
  /\ activationQueue (fst (executeAttack st a t ty roll)) = activationQueue st.
Proof.
  pose proof (executeAttack_eq st a t ty roll) as E. cbv zeta in E.
  rewrite E. cbn [fst activeUnit activationQueue modify withUnit].
  unfold afterRoll, applyDamage, setUnitDead. cbv zeta.
  repeat match goal with
         | |- context [if ?c then _ else _] => destruct c
         end; split; reflexivity.
Qed.

Lemma executeOverwatchShot_control st w m roll :
  activeUnit (fst (executeOverwatchShot st w m roll)) = activeUnit st
  /\ activationQueue (fst (executeOverwatchShot st w m roll)) = activationQueue st.
Proof.
  unfold executeOverwatchShot.
  pose proof (executeAttack_control st w m Ranged roll) as H.
  destruct (executeAttack st w m Ranged roll) as [st1 res]. exact H.
Qed.

Lemma overwatchShots_control rng u : forall triggers n st,
  activeUnit (fst (fst (overwatchShots rng n st u triggers))) = activeUnit st
  /\ activationQueue (fst (fst (overwatchShots rng n st u triggers)))
     = activationQueue st.
Proof.
  induction triggers as [|w more IH]; intros n st; cbn [overwatchShots];
    [split; reflexivity|].
  pose proof (executeOverwatchShot_control st w u (rng n)) as [H1 H2].
  destruct (executeOverwatchShot st w u (rng n)) as [st1 res].
  cbn [fst] in H1, H2.
  destruct (negb (alive (unit st1 u))); [split; assumption|].
  destruct (IH (S n) st1) as [I1 I2]. split; congruence.
Qed.

Lemma overwatchAlongPath_control rng u : forall path n st from trig,
  activeUnit (fst (fst (overwatchAlongPath rng n st u from path trig)))
  = activeUnit st
  /\ activationQueue (fst (fst (overwatchAlongPath rng n st u from path trig)))
     = activationQueue st.
Proof.
  induction path as [|toTile more IH]; intros n st from trig;
    cbn [overwatchAlongPath]; [split; reflexivity|].
  pose proof (overwatchShots_control rng u (checkOverwatch st u from toTile) n st)
    as [H1 H2].
  destruct (overwatchShots rng n st u (checkOverwatch st u from toTile))
    as [[st1 n1] died].
  cbn [fst] in H1, H2. destruct died; [split; assumption|].
  destruct (IH n1 st1 toTile
               (trig || negb (Nat.eqb (length (checkOverwatch st u from toTile)) 0)))
    as [I1 I2].
  split; congruence.
Qed.

Lemma nextActivation_cases st :
  (exists w, nextActivation st = (handleGameOver st w, GameOver w))
  \/ (exists i u,
        nextActivation st
        = (beginPlayerActivation (withCurrentActivationIndex i st) u,
           PlayerActivation u)
        /\ In u (activationQueue st) /\ alive (unit st u) = true)
  \/ (exists i u,
        nextActivation st = (withCurrentActivationIndex i st, AIActivation u)
        /\ In u (activationQueue st) /\ alive (unit st u) = true)
  \/ (exists i, nextActivation st = (withCurrentActivationIndex i st, TurnEnds)).
Proof.
  unfold nextActivation.
  destruct (checkWinCondition st) as [w|]; [left; eauto|].
  destruct (nextActivation_scan_spec st
              (skipn (currentActivationIndex st) (activationQueue st))
              (currentActivationIndex st)) as [skipped [_ [_ Hn]]].
  destruct (nextActivation_scan st
              (skipn (currentActivationIndex st) (activationQueue st))
              (currentActivationIndex st)) as [i next].
  cbn [snd] in Hn. destruct next as [u|].
  - destruct Hn as [He [more Hq]].
    assert (Hin : In u (activationQueue st)).
    { rewrite <- (firstn_skipn (currentActivationIndex st) (activationQueue st)).
      rewrite Hq. apply in_app_iff. right. apply in_app_iff. right. now left. }
    unfold eligible in He. apply andb_true_iff in He. destruct He as [Hal _].
    cbv zeta. cbn [unit withCurrentActivationIndex playerFaction].
    destruct (faction_eqb (faction (unit st u)) (playerFaction st)).
    + right. left. exists i, u. auto.
    + right. right. left. exists i, u. auto.
  - right. right. right. exists i. reflexivity.
Qed.

Lemma moveTowardEnemy_step fuel st u st' moved :
  _moveTowardEnemy fuel st u = Some (st', moved) -> aiStep u st st'.
Proof.
  assert (Hstay : Some (st, false) = Some (st', moved) -> aiStep u st st').
  { intros H. injection H as <- _. apply aiStep_refl. }
  unfold _moveTowardEnemy. cbv zeta.
  destruct (Nat.eqb (length (getAliveUnits st (playerFaction st))) 0);
    [exact Hstay|].
  destruct (nearestEnemy_loop st u _ None None) as [nearest|]; [|exact Hstay].
  destruct (Nat.eqb (length (getMovementRange _ _ _ _)) 0); [exact Hstay|].
  destruct (findBestMoveTile st u nearest _ _) as [bestTile|]; [|exact Hstay].
  destruct ((col (ntile bestTile) =? col (tile (unit st u)))
            && (row (ntile bestTile) =? row (tile (unit st u)))); [exact Hstay|].
  destruct (executeAIMove fuel st u (ntile bestTile)) as [st1|] eqn:E;
    [|discriminate].
  intros H. injection H as <- _. eapply aiStep_move. exact E.
Qed.

Lemma attackBest_step st u targets ty roll st' log :
  (forall t, In t targets ->
     In t (getValidRangedTargets st u) \/ In t (getValidMeleeTargets st u)) ->
  attackBest st u targets ty roll = Some (st', log) -> aiStep u st st'.
Proof.
  intros Hvalid. unfold attackBest.
  destruct (pickBestTarget st u targets) as [t|] eqn:Ep; [|discriminate].
  intros H. injection H as <- _. apply aiStep_attack. apply Hvalid.
  destruct targets as [|x [|y more]].
  - discriminate.
  - injection Ep as <-. now left.
  - unfold pickBestTarget in Ep. cbn [hd_error] in Ep.
    destruct (pickBestTarget_loop_In st u _ _ _ _ Ep) as [H | H]; [exact H|].
    injection H as <-. now left.
Qed.

Lemma continueActivation_step st u roll st' log :
  _continueActivation st u roll = Some (st', log) -> aiStep u st st'.
Proof.
  intros H. destruct (continueActivation_ok st u roll) as [st2 [log2 [E [Hs _]]]].
  rewrite E in H. injection H as <- _. exact Hs.
Qed.

Lemma attackThenContinue_step st u targets ty rng st' log :
  (forall t, In t targets ->
     In t (getValidRangedTargets st u) \/ In t (getValidMeleeTargets st u)) ->
  attackThenContinue st u targets ty rng = Some (st', log) -> aiStep u st st'.
Proof.
  intros Hvalid. unfold attackThenContinue.
  destruct (attackBest st u targets ty (rng 0%nat)) as [[st1 log1]|] eqn:E1;
    [|discriminate].
  pose proof (attackBest_step st u targets ty (rng 0%nat) st1 log1 Hvalid E1) as Hs1.
  destruct ((ap (unit st1 u) >? 0) && alive (unit st1 u)).
  - destruct (_continueActivation st1 u (rng 1%nat)) as [[st2 log2]|] eqn:E2;
      [|discriminate].
    intros H. injection H as <- _.
    eapply aiStep_trans; [exact Hs1|]. eapply continueActivation_step; eauto.
  - intros H. injection H as <- _. exact Hs1.
Qed.

Lemma activateUnit_step fuel rng st u st' log :
  activateUnit fuel rng st u = Some (st', log) -> aiStep u st st'.
Proof.
  unfold activateUnit. cbv zeta.
  destruct (Nat.ltb 0 (length (getValidMeleeTargets st u))
            && (ap (unit st u) >? 0)).
  { apply attackThenContinue_step. auto. }
  destruct (Nat.ltb 0 (length (getValidRangedTargets st u))
            && (ap (unit st u) >? 0)).
  { apply attackThenContinue_step. auto. }
  destruct (ap (unit st u) >? 0).
  2: { intros H. injection H as <- _. apply aiStep_refl. }
  destruct (_moveTowardEnemy fuel st u) as [[st1 moved]|] eqn:Em; [|discriminate].
  pose proof (moveTowardEnemy_step fuel st u st1 moved Em) as Hs1.
  destruct (negb (alive (unit st1 u))) eqn:Eal.
  { intros H. injection H as <- _. exact Hs1. }
  apply negb_false_iff in Eal.
  destruct (ap (unit st1 u) >? 0).
  2: { intros H. injection H as <- _. exact Hs1. }
  destruct (Nat.ltb 0 (length (getValidRangedTargets st1 u))).
  { destruct (attackBest st1 u (getValidRangedTargets st1 u) Ranged (rng 0%nat))
      as [[st2 log2]|] eqn:E2; [|discriminate].
    intros H. injection H as <- _.
    eapply aiStep_trans; [exact Hs1|]. eapply attackBest_step; [|exact E2]. auto. }
  destruct (Nat.ltb 0 (length (getValidMeleeTargets st1 u))).
  { destruct (attackBest st1 u (getValidMeleeTargets st1 u) Melee (rng 0%nat))
      as [[st2 log2]|] eqn:E2; [|discriminate].
    intros H. injection H as <- _.
    eapply aiStep_trans; [exact Hs1|]. eapply attackBest_step; [|exact E2]. auto. }
  intros H. injection H as <- _.
  eapply aiStep_trans; [exact Hs1|]. apply aiStep_setOverwatch. exact Eal.
Qed.

Lemma wellFormed_unitStep u st st' :
  wellFormed st -> aiStep u st st' ->
  In u (units st) -> alive (unit st u) = true ->
  (forall v, activeUnit st = Some v -> v = u) ->
  wellFormed st'.
Proof.
  intros [Hsides [Hh [Ho [Hact Hq]]]]
         [Hu [Hp [Ha [_ [Hh' [_ [_ [Hau [Haq Hsurv]]]]]]]]] Hin Hal Honly.
  destruct (Hsurv Hsides Hin Hal) as [Hal' Ho'].
  unfold wellFormed. split; [congruence|]. split; [auto|]. split; [auto|].
  split.
  - intros v Hv. rewrite Hau in Hv. rewrite (Honly v Hv). rewrite Hu. auto.
  - intros v Hv. rewrite Haq in Hv. rewrite Hu. auto.
Qed.

Lemma wellFormed_endActivation st u :
  wellFormed st -> wellFormed (endActivation st u).
Proof.
  intros [Hsides [Hh [Ho [Hact Hq]]]].
  unfold wellFormed.
  split; [unfold endActivation, markActivated; cbv zeta;
          destruct (status_eqb _ READY); exact Hsides|].
  split; [apply healthy_endActivation; exact Hh|].
  split.
  { apply (occupancy_same st); [| | | |exact Ho];
      try (intros x); unfold endActivation, markActivated; cbv zeta;
      destruct (status_eqb _ READY);
      cbn [units grid unit withCurrentActivationIndex withActiveUnit modify withUnit];
      try reflexivity; destruct (Nat.eqb x u); reflexivity. }
  split; [discriminate|].
  intros v. unfold endActivation, markActivated. cbv zeta.
  destruct (status_eqb _ READY); exact (Hq v).
Qed.

Lemma aiStep_setHunker u st :
  alive (unit st u) = true -> aiStep u st (setHunker st u).
Proof.
  intros Hal. unfold aiStep.
  split; [reflexivity|]. split; [reflexivity|]. split; [reflexivity|].
  split.
  { intros x. unfold setHunker, setUnitStatus. cbv zeta. rewrite !unit_modify.
    destruct (Nat.eqb x u); reflexivity. }
  split.
  { intros H r. unfold setHunker, setUnitStatus. cbv zeta. rewrite !unit_modify.
    destruct (Nat.eqb r u) eqn:E; [|apply H].
    apply Nat.eqb_eq in E. subst r.
    apply (healthy_fields (unit st u)); auto.
    right. split; [exact Hal | discriminate]. }
  split.
  { intros H x. rewrite setHunker_ap. specialize (H x).
    destruct (Nat.eqb x u); lia. }
  split; [rewrite setHunker_ap, Nat.eqb_refl; lia|].
  split; [reflexivity|]. split; [reflexivity|].
  intros _ _ _. split.
  - unfold setHunker, setUnitStatus. cbv zeta. rewrite !unit_modify_same.
    exact Hal.
  - apply occupancy_same; try reflexivity;
      intros x; unfold setHunker, setUnitStatus; cbv zeta;
      rewrite !unit_modify; destruct (Nat.eqb x u); reflexivity.
Qed.

Lemma wellFormed_action st sel actionType :
  wellFormed st -> wellFormed (fst (onPlayerAction st sel actionType)).
Proof.
  intros Hwf. unfold onPlayerAction.
  destruct (activeUnit st) as [u|] eqn:Eact; [|exact Hwf].
  destruct (negb (alive (unit st u))) eqn:Eal; [exact Hwf|].
  apply negb_false_iff in Eal.
  assert (Hin : In u (units st)).
  { destruct Hwf as [_ [_ [_ [Hact _]]]]. apply Hact. exact Eact. }
  assert (Honly : forall v, activeUnit st = Some v -> v = u) by congruence.
  destruct actionType; cbn [fst].
  - unfold _enterTargetSelectPhase. cbv zeta.
    destruct (Nat.eqb _ 0); exact Hwf.
  - unfold _enterTargetSelectPhase. cbv zeta.
    destruct (Nat.eqb _ 0); exact Hwf.
  - apply wellFormed_endActivation.
    apply (wellFormed_unitStep u st); auto. apply aiStep_setOverwatch. exact Eal.
  - apply wellFormed_endActivation.
    apply (wellFormed_unitStep u st); auto. apply aiStep_setHunker. exact Eal.
  - apply wellFormed_endActivation. exact Hwf.
  - exact Hwf.
Qed.

Lemma find_In (f : UnitRef -> bool) (l : list UnitRef) (x : UnitRef) :
  find f l = Some x -> In x l.
Proof. intros H. apply find_some in H. tauto. Qed.

Lemma wellFormed_attack st sel actionType c r roll :
  actionType = ActShoot \/ actionType = ActMelee ->
  wellFormed st ->
  wellFormed (fst (onTargetClick (fst (onPlayerAction st sel actionType))
                                 (snd (onPlayerAction st sel actionType))
                                 c r roll)).
Proof.
  intros Hty Hwf.
  assert (Hgen : forall u ty, ty = Ranged \/ ty = Melee ->
            activeUnit st = Some u -> alive (unit st u) = true ->
            wellFormed (fst (onTargetClick
                               (fst (_enterTargetSelectPhase st sel u ty))
                               (snd (_enterTargetSelectPhase st sel u ty))
                               c r roll))).
  { intros u ty Hty' Eact Eal.
    assert (Hin : In u (units st)).
    { destruct Hwf as [_ [_ [_ [Hact _]]]]. apply Hact. exact Eact. }
    unfold _enterTargetSelectPhase. cbv zeta.
    destruct (Nat.eqb (length (getValidTargets (withPhase PLAYER_TARGET_SELECT st)
                                               u ty)) 0).
    { cbn [fst snd]. unfold onTargetClick.
      cbn [activeUnit _enterActionPhase withPhase phase]. rewrite Eact.
      cbn [phase_eqb negb]. exact Hwf. }
    cbn [fst snd]. unfold onTargetClick.
    cbn [activeUnit withPhase phase]. rewrite Eact.
    cbn [phase_eqb negb _validTargets _pendingAttackType].
    destruct (find _ (getValidTargets (withPhase PLAYER_TARGET_SELECT st) u ty))
      as [target|] eqn:Ef; [|exact Hwf].
    apply find_In in Ef. cbv zeta.
    set (st0 := withPhase PLAYER_TARGET_SELECT st) in *.
    assert (Hwf0 : wellFormed st0) by exact Hwf.
    assert (Hvalid : In target (getValidRangedTargets st0 u)
                     \/ In target (getValidMeleeTargets st0 u)).
    { destruct Hty' as [-> | ->]; [left | right]; exact Ef. }
    pose proof (aiStep_attack u st0 target ty roll Hvalid) as Hs.
    unfold executeAIAttack in Hs.
    assert (Hwf1 : wellFormed (fst (executeAttack st0 u target ty roll))).
    { apply (wellFormed_unitStep u st0); auto.
      intros v Hv. change (activeUnit st0) with (activeUnit st) in Hv. congruence. }
    destruct (checkWinCondition (fst (executeAttack st0 u target ty roll)));
      cbn [fst].
    - exact Hwf1.
    - destruct ((ap (unit (fst (executeAttack st0 u target ty roll)) u) >? 0)
                && alive (unit (fst (executeAttack st0 u target ty roll)) u));
        cbn [fst].
      + exact Hwf1.
      + apply wellFormed_endActivation. exact Hwf1. }
  unfold onPlayerAction.
  destruct (activeUnit st) as [u|] eqn:Eact.
  2: { cbn [fst snd]. unfold onTargetClick. rewrite Eact. exact Hwf. }
  destruct (negb (alive (unit st u))) eqn:Eal.
  { exfalso. destruct Hwf as [_ [_ [_ [Hact _]]]].
    destruct (Hact u Eact) as [_ Ha]. rewrite Ha in Eal. discriminate. }
  apply negb_false_iff in Eal.
  destruct Hty as [-> | ->]; apply Hgen; auto.
Qed.

Lemma onPlayerMoveClick_inv fuel rng st c r st' out :
  onPlayerMoveClick fuel rng st c r = Some (st', out) ->
  (out = MoveIgnored /\ st' = st)
  \/ (out = MoveNoPath /\ exists u, st' = _showMovementRange st u)
  \/ (exists u p path st4,
        activeUnit st = Some u
        /\ findPath fuel (grid st) (tile (unit st u)) (mkPos c r)
           = Some (Some (p :: path))
        /\ st4 = fst (_checkOverwatchAlongPath rng
                        (moveUnit
                           (withPhase COMBAT_ANIMATION
                              (modify u (withAp (Z.max 0 (ap (unit st u) - 1))) st))
                           u (p :: path)) u (p :: path))
        /\ ((out = MoveToAction /\ st' = _enterActionPhase st4 u
             /\ alive (unit st4 u) = true)
            \/ (out = MoveEndsActivation /\ st' = endActivation st4 u))).
Proof.
  unfold onPlayerMoveClick.
  destruct (activeUnit st) as [u|]; [|intros H; injection H as <- <-; auto].
  destruct (negb (phase_eqb (phase st) PLAYER_MOVEMENT));
    [intros H; injection H as <- <-; auto|].
  destruct (negb (existsb _ (_selectedMoveTiles st)));
    [intros H; injection H as <- <-; auto|].
  destruct (findPath fuel (grid st) (tile (unit st u)) (mkPos c r))
    as [[[|p path]|]|] eqn:Epath; try discriminate;
    try (intros H; injection H as <- <-; right; left; eauto).
  destruct (_checkOverwatchAlongPath rng _ u (p :: path)) as [st4 trig] eqn:E4.
  intros H. right. right. exists u, p, path, st4.
  split; [reflexivity|]. split; [exact Epath|].
  split; [rewrite E4; reflexivity|].
  destruct (negb (alive (unit st4 u))) eqn:Eal; [injection H as <- <-; auto|].
  apply negb_false_iff in Eal.
  destruct (ap (unit st4 u) >? 0); injection H as <- <-; auto.
Qed.

Lemma wellFormed_move fuel rng st c r st' out :
  wellFormed st ->
  onPlayerMoveClick fuel rng st c r = Some (st', out) ->
  wellFormed st'.
Proof.
  intros Hwf Hclick.
  pose proof Hwf as [Hsides [Hh [Ho [Hact Hq]]]].
  pose proof (healthy_moveCommand fuel rng st c r st' out Hsides Hh Hclick) as Hh'.
  apply onPlayerMoveClick_inv in Hclick.
  destruct Hclick as [[_ ->] | [[_ [u ->]] | [u [p [path [st4 [Eact [Epath [E4 Hout]]]]]]]]].
  - exact Hwf.
  - exact Hwf.
  - destruct (Hact u Eact) as [Hin Hal].
    set (st1 := withPhase COMBAT_ANIMATION
                  (modify u (withAp (Z.max 0 (ap (unit st u) - 1))) st)) in *.
    set (st3 := moveUnit st1 u (p :: path)) in *.
    assert (Ht1 : tile (unit st1 u) = tile (unit st u)).
    { unfold st1. cbn [unit withPhase]. rewrite unit_modify_same. reflexivity. }
    assert (Hal1 : alive (unit st1 u) = true).
    { unfold st1. cbn [unit withPhase]. rewrite unit_modify_same. exact Hal. }
    assert (Ho1 : occupancy st1).
    { apply (occupancy_same st); try reflexivity; [| |exact Ho];
        intros x; unfold st1; cbn [unit withPhase]; rewrite unit_modify;
        destruct (Nat.eqb x u); reflexivity. }
    destruct (findPath_sound _ _ _ _ _ Epath) as [Hlegal Hlast].
    destruct (legalPath_last_free (grid st) path (tile (unit st u)) p Hlegal)
      as [t0 [Ht0 Hfree]].
    assert (Ho3 : occupancy st3).
    { apply occupancy_moveUnit; auto.
      - rewrite Ht1. intros Heq. rewrite Heq in Ht0.
        destruct Ho as [O1 _]. destruct (O1 u Hin Hal) as [tu [Htu Hou]].
        congruence.
      - rewrite Ht1. exists t0. auto. }
    assert (Hu3 : units st3 = units st)
      by (unfold st3; rewrite moveUnit_units; reflexivity).
    assert (Hal3 : alive (unit st3 u) = true).
    { unfold st3. destruct (moveUnit_health st1 u (p :: path) u) as [_ [_ [H _]]].
      rewrite H. exact Hal1. }
    rewrite checkOverwatchAlongPath_fst in E4.
    destruct (occupancy_overwatchAlongPath rng u (p :: path) 0%nat st3
                (tile (unit st3 u)) false Ho3) as [Ho4 Hu4];
      [rewrite Hu3; exact Hin | exact Hal3|].
    rewrite <- E4 in Ho4, Hu4.
    destruct (overwatchAlongPath_control rng u (p :: path) 0%nat st3
                (tile (unit st3 u)) false) as [Ha4 Hq4].
    rewrite <- E4 in Ha4, Hq4.
    destruct (moveUnit_control st1 u (p :: path)) as [Ha3 Hq3].
    fold st3 in Ha3, Hq3.
    destruct (overwatchAlongPath_ap rng u (p :: path) 0%nat st3
                (tile (unit st3 u)) false) as [_ [_ [_ [Hp4 Hai4]]]].
    rewrite <- E4 in Hp4, Hai4.
    destruct (moveUnit_sides st1 u (p :: path)) as [Hp3 Hai3].
    fold st3 in Hp3, Hai3.
    assert (Hwf4 : forall st'',
              playerFaction st'' = playerFaction st4 ->
              aiFaction st'' = aiFaction st4 ->
              allHealthy st'' -> occupancy st'' ->
              units st'' = units st4 ->
              activationQueue st'' = activationQueue st4 ->
              (forall v, activeUnit st'' = Some v ->
                         v = u /\ alive (unit st'' u) = true) ->
              wellFormed st'').
    { intros st'' H1 H2 H3 H5 H6 H7 H8. unfold wellFormed.
      split.
      { rewrite H1, H2, Hp4, Hai4, Hp3, Hai3. exact Hsides. }
      split; [exact H3|]. split; [exact H5|]. split.
      - intros v Hv. destruct (H8 v Hv) as [-> Hv'].
        rewrite H6, Hu4, Hu3. auto.
      - intros v Hv. rewrite H7, Hq4, Hq3 in Hv.
        rewrite H6, Hu4, Hu3. apply Hq. exact Hv. }
    destruct Hout as [[_ [-> Hal4]] | [_ ->]].
    + apply Hwf4; try reflexivity; auto.
      intros v Hv. cbn [activeUnit _enterActionPhase withPhase] in Hv.
      rewrite Ha4, Ha3 in Hv. unfold st1 in Hv.
      cbn [activeUnit withPhase modify withUnit] in Hv.
      split; [congruence | exact Hal4].
    + apply Hwf4; auto.
      * unfold endActivation, markActivated. cbv zeta.
        destruct (status_eqb _ READY); reflexivity.
      * unfold endActivation, markActivated. cbv zeta.
        destruct (status_eqb _ READY); reflexivity.
      * apply (occupancy_same st4); [| | | |exact Ho4];
          try (intros x); unfold endActivation, markActivated; cbv zeta;
          destruct (status_eqb _ READY);
          cbn [units grid unit withCurrentActivationIndex withActiveUnit
               modify withUnit];
          try reflexivity; destruct (Nat.eqb x u); reflexivity.
      * unfold endActivation, markActivated. cbv zeta.
        destruct (status_eqb _ READY); reflexivity.
      * unfold endActivation, markActivated. cbv zeta.
        destruct (status_eqb _ READY); reflexivity.
      * intros v Hv. discriminate.
Qed.

Lemma resetActivations_control st :
  activeUnit (resetActivations st) = activeUnit st
  /\ activationQueue (resetActivations st) = activationQueue st.
Proof.
  unfold resetActivations. generalize (units st) as us. intros us. revert st.
  induction us as [|u us IH]; intros st; cbn [fold_left]; [split; reflexivity|].
  destruct (IH (resetActivation st u)) as [H1 H2]. rewrite H1, H2.
  unfold resetActivation. destruct (negb (alive (unit st u))); [split; reflexivity|].
  cbv zeta. destruct (status_eqb _ _ || status_eqb _ _); split; reflexivity.
Qed.

Lemma In_interleave (xs : list UnitRef) : forall ys u,
  In u (interleave xs ys) -> In u xs \/ In u ys.
Proof.
  intros ys u H.
  apply (Permutation_in u (interleave_Permutation xs ys)) in H.
  apply in_app_iff in H. exact H.
Qed.

Lemma wellFormed_newQueue st :
  wellFormed st ->
  wellFormed (withCurrentActivationIndex 0 (buildActivationQueue st)).
Proof.
  intros [Hsides [Hh [Ho [Hact Hq]]]]. unfold wellFormed.
  split; [exact Hsides|]. split; [exact Hh|]. split; [exact Ho|].
  split; [exact Hact|].
  intros u Hu.
  change (activationQueue (withCurrentActivationIndex 0 (buildActivationQueue st)))
    with (activationQueue (buildActivationQueue st)) in Hu.
  rewrite activationQueue_interleave in Hu.
  apply In_interleave in Hu.
  destruct Hu as [Hu | Hu]; unfold getUnactivatedUnits in Hu;
    apply filter_In in Hu; exact (proj1 Hu).
Qed.

Lemma wellFormed_resetActivations st :
  wellFormed st -> wellFormed (resetActivations st).
Proof.
  intros [Hsides [Hh [Ho [Hact Hq]]]].
  destruct (resetActivations_sides st) as [Hp Ha].
  destruct (resetActivations_control st) as [Hau Haq].
  destruct (fold_resetActivation (units st) st) as [_ [Hg [Hu _]]].
  fold (resetActivations st) in Hg, Hu.
  assert (Hfields : forall x,
            tile (unit (resetActivations st) x) = tile (unit st x)
            /\ alive (unit (resetActivations st) x) = alive (unit st x)).
  { intros x. rewrite unit_resetActivations.
    destruct (resetUnit_fields (unit st x)) as [_ [Ht [_ [_ [_ [Hal _]]]]]].
    destruct (existsb (Nat.eqb x) (units st)); auto. }
  unfold wellFormed.
  split; [congruence|].
  split; [apply healthy_resetActivations; exact Hh|].
  split.
  { apply (occupancy_same st); auto.
    - intros c r. rewrite Hg. reflexivity.
    - intros x. apply Hfields.
    - intros x. apply Hfields. }
  split.
  - intros u Hu'. rewrite Hau in Hu'. destruct (Hact u Hu') as [H1 H2].
    rewrite Hu. split; [exact H1|]. rewrite (proj2 (Hfields u)). exact H2.
  - intros u Hu'. rewrite Haq in Hu'. rewrite Hu. auto.
Qed.

Lemma wellFormed_step fuel st st' :
  wellFormed st -> gameStep fuel st st' -> wellFormed st'.
Proof.
  intros Hwf Hstep. destruct Hstep as
      [rng st c r st' out Hclick
      | st sel actionType
      | st sel actionType c r roll Hty
      | st Hnai Hnturn
      | rng st u st' winner Hai Hrun
      | st Hturn
      | st].
  - eapply wellFormed_move; eauto.
  - apply wellFormed_action. exact Hwf.
  - apply wellFormed_attack; assumption.
  - destruct (nextActivation_cases st)
      as [[w E] | [[i [u [E [Hin Hal]]]] | [[i [u [E _]]] | [i E]]]];
      rewrite E in *; cbn [fst snd] in *.
    + exact Hwf.
    + destruct Hwf as [Hsides [Hh [Ho [Hact Hq]]]]. unfold wellFormed.
      split; [exact Hsides|]. split; [exact Hh|]. split; [exact Ho|].
      split; [|exact Hq].
      intros v Hv. cbn in Hv. injection Hv as <-.
      split; [apply Hq; exact Hin | exact Hal].
    + exfalso. apply (Hnai u). reflexivity.
    + exfalso. apply Hnturn. reflexivity.
  - destruct (nextActivation_cases st)
      as [[w E] | [[i [v [E _]]] | [[i [v [E [Hin Hal]]]] | [i E]]]];
      rewrite E in *; cbn [fst snd] in *; try discriminate.
    injection Hai as ->.
    unfold beginAIActivation in Hrun. cbv zeta in Hrun.
    set (st1 := withPhase AI_ACTING
                  (withPhase AI_THINKING
                     (withActiveUnit (Some u) (withCurrentActivationIndex i st))))
      in *.
    destruct (activateUnit fuel rng st1 u) as [[st2 log]|] eqn:Eact;
      [|discriminate].
    assert (Hwf1 : wellFormed st1).
    { destruct Hwf as [Hsides [Hh [Ho [Hact Hq]]]]. unfold wellFormed.
      split; [exact Hsides|]. split; [exact Hh|]. split; [exact Ho|].
      split; [|exact Hq].
      intros v Hv. cbn in Hv. injection Hv as <-.
      split; [apply Hq; exact Hin | exact Hal]. }
    assert (Hwf2 : wellFormed st2).
    { apply (wellFormed_unitStep u st1); auto.
      - eapply activateUnit_step; eauto.
      - destruct Hwf as [_ [_ [_ [_ Hq]]]]. apply Hq. exact Hin.
      - intros v Hv. cbn in Hv. congruence. }
    destruct (checkWinCondition st2); injection Hrun as <- _.
    + exact Hwf2.
    + apply wellFormed_endActivation. exact Hwf2.
  - destruct (nextActivation_cases st)
      as [[w E] | [[i [v [E _]]] | [[i [v [E _]]] | [i E]]]];
      rewrite E in *; cbn [fst snd] in *; try discriminate.
    apply wellFormed_newQueue, wellFormed_resetActivations. exact Hwf.
  - apply wellFormed_newQueue. exact Hwf.
Qed.

Lemma occupancy_distinct st u v :
  occupancy st ->
  In u (units st) -> In v (units st) ->
  alive (unit st u) = true -> alive (unit st v) = true ->
  tile (unit st u) = tile (unit st v) -> u = v.
Proof.
  intros [O1 _] Hu Hv Hau Hav Ht.
  destruct (O1 u Hu Hau) as [tu [Htu Hou]].
  destruct (O1 v Hv Hav) as [tv [Htv Hov]].
  rewrite Ht in Htu. congruence.
Qed.

(** X22. Every state a session reaches from a state in good order is in
    good order.  The steps are the player's commands (the move click,
    the action buttons, the choice of an attack followed by the click on
    a target) and the scheduler's moves (the next activation, run to its
    end when it is the AI's, the end of the game, the new turn).  In
    every reachable state the bookkeeping of hit points holds for every
    unit, a living roster unit is the occupant of its tile and the
    occupant of a tile is a living roster unit standing on it, so that no
    two living roster units ever share a tile, and the active unit, if
    any, is a living roster unit. *)
Theorem reachable_states_in_good_order (fuel : nat) (st st' : Game) :
  wellFormed st ->
  reachable fuel st st' ->
  wellFormed st'
  /\ (forall u v, In u (units st') -> In v (units st') ->
        alive (unit st' u) = true -> alive (unit st' v) = true ->
        tile (unit st' u) = tile (unit st' v) -> u = v)
  /\ (forall u, 0 <= hp (unit st' u) <= maxHp (unit st' u)).
Proof.
  intros Hwf Hreach.
  assert (Hwf' : wellFormed st').
  { induction Hreach as [|st1 st2 Hreach IH Hstep]; [exact Hwf|].
    eapply wellFormed_step; eauto. }
  split; [exact Hwf'|].
  destruct Hwf' as [_ [Hh [Ho _]]]. split.
  - intros u v. apply occupancy_distinct. exact Ho.
  - intros u. destruct (Hh u) as [H _]. exact H.
Qed.

Lemma wellFormed_duel : wellFormed duel.
Proof.
  unfold wellFormed.
  split; [discriminate|].
  split.
  { intros r. unfold healthy.
    destruct r as [|r]; cbn; repeat split; try discriminate; lia. }
  split.
  { split.
    - intros u Hin _. destruct Hin as [<- | [<- | []]];
        eexists; split; reflexivity.
    - intros c r t x Hget Hocc.
      unfold duel, setOccupant in Hget. cbn in Hget.
      unfold getTile, updTile in Hget. cbn in Hget.
      destruct ((c <? 0) || (c >=? 10) || (r <? 0) || (r >=? 3)); [discriminate|].
      injection Hget as <-.
      destruct (Z.eqb_spec c 5) as [-> | Hc5];
        destruct (Z.eqb_spec r 0) as [-> | Hr0]; cbn in Hocc.
      + injection Hocc as <-. cbn. auto.
      + destruct (Z.eqb_spec 5 0); discriminate.
      + destruct (Z.eqb_spec c 0) as [-> | Hc0]; cbn in Hocc; [|discriminate].
        injection Hocc as <-. cbn. auto.
      + destruct (Z.eqb_spec c 0); discriminate. }
  split; [discriminate|]. intros u [].
Qed.

Lemma reachable_states_in_good_order_witness :
  wellFormed duel
  /\ reachable 31 duel (withCurrentActivationIndex 0 (buildActivationQueue duel))
  /\ wellFormed (withCurrentActivationIndex 0 (buildActivationQueue duel)).
Proof.
  assert (Hreach : reachable 31 duel
                     (withCurrentActivationIndex 0 (buildActivationQueue duel))).
  { eapply reach_step; [apply reach_here | apply step_start]. }
  split; [exact wellFormed_duel|]. split; [exact Hreach|].
  apply (reachable_states_in_good_order 31 duel _ wellFormed_duel Hreach).
Defined.

(* ------------------------------------------------------------------ *)
(** ** The path search returns a shortest path *)
(* ------------------------------------------------------------------ *)

Lemma depthIn_other (cf : list (Pos * Pos)) (n p v : Pos) :
  v <> n -> depthIn ((n, p) :: cf) v = depthIn cf v.
Proof.
  intros Hne. cbn [depthIn].
  destruct (pos_eqb v n) eqn:E; [|reflexivity].
  apply pos_eqb_eq in E. contradiction.
Qed.

Lemma depthIn_new (cf : list (Pos * Pos)) (n p : Pos) :
  depthIn ((n, p) :: cf) n = S (depthIn cf p).
Proof. cbn [depthIn]. now rewrite pos_eqb_refl. Qed.

Lemma depthIn_start (start : Pos) (cf : list (Pos * Pos)) :
  cameFromChain start cf -> depthIn cf start = 0%nat.
Proof.
  induction cf as [|[n p] cf IH]; [reflexivity|].
  intros [Hc [_ Hn]]. rewrite depthIn_other; [auto|].
  intros ->. apply Hn. apply in_app_iff. right. now left.
Qed.

(** Each binding leads one level up. *)
Lemma depthIn_parent (start : Pos) (cf : list (Pos * Pos)) :
  cameFromChain start cf ->
  forall k p, cameFromGet cf k = Some p -> depthIn cf k = S (depthIn cf p).
Proof.
  induction cf as [|[n q] cf IH]; [discriminate|].
  intros [Hc [Hq Hn]] k p. cbn [cameFromGet depthIn].
  destruct (pos_eqb k n) eqn:Ek.
  - intros H. injection H as <-.
    destruct (pos_eqb q n) eqn:Eq; [|reflexivity].
    apply pos_eqb_eq in Eq. subst q. contradiction.
  - intros H. rewrite (IH Hc k p H).
    destruct (pos_eqb p n) eqn:Ep; [|reflexivity].
    apply pos_eqb_eq in Ep. subst p. exfalso. apply Hn.
    eapply cameFromChain_parent; [exact Hc|]. apply cameFromGet_In. exact H.
Qed.

(** The rebuilt path has one tile for each level of its last tile. *)
Lemma rebuild_loop_length (start : Pos) (cf : list (Pos * Pos)) :
  cameFromChain start cf ->
  forall fuel k path res,
    rebuild_loop fuel cf start k path = Some (Some res) ->
    length res = (depthIn cf k + length path)%nat.
Proof.
  intros Hc. induction fuel as [|fuel IH]; intros k path res;
    cbn [rebuild_loop]; destruct (pos_eqb k start) eqn:Es; try discriminate.
  - intros H. injection H as <-. apply pos_eqb_eq in Es. subst k.
    now rewrite (depthIn_start start cf Hc).
  - intros H. injection H as <-. apply pos_eqb_eq in Es. subst k.
    now rewrite (depthIn_start start cf Hc).
  - destruct (cameFromGet cf k) as [prev|] eqn:Eg; [|discriminate].
    intros H. rewrite (IH prev (k :: path) res H).
    rewrite (depthIn_parent start cf Hc k prev Eg). simpl. lia.
Qed.

Lemma StronglySorted_within {A : Type} (R R' : A -> A -> Prop) (l : list A) :
  StronglySorted R l ->
  (forall a b, In a l -> In b l -> R a b -> R' a b) ->
  StronglySorted R' l.
Proof.
  induction l as [|x l IH]; intros Hs Hsub; [constructor|].
  apply StronglySorted_inv in Hs. destruct Hs as [Hs Hx].
  constructor.
  - apply IH; [exact Hs|]. intros a b Ha Hb. apply Hsub; now right.
  - rewrite Forall_forall in *. intros y Hy.
    apply Hsub; [now left | now right | auto].
Qed.

Lemma StronglySorted_snoc {A : Type} (R : A -> A -> Prop) (l : list A) (x : A) :
  StronglySorted R l -> (forall y, In y l -> R y x) ->
  StronglySorted R (l ++ [x]).
Proof.
  induction l as [|a l IH]; intros Hs Hx; simpl.
  - constructor; [constructor | constructor].
  - apply StronglySorted_inv in Hs. destruct Hs as [Hs Ha].
    constructor.
    + apply IH; [exact Hs|]. intros y Hy. apply Hx. now right.
    + rewrite Forall_forall in *. intros y Hy. apply in_app_iff in Hy.
      destruct Hy as [Hy | [<- | []]]; [auto|]. apply Hx. now left.
Qed.

(** Adding a binding for a tile not visited before leaves the frontier
    facts about the visited tiles as they are. *)
Lemma pathFrontier_record (g : GridManager) (st : PathState)
      (closed : list Pos) (L : nat) (n c : Pos) (queue' : list Pos) (f : bool) :
  pathFrontier g st closed L ->
  ~ In n (pvisited st) -> In c (pvisited st) ->
  depthIn (cameFrom st) c = L ->
  pathFrontier g (mkPathState queue' (n :: pvisited st)
                              ((n, c) :: cameFrom st) f) closed L.
Proof.
  intros [J3 [J4 [J5 J6]]] Hn Hc HL.
  assert (Hsame : forall v, In v (pvisited st) ->
            depthIn ((n, c) :: cameFrom st) v = depthIn (cameFrom st) v).
  { intros v Hv. apply depthIn_other. intros ->. contradiction. }
  unfold pathFrontier. cbn [pvisited cameFrom].
  split; [|split; [|split]].
  - intros v [<- | Hv].
    + right. rewrite depthIn_new, HL. lia.
    + rewrite (Hsame v Hv). auto.
  - intros v b Hv Hb. destruct (J4 v b Hv Hb) as [Hbv Hd].
    destruct (J6 v Hv) as [Hvv _].
    split; [now right|]. rewrite (Hsame b Hbv), (Hsame v Hvv). exact Hd.
  - intros v [<- | Hv].
    + rewrite depthIn_new, HL. lia.
    + rewrite (Hsame v Hv). auto.
  - intros v Hv. destruct (J6 v Hv) as [Hvv Hd].
    split; [now right|]. rewrite (Hsame v Hvv). exact Hd.
Qed.

Section PathLevels.

Variables (g : GridManager) (start end_ : Pos).

(** One scan of the neighbours of [current], a tile at depth [L]: if it
    records the destination the frontier is at depth [L] still; if not,
    [current] is closed and the queue is in order. *)
Lemma pathScan_levels (current : Pos) (closed : list Pos) (L : nat) :
  forall todo st,
  (forall n, In n todo ->
     In n (getNeighbors (col current) (row current) (gridWidth g) (gridHeight g))) ->
  found st = false ->
  In current (pvisited st) ->
  depthIn (cameFrom st) current = L ->
  pathFrontier g st closed L ->
  (forall v, In v (pvisited st) ->
     In v closed \/ In v (pqueue st) \/ v = current) ->
  StronglySorted (fun a b => (depthIn (cameFrom st) a
                              <= depthIn (cameFrom st) b)%nat) (pqueue st) ->
  (forall q, In q (pqueue st) ->
     In q (pvisited st) /\ (L <= depthIn (cameFrom st) q)%nat) ->
  (forall b, legalStep g current b ->
     (In b (pvisited st) /\ (depthIn (cameFrom st) b <= S L)%nat)
     \/ In b todo) ->
  let st' := pathScan g end_ false current todo st in
  (found st' = true -> pathFrontier g st' closed L)
  /\ (found st' = false ->
      pathFrontier g st' (current :: closed) L
      /\ pathQueueOrder st' (current :: closed) L).
Proof.
  induction todo as [|n more IH];
    intros st Hnb Hf Hcur HL HJ Hcover Hsorted Hq Hscan; cbn [pathScan].
  - cbv zeta. split; [rewrite Hf; discriminate|]. intros _.
    destruct HJ as [J3 [J4 [J5 J6]]].
    split.
    + split; [|split; [|split]].
      * intros v Hv. destruct (J3 v Hv) as [H | H]; [left; now right | now right].
      * intros v b [<- | Hv] Hb.
        -- destruct (Hscan b Hb) as [[H1 H2] | []]. rewrite HL. auto.
        -- apply J4; auto.
      * exact J5.
      * intros v [<- | Hv]; [split; [exact Hcur | lia] | apply J6; exact Hv].
    + split; [|split].
      * intros v Hv. destruct (Hcover v Hv) as [H | [H | ->]];
          [left; now right | now right | left; now left].
      * exact Hsorted.
      * exact Hq.
  - assert (Hnb' : forall x, In x more ->
              In x (getNeighbors (col current) (row current)
                                 (gridWidth g) (gridHeight g)))
      by (intros x Hx; apply Hnb; now right).
    destruct (visitedHas (pvisited st) n) eqn:Ev.
    { apply IH; auto.
      apply visitedHas_In in Ev.
      intros b Hb. destruct (Hscan b Hb) as [H | [<- | Hin]]; auto.
      left. split; [exact Ev|]. destruct HJ as [_ [_ [J5 _]]]. auto. }
    apply visitedHas_not_In in Ev.
    rewrite pathAdmits_rangeAdmits.
    destruct (rangeAdmits g current n) eqn:Ea; cbn [negb].
    2: { apply IH; auto.
         intros b Hb. destruct (Hscan b Hb) as [H | [<- | Hin]]; auto.
         apply legalStep_code in Hb. destruct Hb as [_ Hb].
         rewrite Hb in Ea. discriminate. }
    assert (Hsame : forall v, In v (pvisited st) ->
              depthIn ((n, current) :: cameFrom st) v = depthIn (cameFrom st) v).
    { intros v Hv. apply depthIn_other. intros ->. contradiction. }
    destruct ((col n =? col end_) && (row n =? row end_)) eqn:Eend.
    + cbv zeta. cbn [found]. split; [|discriminate]. intros _.
      apply pathFrontier_record; auto.
    + set (st1 := mkPathState (pqueue st ++ [n]) (n :: pvisited st)
                              ((n, current) :: cameFrom st) false).
      apply (IH st1 Hnb').
      * reflexivity.
      * simpl. now right.
      * unfold st1. cbn [cameFrom]. rewrite (Hsame current Hcur). exact HL.
      * apply pathFrontier_record; auto.
      * unfold st1. cbn [pvisited pqueue]. intros v [<- | Hv].
        -- right. left. apply in_app_iff. right. now left.
        -- destruct (Hcover v Hv) as [H | [H | ->]]; auto.
           right. left. apply in_app_iff. now left.
      * unfold st1. cbn [pqueue cameFrom].
        apply StronglySorted_snoc.
        -- apply (StronglySorted_within _ _ _ Hsorted).
           intros a b Ha Hb Hab.
           rewrite (Hsame a (proj1 (Hq a Ha))), (Hsame b (proj1 (Hq b Hb))).
           exact Hab.
        -- intros y Hy. destruct (Hq y Hy) as [Hyv _].
           rewrite (Hsame y Hyv), depthIn_new, HL.
           destruct HJ as [_ [_ [J5 _]]]. auto.
      * unfold st1. cbn [pqueue pvisited cameFrom]. intros q Hin.
        apply in_app_iff in Hin. destruct Hin as [Hin | [<- | []]].
        -- destruct (Hq q Hin) as [H1 H2]. split; [now right|].
           rewrite (Hsame q H1). exact H2.
        -- split; [now left|]. rewrite depthIn_new, HL. lia.
      * unfold st1. cbn [pvisited cameFrom]. intros b Hb.
        destruct (Hscan b Hb) as [[H1 H2] | [<- | Hin]].
        -- left. split; [now right|]. rewrite (Hsame b H1). exact H2.
        -- left. split; [now left|]. rewrite depthIn_new, HL. lia.
        -- now right.
Qed.

Lemma path_loop_found (fuel : nat) (allow : bool) (st : PathState) :
  found st = true -> path_loop fuel g end_ allow st = Some st.
Proof. intros Hf. destruct fuel; cbn [path_loop]; now rewrite Hf. Qed.

(** The search keeps a frontier to its end. *)
Lemma path_loop_levels : forall fuel st st' closed L,
  path_loop fuel g end_ false st = Some st' ->
  pathFrontier g st closed L ->
  (found st = false -> pathQueueOrder st closed L) ->
  exists closed' L', pathFrontier g st' closed' L'.
Proof.
  induction fuel as [|fuel IH]; intros st st' closed L Hrun HJ HQ;
    cbn [path_loop] in Hrun.
  - destruct (found st); [injection Hrun as <-; eauto|].
    destruct (pqueue st); [injection Hrun as <-; eauto | discriminate].
  - destruct (found st) eqn:Ef; [injection Hrun as <-; eauto|].
    destruct (pqueue st) as [|current rest] eqn:Eq;
      [injection Hrun as <-; eauto|].
    destruct ((col current =? col end_) && (row current =? row end_)).
    { injection Hrun as <-. exists closed, L. exact HJ. }
    destruct (HQ eq_refl) as [Q1 [Q2 Q3]]. rewrite Eq in Q1, Q2, Q3.
    apply StronglySorted_inv in Q2. destruct Q2 as [Q2 Qhead].
    rewrite Forall_forall in Qhead.
    destruct HJ as [J3 [J4 [J5 J6]]].
    destruct (Q3 current (or_introl eq_refl)) as [Hcur HLc].
    set (st0 := mkPathState rest (pvisited st) (cameFrom st) false) in *.
    destruct (pathScan_levels current closed (depthIn (cameFrom st) current)
                (getNeighbors (col current) (row current)
                              (gridWidth g) (gridHeight g)) st0)
      as [Sfound Sopen]; auto.
    + unfold pathFrontier, st0. cbn [pvisited cameFrom].
      split; [|split; [|split]].
      * intros v Hv. destruct (Q1 v Hv) as [H | [<- | H]]; auto.
      * exact J4.
      * intros v Hv. specialize (J5 v Hv). lia.
      * intros v Hv. destruct (J6 v Hv) as [H1 H2]. split; [exact H1 | lia].
    + unfold st0. cbn [pvisited pqueue]. intros v Hv.
      destruct (Q1 v Hv) as [H | [<- | H]]; auto.
    + unfold st0. cbn [pqueue cameFrom pvisited]. intros q Hin.
      split; [apply Q3; now right | apply Qhead; exact Hin].
    + intros b Hb. right. apply legalStep_code in Hb. tauto.
    + destruct (found (pathScan g end_ false current
                   (getNeighbors (col current) (row current)
                                 (gridWidth g) (gridHeight g)) st0)) eqn:Ef1.
      * rewrite (path_loop_found fuel false _ Ef1) in Hrun.
        injection Hrun as <-. eauto.
      * destruct (Sopen eq_refl) as [HJ1 HQ1].
        apply (IH _ _ _ _ Hrun HJ1). intros _. exact HQ1.
Qed.

(** No walk from the start is shorter than the depth at which the search
    recorded the tile it leads to; a walk that leaves the visited tiles
    is longer than the frontier is deep. *)
Lemma pathFrontier_lower (st : PathState) (closed : list Pos) (L : nat) :
  pathFrontier g st closed L ->
  In start (pvisited st) -> depthIn (cameFrom st) start = 0%nat ->
  forall m t, walk g start m t ->
    (In t (pvisited st) /\ (depthIn (cameFrom st) t <= m)%nat) \/ (S L <= m)%nat.
Proof.
  intros [J3 [J4 [J5 J6]]] Hstart H0 m t Hwalk.
  induction Hwalk as [|m a b Hwalk IH Hstep].
  - left. split; [exact Hstart | lia].
  - destruct IH as [[Ha Hd] | Hm]; [|right; lia].
    destruct (J3 a Ha) as [Hc | HL]; [|right; lia].
    destruct (J4 a b Hc Hstep) as [Hb Hdb]. left. split; [exact Hb | lia].
Qed.

End PathLevels.

Lemma legalPath_walk (g : GridManager) : forall path origin n a,
  walk g origin n a -> legalPath g a path ->
  walk g origin (n + length path) (last path a).
Proof.
  induction path as [|p path IH]; intros origin n a Hw Hl.
  - simpl. now rewrite Nat.add_0_r.
  - destruct Hl as [Hs Hl]. cbn [length].
    replace (n + S (length path))%nat with (S n + length path)%nat by lia.
    replace (last (p :: path) a) with (last path p).
    + apply IH; [econstructor; eauto | exact Hl].
    + destruct path as [|y path]; [reflexivity|].
      symmetry. apply (last_default path y a p).
Qed.

(** A path [findPath] returns is as short as any walk from the start to
    the end. *)
Lemma findPath_minimal (g : GridManager) (start end_ : Pos) (fuel : nat)
      (path : list Pos) :
  (gridBudget g <= fuel)%nat ->
  findPath fuel g start end_ = Some (Some path) ->
  forall m, walk g start m end_ -> (length path <= m)%nat.
Proof.
  intros Hfuel. unfold findPath, _findPathBFS. cbv zeta.
  destruct ((col start =? col end_) && (row start =? row end_)) eqn:Ese.
  { intros H. injection H as <-. simpl. lia. }
  assert (Hne : start <> end_).
  { intros ->. rewrite !Z.eqb_refl in Ese. discriminate. }
  destruct (isWalkable g (col end_) (row end_)) eqn:Ew; cbn [negb];
    [|discriminate].
  destruct (path_loop_total g start end_ false fuel
              (mkPathState [start] [start] [] false)) as [st [E Hinv]].
  { constructor; simpl; auto; [contradiction | discriminate]. }
  { simpl. pose proof (unvisitedCount_le g [start]).
    unfold gridBudget in Hfuel. lia. }
  rewrite E.
  destruct (path_loop_levels g end_ fuel _ st [] 0%nat E) as [closed [L HJ]].
  { unfold pathFrontier. cbn [pvisited cameFrom depthIn].
    split; [|split; [|split]].
    - intros v _. right. lia.
    - intros v b [].
    - intros v _. lia.
    - intros v []. }
  { intros _. unfold pathQueueOrder. cbn [pvisited pqueue cameFrom depthIn].
    split; [|split].
    - intros v Hv. now right.
    - constructor; [constructor | constructor].
    - intros q Hq. split; [exact Hq | lia]. }
  destruct (found st) eqn:Ef; cbn [negb]; [|discriminate].
  intros Hr m Hwalk.
  pose proof (rebuild_loop_length start (cameFrom st) (pinv_chain Hinv)
                                  fuel end_ [] path Hr) as Hlen.
  simpl in Hlen. rewrite Nat.add_0_r in Hlen. rewrite Hlen.
  assert (Hstart : In start (pvisited st)).
  { rewrite (pinv_visited Hinv). apply in_app_iff. right. now left. }
  pose proof (pinv_found Hinv Ef) as Hend.
  destruct (pathFrontier_lower g start st closed L HJ Hstart
              (depthIn_start start (cameFrom st) (pinv_chain Hinv))
              m end_ Hwalk) as [[_ Hd] | Hm]; [exact Hd|].
  destruct HJ as [_ [_ [J5 _]]]. specialize (J5 end_ Hend). lia.
Qed.

(** ** The corner rule in both searches *)







(** X23. Given the budget of the grid, a path [findPath] returns is a
    shortest one: its number of tiles (the start is not part of it) is
    the length of a walk of legal steps from the start to the end, and
    no walk of legal steps from the start to the end, of whatever shape,
    is shorter. *)
Theorem findPath_shortest (g : GridManager) (start end_ : Pos) (fuel : nat)
        (path : list Pos) :
  (gridBudget g <= fuel)%nat ->
  findPath fuel g start end_ = Some (Some path) ->
  trueCost g start end_ (Z.of_nat (length path)).
Proof.
  intros Hfuel Hrun. exists (length path). split; [reflexivity|]. split.
  - destruct (findPath_result g start end_ fuel Hfuel) as [r [E Hres]].
    rewrite Hrun in E. injection E as <-.
    destruct Hres as [Hl [Hlast _]]. rewrite <- Hlast.
    apply (legalPath_walk g path start 0 start); [constructor | exact Hl].
  - apply (findPath_minimal g start end_ fuel path Hfuel Hrun).
Qed.

Lemma findPath_shortest_witness :
  (gridBudget cornerMap <= 20)%nat
  /\ findPath 20 cornerMap (mkPos 0 0) (mkPos 2 0)
     = Some (Some [mkPos 0 1; mkPos 1 1; mkPos 2 1; mkPos 2 0])
  /\ trueCost cornerMap (mkPos 0 0) (mkPos 2 0) 4.
Proof.
  assert (H : (gridBudget cornerMap <= 20)%nat) by (vm_compute; lia).
  assert (E : findPath 20 cornerMap (mkPos 0 0) (mkPos 2 0)
              = Some (Some [mkPos 0 1; mkPos 1 1; mkPos 2 1; mkPos 2 0]))
    by (vm_compute; reflexivity).
  split; [exact H|]. split; [exact E|].
  apply (findPath_shortest cornerMap (mkPos 0 0) (mkPos 2 0) 20 _ H E).
Defined.

(** X24. For every tile [getMovementRange] returns, [findPath] from the
    origin to that tile, given the budget of the grid, returns a path of
    exactly as many tiles as the cost reported for the tile, which is at
    most the movement allowance: the unit walks as many steps as the
    highlighted range promised, never more than its allowance. *)
Theorem path_length_is_range_cost (g : GridManager) (c r moveRange : Z)
        (n : RangeNode) (fuel : nat) :
  In n (getMovementRange g c r moveRange) ->
  (gridBudget g <= fuel)%nat ->
  exists path,
    findPath fuel g (mkPos c r) (ntile n) = Some (Some path)
    /\ Z.of_nat (length path) = cost n
    /\ Z.of_nat (length path) <= moveRange.
Proof.
  intros Hn Hfuel.
  destruct (range_node_path g c r moveRange n fuel Hn Hfuel)
    as [p [path [E [Hl Hlast]]]].
  exists (p :: path). split; [exact E|].
  destruct (range_node_walk g c r moveRange n Hn) as [Hc [Hwalk _]].
  pose proof (findPath_minimal g (mkPos c r) (ntile n) fuel (p :: path)
                               Hfuel E _ Hwalk) as Hup.
  assert (Hlow : cost n <= Z.of_nat (length (p :: path))).
  { destruct (getMovementRange_inv g c r moveRange)
      as [processed [visited [_ [Hres Hinv]]]].
    rewrite Hres in Hn. apply filter_In in Hn. destruct Hn as [Hn Hpos].
    apply Z.gtb_lt in Hpos.
    destruct (final_optimal g (mkPos c r) moveRange processed visited Hinv n
                            Hn Hpos) as [[k [Hk [_ Hmin]]] _].
    pose proof (legalPath_walk g (p :: path) (mkPos c r) 0 (mkPos c r)
                               (walk_here g (mkPos c r)) Hl) as Hw.
    rewrite Hlast in Hw. specialize (Hmin _ Hw). lia. }
  lia.
Qed.

Lemma path_length_is_range_cost_witness :
  In (mkNode (mkPos 2 0) 4) (getMovementRange cornerMap 0 0 4)
  /\ (gridBudget cornerMap <= 20)%nat
  /\ exists path,
       findPath 20 cornerMap (mkPos 0 0) (mkPos 2 0) = Some (Some path)
       /\ Z.of_nat (length path) = 4
       /\ Z.of_nat (length path) <= 4.
Proof.
  assert (Hin : In (mkNode (mkPos 2 0) 4) (getMovementRange cornerMap 0 0 4)).
  { vm_compute. repeat (try (left; reflexivity); right). }
  assert (Hfuel : (gridBudget cornerMap <= 20)%nat) by (vm_compute; lia).
  split; [exact Hin|]. split; [exact Hfuel|].
  apply (path_length_is_range_cost cornerMap 0 0 4 (mkNode (mkPos 2 0) 4) 20
           Hin Hfuel).
Defined.

(* ------------------------------------------------------------------ *)
(** ** The squads as deployed *)
(* ------------------------------------------------------------------ *)

Lemma newRef_above (st : Game) (x : UnitRef) :
  In x (units st) -> (x < newRef st)%nat.
Proof.
  unfold newRef. induction (units st) as [|y l IH]; cbn [map fold_right In];
    [contradiction|].
  intros [-> | H]; [lia|]. specialize (IH H). lia.
Qed.

Lemma newRef_fresh (st : Game) : ~ In (newRef st) (units st).
Proof. intros H. apply newRef_above in H. lia. Qed.

Lemma NoDup_indices (n : nat) : NoDup (map Z.of_nat (seq 0 n)).
Proof.
  apply Finite.Injective_map_NoDup; [|apply seq_NoDup].
  intros a b H. lia.
Qed.

Lemma In_indices (n : Z) (c : Z) :
  In c (map Z.of_nat (seq 0 (Z.to_nat n))) <-> 0 <= c < n.
Proof.
  rewrite in_map_iff. split.
  - intros [i [<- Hi]]. apply in_seq in Hi. lia.
  - intros Hc. exists (Z.to_nat c). split; [lia|]. apply in_seq. lia.
Qed.

Lemma zoneIs_true (z : option Faction) (f : Faction) :
  zoneIs z f = true <-> z = Some f.
Proof.
  destruct z as [[|]|], f; simpl; split; intros H;
    try reflexivity; try discriminate; congruence.
Qed.

(** The spawn tiles of a faction are the tiles of the grid marked with
    its id. *)
Lemma In_getSpawnTiles (g : GridManager) (f : Faction) (p : Pos) :
  In p (getSpawnTiles g f)
  <-> inBounds (gridWidth g) (gridHeight g) (col p) (row p) = true
      /\ spawnZone (tiles g (col p) (row p)) = Some f.
Proof.
  unfold getSpawnTiles. rewrite in_flat_map. split.
  - intros [c [Hc Hin]]. apply in_flat_map in Hin. destruct Hin as [r [Hr Hin]].
    apply In_indices in Hc, Hr.
    destruct (zoneIs (spawnZone (tiles g c r)) f) eqn:Ez; [|contradiction].
    destruct Hin as [<- | []]. cbn [col row].
    split; [|apply zoneIs_true; exact Ez].
    unfold inBounds. rewrite !andb_true_iff. lia.
  - intros [Hb Hz]. unfold inBounds in Hb. rewrite !andb_true_iff in Hb.
    exists (col p). split; [apply In_indices; lia|].
    apply in_flat_map. exists (row p). split; [apply In_indices; lia|].
    apply zoneIs_true in Hz. rewrite Hz. left. destruct p; reflexivity.
Qed.

Lemma NoDup_getSpawnTiles (g : GridManager) (f : Faction) :
  NoDup (getSpawnTiles g f).
Proof.
  unfold getSpawnTiles. apply NoDup_flat_map_tiles.
  - apply NoDup_indices.
  - intros c. apply NoDup_flat_map_tiles.
    + apply NoDup_indices.
    + intros r. destruct (zoneIs _ _); repeat constructor; simpl; tauto.
    + intros r r' p Hp Hp'.
      destruct (zoneIs (spawnZone (tiles g c r)) f); [|contradiction].
      destruct (zoneIs (spawnZone (tiles g c r')) f); [|contradiction].
      destruct Hp as [<- | []], Hp' as [H | []]. now injection H.
  - intros c c' p Hp Hp'.
    apply in_flat_map in Hp, Hp'.
    destruct Hp as [r [_ Hp]], Hp' as [r' [_ Hp']].
    destruct (zoneIs (spawnZone (tiles g c r)) f); [|contradiction].
    destruct (zoneIs (spawnZone (tiles g c' r')) f); [|contradiction].
    destruct Hp as [<- | []], Hp' as [H | []]. now injection H.
Qed.

(** The spawn tiles depend on the size of the grid and the zone marks
    only. *)
Lemma getSpawnTiles_zones (g g' : GridManager) (f : Faction) :
  gridWidth g' = gridWidth g -> gridHeight g' = gridHeight g ->
  (forall c r, spawnZone (tiles g' c r) = spawnZone (tiles g c r)) ->
  getSpawnTiles g' f = getSpawnTiles g f.
Proof.
  intros Hw Hh Hz. unfold getSpawnTiles. rewrite Hw, Hh.
  apply flat_map_ext. intros c. apply flat_map_ext. intros r.
  now rewrite Hz.
Qed.

Lemma healthy_newUnit (f : Faction) (c r : Z) : healthy (newUnit f c r).
Proof.
  unfold healthy, newUnit. cbn.
  split; [unfold CONSTANTS.hp; lia|].
  split; [intros _; split; [unfold CONSTANTS.hp; lia | discriminate]
         | discriminate].
Qed.

Lemma setOccupant_zone (g : GridManager) (c r : Z) (u : UnitRef) :
  gridWidth (setOccupant g c r u) = gridWidth g
  /\ gridHeight (setOccupant g c r u) = gridHeight g
  /\ forall c' r', spawnZone (tiles (setOccupant g c r u) c' r')
                   = spawnZone (tiles g c' r').
Proof.
  unfold setOccupant. destruct (getTile g c r); [|auto].
  unfold updTile. cbn. split; [reflexivity|]. split; [reflexivity|].
  intros c' r'. destruct ((c' =? c) && (r' =? r)); reflexivity.
Qed.

(** [createUnit] on a tile of the grid nobody stands on. *)
Lemma createUnit_occupancy (st : Game) (f : Faction) (c r : Z) (t : Tile) :
  getTile (grid st) c r = Some t -> occupant t = None ->
  occupancy st -> occupancy (createUnit st f c r).
Proof.
  intros Hget Hfree [O1 O2]. unfold createUnit. cbv zeta.
  set (u := newRef st).
  assert (Hold : forall x, In x (units st) -> Nat.eqb x u = false).
  { intros x Hx. apply Nat.eqb_neq. intros ->. apply (newRef_fresh st Hx). }
  split; cbn [grid units unit].
  - intros x Hx Halive. apply in_app_iff in Hx.
    destruct Hx as [Hx | [<- | []]].
    + rewrite (Hold x Hx) in *.
      destruct (O1 x Hx Halive) as [t' [Ht' Hocc]].
      rewrite getTile_setOccupant, Ht'.
      destruct ((col (tile (unit st x)) =? c) && (row (tile (unit st x)) =? r))
        eqn:E.
      * apply andb_true_iff in E. destruct E as [Ec Er].
        apply Z.eqb_eq in Ec, Er. rewrite Ec, Er in Ht'. congruence.
      * eauto.
    + rewrite Nat.eqb_refl. cbn [newUnit tile col row].
      rewrite getTile_setOccupant, Hget, !Z.eqb_refl. cbn [andb].
      eexists. split; [reflexivity | reflexivity].
  - intros c' r' t' x Hget' Hocc. rewrite getTile_setOccupant in Hget'.
    destruct (getTile (grid st) c' r') as [t0|] eqn:E0; [|discriminate].
    injection Hget' as <-.
    destruct ((c' =? c) && (r' =? r)) eqn:E.
    + apply andb_true_iff in E. destruct E as [Ec Er].
      apply Z.eqb_eq in Ec, Er. subst c' r'.
      cbn [withOccupant occupant] in Hocc. injection Hocc as <-.
      rewrite Nat.eqb_refl. cbn [newUnit alive tile].
      split; [apply in_app_iff; right; now left|]. split; reflexivity.
    + destruct (O2 c' r' t0 x E0 Hocc) as [Hx [Ha Ht]].
      rewrite (Hold x Hx).
      split; [apply in_app_iff; now left|]. split; assumption.
Qed.

(** The loop of [spawnSquad] over distinct free tiles of the grid. *)
Lemma spawn_loop (f : Faction) : forall cands st,
  NoDup cands ->
  (forall p, In p cands ->
     exists t, getTile (grid st) (col p) (row p) = Some t /\ occupant t = None) ->
  occupancy st -> NoDup (units st) -> allHealthy st ->
  let st' := fold_left (fun st0 t => createUnit st0 f (col t) (row t)) cands st in
  occupancy st' /\ NoDup (units st') /\ allHealthy st'
  /\ (exists news, units st' = units st ++ news
                   /\ length news = length cands
                   /\ forall u, In u news ->
                        exists p, In p cands
                                  /\ unit st' u = newUnit f (col p) (row p))
  /\ (forall x, In x (units st) -> unit st' x = unit st x)
  /\ gridWidth (grid st') = gridWidth (grid st)
  /\ gridHeight (grid st') = gridHeight (grid st)
  /\ (forall c r, spawnZone (tiles (grid st') c r)
                  = spawnZone (tiles (grid st) c r))
  /\ (forall c r t', getTile (grid st') c r = Some t' ->
        In (mkPos c r) cands
        \/ exists t, getTile (grid st) c r = Some t /\ occupant t' = occupant t)
  /\ playerFaction st' = playerFaction st /\ aiFaction st' = aiFaction st
  /\ activeUnit st' = activeUnit st
  /\ activationQueue st' = activationQueue st.
Proof.
  induction cands as [|p cands IH]; intros st Hnd Hfree Hocc Hunits Hh;
    cbn [fold_left]; cbv zeta.
  - split; [exact Hocc|]. split; [exact Hunits|]. split; [exact Hh|].
    split.
    { exists []. rewrite app_nil_r. split; [reflexivity|].
      split; [reflexivity | intros u []]. }
    split; [auto|]. split; [reflexivity|]. split; [reflexivity|].
    split; [auto|]. split; [|auto].
    intros c r t' Ht'. right. eauto.
  - inversion Hnd as [|? ? Hp Hnd']; subst.
    destruct (Hfree p (or_introl eq_refl)) as [t [Hget Hnone]].
    set (st1 := createUnit st f (col p) (row p)).
    assert (Hu1 : units st1 = units st ++ [newRef st]) by reflexivity.
    assert (Hother : forall x, In x (units st) -> unit st1 x = unit st x).
    { intros x Hx. unfold st1, createUnit. cbn [unit].
      destruct (Nat.eqb x (newRef st)) eqn:E; [|reflexivity].
      apply Nat.eqb_eq in E. subst x. exfalso. apply (newRef_fresh st Hx). }
    assert (Hnew : unit st1 (newRef st) = newUnit f (col p) (row p)).
    { unfold st1, createUnit. cbn [unit]. now rewrite Nat.eqb_refl. }
    destruct (setOccupant_zone (grid st) (col p) (row p) (newRef st))
      as [Hw1 [Hh1 Hz1]].
    destruct (IH st1 Hnd') as [I1 [I2 [I3 [[news [I4 [I5 I6]]]
                                 [I7 [I8 [I9 [I10 [I11 [I12 [I13 [I14 I15]]]]]]]]]]]].
    + intros q Hq.
      destruct (Hfree q (or_intror Hq)) as [tq [Hgq Hnq]].
      exists tq. split; [|exact Hnq].
      unfold st1, createUnit. cbn [grid].
      rewrite getTile_setOccupant, Hgq.
      destruct ((col q =? col p) && (row q =? row p)) eqn:E; [|reflexivity].
      apply andb_true_iff in E. destruct E as [Ec Er].
      apply Z.eqb_eq in Ec, Er. exfalso. apply Hp.
      replace p with q; [exact Hq|]. destruct p, q. cbn in *. congruence.
    + apply (createUnit_occupancy st f (col p) (row p) t Hget Hnone Hocc).
    + rewrite Hu1. apply NoDup_app; [exact Hunits | repeat constructor; simpl; tauto|].
      intros x Hx [<- | []]. apply (newRef_fresh st Hx).
    + intros x. unfold st1, createUnit. cbn [unit].
      destruct (Nat.eqb x (newRef st)); [apply healthy_newUnit | apply Hh].
    + fold st1.
      split; [exact I1|]. split; [exact I2|]. split; [exact I3|].
      split.
      { exists (newRef st :: news). rewrite I4, Hu1, <- app_assoc.
        split; [reflexivity|]. split; [simpl; now rewrite I5|].
        intros u [<- | Hu].
        - exists p. split; [now left|]. rewrite I7; [exact Hnew|].
          rewrite Hu1. apply in_app_iff. right. now left.
        - destruct (I6 u Hu) as [q [Hq Hunit]]. exists q. split; [now right | exact Hunit]. }
      split.
      { intros x Hx. rewrite I7; [apply Hother; exact Hx|].
        rewrite Hu1. apply in_app_iff. now left. }
      split; [rewrite I8; exact Hw1|]. split; [rewrite I9; exact Hh1|].
      split; [intros c r; rewrite I10; apply Hz1|].
      split.
      { intros c r t' Ht'. destruct (I11 c r t' Ht') as [Hin | [t1 [Ht1 Ho]]].
        - left. now right.
        - unfold st1, createUnit in Ht1. cbn [grid] in Ht1.
          rewrite getTile_setOccupant in Ht1.
          destruct (getTile (grid st) c r) as [t0|] eqn:E0; [|discriminate].
          injection Ht1 as <-.
          destruct ((c =? col p) && (r =? row p)) eqn:E.
          + apply andb_true_iff in E. destruct E as [Ec Er].
            apply Z.eqb_eq in Ec, Er. subst c r. left. left.
            destruct p; reflexivity.
          + right. exists t0. split; [reflexivity | exact Ho]. }
      split; [rewrite I12; reflexivity|]. split; [rewrite I13; reflexivity|].
      split; [rewrite I14; reflexivity | rewrite I15; reflexivity].
Qed.

Lemma NoDup_firstn {A : Type} (n : nat) (l : list A) :
  NoDup l -> NoDup (firstn n l).
Proof.
  intros H. rewrite <- (firstn_skipn n l) in H.
  apply NoDup_app_remove_r in H. exact H.
Qed.

Lemma In_firstn {A : Type} (n : nat) (l : list A) (x : A) :
  In x (firstn n l) -> In x l.
Proof.
  intros H. rewrite <- (firstn_skipn n l). apply in_app_iff. now left.
Qed.

Lemma filter_all {A : Type} (p : A -> bool) (l : list A) :
  (forall x, In x l -> p x = true) -> filter p l = l.
Proof.
  induction l as [|a l IH]; intros H; simpl; [reflexivity|].
  rewrite (H a (or_introl eq_refl)). f_equal. apply IH.
  intros x Hx. apply H. now right.
Qed.

Lemma filter_none {A : Type} (p : A -> bool) (l : list A) :
  (forall x, In x l -> p x = false) -> filter p l = [].
Proof.
  induction l as [|a l IH]; intros H; simpl; [reflexivity|].
  rewrite (H a (or_introl eq_refl)). apply IH.
  intros x Hx. apply H. now right.
Qed.

(** X25. On a loaded map on which nobody stands yet, the two
    [spawnSquad] calls of [init] leave the session in good order: the
    sides are distinct, every unit object keeps the hit point
    bookkeeping, grid and units agree on who stands where, no unit is
    active and the queue is empty.  The roster has no duplicates; each
    faction has as many units as it has spawn tiles, five at most; and
    every unit is a newly built one (full hit points and action points,
    Ready, not activated) standing on a spawn tile of its own faction,
    no two of them on the same tile. *)
Theorem squads_spawn_in_good_order (g : GridManager) :
  (forall c r t, getTile g c r = Some t -> occupant t = None) ->
  let st := deploy (newSession g) in
  wellFormed st
  /\ NoDup (units st)
  /\ (forall f,
        length (filter (fun u => faction_eqb (faction (unit st u)) f) (units st))
        = Nat.min (squadSize f) (length (getSpawnTiles g f)))
  /\ (forall u, In u (units st) ->
        unit st u = newUnit (faction (unit st u)) (col (tile (unit st u)))
                            (row (tile (unit st u)))
        /\ In (tile (unit st u)) (getSpawnTiles g (faction (unit st u))))
  /\ (forall u v, In u (units st) -> In v (units st) ->
        tile (unit st u) = tile (unit st v) -> u = v).
Proof.
  intros Hempty. unfold deploy, spawnSquad. cbv zeta.
  set (st0 := newSession g).
  set (T1 := firstn (squadSize orderOfTheAbyss) (getSpawnTiles (grid st0) orderOfTheAbyss)).
  assert (Hocc0 : occupancy st0).
  { split.
    - intros u [].
    - intros c r t x Hget Ho. rewrite (Hempty c r t Hget) in Ho. discriminate. }
  assert (Hh0 : allHealthy st0) by (intros r; apply healthy_newUnit).
  assert (HT1 : forall p, In p T1 -> In p (getSpawnTiles g orderOfTheAbyss))
    by (intros p Hp; apply (In_firstn _ _ _ Hp)).
  destruct (spawn_loop orderOfTheAbyss T1 st0)
    as [A1 [A2 [A3 [[news1 [A4 [A5 A6]]]
            [A7 [A8 [A9 [A10 [A11 [A12 [A13 [A14 A15]]]]]]]]]]]]; auto.
  { apply NoDup_firstn, NoDup_getSpawnTiles. }
  { intros p Hp. apply HT1, In_getSpawnTiles in Hp. destruct Hp as [Hb _].
    pose proof (getTile_inBounds g (col p) (row p)) as Hg. rewrite Hb in Hg.
    exists (tiles g (col p) (row p)). split; [exact Hg|].
    apply (Hempty _ _ _ Hg). }
  { apply NoDup_nil. }
  set (st1 := fold_left (fun st0 t => createUnit st0 orderOfTheAbyss (col t) (row t))
                        T1 st0) in *.
  assert (Hsp2 : getSpawnTiles (grid st1) germani = getSpawnTiles g germani)
    by (apply getSpawnTiles_zones; auto).
  rewrite Hsp2.
  set (T2 := firstn (squadSize germani) (getSpawnTiles g germani)).
  assert (HT2 : forall p, In p T2 -> In p (getSpawnTiles g germani))
    by (intros p Hp; apply (In_firstn _ _ _ Hp)).
  destruct (spawn_loop germani T2 st1)
    as [B1 [B2 [B3 [[news2 [B4 [B5 B6]]]
            [B7 [B8 [B9 [B10 [B11 [B12 [B13 [B14 B15]]]]]]]]]]]]; auto.
  { apply NoDup_firstn, NoDup_getSpawnTiles. }
  { intros p Hp. pose proof (HT2 p Hp) as Hz. apply In_getSpawnTiles in Hz.
    destruct Hz as [Hb Hz].
    pose proof (getTile_inBounds (grid st1) (col p) (row p)) as Hg.
    rewrite A8, A9 in Hg. change (grid st0) with g in Hg. rewrite Hb in Hg.
    exists (tiles (grid st1) (col p) (row p)). split; [exact Hg|].
    destruct (A11 _ _ _ Hg) as [Hin | [t [Ht Ho]]].
    - exfalso. replace (mkPos (col p) (row p)) with p in Hin
        by (destruct p; reflexivity).
      apply HT1, In_getSpawnTiles in Hin. destruct Hin as [_ Hz1].
      rewrite Hz in Hz1. discriminate.
    - rewrite Ho. apply (Hempty _ _ _ Ht). }
  set (st2 := fold_left (fun st0 t => createUnit st0 germani (col t) (row t))
                        T2 st1) in *.
  assert (Hu2 : units st2 = news1 ++ news2).
  { rewrite B4, A4. reflexivity. }
  assert (Hn1 : forall u, In u news1 ->
            exists p, In p T1 /\ unit st2 u = newUnit orderOfTheAbyss (col p) (row p)).
  { intros u Hu. destruct (A6 u Hu) as [p [Hp Hunit]]. exists p.
    split; [exact Hp|]. rewrite B7; [exact Hunit|].
    rewrite A4. apply in_app_iff. now right. }
  split.
  { split; [rewrite B12, B13, A12, A13; unfold st0; cbn; discriminate|].
    split; [exact B3|]. split; [exact B1|]. split.
    - intros u Hu. rewrite B14, A14 in Hu. unfold st0 in Hu. cbn in Hu.
      discriminate.
    - intros u Hu. rewrite B15, A15 in Hu. unfold st0 in Hu. cbn in Hu.
      destruct Hu. }
  split; [exact B2|].
  split.
  { intros f. rewrite Hu2, filter_app, length_app.
    destruct f.
    - rewrite filter_all, filter_none.
      + simpl length at 2. rewrite Nat.add_0_r, A5. apply length_firstn.
      + intros u Hu. destruct (B6 u Hu) as [p [_ ->]]. reflexivity.
      + intros u Hu. destruct (Hn1 u Hu) as [p [_ ->]]. reflexivity.
    - rewrite filter_none, filter_all.
      + simpl length at 1. rewrite B5. apply length_firstn.
      + intros u Hu. destruct (B6 u Hu) as [p [_ ->]]. reflexivity.
      + intros u Hu. destruct (Hn1 u Hu) as [p [_ ->]]. reflexivity. }
  assert (Hnew : forall u, In u (units st2) ->
            unit st2 u = newUnit (faction (unit st2 u)) (col (tile (unit st2 u)))
                                 (row (tile (unit st2 u)))
            /\ In (tile (unit st2 u)) (getSpawnTiles g (faction (unit st2 u)))).
  { intros u Hu. rewrite Hu2 in Hu. apply in_app_iff in Hu.
    destruct Hu as [Hu | Hu].
    - destruct (Hn1 u Hu) as [p [Hp ->]]. cbn [newUnit faction tile col row].
      split; [reflexivity|].
      replace (mkPos (col p) (row p)) with p by (destruct p; reflexivity).
      apply HT1. exact Hp.
    - destruct (B6 u Hu) as [p [Hp ->]]. cbn [newUnit faction tile col row].
      split; [reflexivity|].
      replace (mkPos (col p) (row p)) with p by (destruct p; reflexivity).
      apply HT2. exact Hp. }
  split; [exact Hnew|].
  intros u v Hu Hv. apply (occupancy_distinct st2 u v B1 Hu Hv).
  - destruct (Hnew u Hu) as [-> _]. reflexivity.
  - destruct (Hnew v Hv) as [-> _]. reflexivity.
Qed.

Lemma squads_spawn_in_good_order_witness :
  (forall c r t, getTile spawnMap c r = Some t -> occupant t = None)
  /\ wellFormed (deploy (newSession spawnMap))
  /\ length (units (deploy (newSession spawnMap))) = 3%nat.
Proof.
  assert (H : forall c r t, getTile spawnMap c r = Some t -> occupant t = None).
  { intros c r t Hget. unfold spawnMap, setSpawnZone in Hget. cbn in Hget.
    rewrite !getTile_updTile in Hget.
    unfold getTile in Hget. cbn in Hget.
    destruct ((c <? 0) || (c >=? 4) || (r <? 0) || (r >=? 2)); [discriminate|].
    injection Hget as <-.
    repeat match goal with
           | |- context [if ?b then _ else _] => destruct b
           end; reflexivity. }
  split; [exact H|].
  split; [exact (proj1 (squads_spawn_in_good_order spawnMap H))|].
  vm_compute. reflexivity.
Defined.

(* ------------------------------------------------------------------ *)
(** ** Cover: the best tier wins *)
(* ------------------------------------------------------------------ *)

Lemma isFull_true (k : CoverType) : isFull k = true <-> k = CoverFull.
Proof. destruct k; simpl; split; congruence. Qed.

Lemma isHalf_true (k : CoverType) : isHalf k = true <-> k = CoverHalf.
Proof. destruct k; simpl; split; congruence. Qed.

Lemma fullObjectAt_spec (g : GridManager) (p : Pos) :
  fullObjectAt g p = true <-> coverObjectAt g CoverFull p.
Proof.
  unfold fullObjectAt, coverObjectAt.
  destruct (getTile g (col p) (row p)) as [t|].
  - rewrite andb_true_iff, isFull_true. split.
    + intros [H1 H2]. eauto.
    + intros [t' [E [H1 H2]]]. injection E as <-. auto.
  - split; [discriminate | intros [t' [E _]]; discriminate].
Qed.

Lemma halfObjectAt_spec (g : GridManager) (p : Pos) :
  halfObjectAt g p = true <-> coverObjectAt g CoverHalf p.
Proof.
  unfold halfObjectAt, coverObjectAt.
  destruct (getTile g (col p) (row p)) as [t|].
  - rewrite andb_true_iff, isHalf_true. split.
    + intros [H1 H2]. eauto.
    + intros [t' [E [H1 H2]]]. injection E as <-. auto.
  - split; [discriminate | intros [t' [E _]]; discriminate].
Qed.

(** One pass of the loop raises the best cover to the tier of the
    inspected tile, never lowers it. *)
Lemma coverStep_best (g : GridManager) (best : CoverResult) (p : Pos) :
  coverTier best ->
  coverStep g best p
  = if fullObjectAt g p || isFull (coverResultType best)
    then mkCoverResult CoverFull CONSTANTS.COVER_BONUS_full
    else if halfObjectAt g p || isHalf (coverResultType best)
         then mkCoverResult CoverHalf CONSTANTS.COVER_BONUS_half
         else mkCoverResult CoverNone 0%float.
Proof.
  intros Htier. unfold coverStep, fullObjectAt, halfObjectAt.
  destruct (getTile g (col p) (row p)) as [t|].
  - destruct (isFull (tileCover t) && hasObject t) eqn:Ef.
    + destruct Htier as [-> | [-> | ->]]; reflexivity.
    + destruct (isHalf (tileCover t) && hasObject t) eqn:Eh;
        destruct Htier as [-> | [-> | ->]]; reflexivity.
  - destruct Htier as [-> | [-> | ->]]; reflexivity.
Qed.

Lemma cover_fold_best (g : GridManager) : forall ps best,
  coverTier best ->
  fold_left (coverStep g) ps best
  = if existsb (fullObjectAt g) ps || isFull (coverResultType best)
    then mkCoverResult CoverFull CONSTANTS.COVER_BONUS_full
    else if existsb (halfObjectAt g) ps || isHalf (coverResultType best)
         then mkCoverResult CoverHalf CONSTANTS.COVER_BONUS_half
         else mkCoverResult CoverNone 0%float.
Proof.
  induction ps as [|p ps IH]; intros best Htier; cbn [fold_left existsb].
  - destruct Htier as [-> | [-> | ->]]; reflexivity.
  - rewrite IH by (apply coverStep_tier; exact Htier).
    rewrite (coverStep_best g best p Htier).
    destruct (fullObjectAt g p), (existsb (fullObjectAt g) ps),
             (halfObjectAt g p), (existsb (halfObjectAt g) ps),
             (isFull (coverResultType best)), (isHalf (coverResultType best));
      reflexivity.
Qed.

Lemma sign_cases (d : Z) :
  (d = 0 /\ sign d = 0) \/ (0 < d /\ sign d = 1) \/ (d < 0 /\ sign d = -1).
Proof.
  unfold sign. destruct (Z.eqb_spec d 0) as [E | E]; [now left|].
  destruct (d >? 0) eqn:Eg; lia.
Qed.

Lemma coverCheckPositions_near (a t p : Pos) :
  In p (coverCheckPositions a t) ->
  tileDistance t p = 1 /\ tileDistance a p <= tileDistance a t.
Proof.
  unfold coverCheckPositions, getTileDirection, tileDistance.
  cbv zeta. cbn [col row]. intros Hin.
  destruct (sign_cases (col t - col a)) as [[Hc Sc] | [[Hc Sc] | [Hc Sc]]];
    destruct (sign_cases (row t - row a)) as [[Hr Sr] | [[Hr Sr] | [Hr Sr]]];
    rewrite Sc, Sr in Hin; cbn in Hin;
    repeat (destruct Hin as [Hin | Hin]; [subst p; cbn [col row]; lia|]);
    contradiction.
Qed.

(** X26. [getCoverBetween] reports the best cover among the tiles it
    inspects, whatever their order: full exactly when one of them has
    full cover and a placed object; half exactly when none has that and
    one of them has half cover and a placed object; none otherwise.  The
    penalty is the one of the reported tier.  It inspects three tiles at
    most, each next to the target and no farther from the attacker than
    the target is. *)
Theorem getCoverBetween_best_cover (g : GridManager) (a t : Pos) :
  let ps := coverCheckPositions a t in
  let res := getCoverBetween g a t in
  (coverResultType res = CoverFull
   <-> exists p, In p ps /\ coverObjectAt g CoverFull p)
  /\ (coverResultType res = CoverHalf
      <-> (forall p, In p ps -> ~ coverObjectAt g CoverFull p)
          /\ exists p, In p ps /\ coverObjectAt g CoverHalf p)
  /\ penalty res = match coverResultType res with
                   | CoverFull => CONSTANTS.COVER_BONUS_full
                   | CoverHalf => CONSTANTS.COVER_BONUS_half
                   | CoverNone => 0%float
                   end
  /\ (forall p, In p ps ->
        tileDistance t p = 1 /\ tileDistance a p <= tileDistance a t)
  /\ (length ps <= 3)%nat.
Proof.
  cbv zeta. unfold getCoverBetween.
  rewrite cover_fold_best by (left; reflexivity).
  cbn [coverResultType isFull isHalf]. rewrite !orb_false_r.
  assert (Hfull : existsb (fullObjectAt g) (coverCheckPositions a t) = true
                  <-> exists p, In p (coverCheckPositions a t)
                                /\ coverObjectAt g CoverFull p).
  { rewrite existsb_exists. split; intros [p [Hp H]]; exists p;
      (split; [exact Hp | apply fullObjectAt_spec; exact H]). }
  assert (Hhalf : existsb (halfObjectAt g) (coverCheckPositions a t) = true
                  <-> exists p, In p (coverCheckPositions a t)
                                /\ coverObjectAt g CoverHalf p).
  { rewrite existsb_exists. split; intros [p [Hp H]]; exists p;
      (split; [exact Hp | apply halfObjectAt_spec; exact H]). }
  split; [|split; [|split; [|split]]].
  - rewrite <- Hfull.
    destruct (existsb (fullObjectAt g) _); [tauto|].
    destruct (existsb (halfObjectAt g) _); cbn; split; discriminate.
  - rewrite <- Hhalf.
    destruct (existsb (fullObjectAt g) (coverCheckPositions a t)) eqn:Ef.
    + cbn. split; [discriminate|]. intros [Hno _]. exfalso.
      destruct (proj1 Hfull eq_refl) as [p [Hp Hc]]. exact (Hno p Hp Hc).
    + assert (Hno : forall p, In p (coverCheckPositions a t) ->
                      ~ coverObjectAt g CoverFull p).
      { intros p Hp Hc.
        assert (false = true) by (apply Hfull; eauto).
        discriminate. }
      destruct (existsb (halfObjectAt g) _); cbn.
      * tauto.
      * split; [discriminate | intros [_ H]; discriminate].
  - destruct (existsb (fullObjectAt g) _); [reflexivity|].
    destruct (existsb (halfObjectAt g) _); reflexivity.
  - intros p Hp. apply coverCheckPositions_near. exact Hp.
  - unfold coverCheckPositions. cbv zeta. rewrite !length_app.
    destruct (negb _), (negb _); cbn; lia.
Qed.

(* ------------------------------------------------------------------ *)
(** ** Tiles next to cover *)
(* ------------------------------------------------------------------ *)

(** The inner loop, started below full cover. *)
Lemma bestAdjacentCover_best (g : GridManager) : forall neighbors best,
  best <> CoverFull ->
  bestAdjacentCover g neighbors best
  = if existsb (fullTile g) neighbors then CoverFull
    else if existsb (halfTile g) neighbors || isHalf best then CoverHalf
         else CoverNone.
Proof.
  induction neighbors as [|n more IH]; intros best Hbest;
    cbn [bestAdjacentCover existsb].
  - destruct best; [reflexivity | reflexivity | contradiction].
  - unfold fullTile at 1, halfTile at 1.
    destruct (getTile g (col n) (row n)) as [nTile|]; [|apply IH; exact Hbest].
    destruct (isFull (tileCover nTile)) eqn:Ef; [reflexivity|].
    cbn [orb].
    destruct (isHalf (tileCover nTile)) eqn:Eh.
    + assert (Hnf : negb (isFull best) = true) by (destruct best; auto; contradiction).
      rewrite Hnf. cbn [andb]. rewrite IH by discriminate.
      cbn [isHalf orb]. rewrite orb_true_r. reflexivity.
    + cbn [andb orb]. apply IH. exact Hbest.
Qed.

Lemma fullTile_next (g : GridManager) (t : Pos) :
  existsb (fullTile g)
          (getNeighbors (col t) (row t) (gridWidth g) (gridHeight g)) = true
  <-> coverNextTo g CoverFull t.
Proof.
  rewrite existsb_exists. unfold coverNextTo, fullTile. split.
  - intros [n [Hn H]]. apply In_getNeighbors in Hn. destruct Hn as [_ Hd].
    destruct (getTile g (col n) (row n)) as [nt|] eqn:E; [|discriminate].
    exists n, nt. apply isFull_true in H. auto.
  - intros [n [nt [Hd [E Hk]]]]. exists n. split.
    + apply In_getNeighbors. split; [|exact Hd].
      rewrite getTile_inBounds in E.
      destruct (inBounds (gridWidth g) (gridHeight g) (col n) (row n));
        [reflexivity | discriminate].
    + rewrite E. apply isFull_true. exact Hk.
Qed.

Lemma halfTile_next (g : GridManager) (t : Pos) :
  existsb (halfTile g)
          (getNeighbors (col t) (row t) (gridWidth g) (gridHeight g)) = true
  <-> coverNextTo g CoverHalf t.
Proof.
  rewrite existsb_exists. unfold coverNextTo, halfTile. split.
  - intros [n [Hn H]]. apply In_getNeighbors in Hn. destruct Hn as [_ Hd].
    destruct (getTile g (col n) (row n)) as [nt|] eqn:E; [|discriminate].
    exists n, nt. apply isHalf_true in H. auto.
  - intros [n [nt [Hd [E Hk]]]]. exists n. split.
    + apply In_getNeighbors. split; [|exact Hd].
      rewrite getTile_inBounds in E.
      destruct (inBounds (gridWidth g) (gridHeight g) (col n) (row n));
        [reflexivity | discriminate].
    + rewrite E. apply isHalf_true. exact Hk.
Qed.

(** X27. [getCoverAdjacentTiles] keeps, in their order, the search
    tiles that have a tile with half or full cover next to them and
    labels each with the best tier found: full exactly when some tile of
    the grid next to it has full cover, half exactly when none has full
    and some has half cover.  Only the cover tier of the neighbouring
    tile is read: no placed object is asked for. *)
Theorem getCoverAdjacentTiles_best (g : GridManager) (searchTiles : list Pos) :
  let res := getCoverAdjacentTiles g searchTiles in
  (forall t, In (t, CoverFull) res
             <-> In t searchTiles /\ coverNextTo g CoverFull t)
  /\ (forall t, In (t, CoverHalf) res
                <-> In t searchTiles /\ ~ coverNextTo g CoverFull t
                    /\ coverNextTo g CoverHalf t)
  /\ (forall t, ~ In (t, CoverNone) res)
  /\ map fst res
     = filter (fun t =>
                 existsb (fun n => fullTile g n || halfTile g n)
                         (getNeighbors (col t) (row t) (gridWidth g) (gridHeight g)))
              searchTiles.
Proof.
  cbv zeta.
  assert (Hbest : forall t,
            bestAdjacentCover g (getNeighbors (col t) (row t) (gridWidth g)
                                              (gridHeight g)) CoverNone
            = if existsb (fullTile g) (getNeighbors (col t) (row t) (gridWidth g)
                                                    (gridHeight g))
              then CoverFull
              else if existsb (halfTile g) (getNeighbors (col t) (row t)
                                              (gridWidth g) (gridHeight g))
                   then CoverHalf else CoverNone).
  { intros t. rewrite bestAdjacentCover_best by discriminate.
    cbn [isHalf]. rewrite orb_false_r. reflexivity. }
  assert (Hin : forall t k, In (t, k) (getCoverAdjacentTiles g searchTiles)
            <-> In t searchTiles /\ k <> CoverNone
                /\ bestAdjacentCover g (getNeighbors (col t) (row t) (gridWidth g)
                                                     (gridHeight g)) CoverNone = k).
  { intros t k. unfold getCoverAdjacentTiles. rewrite in_flat_map. split.
    - intros [s [Hs H]]. cbv zeta in H.
      destruct (bestAdjacentCover g _ CoverNone) eqn:E; [contradiction| |];
        destruct H as [H | []]; injection H as <- <-;
        (split; [exact Hs|]); (split; [discriminate | exact E]).
    - intros [Ht [Hk E]]. exists t. split; [exact Ht|]. cbv zeta. rewrite E.
      destruct k; [contradiction | now left | now left]. }
  split; [|split; [|split]].
  - intros t. rewrite Hin, Hbest, <- fullTile_next.
    destruct (existsb (fullTile g) _).
    + split.
      * intros [Ht _]. split; [exact Ht | reflexivity].
      * intros [Ht _]. split; [exact Ht|]. split; [discriminate | reflexivity].
    + split.
      * intros [_ [_ H]]. destruct (existsb (halfTile g) _); discriminate.
      * intros [_ H]. discriminate.
  - intros t. rewrite Hin, Hbest, <- fullTile_next, <- halfTile_next.
    destruct (existsb (fullTile g) _).
    + split.
      * intros [_ [_ H]]. discriminate.
      * intros [_ [H _]]. exfalso. apply H. reflexivity.
    + destruct (existsb (halfTile g) _).
      * split.
        -- intros [Ht _]. split; [exact Ht|]. split; [discriminate | reflexivity].
        -- intros [Ht _]. split; [exact Ht|]. split; [discriminate | reflexivity].
      * split.
        -- intros [_ [_ H]]. discriminate.
        -- intros [_ [_ H]]. discriminate.
  - intros t H. apply Hin in H. destruct H as [_ [H _]]. contradiction.
  - clear Hin. unfold getCoverAdjacentTiles.
    induction searchTiles as [|s rest IH]; [reflexivity|].
    cbn [flat_map filter]. rewrite map_app, IH. cbv zeta. rewrite Hbest.
    assert (Hor : existsb (fun n => fullTile g n || halfTile g n)
                    (getNeighbors (col s) (row s) (gridWidth g) (gridHeight g))
                  = existsb (fullTile g)
                      (getNeighbors (col s) (row s) (gridWidth g) (gridHeight g))
                    || existsb (halfTile g)
                         (getNeighbors (col s) (row s) (gridWidth g) (gridHeight g))).
    { induction (getNeighbors (col s) (row s) (gridWidth g) (gridHeight g))
        as [|n ns IHn]; [reflexivity|].
      cbn [existsb]. rewrite IHn.
      destruct (fullTile g n), (halfTile g n), (existsb (fullTile g) ns),
               (existsb (halfTile g) ns); reflexivity. }
    rewrite Hor.
    destruct (existsb (fullTile g) _); [reflexivity|].
    destruct (existsb (halfTile g) _); reflexivity.
Qed.

(* ------------------------------------------------------------------ *)
(** ** Facing and flanking *)
(* ------------------------------------------------------------------ *)

Lemma facing_struck (d : Z) (x : Unit) : facing (struck d x) = facing x.
Proof. unfold struck. destruct (hp x - d <=? 0); reflexivity. Qed.

Lemma facing_executeAttack st a t ty roll x :
  facing (unit (fst (executeAttack st a t ty roll)) x)
  = if Nat.eqb x a
    then getTileDirection (tile (unit st a)) (tile (unit st t))
    else facing (unit st x).
Proof.
  rewrite unit_executeAttack. cbv zeta. rewrite unit_afterRoll. cbv zeta.
  destruct (Nat.eqb x a) eqn:Exa.
  - apply Nat.eqb_eq in Exa. subst x. cbn [withAp facing].
    destruct (_ && _); [rewrite facing_struck|]; reflexivity.
  - destruct (_ && _); [rewrite facing_struck|]; reflexivity.
Qed.

(** Seen from a tile, a unit on another tile that faces this tile is
    not flanked. *)
Lemma checkFlanking_facing (from to : Pos) :
  from <> to ->
  checkFlanking to from (Some (getTileDirection from to)) = false.
Proof.
  intros Hne. unfold checkFlanking, getTileDirection. cbv zeta. cbn [col row].
  apply Z.leb_gt.
  destruct (sign_cases (col to - col from)) as [[Hc Sc] | [[Hc Sc] | [Hc Sc]]];
    destruct (sign_cases (row to - row from)) as [[Hr Sr] | [[Hr Sr] | [Hr Sr]]];
    rewrite Sc, Sr; try lia.
  exfalso. apply Hne. destruct from, to. cbn [col row] in *. f_equal; lia.
Qed.

(** X28. An attack turns the attacker towards its target and nobody
    else: after [executeAttack] on a target standing on another tile the
    attacker's facing is the direction of the target, every other
    unit's facing is as before (the target does not turn), and the
    target, attacking back from where it stands, does not flank the
    attacker: its ranged breakdown carries no flanking bonus and its
    melee chance is the plain 0.85. *)
Theorem attacker_faces_target (st : Game) (a t : UnitRef) (ty : AttackType)
        (roll : float) :
  tile (unit st a) <> tile (unit st t) ->
  let st' := fst (executeAttack st a t ty roll) in
  facing (unit st' a) = getTileDirection (tile (unit st a)) (tile (unit st t))
  /\ (forall x, x <> a -> facing (unit st' x) = facing (unit st x))
  /\ checkFlanking (tile (unit st' t)) (tile (unit st' a))
                   (Some (facing (unit st' a))) = false
  /\ flankingBonus (snd (calculateHitChance st' t a Ranged)) = None
  /\ fst (calculateHitChance st' t a Melee) = 0.85%float.
Proof.
  intros Hne. cbv zeta.
  assert (Hface : facing (unit (fst (executeAttack st a t ty roll)) a)
                  = getTileDirection (tile (unit st a)) (tile (unit st t))).
  { rewrite facing_executeAttack, Nat.eqb_refl. reflexivity. }
  assert (Hflank : checkFlanking
                     (tile (unit (fst (executeAttack st a t ty roll)) t))
                     (tile (unit (fst (executeAttack st a t ty roll)) a))
                     (Some (facing (unit (fst (executeAttack st a t ty roll)) a)))
                   = false).
  { rewrite Hface, !tile_executeAttack. apply checkFlanking_facing. exact Hne. }
  split; [exact Hface|]. split.
  { intros x Hx. rewrite facing_executeAttack.
    apply Nat.eqb_neq in Hx. rewrite Hx. reflexivity. }
  split; [exact Hflank|]. split.
  - unfold calculateHitChance. cbv zeta. cbn [snd flankingBonus].
    rewrite Hflank. reflexivity.
  - unfold calculateHitChance. cbv zeta. cbn [fst].
    rewrite Hflank. reflexivity.
Qed.

Lemma attacker_faces_target_witness :
  tile (unit duel 0%nat) <> tile (unit duel 1%nat)
  /\ facing (unit (fst (executeAttack duel 0%nat 1%nat Ranged 0%float)) 0%nat)
     = mkPos 1 0
  /\ fst (calculateHitChance (fst (executeAttack duel 0%nat 1%nat Ranged 0%float))
                             1%nat 0%nat Melee) = 0.85%float.
Proof.
  assert (H : tile (unit duel 0%nat) <> tile (unit duel 1%nat))
    by (cbn; discriminate).
  split; [exact H|].
  pose proof (attacker_faces_target duel 0%nat 1%nat Ranged 0%float H) as P.
  cbv zeta in P. destruct P as [P1 [_ [_ [_ P5]]]].
  split; [exact P1 | exact P5].
Defined.

(* ------------------------------------------------------------------ *)
(** ** What a session never gives back *)
(* ------------------------------------------------------------------ *)

Lemma declinesInTurn_refl (x : Unit) : declinesInTurn x x.
Proof. unfold declinesInTurn, declines. repeat split; auto; lia. Qed.

Lemma declinesInTurn_trans (x y z : Unit) :
  declinesInTurn x y -> declinesInTurn y z -> declinesInTurn x z.
Proof.
  intros [[A1 [A2 [A3 A4]]] A5] [[B1 [B2 [B3 B4]]] B5].
  split; [split; [|split; [|split]]|].
  - intros H. specialize (A1 H). assert (H' : 0 <= hp y) by lia.
    specialize (B1 H'). lia.
  - auto.
  - congruence.
  - congruence.
  - auto.
Qed.

(** A write that leaves hit points, aliveness, maximum and faction as
    they are, and the activation mark as it is or set. *)
Lemma declinesInTurn_fields (x y : Unit) :
  hp y = hp x -> alive y = alive x -> maxHp y = maxHp x ->
  faction y = faction x ->
  (activated y = activated x \/ activated y = true) ->
  declinesInTurn x y.
Proof.
  intros Hh Ha Hm Hf Hact.
  split; [split; [|split; [|split]]|].
  - rewrite Hh. lia.
  - rewrite Ha. auto.
  - exact Hm.
  - exact Hf.
  - intros H. destruct Hact as [-> | ->]; auto.
Qed.

Lemma declinesInTurn_struck (d : Z) (x : Unit) :
  0 < d -> declinesInTurn x (struck d x).
Proof.
  intros Hd. unfold struck.
  destruct (Z.leb_spec (hp x - d) 0) as [Hk | Hk].
  - split; [split; [|split; [|split]]|]; cbn; try reflexivity; auto.
    + lia.
    + discriminate.
  - split; [split; [|split; [|split]]|]; cbn; try reflexivity; auto.
    lia.
Qed.

Lemma laterInTurn_refl (st : Game) : laterInTurn st st.
Proof. split; [reflexivity | intros r; apply declinesInTurn_refl]. Qed.

Lemma laterInTurn_trans (st1 st2 st3 : Game) :
  laterInTurn st1 st2 -> laterInTurn st2 st3 -> laterInTurn st1 st3.
Proof.
  intros [U1 H1] [U2 H2]. split; [congruence|].
  intros r. eapply declinesInTurn_trans; eauto.
Qed.

(** A step that writes no unit object. *)
Lemma laterInTurn_same (st st' : Game) :
  units st' = units st -> (forall r, unit st' r = unit st r) ->
  laterInTurn st st'.
Proof.
  intros Hu H. split; [exact Hu|]. intros r. rewrite H.
  apply declinesInTurn_refl.
Qed.

Lemma laterInTurn_modify (st : Game) (u : UnitRef) (f : Unit -> Unit) :
  declinesInTurn (unit st u) (f (unit st u)) -> laterInTurn st (modify u f st).
Proof.
  intros H. split; [reflexivity|]. intros r. rewrite unit_modify.
  destruct (Nat.eqb r u) eqn:E; [|apply declinesInTurn_refl].
  apply Nat.eqb_eq in E. subst r. exact H.
Qed.

Lemma laterInTurn_executeAttack st a t ty roll :
  laterInTurn st (fst (executeAttack st a t ty roll)).
Proof.
  split; [apply units_executeAttack|]. intros r.
  rewrite unit_executeAttack, unit_afterRoll. cbv zeta.
  set (x1 := if Nat.eqb r a then withFacing _ (unit st r) else unit st r).
  assert (H1 : declinesInTurn (unit st r) x1).
  { unfold x1. destruct (Nat.eqb r a); [|apply declinesInTurn_refl].
    apply declinesInTurn_fields; auto. }
  set (x2 := if _ && Nat.eqb r t then struck (attackDamage ty) x1 else x1).
  assert (H2 : declinesInTurn x1 x2).
  { unfold x2. destruct (_ && Nat.eqb r t); [|apply declinesInTurn_refl].
    apply declinesInTurn_struck, attackDamage_pos. }
  eapply declinesInTurn_trans; [exact H1|].
  eapply declinesInTurn_trans; [exact H2|].
  destruct (Nat.eqb r a); [|apply declinesInTurn_refl].
  apply declinesInTurn_fields; auto.
Qed.

Lemma laterInTurn_executeOverwatchShot st w m roll :
  laterInTurn st (fst (executeOverwatchShot st w m roll)).
Proof.
  split; [apply units_executeOverwatchShot|]. intros r.
  rewrite unit_executeOverwatchShot.
  destruct (laterInTurn_executeAttack st w m Ranged roll) as [_ H].
  eapply declinesInTurn_trans; [apply H|].
  destruct (Nat.eqb r w); [|apply declinesInTurn_refl].
  apply declinesInTurn_fields; auto.
Qed.

Lemma laterInTurn_overwatchShots rng u : forall triggers n st,
  laterInTurn st (fst (fst (overwatchShots rng n st u triggers))).
Proof.
  induction triggers as [|w more IH]; intros n st; cbn [overwatchShots].
  - apply laterInTurn_refl.
  - pose proof (laterInTurn_executeOverwatchShot st w u (rng n)) as H1.
    destruct (executeOverwatchShot st w u (rng n)) as [st1 res].
    cbn [fst] in H1.
    destruct (negb (alive (unit st1 u))); [exact H1|].
    eapply laterInTurn_trans; [exact H1 | apply IH].
Qed.

Lemma laterInTurn_overwatchAlongPath rng u : forall path n st from trig,
  laterInTurn st (fst (fst (overwatchAlongPath rng n st u from path trig))).
Proof.
  induction path as [|toTile more IH]; intros n st from trig;
    cbn [overwatchAlongPath].
  - apply laterInTurn_refl.
  - pose proof (laterInTurn_overwatchShots rng u
                  (checkOverwatch st u from toTile) n st) as H1.
    destruct (overwatchShots rng n st u (checkOverwatch st u from toTile))
      as [[st1 n1] died].
    cbn [fst] in H1.
    destruct died; [exact H1|].
    eapply laterInTurn_trans; [exact H1 | apply IH].
Qed.

Lemma moveUnit_field {A : Type} (proj : Unit -> A) st u path r :
  (forall v x, proj (withTile v x) = proj x) ->
  (forall v x, proj (withFacing v x) = proj x) ->
  proj (unit (moveUnit st u path) r) = proj (unit st r).
Proof.
  intros Ht Hf. unfold moveUnit. destruct path as [|p path]; [reflexivity|].
  cbv zeta.
  destruct (lastTwo (p :: path)) as [[a b]|].
  - rewrite unit_modify. cbn [unit withGrid].
    destruct (Nat.eqb r u); [rewrite Hf|];
      rewrite (fold_modify_field proj u withTile Ht); reflexivity.
  - cbn [unit withGrid].
    rewrite (fold_modify_field proj u withTile Ht); reflexivity.
Qed.

Lemma laterInTurn_moveUnit st u path : laterInTurn st (moveUnit st u path).
Proof.
  split; [apply moveUnit_units|]. intros r.
  apply declinesInTurn_fields; [| | | |left];
    apply moveUnit_field; reflexivity.
Qed.

Lemma laterInTurn_markActivated st u : laterInTurn st (markActivated st u).
Proof.
  unfold markActivated. cbv zeta.
  destruct (status_eqb _ READY).
  - eapply laterInTurn_trans; apply laterInTurn_modify;
      apply declinesInTurn_fields; auto.
  - apply laterInTurn_modify. apply declinesInTurn_fields; auto.
Qed.

Lemma laterInTurn_endActivation st u : laterInTurn st (endActivation st u).
Proof.
  eapply laterInTurn_trans; [apply (laterInTurn_markActivated st u)|].
  apply laterInTurn_same; reflexivity.
Qed.

Lemma laterInTurn_setOverwatch st u : laterInTurn st (setOverwatch st u).
Proof.
  unfold setOverwatch, setUnitStatus. cbv zeta.
  repeat (eapply laterInTurn_trans;
          [|apply laterInTurn_modify; apply declinesInTurn_fields; auto]).
  apply laterInTurn_refl.
Qed.

Lemma laterInTurn_setHunker st u : laterInTurn st (setHunker st u).
Proof.
  unfold setHunker, setUnitStatus. cbv zeta.
  repeat (eapply laterInTurn_trans;
          [|apply laterInTurn_modify; apply declinesInTurn_fields; auto]).
  apply laterInTurn_refl.
Qed.

Lemma laterInTurn_moveClick fuel rng st c r st' out :
  onPlayerMoveClick fuel rng st c r = Some (st', out) -> laterInTurn st st'.
Proof.
  intros Hclick. apply onPlayerMoveClick_cases in Hclick.
  destruct Hclick as [[_ ->] | [[_ [u ->]] | [u [path [st4 [_ [E4 Hout]]]]]]].
  - apply laterInTurn_refl.
  - apply laterInTurn_same; reflexivity.
  - assert (H4 : laterInTurn st st4).
    { rewrite E4, checkOverwatchAlongPath_fst.
      eapply laterInTurn_trans; [|apply laterInTurn_overwatchAlongPath].
      eapply laterInTurn_trans; [|apply laterInTurn_moveUnit].
      eapply laterInTurn_trans;
        [apply (laterInTurn_modify st u
                  (withAp (Z.max 0 (ap (unit st u) - 1))));
         apply declinesInTurn_fields; auto|].
      apply laterInTurn_same; reflexivity. }
    destruct Hout as [[_ ->] | [_ ->]].
    + eapply laterInTurn_trans; [exact H4|]. apply laterInTurn_same; reflexivity.
    + eapply laterInTurn_trans; [exact H4|]. apply laterInTurn_endActivation.
Qed.

Lemma laterInTurn_action st sel actionType :
  laterInTurn st (fst (onPlayerAction st sel actionType)).
Proof.
  unfold onPlayerAction.
  destruct (activeUnit st) as [u|]; [|apply laterInTurn_refl].
  destruct (negb (alive (unit st u))); [apply laterInTurn_refl|].
  destruct actionType; cbn [fst]; try apply laterInTurn_refl.
  - unfold _enterTargetSelectPhase. cbv zeta.
    destruct (Nat.eqb _ 0); apply laterInTurn_same; reflexivity.
  - unfold _enterTargetSelectPhase. cbv zeta.
    destruct (Nat.eqb _ 0); apply laterInTurn_same; reflexivity.
  - eapply laterInTurn_trans;
      [apply laterInTurn_setOverwatch | apply laterInTurn_endActivation].
  - eapply laterInTurn_trans;
      [apply laterInTurn_setHunker | apply laterInTurn_endActivation].
  - apply laterInTurn_endActivation.
Qed.

Lemma laterInTurn_targetClick st sel c r roll :
  laterInTurn st (fst (onTargetClick st sel c r roll)).
Proof.
  unfold onTargetClick. cbv zeta.
  destruct (activeUnit st) as [u|]; [|apply laterInTurn_refl].
  destruct (negb (phase_eqb (phase st) PLAYER_TARGET_SELECT));
    [apply laterInTurn_refl|].
  destruct (find _ _) as [target|]; [|apply laterInTurn_refl].
  set (ty := match _pendingAttackType sel with
             | Some ty => ty
             | None => OtherAttack
             end).
  pose proof (laterInTurn_executeAttack st u target ty roll) as H1.
  destruct (checkWinCondition _) as [w|]; cbn [fst].
  - eapply laterInTurn_trans; [exact H1|]. apply laterInTurn_same; reflexivity.
  - destruct (_ && _); cbn [fst].
    + eapply laterInTurn_trans; [exact H1|]. apply laterInTurn_same; reflexivity.
    + eapply laterInTurn_trans; [exact H1|]. apply laterInTurn_endActivation.
Qed.

Lemma laterInTurn_nextActivation st : laterInTurn st (fst (nextActivation st)).
Proof.
  destruct (nextActivation_cases st)
    as [[w E] | [[i [u [E _]]] | [[i [u [E _]]] | [i E]]]];
    rewrite E; cbn [fst]; apply laterInTurn_same; reflexivity.
Qed.

Lemma laterInTurn_executeAIMove fuel st u t st' :
  executeAIMove fuel st u t = Some st' -> laterInTurn st st'.
Proof.
  assert (Hinj : forall a b : Game, Some a = Some b -> a = b)
    by (intros a b E; now injection E).
  unfold executeAIMove.
  destruct (findPath fuel (grid st) (tile (unit st u)) t) as [[[|p path]|]|];
    try discriminate; cbv zeta; intros H; apply Hinj in H; rewrite <- H;
    try apply laterInTurn_refl.
  eapply laterInTurn_trans; [|apply laterInTurn_moveUnit].
  apply laterInTurn_modify. apply declinesInTurn_fields; auto.
Qed.

Lemma laterInTurn_moveTowardEnemy fuel st u st' moved :
  _moveTowardEnemy fuel st u = Some (st', moved) -> laterInTurn st st'.
Proof.
  assert (Hstay : Some (st, false) = Some (st', moved) -> laterInTurn st st').
  { intros H. injection H as <- _. apply laterInTurn_refl. }
  unfold _moveTowardEnemy. cbv zeta.
  destruct (Nat.eqb (length (getAliveUnits st (playerFaction st))) 0);
    [exact Hstay|].
  destruct (nearestEnemy_loop st u _ None None) as [nearest|]; [|exact Hstay].
  destruct (Nat.eqb (length (getMovementRange _ _ _ _)) 0); [exact Hstay|].
  destruct (findBestMoveTile st u nearest _ _) as [bestTile|]; [|exact Hstay].
  destruct ((col (ntile bestTile) =? col (tile (unit st u)))
            && (row (ntile bestTile) =? row (tile (unit st u)))); [exact Hstay|].
  destruct (executeAIMove fuel st u (ntile bestTile)) as [st1|] eqn:E;
    [|discriminate].
  intros H. injection H as <- _. eapply laterInTurn_executeAIMove. exact E.
Qed.

Lemma laterInTurn_attackBest st u targets ty roll st' log :
  attackBest st u targets ty roll = Some (st', log) -> laterInTurn st st'.
Proof.
  unfold attackBest, executeAIAttack.
  destruct (pickBestTarget st u targets) as [t|]; [|discriminate].
  intros H. injection H as <- _. apply laterInTurn_executeAttack.
Qed.

Lemma laterInTurn_continueActivation st u roll st' log :
  _continueActivation st u roll = Some (st', log) -> laterInTurn st st'.
Proof.
  unfold _continueActivation. cbv zeta.
  destruct (negb (alive (unit st u)) || (ap (unit st u) <=? 0)).
  { intros H. injection H as <- _. apply laterInTurn_refl. }
  destruct (Nat.ltb 0 (length (getValidMeleeTargets st u)));
    [apply laterInTurn_attackBest|].
  destruct (Nat.ltb 0 (length (getValidRangedTargets st u)));
    [apply laterInTurn_attackBest|].
  destruct (ap (unit st u) >? 0); intros H; injection H as <- _.
  - apply laterInTurn_setOverwatch.
  - apply laterInTurn_refl.
Qed.

Lemma laterInTurn_attackThenContinue st u targets ty rng st' log :
  attackThenContinue st u targets ty rng = Some (st', log) -> laterInTurn st st'.
Proof.
  unfold attackThenContinue.
  destruct (attackBest st u targets ty (rng 0%nat)) as [[st1 log1]|] eqn:E1;
    [|discriminate].
  pose proof (laterInTurn_attackBest st u targets ty (rng 0%nat) st1 log1 E1)
    as H1.
  destruct ((ap (unit st1 u) >? 0) && alive (unit st1 u)).
  - destruct (_continueActivation st1 u (rng 1%nat)) as [[st2 log2]|] eqn:E2;
      [|discriminate].
    intros H. injection H as <- _.
    eapply laterInTurn_trans; [exact H1|].
    eapply laterInTurn_continueActivation; eauto.
  - intros H. injection H as <- _. exact H1.
Qed.

Lemma laterInTurn_activateUnit fuel rng st u st' log :
  activateUnit fuel rng st u = Some (st', log) -> laterInTurn st st'.
Proof.
  unfold activateUnit. cbv zeta.
  destruct (Nat.ltb 0 (length (getValidMeleeTargets st u))
            && (ap (unit st u) >? 0)).
  { apply laterInTurn_attackThenContinue. }
  destruct (Nat.ltb 0 (length (getValidRangedTargets st u))
            && (ap (unit st u) >? 0)).
  { apply laterInTurn_attackThenContinue. }
  destruct (ap (unit st u) >? 0).
  2: { intros H. injection H as <- _. apply laterInTurn_refl. }
  destruct (_moveTowardEnemy fuel st u) as [[st1 moved]|] eqn:Em; [|discriminate].
  pose proof (laterInTurn_moveTowardEnemy fuel st u st1 moved Em) as H1.
  destruct (negb (alive (unit st1 u))).
  { intros H. injection H as <- _. exact H1. }
  destruct (ap (unit st1 u) >? 0).
  2: { intros H. injection H as <- _. exact H1. }
  destruct (Nat.ltb 0 (length (getValidRangedTargets st1 u))).
  { destruct (attackBest st1 u (getValidRangedTargets st1 u) Ranged (rng 0%nat))
      as [[st2 log2]|] eqn:E2; [|discriminate].
    intros H. injection H as <- _.
    eapply laterInTurn_trans; [exact H1|].
    eapply laterInTurn_attackBest; exact E2. }
  destruct (Nat.ltb 0 (length (getValidMeleeTargets st1 u))).
  { destruct (attackBest st1 u (getValidMeleeTargets st1 u) Melee (rng 0%nat))
      as [[st2 log2]|] eqn:E2; [|discriminate].
    intros H. injection H as <- _.
    eapply laterInTurn_trans; [exact H1|].
    eapply laterInTurn_attackBest; exact E2. }
  intros H. injection H as <- _.
  eapply laterInTurn_trans; [exact H1|]. apply laterInTurn_setOverwatch.
Qed.

Lemma laterInTurn_beginAIActivation fuel rng st u st' winner :
  beginAIActivation fuel rng st u = Some (st', winner) -> laterInTurn st st'.
Proof.
  unfold beginAIActivation. cbv zeta.
  set (st1 := withPhase AI_ACTING
                (withPhase AI_THINKING (withActiveUnit (Some u) st))).
  destruct (activateUnit fuel rng st1 u) as [[st2 log]|] eqn:Eact;
    [|discriminate].
  pose proof (laterInTurn_activateUnit fuel rng st1 u st2 log Eact) as H2.
  assert (H1 : laterInTurn st st1) by (apply laterInTurn_same; reflexivity).
  destruct (checkWinCondition st2) as [w|]; intros H; injection H as <- _.
  - eapply laterInTurn_trans; [exact H1|].
    eapply laterInTurn_trans; [exact H2|]. apply laterInTurn_same; reflexivity.
  - eapply laterInTurn_trans; [exact H1|].
    eapply laterInTurn_trans; [exact H2|]. apply laterInTurn_endActivation.
Qed.

(** Every step of a session other than the start of a new turn. *)
Lemma gameStep_laterInTurn fuel st st' :
  gameStep fuel st st' -> snd (nextActivation st) <> TurnEnds ->
  laterInTurn st st'.
Proof.
  intros Hstep Hturn. destruct Hstep as
      [rng st c r st' out Hclick
      | st sel actionType
      | st sel actionType c r roll Hty
      | st Hnai Hnturn
      | rng st u st' winner Hai Hrun
      | st Hend
      | st].
  - eapply laterInTurn_moveClick; eauto.
  - apply laterInTurn_action.
  - eapply laterInTurn_trans;
      [apply laterInTurn_action | apply laterInTurn_targetClick].
  - apply laterInTurn_nextActivation.
  - eapply laterInTurn_trans; [apply laterInTurn_nextActivation|].
    eapply laterInTurn_beginAIActivation; eauto.
  - contradiction.
  - apply laterInTurn_same; reflexivity.
Qed.

Lemma laterInGame_trans (st1 st2 st3 : Game) :
  laterInGame st1 st2 -> laterInGame st2 st3 -> laterInGame st1 st3.
Proof.
  intros [U1 H1] [U2 H2]. split; [congruence|]. intros r.
  destruct (H1 r) as [A1 [A2 [A3 A4]]]. destruct (H2 r) as [B1 [B2 [B3 B4]]].
  split; [|split; [|split]].
  - intros H. specialize (A1 H). assert (H' : 0 <= hp (unit st2 r)) by lia.
    specialize (B1 H'). lia.
  - auto.
  - congruence.
  - congruence.
Qed.

Lemma laterInTurn_laterInGame (st st' : Game) :
  laterInTurn st st' -> laterInGame st st'.
Proof.
  intros [U H]. split; [exact U|]. intros r. destruct (H r) as [Hd _]. exact Hd.
Qed.

Lemma laterInGame_resetActivations (st : Game) :
  laterInGame st (resetActivations st).
Proof.
  destruct (fold_resetActivation (units st) st) as [_ [_ [Hl _]]].
  fold (resetActivations st) in Hl.
  split; [exact Hl|]. intros r. rewrite unit_resetActivations.
  destruct (existsb (Nat.eqb r) (units st)).
  - destruct (resetUnit_fields (unit st r)) as [Hf [_ [Hh [Hm [_ [Hal _]]]]]].
    split; [|split; [|split]].
    + rewrite Hh. lia.
    + rewrite Hal. auto.
    + exact Hm.
    + exact Hf.
  - split; [|split; [|split]]; auto. lia.
Qed.

Lemma Scheduled_TurnEnds_dec (s : Scheduled) : {s = TurnEnds} + {s <> TurnEnds}.
Proof. destruct s; [right | right | right | left]; congruence. Qed.

Lemma gameStep_laterInGame fuel st st' :
  gameStep fuel st st' -> laterInGame st st'.
Proof.
  intros Hstep.
  destruct (Scheduled_TurnEnds_dec (snd (nextActivation st))) as [Hend | Hend].
  2: { apply laterInTurn_laterInGame.
       eapply gameStep_laterInTurn; eauto. }
  destruct Hstep as
      [rng st c r st' out Hclick
      | st sel actionType
      | st sel actionType c r roll Hty
      | st Hnai Hnturn
      | rng st u st' winner Hai Hrun
      | st _
      | st].
  - apply laterInTurn_laterInGame. eapply laterInTurn_moveClick; eauto.
  - apply laterInTurn_laterInGame, laterInTurn_action.
  - apply laterInTurn_laterInGame.
    eapply laterInTurn_trans;
      [apply laterInTurn_action | apply laterInTurn_targetClick].
  - contradiction.
  - rewrite Hend in Hai. discriminate.
  - eapply laterInGame_trans;
      [apply laterInTurn_laterInGame, laterInTurn_nextActivation|].
    eapply laterInGame_trans; [apply laterInGame_resetActivations|].
    apply laterInTurn_laterInGame, laterInTurn_same; reflexivity.
  - apply laterInTurn_laterInGame, laterInTurn_same; reflexivity.
Qed.

Lemma reachable_laterInGame fuel st st' :
  reachable fuel st st' -> laterInGame st st'.
Proof.
  intros Hreach. induction Hreach as [|st1 st2 Hreach IH Hstep].
  - apply laterInTurn_laterInGame, laterInTurn_refl.
  - eapply laterInGame_trans; [exact IH|].
    eapply gameStep_laterInGame; eauto.
Qed.

(** X29. A session gives nothing back.  In every state reachable by the
    player's commands and the scheduler's moves, turn starts included,
    the roster is the one of the first state and, for every unit object
    whose hit points were not negative there, the hit points are between
    0 and what they were: no command heals.  A unit that lives did live
    in the first state (no dead unit returns), and maximum hit points
    and faction are as they were. *)
Theorem no_healing_no_return (fuel : nat) (st st' : Game) :
  (forall r, 0 <= hp (unit st r)) ->
  reachable fuel st st' ->
  units st' = units st
  /\ forall r, 0 <= hp (unit st' r) <= hp (unit st r)
               /\ (alive (unit st' r) = true -> alive (unit st r) = true)
               /\ maxHp (unit st' r) = maxHp (unit st r)
               /\ faction (unit st' r) = faction (unit st r).
Proof.
  intros Hhp Hreach.
  destruct (reachable_laterInGame fuel st st' Hreach) as [Hu H].
  split; [exact Hu|]. intros r.
  destruct (H r) as [H1 [H2 [H3 H4]]].
  split; [exact (H1 (Hhp r))|]. split; [exact H2|]. split; [exact H3 | exact H4].
Qed.

Lemma no_healing_no_return_witness :
  let s1 := withCurrentActivationIndex 0 (buildActivationQueue duel) in
  let s2 := fst (nextActivation s1) in
  let sel := mkSelection None None in
  let s3 := fst (onTargetClick (fst (onPlayerAction s2 sel ActShoot))
                               (snd (onPlayerAction s2 sel ActShoot))
                               5 0 0%float) in
  (forall r, 0 <= hp (unit duel r))
  /\ reachable 31 duel s3
  /\ hp (unit s3 1%nat) = 6
  /\ 0 <= hp (unit s3 1%nat) <= hp (unit duel 1%nat).
Proof.
  cbv zeta.
  set (s1 := withCurrentActivationIndex 0 (buildActivationQueue duel)).
  set (s2 := fst (nextActivation s1)).
  set (sel := mkSelection None None).
  set (s3 := fst (onTargetClick (fst (onPlayerAction s2 sel ActShoot))
                                (snd (onPlayerAction s2 sel ActShoot))
                                5 0 0%float)).
  assert (Hhp : forall r, 0 <= hp (unit duel r)).
  { intros r. destruct r as [|r]; cbn; unfold CONSTANTS.hp; lia. }
  assert (Hreach : reachable 31 duel s3).
  { eapply reach_step; [eapply reach_step;
                        [eapply reach_step; [apply reach_here|]|]|].
    - apply (step_start 31 duel).
    - apply (step_next 31 s1).
      + intros u. vm_compute. discriminate.
      + vm_compute. discriminate.
    - apply (@step_attack 31 s2 sel ActShoot 5 0 0%float). now left. }
  split; [exact Hhp|]. split; [exact Hreach|].
  split; [vm_compute; reflexivity|].
  destruct (no_healing_no_return 31 duel s3 Hhp Hreach) as [_ H].
  exact (proj1 (H 1%nat)).
Defined.

Lemma nextActivation_not_activated (st : Game) (r : UnitRef) :
  activated (unit st r) = true ->
  snd (nextActivation st) <> PlayerActivation r
  /\ snd (nextActivation st) <> AIActivation r.
Proof.
  intros Hact. unfold nextActivation.
  destruct (checkWinCondition st) as [w|]; [split; discriminate|].
  destruct (nextActivation_scan_spec st
              (skipn (currentActivationIndex st) (activationQueue st))
              (currentActivationIndex st)) as [skipped [_ [_ Hn]]].
  destruct (nextActivation_scan st
              (skipn (currentActivationIndex st) (activationQueue st))
              (currentActivationIndex st)) as [i next].
  cbn [snd] in Hn. destruct next as [u|]; [|split; discriminate].
  destruct Hn as [He _]. unfold eligible in He.
  apply andb_true_iff in He. destruct He as [_ He].
  apply negb_true_iff in He.
  assert (Hne : u <> r) by (intros ->; congruence).
  cbv zeta.
  destruct (faction_eqb _ _); cbn [snd]; split; congruence.
Qed.

(** X30. One activation a turn.  Through every step of a session taken
    while the scheduler still finds a unit to activate or a winner (so
    that no new turn starts), a unit marked activated stays marked, and
    the scheduler, run in the state reached, hands the next activation
    to another unit; [endActivation] marks the unit it is called for. *)
Theorem one_activation_per_turn (fuel : nat) (st st' : Game) (r : UnitRef) :
  gameStep fuel st st' ->
  snd (nextActivation st) <> TurnEnds ->
  activated (unit st r) = true ->
  activated (unit st' r) = true
  /\ snd (nextActivation st') <> PlayerActivation r
  /\ snd (nextActivation st') <> AIActivation r
  /\ forall u, activated (unit (endActivation st' u) u) = true.
Proof.
  intros Hstep Hturn Hact.
  destruct (gameStep_laterInTurn fuel st st' Hstep Hturn) as [_ H].
  destruct (H r) as [_ Hkeep]. specialize (Hkeep Hact).
  split; [exact Hkeep|].
  destruct (nextActivation_not_activated st' r Hkeep) as [N1 N2].
  split; [exact N1|]. split; [exact N2|].
  intros u. unfold endActivation, markActivated. cbv zeta.
  cbn [unit withCurrentActivationIndex withActiveUnit].
  destruct (status_eqb _ READY); rewrite ?unit_modify_same; reflexivity.
Qed.

Lemma one_activation_per_turn_witness :
  let st := endActivation
              (withCurrentActivationIndex 0 (buildActivationQueue duel)) 0%nat in
  snd (nextActivation st) <> TurnEnds
  /\ activated (unit st 0%nat) = true
  /\ snd (nextActivation (withCurrentActivationIndex 0 (buildActivationQueue st)))
     <> PlayerActivation 0%nat.
Proof.
  cbv zeta.
  set (st := endActivation
               (withCurrentActivationIndex 0 (buildActivationQueue duel)) 0%nat).
  assert (Hturn : snd (nextActivation st) <> TurnEnds)
    by (vm_compute; discriminate).
  assert (Hact : activated (unit st 0%nat) = true) by reflexivity.
  split; [exact Hturn|]. split; [exact Hact|].
  exact (proj1 (proj2 (one_activation_per_turn 31 st _ 0%nat
                         (step_start 31 st) Hturn Hact))).
Defined.
